(** * Reverse-mode differentiation engine: layers, tensors and containers

    A shallow embedding of the layer library ([walnut/nn/layers.py]), of the
    tensor class ([compyute/tensors.py]) and of the container modules
    ([compyute/nn/containers.py]), together with the properties that the
    design document states about them.

    Conventions.
    - Python exceptions are values of [exn]; a call that may raise returns
      a [result].  Where the state reached when an exception is raised
      matters, the function returns the state next to the outcome.
    - A dense array is a shape and a row-major buffer.  Array elements are
      exact numbers ([Z], and [Q] for dropout, which divides): rounding of
      machine floats is outside the model.
    - The frequency-domain product [ifft2 (fft2 a * fft2 b)] is the cyclic
      convolution of [a] and [b]; the model computes that convolution
      directly. *)

From Stdlib Require Import ZArith QArith List Lia Bool.
From stdpp Require Import base option list gmap.
From Stdlib Require String Ascii.

Set Default Proof Using "Type".

(** ** Exceptions

    The exceptions of Python that the code meets, and [AxisError] of
    numpy. *)

Inductive exn :=
| ValueError
| TypeError
| AttributeError
| ZeroDivisionError
| UnboundLocalError
| IndexError
| RecursionError
| AxisError.

Inductive result (A : Type) :=
| Ok (a : A)
| Raise (e : exn).
Arguments Ok {A} a.
Arguments Raise {A} e.

#[global] Instance result_ret : MRet result := @Ok.
#[global] Instance result_bind : MBind result :=
  fun A B f m => match m with Ok a => f a | Raise e => Raise e end.

(** [obj.attr] on a slot that may hold [None]. *)
Definition attr {A} (o : option A) (e : exn) : result A :=
  match o with Some a => Ok a | None => Raise e end.

(** A Python [for] loop whose body may raise: the loop state is threaded
    through the items from left to right. *)
Fixpoint py_for {A S} (items : list A) (body : S -> A -> result S) (s : S)
  : result S :=
  match items with
  | [] => Ok s
  | a :: rest => s' ← body s a; py_for rest body s'
  end.

(** ** Methods

    A method is a function of the object it is called on: it returns the
    object as the call leaves it, also when the call raises. *)

Definition St (S A : Type) : Type := S -> S * result A.

#[global] Instance St_ret {S} : MRet (St S) := fun A a s => (s, Ok a).
#[global] Instance St_bind {S} : MBind (St S) :=
  fun A B f m s => match m s with
                   | (s', Ok a) => f a s'
                   | (s', Raise e) => (s', Raise e)
                   end.

Definition self_ {S} : St S S := fun s => (s, Ok s).
Definition update {S} (f : S -> S) : St S unit := fun s => (f s, Ok tt).
Definition lift {S A} (r : result A) : St S A := fun s => (s, r).

(** A method of a base class, run on the part of the object that the base
    class owns. *)
Definition zoom {S T A} (get : T -> S) (set : S -> T -> T) (m : St S A)
  : St T A :=
  fun t => let '(s', r) := m (get t) in (set s' t, r).

(** A [for] loop inside a method, and one that also carries a local
    variable of the method. *)
Fixpoint for_each {A S} (items : list A) (body : A -> St S unit) : St S unit :=
  match items with
  | [] => mret tt
  | a :: rest => body a;; for_each rest body
  end.

Fixpoint fold_each {A B S} (items : list A) (body : B -> A -> St S B) (b : B)
  : St S B :=
  match items with
  | [] => mret b
  | a :: rest => b' ← body b a; fold_each rest body b'
  end.

(** ** The dense-array backend (numpy) *)

Module Np.

Record ndarray (E : Type) := NdArray { shape : list nat; buf : list E }.
Arguments NdArray {E} shape buf.
Arguments shape {E} _.
Arguments buf {E} _.

Definition size_of (s : list nat) : nat := foldr Nat.mul 1 s.

Definition ndim {E} (a : ndarray E) : nat := length (shape a).

(** Row-major position of a multi-index, and back. *)
Fixpoint ravel (s idx : list nat) : nat :=
  match s, idx with
  | _ :: s', i :: idx' => i * size_of s' + ravel s' idx'
  | _, _ => 0
  end.

Fixpoint unravel (s : list nat) (p : nat) : list nat :=
  match s with
  | [] => []
  | _ :: s' => (p / size_of s') :: unravel s' (p mod size_of s')
  end.

Fixpoint in_bounds (s idx : list nat) : bool :=
  match s, idx with
  | [], [] => true
  | d :: s', i :: idx' => (i <? d) && in_bounds s' idx'
  | _, _ => false
  end.

(** Reading a cell; [d] stands for cells that do not exist. *)
Definition get {E} (d : E) (a : ndarray E) (idx : list nat) : E :=
  if in_bounds (shape a) idx then nth (ravel (shape a) idx) (buf a) d else d.

Definition tabulate {E} (s : list nat) (f : list nat -> E) : ndarray E :=
  NdArray s (map (fun p => f (unravel s p)) (seq 0 (size_of s))).

Definition full {E} (s : list nat) (v : E) : ndarray E :=
  NdArray s (replicate (size_of s) v).

Definition map_nd {E F} (f : E -> F) (a : ndarray E) : ndarray F :=
  NdArray (shape a) (map f (buf a)).

(** *** Broadcasting *)

Definition bc_dim (a b : nat) : result nat :=
  if a =? b then Ok a
  else if a =? 1 then Ok b
  else if b =? 1 then Ok a
  else Raise ValueError.

(** Shapes are aligned on their last axis: the recursion runs on the
    reversed shapes. *)
Fixpoint bc_rev (s1 s2 : list nat) : result (list nat) :=
  match s1, s2 with
  | [], _ => Ok s2
  | _, [] => Ok s1
  | a :: s1', b :: s2' => d ← bc_dim a b; r ← bc_rev s1' s2'; Ok (d :: r)
  end.

Definition broadcast_shapes (s1 s2 : list nat) : result (list nat) :=
  r ← bc_rev (rev s1) (rev s2); Ok (rev r).

(** The cell of an array of shape [sa] that a cell [idx] of the broadcast
    array reads. *)
Definition bc_index (sa idx : list nat) : list nat :=
  zip_with (fun d i => if d =? 1 then 0 else i) sa
           (drop (length idx - length sa) idx).

Definition broadcast_to {E} (d : E) (a : ndarray E) (s : list nat)
  : result (ndarray E) :=
  if decide (shape a = s) then Ok a
  else
    s' ← broadcast_shapes (shape a) s;
    if decide (s' = s)
    then Ok (tabulate s (fun idx => get d a (bc_index (shape a) idx)))
    else Raise ValueError.

(** [a op b], elementwise with broadcasting, as a new array. *)
Definition zip_nd {E} (d : E) (f : E -> E -> E) (a b : ndarray E)
  : result (ndarray E) :=
  s ← broadcast_shapes (shape a) (shape b);
  a' ← broadcast_to d a s;
  b' ← broadcast_to d b s;
  Ok (NdArray s (zip_with f (buf a') (buf b'))).

(** [a op= b]: the result keeps the shape of [a]. *)
Definition izip_nd {E} (d : E) (f : E -> E -> E) (a b : ndarray E)
  : result (ndarray E) :=
  b' ← broadcast_to d b (shape a);
  Ok (NdArray (shape a) (zip_with f (buf a) (buf b'))).

(** *** Integer arrays *)

Abbreviation arr := (ndarray Z).

Definition geti (a : arr) (idx : list nat) : Z := get 0%Z a idx.

Definition zeros (s : list nat) : arr := full s 0%Z.
Definition ones (s : list nat) : arr := full s 1%Z.
Definition zeros_like (a : arr) : arr := zeros (shape a).

Definition add (a b : arr) : result arr := zip_nd 0%Z Z.add a b.
Definition mul (a b : arr) : result arr := zip_nd 0%Z Z.mul a b.
Definition iadd (a b : arr) : result arr := izip_nd 0%Z Z.add a b.
Definition add_scalar (a : arr) (k : Z) : arr := map_nd (fun v => (v + k)%Z) a.
Definition equal (a b : arr) : result arr :=
  zip_nd 0%Z (fun u v => if (u =? v)%Z then 1%Z else 0%Z) a b.

Definition sum_upto (n : nat) (f : nat -> Z) : Z :=
  foldr Z.add 0%Z (map f (seq 0 n)).

Definition insert_at (ax k : nat) (idx : list nat) : list nat :=
  take ax idx ++ k :: drop ax idx.

Definition remove_at (ax : nat) (s : list nat) : list nat :=
  take ax s ++ drop (S ax) s.

(** [np.sum(a, axis=ax)] for one axis. *)
Definition sum_axis (ax : nat) (a : arr) : result arr :=
  if ax <? ndim a
  then Ok (tabulate (remove_at ax (shape a))
             (fun idx => sum_upto (nth ax (shape a) 0)
                           (fun k => geti a (insert_at ax k idx))))
  else Raise AxisError.

(** [np.sum(a, axis=axes)] for increasing [axes]: the last axis goes first,
    so that the remaining axis numbers stay valid. *)
Fixpoint sum_axes (axes : list nat) (a : arr) : result arr :=
  match axes with
  | [] => Ok a
  | ax :: rest => a' ← sum_axes rest a; sum_axis ax a'
  end.

(** [a @ b] for two matrices. *)
Definition matmul (a b : arr) : result arr :=
  match shape a, shape b with
  | [n; k], [k'; m] =>
      if k =? k'
      then Ok (tabulate [n; m]
                 (fun idx => match idx with
                             | [i; j] => sum_upto k (fun t =>
                                           (geti a [i; t] * geti b [t; j])%Z)
                             | _ => 0%Z
                             end))
      else Raise ValueError
  | _, _ => Raise ValueError
  end.

(** [a.T]: the axes in reverse order. *)
Definition transpose (a : arr) : arr :=
  tabulate (rev (shape a)) (fun idx => geti a (rev idx)).

(** [np.expand_dims(a, ax)]: the buffer stays. *)
Definition expand_dims {E} (a : ndarray E) (ax : nat) : ndarray E :=
  NdArray (insert_at ax 1 (shape a)) (buf a).

(** *** Slices

    [a[lo:hi]] on an axis of extent [d]: negative bounds count from the end
    and both bounds are clipped, as Python does. *)
Definition clip (z : Z) (d : nat) : nat :=
  if (z <? 0)%Z then Z.to_nat (Z.max 0 (Z.of_nat d + z))
  else Nat.min (Z.to_nat z) d.

(** One entry per axis: [(lo, hi)] already clipped; the extent is
    [hi - lo], empty when [hi <= lo]. *)
Definition slice_nd (ranges : list (nat * nat)) (a : arr) : arr :=
  tabulate (map (fun r => snd r - fst r) ranges)
           (fun idx => geti a (zip_with (fun r i => fst r + i) ranges idx)).

Definition whole (d : nat) : nat * nat := (0, d).
Definition from (lo : Z) (d : nat) : nat * nat := (clip lo d, d).
Definition upto (hi : Z) (d : nat) : nat * nat := (0, clip hi d).

(** *** Reordering and padding *)

(** [np.flip(a, axis=(2, 3))], for an array of four axes. *)
Definition flip23 (a : arr) : result arr :=
  match shape a with
  | [_; _; dy; dx] =>
      Ok (tabulate (shape a)
            (fun idx => match idx with
                        | [i; j; y; x] => geti a [i; j; dy - 1 - y; dx - 1 - x]
                        | _ => 0%Z
                        end))
  | _ => Raise ValueError
  end.

(** [np.roll(a, shift=(-1, -1), axis=(2, 3))], for an array of four axes. *)
Definition roll23_back (a : arr) : result arr :=
  match shape a with
  | [_; _; dy; dx] =>
      Ok (tabulate (shape a)
            (fun idx => match idx with
                        | [i; j; y; x] =>
                            geti a [i; j; (y + 1) mod dy; (x + 1) mod dx]
                        | _ => 0%Z
                        end))
  | _ => Raise ValueError
  end.

(** [np.pad(a, ((0,0), (0,0), (p,p), (p,p)))]: zeros around the last two
    axes; a negative width is refused. *)
Definition pad23 (a : arr) (p : Z) : result arr :=
  if (p <? 0)%Z then Raise ValueError
  else
    match shape a with
    | [b; c; dy; dx] =>
        let w := Z.to_nat p in
        Ok (tabulate [b; c; dy + 2 * w; dx + 2 * w]
              (fun idx => match idx with
                          | [i; j; y; x] =>
                              if (w <=? y) && (w <=? x)
                              then geti a [i; j; y - w; x - w]
                              else 0%Z
                          | _ => 0%Z
                          end))
    | _ => Raise ValueError
    end.

(** [np.repeat(a, k, axis=ax)]. *)
Definition repeat_axis (k ax : nat) (a : arr) : arr :=
  tabulate (alter (Nat.mul k) ax (shape a))
    (fun idx => geti a (alter (fun i => i / k) ax idx)).

(** [np.resize(a, s)]: the flattened array, repeated as often as needed and
    cut to the size of [s]; zeros when either side is empty. *)
Definition resize (a : arr) (s : list nat) : arr :=
  if (length (buf a) =? 0) || (size_of s =? 0) then zeros s
  else NdArray s (map (fun p => nth (p mod length (buf a)) (buf a) 0%Z)
                      (seq 0 (size_of s))).

(** *** Frequency-domain product

    [fft2(a, s=(ty, tx))] crops or zero-pads the last two axes to
    [(ty, tx)]; an empty target is refused.  The arrays are then expanded
    by one axis each, multiplied with broadcasting and transformed back:
    every pair of planes is convolved cyclically. *)
Definition fft_fit (ty tx : nat) (a : arr) : result arr :=
  if (ty =? 0) || (tx =? 0) || (ndim a <? 2) then Raise ValueError
  else
    let lead := take (ndim a - 2) (shape a) in
    Ok (tabulate (lead ++ [ty; tx]) (fun idx => geti a idx)).

Definition cyclic_product (ty tx : nat) (a1 a2 : arr) : result arr :=
  let l1 := take (ndim a1 - 2) (shape a1) in
  let l2 := take (ndim a2 - 2) (shape a2) in
  lead ← broadcast_shapes l1 l2;
  Ok (tabulate (lead ++ [ty; tx])
        (fun idx =>
           let p := take (length lead) idx in
           match drop (length lead) idx with
           | [y; x] =>
               sum_upto ty (fun k => sum_upto tx (fun l =>
                 Z.mul (geti a1 (bc_index l1 p ++ [k; l]))
                       (geti a2 (bc_index l2 p
                          ++ [(y + ty - k) mod ty; (x + tx - l) mod tx]))))
           | _ => 0%Z
           end)).

(** *** Joining and splitting along an axis *)

(** A possibly negative axis number, for an array of [n] axes; numpy
    raises AxisError for an axis that the array does not have. *)
Definition norm_axis (n : nat) (axis : Z) : result nat :=
  if (0 <=? axis)%Z && (axis <? Z.of_nat n)%Z then Ok (Z.to_nat axis)
  else if (axis <? 0)%Z && (- Z.of_nat n <=? axis)%Z
       then Ok (Z.to_nat (Z.of_nat n + axis))
       else Raise AxisError.

(** An index into a tuple of [n] items: out of range it raises
    IndexError. *)
Definition tuple_index (n : nat) (axis : Z) : result nat :=
  match norm_axis n axis with
  | Ok ax => Ok ax
  | Raise _ => Raise IndexError
  end.

(** [a.shape[axis]]: tuple indexing, which also takes negative numbers. *)
Definition shape_at {E} (a : ndarray E) (axis : Z) : result nat :=
  ax ← tuple_index (ndim a) axis; Ok (nth ax (shape a) 0).

(** The cells [lo <= i < hi] of axis [ax]. *)
Definition slice_axis (ax lo hi : nat) (a : arr) : arr :=
  tabulate (alter (fun _ => hi - lo) ax (shape a))
           (fun idx => geti a (alter (fun i => lo + i) ax idx)).

(** Which piece holds position [j] of the joined axis, and where. *)
Fixpoint locate (ext : list nat) (j : nat) : nat * nat :=
  match ext with
  | [] => (0, j)
  | e :: rest =>
      if j <? e then (0, j)
      else let '(k, o) := locate rest (j - e) in (S k, o)
  end.

(** [np.concatenate(ys, axis)]: all pieces agree off the axis. *)
Definition concatenate (ys : list arr) (axis : Z) : result arr :=
  match ys with
  | [] => Raise ValueError
  | y0 :: _ =>
      ax ← norm_axis (ndim y0) axis;
      if forallb (fun y => bool_decide
                   (remove_at ax (shape y) = remove_at ax (shape y0))
                   && (ndim y =? ndim y0)) ys
      then
        let ext := map (fun y => nth ax (shape y) 0) ys in
        Ok (tabulate (alter (fun _ => sum_list ext) ax (shape y0))
              (fun idx =>
                 let '(k, o) := locate ext (nth ax idx 0) in
                 match ys !! k with
                 | Some y => geti y (alter (fun _ => o) ax idx)
                 | None => 0%Z
                 end))
      else Raise ValueError
  end.

(** [np.split(a, indices, axis)]: the pieces [a[0:i1]], [a[i1:i2]], ...,
    [a[ik:]] of the axis, with Python's clipping of the bounds. *)
Fixpoint split_from (ax lo : nat) (indices : list nat) (a : arr) : list arr :=
  let d := nth ax (shape a) 0 in
  match indices with
  | [] => [slice_axis ax (Nat.min lo d) d a]
  | i :: rest =>
      slice_axis ax (Nat.min lo d) (Nat.min i d) a :: split_from ax i rest a
  end.

Definition split (a : arr) (indices : list nat) (axis : Z) : result (list arr) :=
  (* Ntotal = ary.shape[axis] *)
  ax ← tuple_index (ndim a) axis;
  Ok (split_from ax 0 indices a).

(** [np.resize(a, s)] for cells of any type; [zero] fills the result when
    either side is empty. *)
Definition resize_cells {E} (zero : E) (a : ndarray E) (s : list nat)
  : ndarray E :=
  if (length (buf a) =? 0) || (size_of s =? 0) then full s zero
  else NdArray s (map (fun p => nth (p mod length (buf a)) (buf a) zero)
                      (seq 0 (size_of s))).

(** [a.reshape(n, -1)]: the buffer stays; the second extent is the size
    divided by [n], which must divide it and must not be zero. *)
Definition reshape_rows {E} (n : nat) (a : ndarray E) : result (ndarray E) :=
  let size := size_of (shape a) in
  if (n =? 0) || negb (size mod n =? 0) then Raise ValueError
  else Ok (NdArray [n; size / n] (buf a)).

Definition sub (a b : arr) : result arr := zip_nd 0%Z Z.sub a b.

(** [np.sum(a)]: the sum of all cells. *)
Definition sum_all (a : arr) : Z := foldr Z.add 0%Z (buf a).

(** [np.maximum(0, a)] and [a > 0], cell by cell; a truth value counts as
    1 or 0 in arithmetic. *)
Definition maximum0 (a : arr) : arr := map_nd (Z.max 0) a.
Definition positive (a : arr) : arr :=
  map_nd (fun v => if (0 <? v)%Z then 1%Z else 0%Z) a.

(** Sums of rationals. *)
Definition sumq_upto (n : nat) (f : nat -> Q) : Q :=
  foldr Qplus 0%Q (map f (seq 0 n)).

End Np.

(** ** The layer library ([walnut/nn/layers.py]) *)

Module Walnut.
Import Np.

(** Modelled from the spec: the tensor of [walnut.tensor], which is not
    among the sources: a data buffer and an optional gradient buffer.
    [Tensor()] holds neither. *)
Record Tensor (E : Type) := mkTensor {
  data : option (ndarray E);
  grad : option (ndarray E)
}.
Arguments mkTensor {E} data grad.
Arguments data {E} _.
Arguments grad {E} _.

Definition set_data {E} (v : option (ndarray E)) (t : Tensor E) : Tensor E :=
  mkTensor v (grad t).
Definition set_grad {E} (g : option (ndarray E)) (t : Tensor E) : Tensor E :=
  mkTensor (data t) g.

(** [t.shape] and [t.data] where an array is needed. *)
Definition the_data {E} (t : Tensor E) : result (ndarray E) :=
  attr (data t) TypeError.
Definition the_grad {E} (t : Tensor E) : result (ndarray E) :=
  attr (grad t) TypeError.
Definition tshape {E} (t : Tensor E) : result (list nat) :=
  d ← the_data t; Ok (shape d).

(** A tuple of four, as in [_, _, y, x = t.shape]. *)
Definition unpack4 (s : list nat) : result (nat * nat * nat * nat) :=
  match s with
  | [a; b; c; d] => Ok (a, b, c, d)
  | _ => Raise ValueError
  end.

(** Modelled from the spec: [match_dims] of [walnut.tensor] (absent); the
    caller's comment asks for shape [(b, c_out, 1, 1)] from [(b, c_out)]:
    axes of extent one are appended until the array has [n] axes. *)
Definition match_dims {E} (a : ndarray E) (n : nat) : ndarray E :=
  NdArray (shape a ++ replicate (n - ndim a) 1) (buf a).

Inductive Mode := eval | train.

Inductive Activation := Relu | Sigmoid | Tanh | Softmax.

(** *** class Layer

    [prev_layer] and [succ_layer] refer to other layers of the model; [net]
    holds the layers of the model by their number, as they stand when the
    method is called. *)
Module Layer.

Record t (E : Type) := Build {
  compiled : bool;
  mode : Mode;
  i : option nat;
  prev_layer : option nat;
  succ_layer : option nat;
  x : Tensor E;
  y : Tensor E
}.
Arguments Build {E}.
Arguments compiled {E} _.
Arguments mode {E} _.
Arguments i {E} _.
Arguments prev_layer {E} _.
Arguments succ_layer {E} _.
Arguments x {E} _.
Arguments y {E} _.

Definition set_x {E} (v : Tensor E) (l : t E) : t E :=
  Build (compiled l) (mode l) (i l) (prev_layer l) (succ_layer l) v (y l).
Definition set_y {E} (v : Tensor E) (l : t E) : t E :=
  Build (compiled l) (mode l) (i l) (prev_layer l) (succ_layer l) (x l) v.

Definition __init__ {E} : t E :=
  Build false eval None None None (mkTensor None None) (mkTensor None None).

Definition compile {E} (i0 : nat) (prev succ : option nat) : St (t E) unit :=
  update (fun l => Build true (mode l) (Some i0) prev succ (x l) (y l)).

Definition forward {E} (net : gmap nat (t E)) : St (t E) unit :=
  self ← self_;
  match prev_layer self with
  | Some r =>
      p ← lift (attr (net !! r) AttributeError);
      update (set_x (set_data (data (y p)) (x self)))
  | None => mret tt
  end.

Definition backward {E} (net : gmap nat (t E)) : St (t E) unit :=
  self ← self_;
  match succ_layer self with
  | Some r =>
      s ← lift (attr (net !! r) AttributeError);
      update (set_y (set_grad (grad (x s)) (y self)))
  | None => mret tt
  end.

(** The gradient that [backward] finds in [y.grad] once the base class has
    run: that of the input of the next layer, or else the one already
    there. *)
Definition upstream {E} (net : gmap nat (t E)) (l : t E) : option (ndarray E) :=
  match succ_layer l with
  | Some r => s ← net !! r; grad (x s)
  | None => grad (y l)
  end.

(** The input that [forward] finds in [x.data] once the base class has
    run. *)
Definition input {E} (net : gmap nat (t E)) (l : t E) : option (ndarray E) :=
  match prev_layer l with
  | Some r => p ← net !! r; data (y p)
  | None => data (x l)
  end.

End Layer.

(** A reference to one of the parameter tensors of a layer: [params] holds
    the objects that [w] and [b] name, not copies of them. *)
Inductive Param := ParamW | ParamB.

(** [init_fn(shape, fan_mode, act_fn)]: the initial weights. *)
Definition InitFn : Type :=
  list nat -> nat -> option Activation -> Tensor Z.

(** *** class ParamLayer *)
Module ParamLayer.

Record t := Build {
  base : Layer.t Z;
  act_fn : option Activation;
  norm_fn : option nat;
  init_fn : InitFn;
  use_bias : bool;
  w : option (Tensor Z);
  b : option (Tensor Z);
  params : list (option Param)
}.

Definition set_base (v : Layer.t Z) (l : t) : t :=
  Build v (act_fn l) (norm_fn l) (init_fn l) (use_bias l) (w l) (b l) (params l).
Definition set_w (v : option (Tensor Z)) (l : t) : t :=
  Build (base l) (act_fn l) (norm_fn l) (init_fn l) (use_bias l) v (b l) (params l).
Definition set_b (v : option (Tensor Z)) (l : t) : t :=
  Build (base l) (act_fn l) (norm_fn l) (init_fn l) (use_bias l) (w l) v (params l).
Definition set_params (v : list (option Param)) (l : t) : t :=
  Build (base l) (act_fn l) (norm_fn l) (init_fn l) (use_bias l) (w l) (b l) v.

Definition __init__ (act norm : _) (init : InitFn) (bias : bool) : t :=
  Build Layer.__init__ act norm init bias None None [].

(** [[self.w, self.b]]: a slot that holds [None] contributes [None]. *)
Definition param_list (l : t) : list (option Param) :=
  [ match w l with Some _ => Some ParamW | None => None end;
    match b l with Some _ => Some ParamB | None => None end ].

End ParamLayer.

(** *** class Linear *)
Module Linear.

Record t := Build { super : ParamLayer.t; out_channels : Z }.

Definition set_super (v : ParamLayer.t) (l : t) : t := Build v (out_channels l).
Definition base (l : t) : Layer.t Z := ParamLayer.base (super l).
Definition set_base (v : Layer.t Z) (l : t) : t :=
  set_super (ParamLayer.set_base v (super l)) l.
Definition w (l : t) := ParamLayer.w (super l).
Definition b (l : t) := ParamLayer.b (super l).
Definition use_bias (l : t) := ParamLayer.use_bias (super l).
Definition x (l : t) := Layer.x (base l).
Definition y (l : t) := Layer.y (base l).
Definition set_x (v : Tensor Z) (l : t) := set_base (Layer.set_x v (base l)) l.
Definition set_y (v : Tensor Z) (l : t) := set_base (Layer.set_y v (base l)) l.
Definition set_w (v : option (Tensor Z)) (l : t) :=
  set_super (ParamLayer.set_w v (super l)) l.
Definition set_b (v : option (Tensor Z)) (l : t) :=
  set_super (ParamLayer.set_b v (super l)) l.
Definition set_params (l : t) :=
  set_super (ParamLayer.set_params (ParamLayer.param_list (super l)) (super l)) l.

Definition __init__ (out_channels : Z) (act_fn : option Activation)
    (norm_fn : option nat) (init_fn : InitFn) (use_bias : bool) : result t :=
  if (out_channels <? 1)%Z then Raise ValueError
  else Ok (Build (ParamLayer.__init__ act_fn norm_fn init_fn use_bias)
                 out_channels).

Definition forward (net : gmap nat (Layer.t Z)) : St t unit :=
  zoom base set_base (Layer.forward net);;
  self ← self_;
  xd ← lift (the_data (x self));
  wt ← lift (attr (w self) AttributeError);
  wd ← lift (the_data wt);
  xw ← lift (matmul xd wd);
  yd ← (if use_bias self
        then bt ← lift (attr (b self) AttributeError);
             bd ← lift (the_data bt);
             lift (add xw bd)
        else mret (add_scalar xw 0));
  update (fun l => set_y (set_data (Some yd) (y l)) l).

Definition compile (i : nat) (prev succ : option nat)
    (net : gmap nat (Layer.t Z)) : St t unit :=
  zoom base set_base (Layer.compile i prev succ);;
  self ← self_;
  r ← lift (attr (Layer.prev_layer (base self)) AttributeError);
  p ← lift (attr (net !! r) AttributeError);
  s ← lift (tshape (Layer.y p));
  in_channels ← lift (match s with
                      | [_; c] => Ok c
                      | _ => Raise ValueError
                      end);
  let w_shape := [in_channels; Z.to_nat (out_channels self)] in
  update (set_w (Some (ParamLayer.init_fn (super self) w_shape in_channels
                         (ParamLayer.act_fn (super self)))));;
  (if use_bias self
   then update (set_b (Some (mkTensor
                  (Some (zeros [Z.to_nat (out_channels self)])) None)))
   else mret tt);;
  update set_params;;
  forward net.

Definition backward (net : gmap nat (Layer.t Z)) : St t unit :=
  zoom base set_base (Layer.backward net);;
  self ← self_;
  dy ← lift (the_grad (y self));
  wt ← lift (attr (w self) AttributeError);
  wd ← lift (the_data wt);
  (* input gradients (b, c_in) *)
  dx ← lift (matmul dy (transpose wd));
  update (fun l => set_x (set_grad (Some dx) (x l)) l);;
  (* weight gradients (c_in, c_out) *)
  xd ← lift (the_data (x self));
  dw ← lift (matmul (transpose xd) dy);
  update (set_w (Some (set_grad (Some dw) wt)));;
  if use_bias self
  then
    (* bias gradients (c_out,) *)
    bt ← lift (attr (b self) AttributeError);
    db ← lift (sum_axis 0 dy);
    update (set_b (Some (set_grad (Some db) bt)))
  else mret tt.

End Linear.

(** A padding policy of [walnut.nn.paddings] (absent): the function, and
    whether it is the object [paddings.same], which [backward] tests. *)
Record PadFn := mkPadFn {
  is_same : bool;
  pad : arr -> nat * nat -> result arr
}.

(** Modelled from the spec: the padding policy [paddings.valid] of the
    absent module [walnut.nn.paddings]; valid padding adds nothing. *)
Definition valid : PadFn := mkPadFn false (fun a _ => Ok a).

(** *** class Convolution *)
Module Convolution.

Record t := Build {
  super : ParamLayer.t;
  out_channels : Z;
  kernel_shape : nat * nat;
  pad_fn : PadFn
}.

Definition set_super (v : ParamLayer.t) (l : t) : t :=
  Build v (out_channels l) (kernel_shape l) (pad_fn l).
Definition base (l : t) : Layer.t Z := ParamLayer.base (super l).
Definition set_base (v : Layer.t Z) (l : t) : t :=
  set_super (ParamLayer.set_base v (super l)) l.
Definition w (l : t) := ParamLayer.w (super l).
Definition b (l : t) := ParamLayer.b (super l).
Definition params (l : t) := ParamLayer.params (super l).
Definition use_bias (l : t) := ParamLayer.use_bias (super l).
Definition x (l : t) := Layer.x (base l).
Definition y (l : t) := Layer.y (base l).
Definition set_x (v : Tensor Z) (l : t) := set_base (Layer.set_x v (base l)) l.
Definition set_y (v : Tensor Z) (l : t) := set_base (Layer.set_y v (base l)) l.
Definition set_w (v : option (Tensor Z)) (l : t) :=
  set_super (ParamLayer.set_w v (super l)) l.
Definition set_b (v : option (Tensor Z)) (l : t) :=
  set_super (ParamLayer.set_b v (super l)) l.
Definition set_params (l : t) :=
  set_super (ParamLayer.set_params (ParamLayer.param_list (super l)) (super l)) l.

Definition __init__ (out_channels : Z) (kernel_shape : nat * nat)
    (act_fn : option Activation) (norm_fn : option nat) (init_fn : InitFn)
    (pad_fn : PadFn) (use_bias : bool) : result t :=
  if (out_channels <? 1)%Z then Raise ValueError
  else Ok (Build (ParamLayer.__init__ act_fn norm_fn init_fn use_bias)
                 out_channels kernel_shape pad_fn).

(** Both arrays are fitted to the last two axes of [x1], expanded by one
    axis each and multiplied in the frequency domain. *)
Definition __convolve (x1 x2 : arr) (exp_axis : option (nat * nat))
  : result arr :=
  match rev (shape x1) with
  | tx :: ty :: _ =>
      x1_fft ← fft_fit ty tx x1;
      x2_fft ← fft_fit ty tx x2;
      match exp_axis with
      | Some (ax1, ax2) =>
          cyclic_product ty tx (expand_dims x1_fft ax1) (expand_dims x2_fft ax2)
      | None => Raise UnboundLocalError
      end
  | _ => Raise ValueError
  end.

(** [a[:, :, lo_y:, lo_x:]]. *)
Definition tail23 (lo_y lo_x : Z) (a : arr) : result arr :=
  '(d0, d1, dy, dx) ← unpack4 (shape a);
  Ok (slice_nd [whole d0; whole d1; from lo_y dy; from lo_x dx] a).

Definition forward (net : gmap nat (Layer.t Z)) : St t unit :=
  zoom base set_base (Layer.forward net);;
  self ← self_;
  (* pad input to fit pooling window *)
  xd ← lift (the_data (x self));
  x_pad ← lift (pad (pad_fn self) xd (kernel_shape self));
  (* rotate weights for cross correlation *)
  wt ← lift (attr (w self) AttributeError);
  wd ← lift (the_data wt);
  w_rotated ← lift (flip23 wd);
  (* convolve x (b, _, c_in, y, x) * w (_, c_out, c_in, y, x) *)
  x_conv_w ← lift (__convolve x_pad w_rotated (Some (1, 0)));
  (* sum over input channels *)
  '(_, _, w_y, w_x) ← lift (unpack4 (shape wd));
  summed ← lift (sum_axis 2 x_conv_w);
  yd ← lift (tail23 (Z.of_nat w_y - 1) (Z.of_nat w_x - 1) summed);
  update (fun l => set_y (set_data (Some yd) (y l)) l);;
  if use_bias self
  then
    (* before adding, reshape bias to fit output to get (b, c_out, 1, 1) *)
    batches ← lift (match shape xd with
                    | n :: _ => Ok n
                    | [] => Raise ValueError
                    end);
    bt ← lift (attr (b self) AttributeError);
    bd ← lift (the_data bt);
    bias ← lift (mul bd (ones [batches; 1]));
    yd' ← lift (iadd yd (match_dims bias 4));
    update (fun l => set_y (set_data (Some yd') (y l)) l)
  else mret tt.

Definition compile (i : nat) (prev succ : option nat)
    (net : gmap nat (Layer.t Z)) : St t unit :=
  zoom base set_base (Layer.compile i prev succ);;
  self ← self_;
  (* init weights (c_out, c_in, y, x) *)
  r ← lift (attr (Layer.prev_layer (base self)) AttributeError);
  p ← lift (attr (net !! r) AttributeError);
  s ← lift (tshape (Layer.y p));
  '(_, in_channels, _, _) ← lift (unpack4 s);
  let w_shape := [Z.to_nat (out_channels self); in_channels;
                  fst (kernel_shape self); snd (kernel_shape self)] in
  '(_, c_out, w_y, w_x) ← lift (unpack4 w_shape);
  update (set_w (Some (ParamLayer.init_fn (super self) w_shape
                         (c_out * w_y * w_x)
                         (ParamLayer.act_fn (super self)))));;
  (* init bias (c_out,) *)
  (if use_bias self
   then update (set_b (Some (mkTensor
                  (Some (zeros [Z.to_nat (out_channels self)])) None)))
   else mret tt);;
  update set_params;;
  forward net;;
  self ← self_;
  ys ← lift (tshape (y self));
  '(_, _, y_y, y_x) ← lift (unpack4 ys);
  if (y_y <? w_y) || (y_x <? w_x) then lift (Raise ValueError) else mret tt.

Definition backward (net : gmap nat (Layer.t Z)) : St t unit :=
  zoom base set_base (Layer.backward net);;
  self ← self_;
  xd ← lift (the_data (x self));
  x_p ← lift (pad (pad_fn self) xd (kernel_shape self));
  '(_, _, x_y, _) ← lift (unpack4 (shape xd));
  ys ← lift (tshape (y self));
  '(_, _, dy_y, _) ← lift (unpack4 ys);
  (* pad gradients to fit input after convolution *)
  dy ← lift (the_grad (y self));
  dy_p ← lift (if negb (is_same (pad_fn self))
               then pad23 dy (Z.quot (Z.of_nat x_y - Z.of_nat dy_y) 2)
               else Ok dy);
  (* input gradients *)
  (* convolve dy (b, c_out, _, y, x) * w (_, c_out, c_in, y, x) *)
  wt ← lift (attr (w self) AttributeError);
  wd ← lift (the_data wt);
  dy_conv_w ← lift (__convolve dy_p wd (Some (2, 0)));
  (* sum over output channels *)
  sw ← lift (sum_axis 1 dy_conv_w);
  dx ← lift (roll23_back sw);
  update (fun l => set_x (set_grad (Some dx) (x l)) l);;
  (* weight gradients *)
  (* convolve x (b, _, c_in, y, x) * dy (b, c_out, _, y, x) *)
  dy_conv_x ← lift (__convolve x_p dy (Some (1, 2)));
  (* sum over batches *)
  '(_, _, w_y, w_x) ← lift (unpack4 (shape wd));
  sx ← lift (sum_axis 0 dy_conv_x);
  dw ← lift (tail23 (- Z.of_nat w_y) (- Z.of_nat w_x) sx);
  update (set_w (Some (set_grad (Some dw) wt)));;
  (* bias gradients *)
  if use_bias self
  then
    (* sum over batches, y and x *)
    bt ← lift (attr (b self) AttributeError);
    yd ← lift (the_data (y self));
    db ← lift (sum_axes [0; 2; 3] yd);
    update (set_b (Some (set_grad (Some db) bt)))
  else mret tt.

End Convolution.

(** [a // b] on non-negative integers. *)
Definition floordiv (a b : nat) : result nat :=
  if b =? 0 then Raise ZeroDivisionError else Ok (a / b).

(** *** class MaxPooling *)
Module MaxPooling.

Record t := Build {
  base : Layer.t Z;
  p_window : nat * nat;
  p_map : option arr
}.

Definition set_base (v : Layer.t Z) (l : t) : t := Build v (p_window l) (p_map l).
Definition set_p_map (v : option arr) (l : t) : t := Build (base l) (p_window l) v.
Definition x (l : t) := Layer.x (base l).
Definition y (l : t) := Layer.y (base l).
Definition set_x (v : Tensor Z) (l : t) := set_base (Layer.set_x v (base l)) l.
Definition set_y (v : Tensor Z) (l : t) := set_base (Layer.set_y v (base l)) l.

Definition __init__ (p_window : nat * nat) : t :=
  Build Layer.__init__ p_window None.

Definition __crop (self : t) : result arr :=
  let '(w_y, w_x) := p_window self in
  xd ← the_data (x self);
  '(d0, d1, x_y, x_x) ← unpack4 (shape xd);
  qy ← floordiv x_y w_y;
  let y_fit := qy * w_y in
  qx ← floordiv x_x w_x;
  let x_fit := qx * w_x in
  Ok (slice_nd [whole d0; whole d1;
                upto (Z.of_nat y_fit) x_y; upto (Z.of_nat x_fit) x_x] xd).

Definition __stretch (a : arr) (streching axis : nat * nat)
    (target_shape : list nat) : result arr :=
  let '(fa1, fa2) := streching in
  let '(ax1, ax2) := axis in
  if (ax1 <? ndim a) && (ax2 <? ndim a)
  then Ok (resize (repeat_axis fa2 ax2 (repeat_axis fa1 ax1 a)) target_shape)
  else Raise AxisError.

(** [np.max(chunk, axis=(2, 3))]: an empty window has no maximum. *)
Definition max_upto (n : nat) (f : nat -> Z) : Z :=
  foldr Z.max (f 0) (map f (seq 1 (n - 1))).

Definition max_axes23 (chunk : arr) : result arr :=
  '(d0, d1, dy, dx) ← unpack4 (shape chunk);
  if (dy =? 0) || (dx =? 0) then Raise ValueError
  else Ok (tabulate [d0; d1]
             (fun idx => match idx with
                         | [i; j] => max_upto dy (fun u => max_upto dx (fun v =>
                                       geti chunk [i; j; u; v]))
                         | _ => 0%Z
                         end)).

(** [a[:, :, y0:y1, x0:x1]]. *)
Definition window23 (y0 y1 x0 x1 : nat) (a : arr) : result arr :=
  '(d0, d1, dy, dx) ← unpack4 (shape a);
  Ok (slice_nd [whole d0; whole d1;
                (clip (Z.of_nat y0) dy, clip (Z.of_nat y1) dy);
                (clip (Z.of_nat x0) dx, clip (Z.of_nat x1) dx)] a).

(** [a[:, :, yy, xx] = m]. *)
Definition set_plane23 (yy xx : nat) (m a : arr) : arr :=
  tabulate (shape a)
    (fun idx => match idx with
                | [i; j; u; v] =>
                    if (u =? yy) && (v =? xx) then geti m [i; j] else geti a idx
                | _ => geti a idx
                end).

Definition forward (net : gmap nat (Layer.t Z)) : St t unit :=
  zoom base set_base (Layer.forward net);;
  self ← self_;
  (* init output as zeros (b, c, y, k) *)
  x_pad ← lift (__crop self);
  let '(p_y, p_x) := p_window self in
  xd ← lift (the_data (x self));
  '(x_b, x_c, _, _) ← lift (unpack4 (shape xd));
  '(_, _, xp_y, xp_x) ← lift (unpack4 (shape x_pad));
  n_y ← lift (floordiv xp_y p_y);
  n_x ← lift (floordiv xp_x p_x);
  update (fun l => set_y (set_data (Some (zeros [x_b; x_c; n_y; n_x])) (y l)) l);;
  update (set_p_map (Some (zeros_like x_pad)));;
  let y_y := n_y in
  let y_x := n_x in
  for_each (seq 0 y_y) (fun yy =>
    for_each (seq 0 y_x) (fun xx =>
      cur ← self_;
      (* get current chunk *)
      chunk ← lift (window23 (yy * p_y) ((yy + 1) * p_y)
                             (xx * p_x) ((xx + 1) * p_x) xd);
      (* get max value within chunk *)
      m ← lift (max_axes23 chunk);
      yd ← lift (the_data (y cur));
      update (fun l => set_y (set_data (Some (set_plane23 yy xx m yd)) (y l)) l)));;
  (* "stretch" outputs *)
  cur ← self_;
  yd ← lift (the_data (y cur));
  y_s ← lift (__stretch yd (p_window self) (2, 3) (shape x_pad));
  (* create pooling map *)
  pm ← lift (equal x_pad y_s);
  update (set_p_map (Some pm)).

Definition compile (i : nat) (prev succ : option nat)
    (net : gmap nat (Layer.t Z)) : St t unit :=
  zoom base set_base (Layer.compile i prev succ);;
  forward net.

Definition backward (net : gmap nat (Layer.t Z)) : St t unit :=
  zoom base set_base (Layer.backward net);;
  self ← self_;
  (* "stretch" output gradient: the arguments of the call are evaluated
     first, and [np.repeat] finds no axis 2 in [None] *)
  pm ← lift (attr (p_map self) AttributeError);
  dy ← lift (attr (grad (y self)) AxisError);
  dy_s ← lift (__stretch dy (p_window self) (2, 3) (shape pm));
  (* use pooling map as mask for gradients *)
  xs ← lift (tshape (x self));
  '(_, _, x_y, x_x) ← lift (unpack4 xs);
  masked ← lift (mul dy_s pm);
  '(d0, d1, dy_, dx_) ← lift (unpack4 (shape masked));
  update (fun l => set_x (set_grad (Some
    (slice_nd [whole d0; whole d1;
               upto (Z.of_nat x_y) dy_; upto (Z.of_nat x_x) dx_] masked))
    (x l)) l).

End MaxPooling.

(** *** class Dropout

    The values that [np.random.choice] draws are an argument of [forward]:
    [coins k] tells whether the [k]-th cell, in row-major order, is kept. *)
Module Dropout.

Record t := Build {
  base : Layer.t Q;
  d_rate : Q;
  d_map : option (ndarray Q)
}.

Definition set_base (v : Layer.t Q) (l : t) : t := Build v (d_rate l) (d_map l).
Definition set_d_map (v : option (ndarray Q)) (l : t) : t :=
  Build (base l) (d_rate l) v.
Definition x (l : t) := Layer.x (base l).
Definition y (l : t) := Layer.y (base l).
Definition mode (l : t) := Layer.mode (base l).
Definition set_x (v : Tensor Q) (l : t) := set_base (Layer.set_x v (base l)) l.
Definition set_y (v : Tensor Q) (l : t) := set_base (Layer.set_y v (base l)) l.

Definition __init__ (d_rate : Q) : result t :=
  if negb (Qle_bool 0 d_rate) || Qle_bool 1 d_rate then Raise ValueError
  else Ok (Build Layer.__init__ d_rate None).

(** The drawn array, as [float32]. *)
Definition choice (coins : nat -> bool) (s : list nat) : ndarray Q :=
  NdArray s (map (fun k => if coins k then 1%Q else 0%Q) (seq 0 (size_of s))).

(** [a * m / (1 - d_rate)]. *)
Definition scaled (d_rate : Q) (a m : ndarray Q) : result (ndarray Q) :=
  am ← zip_nd 0%Q Qmult a m;
  Ok (map_nd (fun v => (v / (1 - d_rate))%Q) am).

Definition forward (coins : nat -> bool) (net : gmap nat (Layer.t Q))
  : St t unit :=
  zoom base set_base (Layer.forward net);;
  self ← self_;
  match mode self with
  | eval => update (fun l => set_y (set_data (data (x self)) (y l)) l)
  | train =>
      xd ← lift (the_data (x self));
      update (set_d_map (Some (choice coins (shape xd))));;
      cur ← self_;
      m ← lift (attr (d_map cur) TypeError);
      yd ← lift (scaled (d_rate self) xd m);
      update (fun l => set_y (set_data (Some yd) (y l)) l)
  end.

Definition compile (coins : nat -> bool) (i : nat) (prev succ : option nat)
    (net : gmap nat (Layer.t Q)) : St t unit :=
  zoom base set_base (Layer.compile i prev succ);;
  forward coins net.

Definition backward (net : gmap nat (Layer.t Q)) : St t unit :=
  zoom base set_base (Layer.backward net);;
  self ← self_;
  dy ← lift (the_grad (y self));
  m ← lift (attr (d_map self) TypeError);
  dx ← lift (scaled (d_rate self) dy m);
  update (fun l => set_x (set_grad (Some dx) (x l)) l).

End Dropout.

(** *** class Output *)
Module Output.

Definition t := Layer.t Z.

Definition forward (net : gmap nat (Layer.t Z)) : St t unit :=
  Layer.forward net;;
  self ← self_;
  update (fun l => Layer.set_y (set_data (data (Layer.x self)) (Layer.y l)) l).

Definition compile (i : nat) (prev succ : option nat)
    (net : gmap nat (Layer.t Z)) : St t unit :=
  Layer.compile i prev succ;;
  forward net.

Definition backward (net : gmap nat (Layer.t Z)) : St t unit :=
  Layer.backward net;;
  self ← self_;
  update (fun l => Layer.set_x (set_grad (grad (Layer.y self)) (Layer.x l)) l).

End Output.

(** *** class Flatten

    [np.resize] takes any object: of the [None] that a missing gradient
    holds it makes an array with [None] in every cell.  The cells of the
    arrays of this layer are therefore of any type [E], in which [zero] is
    the number 0 and [none] the object [None]. *)
Module Flatten.
Section Cells.
Context {E : Type}.
Variable zero none : E.

Definition t := Layer.t E.

Definition forward (net : gmap nat (Layer.t E)) : St t unit :=
  Layer.forward net;;
  self ← self_;
  xd ← lift (attr (data (Layer.x self)) AttributeError);
  n ← lift (match shape xd with
            | n :: _ => Ok n
            | [] => Raise IndexError
            end);
  yd ← lift (reshape_rows n xd);
  update (fun l => Layer.set_y (set_data (Some yd) (Layer.y l)) l).

Definition compile (i : nat) (prev succ : option nat)
    (net : gmap nat (Layer.t E)) : St t unit :=
  Layer.compile i prev succ;;
  forward net.

Definition backward (net : gmap nat (Layer.t E)) : St t unit :=
  Layer.backward net;;
  self ← self_;
  let dy := match grad (Layer.y self) with
            | Some g => g
            | None => NdArray [1] [none]
            end in
  s ← lift (tshape (Layer.x self));
  update (fun l => Layer.set_x (set_grad (Some (resize_cells zero dy s))
                                         (Layer.x l)) l).

End Cells.
End Flatten.

End Walnut.

(** ** The tensor class ([compyute/tensors.py]) *)

Module Compyute.
Import Np.

Inductive Device := cpu | cuda.

(** The element types that [tensors.py] names, and the type of the result
    of a comparison. *)
Inductive DType :=
| bool_ | int32 | int64 | float16 | float32 | float64 | complex64.

#[global] Instance Device_eq_dec : EqDecision Device.
Proof. solve_decision. Defined.
#[global] Instance DType_eq_dec : EqDecision DType.
Proof. solve_decision. Defined.

(** An array of one of the backends: the backend that owns it, its element
    type and its cells.  Cells are integers: a truth value is 0 or 1, a cell
    of an integer type lies in the range of its two's complement, and the
    cells of the floating and complex types are exact numbers. *)
Record ArrayLike := mkArray {
  engine : Device;
  elt : DType;
  cells : arr
}.

(** Modelled from the spec: [data_to_device] and [get_device_from_class] of
    the absent module [compyute.backend]: the same array, owned by the
    backend of the requested device; the device of the owning backend. *)
Definition data_to_device (a : ArrayLike) (device : Device) : ArrayLike :=
  mkArray device (elt a) (cells a).
Definition get_device_from_class (a : ArrayLike) : Device := engine a.

(** The value that [v] takes when it is stored in [bits] binary digits,
    two's complement. *)
Definition wrap (bits : Z) (v : Z) : Z :=
  ((v + 2 ^ (bits - 1)) mod 2 ^ bits - 2 ^ (bits - 1))%Z.

(** The values that a cell of an element type holds. *)
Definition fits (d : DType) (v : Z) : bool :=
  match d with
  | bool_ => (0 <=? v)%Z && (v <=? 1)%Z
  | int32 => (- 2 ^ 31 <=? v)%Z && (v <? 2 ^ 31)%Z
  | int64 => (- 2 ^ 63 <=? v)%Z && (v <? 2 ^ 63)%Z
  | float16 | float32 | float64 | complex64 => true
  end.

(** The cell that a value becomes when it is cast to an element type:
    every value but zero is true, an integer wraps around.  numpy leaves
    the cast of a floating value beyond the range of an integer type to
    the platform; here it wraps like an integer. *)
Definition cast_cell (d : DType) (v : Z) : Z :=
  match d with
  | bool_ => if (v =? 0)%Z then 0%Z else 1%Z
  | int32 => wrap 32 v
  | int64 => wrap 64 v
  | float16 | float32 | float64 | complex64 => v
  end.

(** The sum of two cells in an array of an element type: [+] on truth
    values is the logical or, the sum of integers wraps around. *)
Definition add_cell (d : DType) (x y : Z) : Z :=
  match d with
  | bool_ => if (x =? 0)%Z && (y =? 0)%Z then 0%Z else 1%Z
  | int32 | int64 | float16 | float32 | float64 | complex64 =>
      cast_cell d (x + y)
  end.

(** [a.astype(dtype, copy=False)]. *)
Definition astype (a : ArrayLike) (dtype : DType) : ArrayLike :=
  mkArray (engine a) dtype (map_nd (cast_cell dtype) (cells a)).

(** The kinds of element types: a value may be stored in place into an
    array of the same or of a higher kind. *)
Definition kind (d : DType) : nat :=
  match d with
  | bool_ => 0
  | int32 | int64 => 1
  | float16 | float32 | float64 => 2
  | complex64 => 3
  end.

(** The element type of [a + 0.0]. *)
Definition with_float (d : DType) : DType :=
  match d with
  | bool_ | int32 | int64 => float64
  | _ => d
  end.

(** [a + k] for a Python float [k]. *)
Definition add_float (a : ArrayLike) (k : Z) : ArrayLike :=
  mkArray (engine a) (with_float (elt a)) (add_scalar (cells a) k).

(** [a += b] for two arrays: of one backend, and [b] storable in [a]; the
    sum is taken in the element type of [a]. *)
Definition iadd_array (a b : ArrayLike) : result ArrayLike :=
  if negb (bool_decide (engine a = engine b)) then Raise TypeError
  else if negb (kind (elt b) <=? kind (elt a)) then Raise TypeError
  else c ← izip_nd 0%Z (add_cell (elt a)) (cells a) (cells b);
       Ok (mkArray (engine a) (elt a) c).

(** [a += k] for a Python float [k]. *)
Definition iadd_float (a : ArrayLike) (k : Z) : result ArrayLike :=
  if negb (2 <=? kind (elt a)) then Raise TypeError
  else Ok (mkArray (engine a) (elt a) (add_scalar (cells a) k)).

(** [a == b] and [a == k]: an array of truth values. *)
Definition eq_array (a b : ArrayLike) : result ArrayLike :=
  if negb (bool_decide (engine a = engine b)) then Raise TypeError
  else c ← equal (cells a) (cells b); Ok (mkArray (engine a) bool_ c).

Definition eq_scalar (a : ArrayLike) (k : Z) : ArrayLike :=
  mkArray (engine a) bool_
          (map_nd (fun v => if (v =? k)%Z then 1%Z else 0%Z) (cells a)).

(** *** class Tensor

    Tensors are objects: the heap maps the identity of a tensor to its
    attributes, and [grad] holds the identity of another tensor. *)
Abbreviation loc := nat (only parsing).

Module Tensor.

Record t := Build {
  data : ArrayLike;
  grad : option loc;
  _iterator : nat
}.

Definition set_data (v : ArrayLike) (o : t) : t := Build v (grad o) (_iterator o).
Definition set_grad (v : option loc) (o : t) : t := Build (data o) v (_iterator o).

Abbreviation heap := (gmap loc t).

(** The attributes of the object that [l] names. *)
Definition deref (l : loc) : St heap t :=
  fun h => (h, attr (h !! l) AttributeError).

(** A new object. *)
Definition new (o : t) : St heap loc :=
  fun h => let l := fresh (dom h) in (<[l := o]> h, Ok l).

Definition modify (l : loc) (f : t -> t) : St heap unit :=
  update (fun h => alter f l h).

(** [Tensor(data)]: [grad] and [_iterator] come from the class. *)
Definition __init__ (data : ArrayLike) : St heap loc :=
  new (Build data None 0).

Definition device (o : t) : Device := get_device_from_class (data o).
Definition dtype (o : t) : DType := elt (data o).

(** The right-hand operand of an operator: a tensor or a scalar. *)
Inductive Operand :=
| OTensor (l : loc)
| OScalar (k : Z).

Definition __bool__ (self : loc) : bool := true.

(** The truth value of what a slot holds: [None] is false, a number is
    false when it is zero, a tensor answers through [__bool__]. *)
Definition truth_of_slot (o : option loc) : bool :=
  match o with
  | Some l => __bool__ l
  | None => false
  end.

Definition truth_of_scalar (o : option Z) : bool :=
  match o with
  | Some k => negb (k =? 0)%Z
  | None => false
  end.

(** [other or 0.0] *)
Definition or_zero (other : option Z) : Z :=
  if truth_of_scalar other then default 0%Z other else 0%Z.

Definition __radd__ (self : loc) (other : option Z) : St heap loc :=
  (* for gradient accumulation make None += Tensor to be 0 += Tensor *)
  o ← deref self;
  __init__ (add_float (data o) (or_zero other)).

Definition __iadd__ (self : loc) (other : Operand) : St heap loc :=
  o ← deref self;
  d ← match other with
      | OTensor l => v ← deref l; lift (iadd_array (data o) (data v))
      | OScalar k => lift (iadd_float (data o) k)
      end;
  modify self (set_data d);;
  mret self.

Definition __eq__ (self : loc) (other : Operand) : St heap loc :=
  o ← deref self;
  d ← match other with
      | OTensor l => v ← deref l; lift (eq_array (data o) (data v))
      | OScalar k => mret (eq_scalar (data o) k)
      end;
  __init__ d.

(** [fuel] bounds the depth of the calls, as the interpreter does. *)
Fixpoint to_device (fuel : nat) (self : loc) (device : Device)
  : St heap loc :=
  match fuel with
  | 0 => lift (Raise RecursionError)
  | S fuel' =>
      o ← deref self;
      if bool_decide (Tensor.device o = device) then mret self
      else
        new_tensor ← __init__ (data_to_device (data o) device);
        (if truth_of_slot (grad o)
         then
           g ← lift (attr (grad o) AttributeError);
           g' ← to_device fuel' g device;
           modify new_tensor (set_grad (Some g'))
         else mret tt);;
        mret new_tensor
  end.

(** Whether the chain of gradients that starts at [l] reaches, within [n]
    steps, a tensor that is on [device] or that has no gradient: the calls
    of [to_device] then nest [n + 1] deep at most. *)
Fixpoint settles (device : Device) (h : heap) (l : loc) (n : nat) : bool :=
  match h !! l with
  | None => false
  | Some o =>
      if bool_decide (Tensor.device o = device) then true
      else match grad o with
           | None => true
           | Some g =>
               match n with
               | 0 => false
               | S n' => settles device h g n'
               end
           end
  end.

(** [mirrors device h h' n l l']: the tensor [l'] of [h'] is what the
    conversion of the tensor [l] of [h] to [device] gives, along a chain of
    gradients of [n] steps at most: the tensor itself when it is on the
    device, otherwise a tensor that [h] does not have, with the same array
    on the device, a counter of 0 and, for a gradient, the conversion of
    the gradient of [l]. *)
Fixpoint mirrors (device : Device) (h h' : heap) (n : nat) (l l' : loc)
  {struct n} : Prop :=
  match h !! l, h' !! l' with
  | Some o, Some o' =>
      if bool_decide (Tensor.device o = device) then l' = l /\ o' = o
      else h !! l' = None
           /\ data o' = data_to_device (data o) device
           /\ _iterator o' = 0
           /\ match grad o, n with
              | None, _ => grad o' = None
              | Some g, S n' =>
                  exists g', grad o' = Some g' /\ mirrors device h h' n' g g'
              | Some _, 0 => False
              end
  | _, _ => False
  end.

Definition to_type (self : loc) (dtype : DType) : St heap loc :=
  o ← deref self;
  if bool_decide (Tensor.dtype o = dtype) then mret self
  else __init__ (astype (data o) dtype).

(** [zeros_like(x)] of [tensor_ops/creation_ops.py]: the shape, the element
    type and the device of [x]. *)
Definition zeros_like (x : loc) : St heap loc :=
  o ← deref x;
  __init__ (mkArray (device o) (dtype o) (Np.zeros (shape (cells (data o))))).

Definition set_iterator (v : nat) (o : t) : t := Build (data o) (grad o) v.

(** [a[key]] for an integer [key]: the item of that number along the first
    axis; a negative number counts from the end. *)
Definition item_at (a : ArrayLike) (key : Z) : result ArrayLike :=
  match shape (cells a) with
  | [] => Raise IndexError
  | d :: rest =>
      let pick (i : nat) :=
        Ok (mkArray (engine a) (elt a)
              (tabulate rest (fun idx => geti (cells a) (i :: idx)))) in
      if (0 <=? key)%Z && (key <? Z.of_nat d)%Z then pick (Z.to_nat key)
      else if (key <? 0)%Z && (- Z.of_nat d <=? key)%Z
           then pick (Z.to_nat (Z.of_nat d + key))
           else Raise IndexError
  end.

(** [a.shape[0]] *)
Definition len0 (a : ArrayLike) : result nat :=
  match shape (cells a) with
  | [] => Raise IndexError
  | d :: _ => Ok d
  end.

(** [__getitem__] for an integer key, which is how [__next__] calls it. *)
Definition __getitem__ (self : loc) (key : Z) : St heap loc :=
  o ← deref self;
  d ← lift (item_at (data o) key);
  __init__ d.

Definition __iter__ (self : loc) : St heap loc :=
  _ ← deref self;
  modify self (set_iterator 0);;
  mret self.

(** The two outcomes of [__next__] that end a step of a [for] loop: an
    item, or the exception [StopIteration], which ends the loop. *)
Inductive Next :=
| Yield (l : loc)
| StopIteration.

Definition __next__ (self : loc) : St heap Next :=
  o ← deref self;
  n ← lift (len0 (data o));
  if _iterator o <? n
  then
    modify self (set_iterator (_iterator o + 1));;
    cur ← deref self;
    r ← __getitem__ self (Z.of_nat (_iterator cur) - 1);
    mret (Yield r)
  else mret StopIteration.

Definition __len__ (self : loc) : St heap nat :=
  o ← deref self;
  lift (len0 (data o)).

(** [k] calls of [next(self)] in a row, with their outcomes. *)
Fixpoint nexts (k : nat) (self : loc) : St heap (list Next) :=
  match k with
  | 0 => mret []
  | S k' => r ← __next__ self; rs ← nexts k' self; mret (r :: rs)
  end.

Fixpoint ito_device (fuel : nat) (self : loc) (device : Device)
  : St heap unit :=
  match fuel with
  | 0 => lift (Raise RecursionError)
  | S fuel' =>
      o ← deref self;
      if bool_decide (Tensor.device o = device) then mret tt
      else
        modify self (set_data (data_to_device (data o) device));;
        if truth_of_slot (grad o)
        then
          g ← lift (attr (grad o) AttributeError);
          ito_device fuel' g device
        else mret tt
  end.

Definition to_cpu (fuel : nat) (self : loc) : St heap loc :=
  to_device fuel self cpu.

Definition to_cuda (fuel : nat) (self : loc) : St heap loc :=
  to_device fuel self cuda.

(** [to_numpy]: the data of the tensor on the CPU. *)
Definition to_numpy (fuel : nat) (self : loc) : St heap ArrayLike :=
  l ← to_cpu fuel self;
  o ← deref l;
  mret (data o).

End Tensor.

(** The statement [target += incoming] on a slot that holds a gradient or
    [None], with a tensor on the right: a tensor on the left answers with
    [__iadd__]; [None] has neither [__iadd__] nor [__add__], so the tensor
    on the right answers with [__radd__].  The result is what the slot holds
    afterwards. *)
Definition accumulate (existing : option loc) (incoming : loc)
  : St Tensor.heap loc :=
  match existing with
  | Some e => Tensor.__iadd__ e (Tensor.OTensor incoming)
  | None => Tensor.__radd__ incoming None
  end.

(** ** Joining and splitting tensors
       ([compyute/tensor_ops/creation_ops.py]) *)

(** A list comprehension whose items are computed by calls. *)
Fixpoint each {A B S} (items : list A) (f : A -> St S B) : St S (list B) :=
  match items with
  | [] => mret []
  | a :: rest => b ← f a; bs ← each rest f; mret (b :: bs)
  end.

Module CreationOps.
Section Backend.

(** The element type that the backend gives an array joined from arrays
    of the given element types: its rules of promotion are not part of the
    sources, so the function is a parameter. *)
Variable result_type : list DType -> DType.

(** [device.module.concatenate(arrays, axis)]: a backend joins its own
    arrays only. *)
Definition module_concatenate (device : Device) (arrays : list ArrayLike)
    (axis : Z) : result ArrayLike :=
  if forallb (fun a => bool_decide (engine a = device)) arrays
  then c ← concatenate (map cells arrays) axis;
       Ok (mkArray device (result_type (map elt arrays)) c)
  else Raise TypeError.

Definition concat (tensors : list loc) (dim : Z) : St Tensor.heap loc :=
  first ← lift (attr (head tensors) IndexError);
  o0 ← Tensor.deref first;
  os ← each tensors Tensor.deref;
  data ← lift (module_concatenate (Tensor.device o0) (map Tensor.data os) dim);
  Tensor.__init__ data.

(** [split] for a list of indices. *)
Definition split (x : loc) (splits : list nat) (dim : Z)
  : St Tensor.heap (list loc) :=
  o ← Tensor.deref x;
  parts ← lift (Np.split (cells (Tensor.data o)) splits dim);
  each parts (fun s =>
    Tensor.__init__ (mkArray (Tensor.device o) (Tensor.dtype o) s)).

End Backend.
End CreationOps.

End Compyute.

(** ** The containers ([compyute/nn/containers.py])

    The class [Module] is not among the sources.  A child module is an
    object of some type [M]; [child_call x] is what [module(x)] does to the
    child and returns, [child_backward dy] what [module.backward(dy)] does:
    both are parameters. *)

Module SequentialContainer.
Import Np.

Section Children.
Context {M : Type}.
Variable child_call : arr -> St M arr.
Variable child_backward : arr -> St M arr.

(** Modelled from the spec: the attributes that the container inherits
    from the absent class [Module]: the flag [training], the caches [y] and
    [dy] that [set_y] and [set_dy] write, and the attribute [backward],
    which holds no procedure until a call in training mode installs one
    ([has_backward]). *)
Record t := Build {
  training : bool;
  sub_modules : list M;
  has_backward : bool;
  y : option arr;
  dy : option arr
}.

Definition set_sub_modules (v : list M) (c : t) : t :=
  Build (training c) v (has_backward c) (y c) (dy c).
Definition set_backward (c : t) : t :=
  Build (training c) (sub_modules c) true (y c) (dy c).
Definition set_y (v : arr) (c : t) : t :=
  Build (training c) (sub_modules c) (has_backward c) (Some v) (dy c).
Definition set_dy (v : arr) (c : t) : t :=
  Build (training c) (sub_modules c) (has_backward c) (y c) (Some v).

Definition __init__ (layers : list M) : t := Build false layers false None None.

(** A method of the [k]-th child: the child in the list is the object that
    the method changes. *)
Definition on_child {A} (k : nat) (f : St M A) : St t A :=
  fun self =>
    match sub_modules self !! k with
    | Some m =>
        let '(m', r) := f m in
        (set_sub_modules (<[k := m']> (sub_modules self)) self, r)
    | None => (self, Raise IndexError)
    end.

(** The procedure that [__call__] installs as [self.backward]. *)
Definition backward (dy : arr) : St t arr :=
  self ← self_;
  if has_backward self
  then
    update (set_dy dy);;
    fold_each (rev (seq 0 (length (sub_modules self))))
              (fun dy k => on_child k (child_backward dy)) dy
  else lift (Raise TypeError).

Definition __call__ (x : arr) : St t arr :=
  self ← self_;
  x' ← fold_each (seq 0 (length (sub_modules self)))
                 (fun x k => on_child k (child_call x)) x;
  (if training self then update set_backward else mret tt);;
  update (set_y x');;
  mret x'.

(** The design's words, for comparison: the children applied by hand from
    left to right, each to the output of the one before, ... *)
Fixpoint chain_forward (ms : list M) (x : arr) : list M * result arr :=
  match ms with
  | [] => ([], Ok x)
  | m :: rest =>
      match child_call x m with
      | (m', Ok x') =>
          let '(rest', r) := chain_forward rest x' in (m' :: rest', r)
      | (m', Raise e) => (m' :: rest, Raise e)
      end
  end.

(** ... and their backward procedures applied by hand from right to left,
    each to the gradient that the later child returned; the gradient of
    the chain is what the first child returns. *)
Fixpoint chain_backward (ms : list M) (dy : arr) : list M * result arr :=
  match ms with
  | [] => ([], Ok dy)
  | m :: rest =>
      match chain_backward rest dy with
      | (rest', Ok d) =>
          let '(m', r) := child_backward d m in (m' :: rest', r)
      | (rest', Raise e) => (m :: rest', Raise e)
      end
  end.

End Children.

Arguments t M : clear implicits.
Arguments Build {M}.

End SequentialContainer.

Module ParallelContainer.
Import Np.

(** The local variable [dx] of [backward]: the float [0.0] at first, an
    array from the first [+=] on. *)
Inductive Accum :=
| Float (k : Z)
| Array (a : arr).

(** [dx += g]: a float answers [k + g] with a new array, an array adds in
    place. *)
Definition accum_iadd (dx : Accum) (g : arr) : result Accum :=
  match dx with
  | Float k => Ok (Array (add_scalar g k))
  | Array a => a' ← iadd a g; Ok (Array a')
  end.

(** [[sum(out_lens[: i + 1]) for i in range(len(out_lens) - 1)]] *)
Definition splits (out_lens : list nat) : list nat :=
  map (fun i => sum_list (take (i + 1) out_lens)) (seq 0 (length out_lens - 1)).

Section Children.
Context {M : Type}.
Variable child_call : arr -> St M arr.
Variable child_backward : arr -> St M arr.

(** Modelled from the spec: the attributes that the container inherits
    from the absent class [Module]: the flag [training], the caches [y] and
    [dy] that [set_y] and [set_dy] write, and the attribute [backward],
    which holds no procedure until a call in training mode installs one.
    [ys_of_call] holds the outputs [ys] of the call that installed the
    procedure, which the procedure keeps. *)
Record t := Build {
  training : bool;
  sub_modules : list M;
  concat_axis : Z;
  ys_of_call : option (list arr);
  y : option arr;
  dy : option arr
}.

Definition set_sub_modules (v : list M) (c : t) : t :=
  Build (training c) v (concat_axis c) (ys_of_call c) (y c) (dy c).
Definition set_backward (ys : list arr) (c : t) : t :=
  Build (training c) (sub_modules c) (concat_axis c) (Some ys) (y c) (dy c).
Definition set_y (v : arr) (c : t) : t :=
  Build (training c) (sub_modules c) (concat_axis c) (ys_of_call c) (Some v) (dy c).
Definition set_dy (v : arr) (c : t) : t :=
  Build (training c) (sub_modules c) (concat_axis c) (ys_of_call c) (y c) (Some v).

Definition __init__ (layers : list M) (concat_axis : Z) : t :=
  Build false layers concat_axis None None None.

Definition on_child {A} (k : nat) (f : St M A) : St t A :=
  fun self =>
    match sub_modules self !! k with
    | Some m =>
        let '(m', r) := f m in
        (set_sub_modules (<[k := m']> (sub_modules self)) self, r)
    | None => (self, Raise IndexError)
    end.

(** The procedure that [__call__] installs as [self.backward]. *)
Definition backward (dy : arr) : St t Accum :=
  self ← self_;
  match ys_of_call self with
  | Some ys =>
      update (set_dy dy);;
      out_lens ← lift (mapM (fun y => shape_at y (concat_axis self)) ys);
      let splits := splits out_lens in
      chunks ← lift (split dy splits (concat_axis self));
      fold_each (imap pair chunks)
                (fun dx ic => g ← on_child (fst ic) (child_backward (snd ic));
                              lift (accum_iadd dx g))
                (Float 0)
  | None => lift (Raise TypeError)
  end.

Definition __call__ (x : arr) : St t arr :=
  self ← self_;
  ys ← fold_each (seq 0 (length (sub_modules self)))
                 (fun ys k => y ← on_child k (child_call x); mret (ys ++ [y]))
                 [];
  y ← lift (concatenate ys (concat_axis self));
  (if training self then update (set_backward ys) else mret tt);;
  update (set_y y);;
  mret y.

(** The design's words, for comparison.  Every child is applied to the
    same input. *)
Fixpoint fan_out (ms : list M) (x : arr) : list M * result (list arr) :=
  match ms with
  | [] => ([], Ok [])
  | m :: rest =>
      match child_call x m with
      | (m', Ok y) =>
          let '(rest', r) := fan_out rest x in
          (m' :: rest', ys ← r; Ok (y :: ys))
      | (m', Raise e) => (m' :: rest, Raise e)
      end
  end.

(** The boundary offsets are the running sums of the extents, without the
    last one. *)
Fixpoint running_sums (acc : nat) (extents : list nat) : list nat :=
  match extents with
  | [] => []
  | e :: rest => (acc + e) :: running_sums (acc + e) rest
  end.

Definition boundaries (extents : list nat) : list nat :=
  removelast (running_sums 0 extents).

(** The per-child slices of [dy]: the [i]-th slice starts where the
    extents of the children before it end and has the extent of the [i]-th
    child; the last slice runs to the end of the axis. *)
Fixpoint slices_by_extent (ax lo : nat) (extents : list nat) (dy : arr)
  : list arr :=
  let d := nth ax (shape dy) 0 in
  match extents with
  | [] => []
  | e :: rest =>
      match rest with
      | [] => [slice_axis ax (Nat.min lo d) d dy]
      | _ :: _ =>
          slice_axis ax (Nat.min lo d) (Nat.min (lo + e) d) dy
          :: slices_by_extent ax (lo + e) rest dy
      end
  end.

(** The [i]-th slice goes to the backward procedure of the [i]-th child;
    the children's input gradients are collected. *)
Fixpoint feed (ms : list M) (chunks : list arr) : list M * result (list arr) :=
  match ms, chunks with
  | _, [] => (ms, Ok [])
  | [], _ :: _ => ([], Raise IndexError)
  | m :: ms', c :: cs' =>
      match child_backward c m with
      | (m', Ok g) =>
          let '(ms'', r) := feed ms' cs' in
          (m' :: ms'', gs ← r; Ok (g :: gs))
      | (m', Raise e) => (m' :: ms', Raise e)
      end
  end.

End Children.

(** The elementwise sum of arrays of shape [s]. *)
Definition ewise_sum (s : list nat) (gs : list arr) : arr :=
  NdArray s (map (fun p => foldr Z.add 0%Z (map (fun g => nth p (buf g) 0%Z) gs))
                 (seq 0 (size_of s))).

Arguments t M : clear implicits.
Arguments Build {M}.

End ParallelContainer.

(** Modelled from the spec: the affine primitive in the form that the
    containers use ([module(x)] and [module.backward(dy)]); that class is
    not among the sources.  Forward: [y = x @ w + b], the bias optional.
    Backward: [dx = dy @ w.T]; [dw = x.T @ dy] and [db = sum(dy, axis=0)],
    written by gradient accumulation.  The input is kept for backward in
    training mode only. *)
Module Affine.
Import Np.

Record t := Build {
  w : arr;
  b : option arr;
  w_grad : option arr;
  b_grad : option arr;
  x : option arr;
  training : bool
}.

Definition set_x (v : option arr) (l : t) : t :=
  Build (w l) (b l) (w_grad l) (b_grad l) v (training l).
Definition set_w_grad (v : option arr) (l : t) : t :=
  Build (w l) (b l) v (b_grad l) (x l) (training l).
Definition set_b_grad (v : option arr) (l : t) : t :=
  Build (w l) (b l) (w_grad l) v (x l) (training l).

(** [accumulate(existing, incoming)]: [incoming] if [existing] is absent,
    else the elementwise sum. *)
Definition accumulate (existing : option arr) (incoming : arr) : result arr :=
  match existing with
  | None => Ok incoming
  | Some e => add e incoming
  end.

(** A stored gradient, when there is one, has the shape [s]. *)
Definition grad_fits (g : option arr) (s : list nat) : Prop :=
  match g with
  | Some v => shape v = s
  | None => True
  end.

Definition call (xv : arr) : St t arr :=
  self ← self_;
  xw ← lift (matmul xv (w self));
  yv ← lift (match b self with
             | Some bv => add xw bv
             | None => Ok xw
             end);
  (if training self then update (set_x (Some xv)) else mret tt);;
  mret yv.

Definition backward (dy : arr) : St t arr :=
  self ← self_;
  xv ← lift (attr (x self) AttributeError);
  dx ← lift (matmul dy (transpose (w self)));
  dw ← lift (matmul (transpose xv) dy);
  gw ← lift (accumulate (w_grad self) dw);
  update (set_w_grad (Some gw));;
  (match b self with
   | Some _ =>
       db ← lift (sum_axis 0 dy);
       gb ← lift (accumulate (b_grad self) db);
       update (set_b_grad (Some gb))
   | None => mret tt
   end);;
  mret dx.

End Affine.

(** ** The loss functions ([model/losses.py]) *)

Module Losses.
Import Np.

(** The number formats of the arrays that the losses take: signed integers
    of 8 to 64 binary digits, whose arithmetic wraps around, and floating
    point, whose values are kept as exact numbers.  Arrays of truth values
    and of unsigned integers are not covered. *)
Inductive Format := int8 | int16 | int32 | int64 | floating.

Record NumArray := mkNum { fmt : Format; vals : arr }.

Definition bits (f : Format) : option Z :=
  match f with
  | int8 => Some 8%Z
  | int16 => Some 16%Z
  | int32 => Some 32%Z
  | int64 => Some 64%Z
  | floating => None
  end.

(** The value that a result takes in an array of a format. *)
Definition store (f : Format) (v : Z) : Z :=
  match bits f with
  | Some b => Compyute.wrap b v
  | None => v
  end.

(** The format of the result of an operation on two arrays. *)
Definition promote (f g : Format) : Format :=
  match f, g with
  | floating, _ | _, floating => floating
  | int64, _ | _, int64 => int64
  | int32, _ | _, int32 => int32
  | int16, _ | _, int16 => int16
  | int8, int8 => int8
  end.

(** [a - b] *)
Definition sub (a b : NumArray) : result NumArray :=
  let f := promote (fmt a) (fmt b) in
  c ← zip_nd 0%Z (fun u v => store f (u - v)%Z) (vals a) (vals b);
  Ok (mkNum f c).

(** [np.power(a, 2)]: the format of [a]. *)
Definition power2 (a : NumArray) : NumArray :=
  mkNum (fmt a) (map_nd (fun v => store (fmt a) (v ^ 2)%Z) (vals a)).

(** [np.sum(a)]: integers are added in 64 binary digits. *)
Definition sum (a : NumArray) : Z :=
  match fmt a with
  | floating => sum_all (vals a)
  | int8 | int16 | int32 | int64 => Compyute.wrap 64 (sum_all (vals a))
  end.

(** The loss is half an integer: it is kept as a rational. *)
Definition root_mean_square (output target : NumArray)
  : result (Q * NumArray) :=
  d ← sub target output;
  let loss := Qmult (1 # 2) (inject_Z (sum (power2 d))) in
  loss_gradient ← sub output target;
  Ok (loss, loss_gradient).

End Losses.

(** ** The activation layers ([walnut/nn/layers/activations.py]) *)

Module Activations.
Import Np Walnut.

(** Modelled from the spec: the base class [Module] of [walnut.nn.module]
    (absent), a node with an input and an output cache: [__call__(x)]
    caches the input tensor as [self.x] and [backward(y_grad)] stores the
    upstream gradient as [self.y.grad]. *)
Record t (E : Type) := Build { x : Tensor E; y : Tensor E }.
Arguments Build {E}.
Arguments x {E} _.
Arguments y {E} _.

Definition set_x {E} (v : Tensor E) (l : t E) : t E := Build v (y l).
Definition set_y {E} (v : Tensor E) (l : t E) : t E := Build (x l) v.

Definition module_call {E} (xin : Tensor E) : St (t E) unit :=
  update (set_x xin).

Definition module_backward {E} (y_grad : ndarray E) : St (t E) unit :=
  update (fun l => set_y (set_grad (Some y_grad) (y l)) l).

(** *** class Relu *)
Module Relu.

Definition __call__ (xin : Tensor Z) : St (t Z) (Tensor Z) :=
  module_call xin;;
  self ← self_;
  xd ← lift (the_data (x self));
  update (fun l => set_y (set_data (Some (maximum0 xd)) (y l)) l);;
  cur ← self_;
  mret (y cur).

Definition backward (y_grad : arr) : St (t Z) arr :=
  module_backward y_grad;;
  self ← self_;
  yd ← lift (the_data (y self));
  dy ← lift (the_grad (y self));
  g ← lift (mul (positive yd) dy);
  update (fun l => set_x (set_grad (Some g) (x l)) l);;
  mret g.

End Relu.

(** *** class Softmax

    The forward pass calls [softmax] of [walnut.nn.funcional], which is
    not among the sources; [backward] reads the output that it cached.
    The cells are rationals. *)
Module Softmax.

Definition getq (a : ndarray Q) (idx : list nat) : Q := get 0%Q a idx.

(** [np.einsum("ij,ik->ijk", a, b)] *)
Definition einsum_ij_ik (a b : ndarray Q) : result (ndarray Q) :=
  match shape a, shape b with
  | [n; c], [n'; c'] =>
      if n =? n'
      then Ok (tabulate [n; c; c']
                 (fun idx => match idx with
                             | [i; j; k] => Qmult (getq a [i; j]) (getq b [i; k])
                             | _ => 0%Q
                             end))
      else Raise ValueError
  | _, _ => Raise ValueError
  end.

(** [np.einsum("ij,jk->ijk", a, b)] *)
Definition einsum_ij_jk (a b : ndarray Q) : result (ndarray Q) :=
  match shape a, shape b with
  | [n; c], [c'; m] =>
      if c =? c'
      then Ok (tabulate [n; c; m]
                 (fun idx => match idx with
                             | [i; j; k] => Qmult (getq a [i; j]) (getq b [j; k])
                             | _ => 0%Q
                             end))
      else Raise ValueError
  | _, _ => Raise ValueError
  end.

(** [np.einsum("ijk,ik->ij", a, b)] *)
Definition einsum_ijk_ik (a b : ndarray Q) : result (ndarray Q) :=
  match shape a, shape b with
  | [n; c; m], [n'; m'] =>
      if (n =? n') && (m =? m')
      then Ok (tabulate [n; c]
                 (fun idx => match idx with
                             | [i; j] => sumq_upto m (fun k =>
                                           Qmult (getq a [i; j; k]) (getq b [i; k]))
                             | _ => 0%Q
                             end))
      else Raise ValueError
  | _, _ => Raise ValueError
  end.

(** [np.eye(n, m)] *)
Definition eye (n m : nat) : ndarray Q :=
  tabulate [n; m] (fun idx => match idx with
                              | [j; k] => if j =? k then 1%Q else 0%Q
                              | _ => 0%Q
                              end).

Definition backward (y_grad : ndarray Q) : St (t Q) (ndarray Q) :=
  module_backward y_grad;;
  self ← self_;
  xs ← lift (tshape (x self));
  channels ← lift (match xs with
                   | [_; c] => Ok c
                   | _ => Raise ValueError
                   end);
  yd ← lift (the_data (y self));
  x1 ← lift (einsum_ij_ik yd yd);
  x2 ← lift (einsum_ij_jk yd (eye channels channels));
  d ← lift (zip_nd 0%Q Qminus x2 x1);
  dy ← lift (the_grad (y self));
  g ← lift (einsum_ijk_ik d dy);
  update (fun l => set_x (set_grad (Some g) (x l)) l);;
  mret g.

End Softmax.

End Activations.

(** ** Text preprocessing ([walnut/preprocessing/text.py])

    A string is the list of its code points; a character is a string of
    one code point. *)

Module Text.

Abbreviation str := (list nat).

Definition of_literal (s : String.string) : str :=
  map Ascii.nat_of_ascii (String.list_ascii_of_string s).

Definition newline : nat := 10.
Definition space : nat := 32.
Definition quote : nat := 34.

Fixpoint starts_with (p s : str) : bool :=
  match p, s with
  | [], _ => true
  | a :: p', b :: s' => (a =? b) && starts_with p' s'
  | _ :: _, [] => false
  end.

(** [s.replace(old, new)]: the occurrences of [old] are found from left to
    right and do not overlap; [skip] counts the characters of an
    occurrence that are still to be passed over. *)
Fixpoint replace_from (old new : str) (skip : nat) (s : str) : str :=
  match s with
  | [] => []
  | c :: rest =>
      match skip with
      | S k => replace_from old new k rest
      | 0 =>
          if starts_with old s
          then new ++ replace_from old new (length old - 1) rest
          else c :: replace_from old new 0 rest
      end
  end.

(** An empty [old] matches before every character and at the end. *)
Definition replace (old new s : str) : str :=
  match old with
  | [] => new ++ flat_map (fun c => c :: new) s
  | _ :: _ => replace_from old new 0 s
  end.

(** The punctuation characters, on either side of the double quote. *)
Module Literal.
Import Stdlib.Strings.String.
Definition before_quote : String.string := "!()-[]{};:'"%string.
Definition after_quote : String.string := ",<>./?@#$%^&*_~"%string.
End Literal.

Definition punctuations : str :=
  of_literal Literal.before_quote ++ [quote] ++ of_literal Literal.after_quote.

Definition remove_punctuation (data : str) : str :=
  let data_clean :=
    foldl (fun data_clean punctuation => replace [punctuation] [] data_clean)
          data punctuations in
  foldl (fun data_clean i =>
           let i := 5 - i in
           replace (replicate i newline) [space] data_clean)
        data_clean (seq 0 5).

(** A [dict]: the keys in the order of their first insertion; an
    assignment to a key that is present replaces its value in place. *)
Abbreviation dict K V := (list (K * V)).

Fixpoint dict_set {K V} `{EqDecision K} (k : K) (v : V) (d : dict K V)
  : dict K V :=
  match d with
  | [] => [(k, v)]
  | (k', v') :: rest =>
      if decide (k' = k) then (k, v) :: rest
      else (k', v') :: dict_set k v rest
  end.

Fixpoint dict_get {K V} `{EqDecision K} (k : K) (d : dict K V) : option V :=
  match d with
  | [] => None
  | (k', v') :: rest => if decide (k' = k) then Some v' else dict_get k rest
  end.

Definition keys {K V} (d : dict K V) : list K := map fst d.

Fixpoint enumerate_from {A} (n : nat) (l : list A) : list (nat * A) :=
  match l with
  | [] => []
  | a :: rest => (n, a) :: enumerate_from (S n) rest
  end.

Definition enumerate {A} (l : list A) : list (nat * A) := enumerate_from 0 l.

(** [sorted(set(data))]: the characters of [data], each once, by code
    point. *)
Fixpoint insert_char (c : nat) (l : list nat) : list nat :=
  match l with
  | [] => [c]
  | x :: rest =>
      if c <? x then c :: l
      else if c =? x then l
      else x :: insert_char c rest
  end.

Definition sorted_set (data : str) : list nat := foldr insert_char [] data.

(** Strictly increasing lists of code points. *)
Fixpoint increasing (l : list nat) : Prop :=
  match l with
  | [] => True
  | x :: rest => Forall (fun y => x < y) rest /\ increasing rest
  end.

(** [l[:n]] *)
Definition upto_index {A} (n : Z) (l : list A) : list A :=
  take (Np.clip n (length l)) l.

(** *** class CharacterTokenizer

    Modelled from the spec: the tensor of [walnut.tensor] (absent) that
    [encode] returns and [decode] takes is the list of its integers. *)
Module CharacterTokenizer.

Record t := Build { tokens : dict str Z; oov_token : str }.

Definition set_tokens (v : dict str Z) (self : t) : t :=
  Build v (oov_token self).

Definition vocab_size (self : t) : nat := length (tokens self).

Definition fit (data : str) (max_tokens : Z) : St t unit :=
  self ← self_;
  let data_sorted :=
    oov_token self :: map (fun c => [c]) (sorted_set data) in
  let tokens := upto_index max_tokens data_sorted in
  update (set_tokens
            (foldl (fun d ts => dict_set (snd ts) (Z.of_nat (fst ts)) d)
                   [] (enumerate tokens))).

Definition encode (self : t) (string : str) : list Z :=
  map (fun s => default 0%Z (dict_get [s] (tokens self))) string.

Definition decode (self : t) (tokens : list Z) : str :=
  let reverse_tokens :=
    foldl (fun d ts => dict_set (Z.of_nat (fst ts)) (snd ts) d)
          [] (enumerate (keys (CharacterTokenizer.tokens self))) in
  concat (map (fun token =>
                 default (oov_token self) (dict_get token reverse_tokens))
              tokens).

End CharacterTokenizer.

End Text.

(** ** Sample objects

    Small layers and inputs on which the methods are run. *)

Module Samples.
Import Np Walnut.

(** An initialiser that fills the weights with ones. *)
Definition init_ones : InitFn := fun s _ _ => mkTensor (Some (ones s)) None.

(** A neighbour of the layer under study: its output, or the gradient of
    its input, is what the layer reads. *)
Definition feeding (xd : arr) : Layer.t Z :=
  Layer.Build true train (Some 0) None (Some 1)
    (mkTensor (Some xd) None) (mkTensor (Some xd) None).

Definition returning (g : arr) : Layer.t Z :=
  Layer.Build true train (Some 2) (Some 1) None
    (mkTensor None (Some g)) (mkTensor None None).

(** Linear: input [[2]], weight [[1]] with stored gradient [[5]], bias,
    upstream gradient [[3]]. *)
Definition lin_w : Tensor Z :=
  mkTensor (Some (NdArray [1; 1] [1%Z])) (Some (NdArray [1; 1] [5%Z])).

Definition lin : Linear.t :=
  Linear.Build
    (ParamLayer.Build
       (Layer.Build true train (Some 1) (Some 0) (Some 2)
          (mkTensor (Some (NdArray [1; 1] [2%Z])) None)
          (mkTensor (Some (NdArray [1; 1] [2%Z])) None))
       None None init_ones true
       (Some lin_w)
       (Some (mkTensor (Some (zeros [1])) None))
       [Some ParamW; Some ParamB])
    1.

Definition lin_net : gmap nat (Layer.t Z) :=
  {[ 0 := feeding (NdArray [1; 1] [2%Z]);
     2 := returning (NdArray [1; 1] [3%Z]) ]}.

(** Convolution: one 2x2 image, one output channel, valid padding. *)
Definition image : arr := NdArray [1; 1; 2; 2] [1; 2; 3; 4]%Z.

Definition conv_upstream : arr := NdArray [1; 1; 2; 2] [1; 0; 0; 0]%Z.

Definition conv_net : gmap nat (Layer.t Z) :=
  {[ 0 := feeding image; 2 := returning conv_upstream ]}.

Definition conv_new (kernel_shape : nat * nat) : Convolution.t :=
  Convolution.Build (ParamLayer.__init__ None None init_ones true)
                    1 kernel_shape valid.

(** The layer with a 1x1 kernel, after [compile]. *)
Definition conv_compiled : Convolution.t :=
  fst (Convolution.compile 1 (Some 0) (Some 2) conv_net (conv_new (1, 1))).

(** Max pooling with a 2x2 window on a 3x3 image. *)
Definition image3 : arr := NdArray [1; 1; 3; 3] [1; 2; 3; 4; 5; 6; 7; 8; 9]%Z.

Definition pool_net : gmap nat (Layer.t Z) :=
  {[ 0 := feeding image3; 2 := returning (ones [1; 1; 1; 1]) ]}.

Definition pool_new : MaxPooling.t :=
  MaxPooling.Build
    (Layer.Build true train (Some 1) (Some 0) (Some 2)
       (mkTensor None None) (mkTensor None None))
    (2, 2) None.

Definition pool_after_forward : MaxPooling.t :=
  fst (MaxPooling.forward pool_net pool_new).

(** Dropout with rate 1/2 on three cells; every other cell is kept. *)
Definition drop_in : ndarray Q := NdArray [3] [1; 2; 3]%Q.
Definition drop_up : ndarray Q := NdArray [3] [4; 5; 6]%Q.

Definition drop_net : gmap nat (Layer.t Q) :=
  {[ 0 := Layer.Build true train (Some 0) None (Some 1)
            (mkTensor None None) (mkTensor (Some drop_in) None);
     2 := Layer.Build true train (Some 2) (Some 1) None
            (mkTensor None (Some drop_up)) (mkTensor None None) ]}.

Definition drop : Dropout.t :=
  Dropout.Build
    (Layer.Build true train (Some 1) (Some 0) (Some 2)
       (mkTensor None None) (mkTensor None None))
    (1 # 2) None.

End Samples.

Module TensorSamples.
Import Np Compyute.

Definition vec (vs : list Z) : ArrayLike :=
  mkArray cpu float32 (NdArray [length vs] vs).

(** Tensor 1 holds [1, 2] and has the gradient 2, which is all zeros;
    tensor 3 holds [5, 7]. *)
Definition heap0 : Tensor.heap :=
  {[ 1 := Tensor.Build (vec [1; 2]%Z) (Some 2) 0;
     2 := Tensor.Build (vec [0; 0]%Z) None 0;
     3 := Tensor.Build (vec [5; 7]%Z) None 0 ]}.

End TensorSamples.

Module ContainerSamples.
Import Np.

(** Two affine modules on inputs of width 2: [aff_a] of width 1 with the
    weights [[1], [2]], [aff_b] of width 2 with the weights
    [[1, 2], [3, 4]]; both with a bias of zeros, in training mode. *)
Definition aff_a : Affine.t :=
  Affine.Build (NdArray [2; 1] [1; 2]%Z) (Some (zeros [1])) None None None true.

Definition aff_b : Affine.t :=
  Affine.Build (NdArray [2; 2] [1; 2; 3; 4]%Z) (Some (zeros [2]))
               None None None true.

Definition x0 : arr := NdArray [1; 2] [1; 2]%Z.
Definition g0 : arr := NdArray [1; 3] [1; 1; 1]%Z.

Definition par0 : ParallelContainer.t Affine.t :=
  ParallelContainer.Build true [aff_a; aff_b] (-1) None None None.

Definition seq0 : SequentialContainer.t Affine.t :=
  SequentialContainer.Build true [aff_b; aff_a] false None None.

End ContainerSamples.

(** Layers as their constructors leave them, for the runs of [compile]. *)
Module LayerSamples.
Import Np Walnut.

Definition lin_new : Linear.t :=
  Linear.Build (ParamLayer.__init__ None None Samples.init_ones true) 1.

(** Max pooling with a window of no rows. *)
Definition pool_flat : MaxPooling.t :=
  MaxPooling.Build
    (Layer.Build true train (Some 1) (Some 0) (Some 2)
       (mkTensor None None) (mkTensor None None))
    (0, 2) None.

(** Flatten between a layer that puts out two images of 1 x 2 cells and a
    layer that returns a gradient of two rows; the cells are numbers or
    [None]. *)
Definition cube : ndarray (option Z) :=
  NdArray [2; 1; 2] [Some 1; Some 2; Some 3; Some 4]%Z.

Definition flat_up : ndarray (option Z) :=
  NdArray [2; 2] [Some 5; Some 6; Some 7; Some 8]%Z.

Definition flat_new : Layer.t (option Z) :=
  Layer.Build true train (Some 1) (Some 0) (Some 2)
    (mkTensor None None) (mkTensor None None).

Definition flat_net : gmap nat (Layer.t (option Z)) :=
  {[ 0 := Layer.Build true train (Some 0) None (Some 1)
            (mkTensor None None) (mkTensor (Some cube) None);
     2 := Layer.Build true train (Some 2) (Some 1) None
            (mkTensor None (Some flat_up)) (mkTensor None None) ]}.

(** The same layer after a forward pass, before a layer that holds no
    gradient. *)
Definition flat_fed : Layer.t (option Z) :=
  Layer.Build true train (Some 1) (Some 0) (Some 2)
    (mkTensor (Some cube) None) (mkTensor None None).

Definition flat_net_silent : gmap nat (Layer.t (option Z)) :=
  {[ 2 := Layer.Build true train (Some 2) (Some 1) None
            (mkTensor None None) (mkTensor None None) ]}.

(** An output layer and a dropout layer in evaluation mode, between the
    layers of [Samples.lin_net] and [Samples.drop_net]. *)
Definition out_new : Output.t :=
  Layer.Build true eval (Some 1) (Some 0) (Some 2)
    (mkTensor None None) (mkTensor None None).

Definition drop_eval : Dropout.t :=
  Dropout.Build
    (Layer.Build true eval (Some 1) (Some 0) (Some 2)
       (mkTensor None None) (mkTensor None None))
    (1 # 2) None.

End LayerSamples.

Module MoreTensorSamples.
Import Np Compyute.

(** Tensor 1 is a matrix of three rows on the CPU; its gradient, tensor 2,
    is on the GPU already. *)
Definition rows3 : ArrayLike :=
  mkArray cpu float32 (NdArray [3; 2] [1; 2; 3; 4; 5; 6]%Z).

Definition heap1 : Tensor.heap :=
  {[ 1 := Tensor.Build rows3 (Some 2) 0;
     2 := Tensor.Build (mkArray cuda float32 (zeros [3; 2])) None 0 ]}.

(** Two matrices of two rows on the CPU, of one and of two columns. *)
Definition narrow : Tensor.t :=
  Tensor.Build (mkArray cpu float32 (NdArray [2; 1] [1; 2]%Z)) None 0.

Definition wide : Tensor.t :=
  Tensor.Build (mkArray cpu float32 (NdArray [2; 2] [3; 4; 5; 6]%Z)) None 0.

Definition heap2 : Tensor.heap := {[ 1 := narrow; 2 := wide ]}.

(** A promotion that keeps the first element type. *)
Definition first_type (ds : list DType) : DType := default float32 (head ds).

End MoreTensorSamples.

Module ActivationSamples.
Import Np Walnut.

Definition act_new {E} : Activations.t E :=
  Activations.Build (mkTensor None None) (mkTensor None None).

Definition relu_in : Tensor Z :=
  mkTensor (Some (NdArray [1; 3] [-1; 0; 2]%Z)) None.

(** A softmax layer that has cached the output [[1/4, 3/4]]. *)
Definition soft_fed : Activations.t Q :=
  Activations.Build
    (mkTensor (Some (NdArray [1; 2] [0; 1]%Q)) None)
    (mkTensor (Some (NdArray [1; 2] [1 # 4; 3 # 4]%Q)) None).

End ActivationSamples.

Module TextSamples.
Import Text.

(** A tokenizer before fitting, with the default out-of-vocabulary token
    [|]. *)
Definition tokenizer : CharacterTokenizer.t :=
  CharacterTokenizer.Build [] [124].

(** [banana], [ban] and [bat]. *)
Definition banana : str := [98; 97; 110; 97; 110; 97].
Definition ban : str := [98; 97; 110].
Definition bat : str := [98; 97; 116].

(** [a|~]: a text that contains the out-of-vocabulary token. *)
Definition piped : str := [97; 124; 126].

End TextSamples.

(** * Properties *)

(** ** Arrays *)

Section ArrayFacts.
Import Np.

Lemma bc_dim_refl n : bc_dim n n = Ok n.
Proof. unfold bc_dim. by rewrite Nat.eqb_refl. Qed.

Lemma bc_rev_refl s : bc_rev s s = Ok s.
Proof.
  induction s as [|d s IH]; [done|].
  simpl. rewrite bc_dim_refl. simpl. by rewrite IH.
Qed.

Lemma broadcast_shapes_refl s : broadcast_shapes s s = Ok s.
Proof.
  unfold broadcast_shapes. rewrite bc_rev_refl. simpl. by rewrite rev_involutive.
Qed.

Lemma broadcast_to_same {E} (d : E) (a : ndarray E) :
  broadcast_to d a (shape a) = Ok a.
Proof. unfold broadcast_to. by rewrite decide_True. Qed.

(** Two arrays of one shape: the operation runs cell by cell. *)
Lemma zip_nd_same_shape {E} (d : E) f (a b : ndarray E) :
  shape b = shape a ->
  zip_nd d f a b = Ok (NdArray (shape a) (zip_with f (buf a) (buf b))).
Proof.
  intros Hs. unfold zip_nd. rewrite Hs, broadcast_shapes_refl. simpl.
  rewrite broadcast_to_same. simpl.
  rewrite <- Hs at 1. by rewrite broadcast_to_same.
Qed.

Lemma izip_nd_same_shape {E} (d : E) f (a b : ndarray E) :
  shape b = shape a ->
  izip_nd d f a b = Ok (NdArray (shape a) (zip_with f (buf a) (buf b))).
Proof.
  intros Hs. unfold izip_nd. rewrite <- Hs at 1. by rewrite broadcast_to_same.
Qed.

Lemma matmul_shapes a b n k m :
  shape a = [n; k] -> shape b = [k; m] ->
  exists c, matmul a b = Ok c /\ shape c = [n; m].
Proof.
  intros Ha Hb. unfold matmul. rewrite Ha, Hb, Nat.eqb_refl. eauto.
Qed.

Lemma transpose_shape a : shape (transpose a) = rev (shape a).
Proof. done. Qed.

Lemma bc_dim_1_l n : bc_dim 1 n = Ok n.
Proof. unfold bc_dim. destruct (Nat.eqb_spec 1 n); by subst. Qed.

Lemma bc_dim_1_r n : bc_dim n 1 = Ok n.
Proof.
  unfold bc_dim. destruct (Nat.eqb_spec n 1); [done|].
  by rewrite Nat.eqb_refl.
Qed.

Lemma broadcast_to_shape {E} (d : E) (a : ndarray E) s :
  broadcast_shapes (shape a) s = Ok s ->
  exists a', broadcast_to d a s = Ok a' /\ shape a' = s.
Proof.
  intros H. unfold broadcast_to. destruct (decide (shape a = s)); [eauto|].
  rewrite H. cbn. rewrite decide_True by done. eauto.
Qed.

Lemma zip_nd_shape {E} (d : E) f (a b : ndarray E) s :
  broadcast_shapes (shape a) (shape b) = Ok s ->
  broadcast_shapes (shape a) s = Ok s ->
  broadcast_shapes (shape b) s = Ok s ->
  exists c, zip_nd d f a b = Ok c /\ shape c = s.
Proof.
  intros H Ha Hb. unfold zip_nd. rewrite H. cbn [mbind result_bind].
  destruct (broadcast_to_shape d a s Ha) as (a' & -> & _).
  destruct (broadcast_to_shape d b s Hb) as (b' & -> & _).
  cbn. eauto.
Qed.

Lemma izip_nd_shape {E} (d : E) f (a b : ndarray E) :
  broadcast_shapes (shape b) (shape a) = Ok (shape a) ->
  exists c, izip_nd d f a b = Ok c /\ shape c = shape a.
Proof.
  intros H. unfold izip_nd.
  destruct (broadcast_to_shape d b _ H) as (b' & -> & _). cbn. eauto.
Qed.

Lemma sum_axis_shape ax a :
  ax < ndim a ->
  exists c, sum_axis ax a = Ok c /\ shape c = remove_at ax (shape a).
Proof.
  intros H. unfold sum_axis. destruct (Nat.ltb_spec ax (ndim a)); [|lia]. eauto.
Qed.

Lemma matmul_shape_length a b n k m :
  shape a = [n; k] -> shape b = [k; m] ->
  exists c, matmul a b = Ok c /\ shape c = [n; m]
            /\ length (buf c) = size_of [n; m].
Proof.
  intros Ha Hb. unfold matmul. rewrite Ha, Hb, Nat.eqb_refl.
  eexists. split; [reflexivity|]. split; [done|].
  cbn [tabulate buf]. by rewrite length_map, length_seq.
Qed.

Lemma add_scalar_zero (a : arr) : add_scalar a 0 = a.
Proof.
  destruct a as [s b]. unfold add_scalar, map_nd. cbn. f_equal.
  induction b as [|v b IH]; cbn; [done|]. rewrite IH. f_equal. lia.
Qed.

End ArrayFacts.

Ltac bc_solve :=
  unfold Np.broadcast_shapes; cbn [rev app Np.bc_rev];
  do 4 (rewrite ?bc_dim_refl, ?bc_dim_1_l, ?bc_dim_1_r; cbn);
  try reflexivity.

(** ** Stepping through a method *)

Ltac st_unfold :=
  unfold mbind, St_bind, zoom, self_, lift, update, mret, St_ret in *.

(** Every call inside a method that returned has returned. *)
Ltac case_result H :=
  repeat match type of H with
  | context [match ?r with Ok _ => _ | Raise _ => _ end] =>
      let E := fresh "E" in destruct r eqn:E; try discriminate H
  | context [match ?p with (_, _) => _ end] =>
      let E := fresh "E" in destruct p eqn:E; try discriminate H
  end.

Ltac some_of_ok :=
  repeat match goal with
  | H : match ?o with Some _ => _ | None => _ end = Ok _ |- _ =>
      destruct o eqn:?; [injection H as ->|discriminate H]
  end.

(** ** The layer base class *)

Section LayerFacts.
Import Np Walnut.

Lemma layer_backward_upstream {E} (net : gmap nat (Layer.t E)) l dy :
  Layer.upstream net l = Some dy ->
  exists l', Layer.backward net l = (l', Ok tt)
             /\ grad (Layer.y l') = Some dy
             /\ Layer.x l' = Layer.x l
             /\ data (Layer.y l') = data (Layer.y l)
             /\ Layer.mode l' = Layer.mode l.
Proof.
  unfold Layer.upstream, Layer.backward. intros H. st_unfold.
  destruct (Layer.succ_layer l) as [r|].
  - destruct (net !! r) as [s|] eqn:Hs; [|done]. simpl in H.
    cbn. eauto 10.
  - exists l. cbn. eauto 10.
Qed.

Lemma layer_forward_input {E} (net : gmap nat (Layer.t E)) l xd :
  Layer.input net l = Some xd ->
  exists l', Layer.forward net l = (l', Ok tt)
             /\ data (Layer.x l') = Some xd
             /\ Layer.y l' = Layer.y l
             /\ Layer.mode l' = Layer.mode l
             /\ Layer.succ_layer l' = Layer.succ_layer l.
Proof.
  unfold Layer.input, Layer.forward. intros H. st_unfold.
  destruct (Layer.prev_layer l) as [r|].
  - destruct (net !! r) as [p|] eqn:Hp; [|done]. simpl in H.
    cbn. eauto 10.
  - exists l. cbn. eauto 10.
Qed.

End LayerFacts.

(** ** Linear *)

Section LinearFacts.
Import Np Walnut.

Ltac linear_unfold :=
  unfold Linear.x, Linear.y, Linear.w, Linear.b, Linear.use_bias, Linear.set_x,
    Linear.set_y, Linear.set_w, Linear.set_b, Linear.set_base, Linear.base,
    Linear.set_super, the_grad, the_data in *.

(** C3, as the design states it, fails: a weight that already holds the
    gradient [[5]] holds [[6]] = x.T @ dy after [backward], not the sum
    [[11]]. *)
Lemma linear_backward_accumulates_counterexample :
  ~ (forall net self wt g_old xd dy dw self',
       Linear.w self = Some wt -> grad wt = Some g_old ->
       data (Linear.x self) = Some xd ->
       Layer.upstream net (Linear.base self) = Some dy ->
       matmul (transpose xd) dy = Ok dw ->
       Linear.backward net self = (self', Ok tt) ->
       exists wt' acc,
         Linear.w self' = Some wt' /\ grad wt' = Some acc
         /\ add g_old dw = Ok acc).
Proof.
  intros H.
  destruct (H Samples.lin_net Samples.lin Samples.lin_w
              (NdArray [1; 1] [5%Z]) (NdArray [1; 1] [2%Z])
              (NdArray [1; 1] [3%Z]) (NdArray [1; 1] [6%Z])
              (fst (Linear.backward Samples.lin_net Samples.lin)))
    as (wt' & acc & Hw & Hg & Hacc); try reflexivity.
  vm_compute in Hw. injection Hw as <-.
  vm_compute in Hg. injection Hg as <-.
  vm_compute in Hacc. discriminate Hacc.
Qed.

(** C3, amended: [backward] stores x.T @ dy as the gradient of the weight,
    whatever gradient the weight held before. *)
Theorem linear_backward_overwrites net self wt wd xd dy n d a :
  Layer.upstream net (Linear.base self) = Some dy ->
  shape dy = [n; a] ->
  data (Linear.x self) = Some xd -> shape xd = [n; d] ->
  Linear.w self = Some wt -> data wt = Some wd -> shape wd = [d; a] ->
  (Linear.use_bias self = true -> is_Some (Linear.b self)) ->
  exists self' dw,
    Linear.backward net self = (self', Ok tt)
    /\ matmul (transpose xd) dy = Ok dw
    /\ Linear.w self' = Some (mkTensor (Some wd) (Some dw)).
Proof.
  intros Hup Hdy Hx Hxs Hw Hwd Hws Hb.
  destruct (layer_backward_upstream _ _ _ Hup) as (bl & Hbl & Hg & Hxl & Hyl & _).
  destruct (matmul_shapes dy (transpose wd) n a d) as (dx & Hdx & _);
    [done | by rewrite transpose_shape, Hws |].
  destruct (matmul_shapes (transpose xd) dy d n a) as (dw & Hdw & _);
    [by rewrite transpose_shape, Hxs | done |].
  assert (Hsum : exists db, sum_axis 0 dy = Ok db).
  { unfold sum_axis, ndim. rewrite Hdy. cbn. eauto. }
  destruct Hsum as [db Hdb].
  unfold Linear.backward. st_unfold.
  rewrite Hbl. linear_unfold.
  destruct self as [[bs act norm init ub w b ps] oc]. cbn in *.
  rewrite Hg, Hw. cbn. rewrite Hwd. cbn. rewrite Hdx. cbn.
  rewrite Hxl, Hx. cbn. rewrite Hdw.
  destruct ub; cbn.
  - destruct Hb as [bt ->]; [done|]. cbn. rewrite Hdb.
    eexists _, dw. split; [reflexivity|]. split; [done|].
    cbn. by destruct wt; cbn in *; subst.
  - eexists _, dw. split; [reflexivity|]. split; [done|].
    cbn. by destruct wt; cbn in *; subst.
Qed.

Lemma linear_backward_overwrites_witness :
  exists self' dw,
    Linear.backward Samples.lin_net Samples.lin = (self', Ok tt)
    /\ matmul (transpose (NdArray [1; 1] [2%Z])) (NdArray [1; 1] [3%Z]) = Ok dw
    /\ Linear.w self'
       = Some (mkTensor (Some (NdArray [1; 1] [1%Z])) (Some dw)).
Proof.
  apply (linear_backward_overwrites Samples.lin_net Samples.lin Samples.lin_w
           (NdArray [1; 1] [1%Z]) (NdArray [1; 1] [2%Z]) (NdArray [1; 1] [3%Z])
           1 1 1); try reflexivity.
  intros _. eexists. reflexivity.
Defined.

End LinearFacts.

(** ** Convolution *)

Section ConvolutionFacts.
Import Np Walnut.
#[local] Arguments Nat.ltb : simpl never.

Ltac conv_unfold :=
  unfold Convolution.x, Convolution.y, Convolution.w, Convolution.b,
    Convolution.use_bias, Convolution.set_x, Convolution.set_y,
    Convolution.set_w, Convolution.set_b, Convolution.set_base,
    Convolution.base, Convolution.set_super, Convolution.params,
    Convolution.set_params in *.

(** Whenever [backward] returns on a layer with a bias, the gradient of the
    bias is the sum of the cached output [y.data] over the axes 0, 2 and 3;
    the upstream gradient [y.grad] does not enter. *)
Lemma conv_backward_bias_from_output net self self' :
  Convolution.use_bias self = true ->
  Convolution.backward net self = (self', Ok tt) ->
  exists bt yd db,
    data (Convolution.y self') = Some yd
    /\ sum_axes [0; 2; 3] yd = Ok db
    /\ Convolution.b self' = Some (set_grad (Some db) bt).
Proof.
  intros Hb H. unfold Convolution.backward in H. st_unfold.
  destruct self as [[bs act norm init ub w b ps] oc ks pf].
  conv_unfold. cbn in *. subst ub.
  destruct (Layer.backward net bs) as [bl [[]|e]] eqn:Hbl; [|discriminate H].
  case_result H.
  injection H as <-. cbn in *.
  unfold the_data, attr in *. some_of_ok.
  eexists _, _, _. split; [reflexivity|]. split; [eassumption|reflexivity].
Qed.

(** C1 does not hold of the code.  On a 2x2 image with a 1x1 kernel of
    weight one, the output is the image, of sum 10; the upstream gradient
    has sum 1; [backward] stores 10 as the gradient of the bias. *)
Theorem conv_backward_bias_grad_is_output_sum :
  let self := Samples.conv_compiled in
  let self' := fst (Convolution.backward Samples.conv_net self) in
  snd (Convolution.backward Samples.conv_net self) = Ok tt
  /\ data (Convolution.y self) = Some Samples.image
  /\ Layer.upstream Samples.conv_net (Convolution.base self)
     = Some Samples.conv_upstream
  /\ sum_axes [0; 2; 3] Samples.conv_upstream = Ok (NdArray [1] [1%Z])
  /\ sum_axes [0; 2; 3] Samples.image = Ok (NdArray [1] [10%Z])
  /\ (Convolution.b self' ≫= grad) = Some (NdArray [1] [10%Z]).
Proof. vm_compute. repeat split; reflexivity. Qed.

Lemma cyclic_product_shape ty tx a1 a2 lead :
  broadcast_shapes (take (ndim a1 - 2) (shape a1)) (take (ndim a2 - 2) (shape a2))
  = Ok lead ->
  exists c, cyclic_product ty tx a1 a2 = Ok c /\ shape c = lead ++ [ty; tx].
Proof. intros H. unfold cyclic_product. rewrite H. cbn. eauto. Qed.

Lemma fft_fit_shape ty tx a lead dy dx :
  shape a = lead ++ [dy; dx] -> 0 < ty -> 0 < tx ->
  exists c, fft_fit ty tx a = Ok c /\ shape c = lead ++ [ty; tx].
Proof.
  intros Ha Hy Hx. unfold fft_fit, ndim. rewrite Ha.
  destruct (Nat.eqb_spec ty 0); [lia|]. destruct (Nat.eqb_spec tx 0); [lia|].
  rewrite length_app. cbn [length].
  destruct (Nat.ltb_spec (length lead + 2) 2); [lia|]. cbn.
  eexists. split; [reflexivity|]. cbn.
  replace (length lead + 2 - 2) with (length lead) by lia.
  by rewrite take_app_length.
Qed.

Lemma convolve_forward_shape xp wr B C Yp Xp oc ky kx :
  shape xp = [B; C; Yp; Xp] -> shape wr = [oc; C; ky; kx] ->
  0 < Yp -> 0 < Xp ->
  exists c, Convolution.__convolve xp wr (Some (1, 0)) = Ok c
            /\ shape c = [B; oc; C; Yp; Xp].
Proof.
  intros Hx Hw Hy HX. unfold Convolution.__convolve. rewrite Hx. cbn [rev app].
  destruct (fft_fit_shape Yp Xp xp [B; C] Yp Xp) as (x1 & -> & Hx1); [done..|].
  destruct (fft_fit_shape Yp Xp wr [oc; C] ky kx) as (x2 & -> & Hx2); [done..|].
  cbn [mbind result_bind].
  destruct (cyclic_product_shape Yp Xp (expand_dims x1 1) (expand_dims x2 0)
              [B; oc; C]) as (c & -> & Hc).
  { unfold ndim, expand_dims. cbn [shape]. rewrite Hx1, Hx2. cbn. bc_solve. }
  eauto.
Qed.

Lemma bias_rows_shape bd B oc :
  shape bd = [oc] ->
  exists bias, mul bd (ones [B; 1]) = Ok bias /\ shape bias = [B; oc].
Proof.
  intros Hb. apply zip_nd_shape; rewrite ?Hb; cbn [ones full shape]; bc_solve.
Qed.

Lemma tail23_shape ly lx a d0 d1 dy dx :
  shape a = [d0; d1; dy; dx] ->
  exists c, Convolution.tail23 ly lx a = Ok c
            /\ shape c = [d0; d1; dy - clip ly dy; dx - clip lx dx].
Proof.
  intros H. unfold Convolution.tail23. rewrite H. cbn.
  eexists. split; [reflexivity|]. cbn. by rewrite !Nat.sub_0_r.
Qed.

Lemma flip23_shape a d0 d1 dy dx :
  shape a = [d0; d1; dy; dx] ->
  exists c, flip23 a = Ok c /\ shape c = [d0; d1; dy; dx].
Proof. intros H. unfold flip23. rewrite H. eauto. Qed.

Lemma conv_forward_shape net self xd xp wt wd B C Y X Yp Xp oc ky kx :
  Layer.input net (Convolution.base self) = Some xd ->
  shape xd = [B; C; Y; X] ->
  pad (Convolution.pad_fn self) xd (Convolution.kernel_shape self) = Ok xp ->
  shape xp = [B; C; Yp; Xp] -> 0 < Yp -> 0 < Xp ->
  Convolution.w self = Some wt -> data wt = Some wd ->
  shape wd = [oc; C; ky; kx] ->
  (Convolution.use_bias self = true ->
   exists bt bd, Convolution.b self = Some bt /\ data bt = Some bd
                 /\ shape bd = [oc]) ->
  exists self' yd,
    Convolution.forward net self = (self', Ok tt)
    /\ data (Convolution.y self') = Some yd
    /\ shape yd = [B; oc; Yp - clip (Z.of_nat ky - 1) Yp;
                           Xp - clip (Z.of_nat kx - 1) Xp]
    /\ Convolution.w self' = Convolution.w self
    /\ Convolution.b self' = Convolution.b self
    /\ Convolution.params self' = Convolution.params self.
Proof.
  intros Hin Hxs Hpad Hxps HY HX Hw Hwd Hws Hb.
  destruct (layer_forward_input _ _ _ Hin) as (bl & Hbl & Hx & _).
  destruct (flip23_shape wd _ _ _ _ Hws) as (wr & Hwr & Hwrs).
  destruct (convolve_forward_shape xp wr _ _ _ _ _ _ _ Hxps Hwrs HY HX)
    as (c & Hc & Hcs).
  destruct (sum_axis_shape 2 c) as (sm & Hsm & Hsms).
  { unfold ndim. rewrite Hcs. cbn. lia. }
  rewrite Hcs in Hsms. cbn in Hsms.
  destruct (tail23_shape (Z.of_nat ky - 1) (Z.of_nat kx - 1) sm _ _ _ _ Hsms)
    as (yd & Hyd & Hyds).
  unfold Convolution.forward. st_unfold. rewrite Hbl.
  destruct self as [[bs act norm init ub w b ps] oc' ks pf].
  conv_unfold. cbn in *. unfold the_data. rewrite Hx. cbn.
  rewrite Hpad. cbn. rewrite Hw. cbn.
  rewrite Hwd. cbn. rewrite Hwr. cbn. rewrite Hc. cbn. rewrite Hws. cbn.
  rewrite Hsm. cbn. rewrite Hyd. cbn.
  destruct ub; cbn.
  - destruct Hb as (bt & bd & -> & Hbd & Hbs); [done|].
    rewrite Hxs. cbn. rewrite Hbd. cbn.
    destruct (bias_rows_shape bd B oc Hbs) as (bias & -> & Hbias). cbn.
    destruct (izip_nd_shape 0%Z Z.add yd (match_dims bias 4)) as (yd' & Hyd' & Hyds').
    { unfold match_dims, ndim. cbn [shape]. rewrite Hbias, Hyds. cbn. bc_solve. }
    unfold iadd. rewrite Hyd'. cbn.
    eexists _, yd'. split; [reflexivity|]. cbn.
    rewrite Hyds', Hyds. done.
  - eexists _, yd. split; [reflexivity|]. cbn. done.
Qed.

(** C5, as the design states it, fails: with a 2x2 kernel on a 2x2 image
    the output is 1x1, [compile] raises, and by then the weights, the
    bias, the parameter list and the cached output have been written. *)
Lemma conv_compile_before_mutation_counterexample :
  ~ (forall i prev succ net self self' r yd d0 d1 y_y y_x,
       Convolution.compile i prev succ net self = (self', r) ->
       data (Convolution.y self') = Some yd ->
       shape yd = [d0; d1; y_y; y_x] ->
       y_y < fst (Convolution.kernel_shape self)
       \/ y_x < snd (Convolution.kernel_shape self) ->
       r = Raise ValueError
       /\ Convolution.w self' = Convolution.w self
       /\ Convolution.b self' = Convolution.b self
       /\ Convolution.params self' = Convolution.params self
       /\ Convolution.y self' = Convolution.y self).
Proof.
  intros H.
  destruct (H 1 (Some 0) (Some 2) Samples.conv_net (Samples.conv_new (2, 2))
              (fst (Convolution.compile 1 (Some 0) (Some 2) Samples.conv_net
                      (Samples.conv_new (2, 2))))
              (Raise ValueError) (NdArray [1; 1; 1; 1] [10%Z]) 1 1 1 1)
    as (_ & Hw & _); try reflexivity.
  - left. cbn. lia.
  - vm_compute in Hw. discriminate Hw.
Qed.

(** C5, amended: [compile] first stores the weights, the bias and the
    parameter list and runs [forward], which caches the output; then it
    raises the validation error exactly when the extent of that output is
    smaller than the kernel in one of the two spatial dimensions.  The
    stored values stay when the error is raised. *)
Theorem conv_compile_validates_after_setup
    i r succ net self p xd xp wd B C Y X Yp Xp :
  let ky := fst (Convolution.kernel_shape self) in
  let kx := snd (Convolution.kernel_shape self) in
  let oc := Z.to_nat (Convolution.out_channels self) in
  let w0 := ParamLayer.init_fn (Convolution.super self) [oc; C; ky; kx]
              (C * ky * kx) (ParamLayer.act_fn (Convolution.super self)) in
  let y_y := Yp - clip (Z.of_nat ky - 1) Yp in
  let y_x := Xp - clip (Z.of_nat kx - 1) Xp in
  net !! r = Some p -> data (Layer.y p) = Some xd ->
  shape xd = [B; C; Y; X] ->
  pad (Convolution.pad_fn self) xd (Convolution.kernel_shape self) = Ok xp ->
  shape xp = [B; C; Yp; Xp] -> 0 < Yp -> 0 < Xp ->
  data w0 = Some wd -> shape wd = [oc; C; ky; kx] ->
  exists self' yd,
    Convolution.compile i (Some r) succ net self
    = (self', if (y_y <? ky) || (y_x <? kx) then Raise ValueError else Ok tt)
    /\ Convolution.w self' = Some w0
    /\ Convolution.b self'
       = (if Convolution.use_bias self
          then Some (mkTensor (Some (zeros [oc])) None)
          else Convolution.b self)
    /\ Convolution.params self'
       = ParamLayer.param_list (Convolution.super self')
    /\ data (Convolution.y self') = Some yd
    /\ shape yd = [B; oc; y_y; y_x].
Proof.
  intros ky kx oc w0 y_y y_x Hp Hxd Hxs Hpad Hxps HY HX Hw0 Hws.
  unfold Convolution.compile. st_unfold.
  destruct self as [[bs act norm init ub w b ps] oc' [ky' kx'] pf].
  conv_unfold. cbn [Convolution.super Convolution.out_channels
    Convolution.kernel_shape Convolution.pad_fn ParamLayer.base
    ParamLayer.use_bias ParamLayer.init_fn ParamLayer.act_fn fst snd] in *.
  subst ky kx oc.
  destruct ub; cbn; rewrite Hp; cbn; unfold tshape, the_data;
    rewrite Hxd; cbn; rewrite Hxs; cbn; fold w0;
    (match goal with
     | |- context [Convolution.forward net ?s] =>
         destruct (conv_forward_shape net s xd xp w0 wd B C Y X Yp Xp
                     (Z.to_nat oc') ky' kx')
           as (s' & yd & Hf & Hyd & Hyds & Hw' & Hb' & Hps')
     end); try done.
  all: try (unfold Layer.input; conv_unfold; cbn; rewrite ?Hp; cbn; done).
  all: try (conv_unfold; cbn; intros _; eexists _, _; done).
  all: rewrite Hf; cbn; conv_unfold; rewrite Hyd; cbn; rewrite Hyds; cbn;
    fold y_y y_x; exists s', yd;
    (split; [by destruct (_ || _)|]);
    cbn in Hw', Hb', Hps'; unfold ParamLayer.param_list;
    rewrite Hw', Hb', Hyd, Hyds, Hps'; cbn; done.
Qed.


Lemma conv_compile_validates_after_setup_witness :
  exists self' yd,
    Convolution.compile 1 (Some 0) (Some 2) Samples.conv_net
      (Samples.conv_new (2, 2))
    = (self', Raise ValueError)
    /\ Convolution.w self' = Some (mkTensor (Some (ones [1; 1; 2; 2])) None)
    /\ Convolution.b self' = Some (mkTensor (Some (zeros [1])) None)
    /\ Convolution.params self'
       = ParamLayer.param_list (Convolution.super self')
    /\ data (Convolution.y self') = Some yd
    /\ shape yd = [1; 1; 1; 1].
Proof.
  apply (conv_compile_validates_after_setup 1 0 (Some 2) Samples.conv_net
           (Samples.conv_new (2, 2)) (Samples.feeding Samples.image)
           Samples.image Samples.image (ones [1; 1; 2; 2]) 1 1 2 2 2 2);
    try reflexivity; lia.
Defined.

End ConvolutionFacts.

(** ** Max pooling *)

Section MaxPoolingFacts.
Import Np Walnut.

Ltac pool_unfold :=
  unfold MaxPooling.x, MaxPooling.y, MaxPooling.set_x, MaxPooling.set_y,
    MaxPooling.set_base, MaxPooling.set_p_map in *.

Lemma resize_shape a s : shape (resize a s) = s.
Proof. unfold resize. by destruct (_ || _). Qed.

Lemma clip_within (n d : nat) : d <= n -> clip (Z.of_nat n) d = d.
Proof.
  intros H. unfold clip.
  destruct (Z.ltb_spec (Z.of_nat n) 0); [lia|].
  rewrite Nat2Z.id. lia.
Qed.

(** Whenever the selection map has the cropped shape, the input gradient
    that [backward] stores has the cropped shape too: the final slice
    [[:, :, :x_y, :x_x]] cannot extend it to the shape of the input. *)
Lemma maxpool_backward_shape net self pm dy xd d0 d1 fy fx x_y x_x s :
  Layer.upstream net (MaxPooling.base self) = Some dy ->
  shape dy = s -> 4 <= length s ->
  MaxPooling.p_map self = Some pm -> shape pm = [d0; d1; fy; fx] ->
  data (MaxPooling.x self) = Some xd -> shape xd = [d0; d1; x_y; x_x] ->
  fy <= x_y -> fx <= x_x ->
  exists self' g,
    MaxPooling.backward net self = (self', Ok tt)
    /\ grad (MaxPooling.x self') = Some g
    /\ shape g = [d0; d1; fy; fx].
Proof.
  intros Hup Hdy Hlen Hpm Hpms Hx Hxs Hfy Hfx.
  destruct (layer_backward_upstream _ _ _ Hup) as (bl & Hbl & Hg & Hxl & Hyl & _).
  unfold MaxPooling.backward. st_unfold. rewrite Hbl.
  destruct self as [bs pw pmap]. pool_unfold. cbn in *. subst pmap.
  unfold the_grad, tshape, the_data. rewrite Hg, Hxl, Hx. cbn.
  unfold MaxPooling.__stretch. destruct pw as [fa1 fa2].
  assert (Hnd : (2 <? ndim dy) && (3 <? ndim dy) = true).
  { unfold ndim. rewrite Hdy.
    apply andb_true_iff; split; apply Nat.ltb_lt; lia. }
  rewrite Hnd. cbn.
  set (dy_s := resize _ _).
  assert (Hs : shape dy_s = shape pm) by apply resize_shape.
  unfold mul. rewrite (zip_nd_same_shape _ _ dy_s pm) by done. cbn.
  rewrite Hxs, Hs, Hpms. cbn.
  eexists _, _. split; [reflexivity|]. cbn. split; [reflexivity|].
  cbn. unfold upto, whole. cbn.
  rewrite !clip_within by done. by rewrite !Nat.sub_0_r.
Qed.

(** C2 does not hold of the code.  On a 3x3 image with a 2x2 window,
    [forward] crops to 2x2 and [backward] returns an input gradient of
    shape (1, 1, 2, 2), not of the shape (1, 1, 3, 3) of the input. *)
Theorem maxpool_backward_keeps_cropped_shape :
  let self := Samples.pool_after_forward in
  let self' := fst (MaxPooling.backward Samples.pool_net self) in
  MaxPooling.forward Samples.pool_net Samples.pool_new = (self, Ok tt)
  /\ snd (MaxPooling.backward Samples.pool_net self) = Ok tt
  /\ tshape (MaxPooling.x self') = Ok [1; 1; 3; 3]
  /\ grad (MaxPooling.x self') = Some (NdArray [1; 1; 2; 2] [0; 0; 0; 1]%Z).
Proof. vm_compute. repeat split; reflexivity. Qed.

End MaxPoolingFacts.

(** ** Dropout *)

Section DropoutFacts.
Import Np Walnut.
#[local] Arguments Dropout.choice : simpl never.
#[local] Arguments Dropout.scaled : simpl never.

Ltac drop_unfold :=
  unfold Dropout.x, Dropout.y, Dropout.mode, Dropout.set_x, Dropout.set_y,
    Dropout.set_base, Dropout.set_d_map in *.

Lemma scaled_same_shape p (a m : ndarray Q) :
  shape m = shape a ->
  Dropout.scaled p a m
  = Ok (NdArray (shape a)
          (zip_with (fun v k => (v * k / (1 - p))%Q) (buf a) (buf m))).
Proof.
  intros H. unfold Dropout.scaled. rewrite zip_nd_same_shape by done.
  cbn. unfold map_nd. cbn. f_equal. f_equal.
  generalize (buf a) (buf m). induction l as [|v l IH]; intros [|k l']; cbn; auto.
  by rewrite IH.
Qed.

Lemma Forall2_zip_with {A B C} (R : C -> C -> Prop) (f g : A -> B -> C) l1 l2 :
  (forall a b, R (f a b) (g a b)) ->
  Forall2 R (zip_with f l1 l2) (zip_with g l1 l2).
Proof.
  intros H. revert l2. induction l1 as [|a l1 IH]; intros [|b l2]; cbn;
    constructor; auto.
Qed.

(** C7: in training mode [forward] draws the mask [m], caches it and
    returns x * m / (1 - p); the [backward] that follows returns
    dy * m / (1 - p) with that same [m] and the same factor, and the cached
    mask is still [m] afterwards.  [backward] has no access to the random
    draw. *)
Theorem dropout_backward_reuses_mask coins net net' self xd g :
  let p := Dropout.d_rate self in
  let m := Dropout.choice coins (shape xd) in
  Dropout.mode self = train ->
  Layer.input net (Dropout.base self) = Some xd ->
  Layer.upstream net' (Dropout.base self) = Some g ->
  shape g = shape xd ->
  exists self1 self2 dx,
    Dropout.forward coins net self = (self1, Ok tt)
    /\ Dropout.d_map self1 = Some m
    /\ data (Dropout.y self1)
       = Some (NdArray (shape xd)
                 (zip_with (fun v k => (v * k / (1 - p))%Q) (buf xd) (buf m)))
    /\ Dropout.backward net' self1 = (self2, Ok tt)
    /\ Dropout.d_map self2 = Some m
    /\ grad (Dropout.x self2) = Some (NdArray (shape xd) dx)
    /\ dx = zip_with (fun v k => (v * k / (1 - p))%Q) (buf g) (buf m)
    /\ Forall2 Qeq dx
         (zip_with (fun v k => (v * k * (1 / (1 - p)))%Q) (buf g) (buf m)).
Proof.
  intros p m Hmode Hin Hup Hgs.
  destruct (layer_forward_input _ _ _ Hin) as (bl & Hbl & Hx & Hy & Hm & Hsucc).
  destruct (Dropout.forward coins net self) as [self1 r] eqn:Hf.
  unfold Dropout.forward in Hf. st_unfold. rewrite Hbl in Hf.
  destruct self as [bs rate dm]. drop_unfold. cbn in *. subst p m.
  rewrite Hm, Hmode in Hf. unfold the_data in Hf. rewrite Hx in Hf. cbn in Hf.
  rewrite (scaled_same_shape rate xd (Dropout.choice coins (shape xd))) in Hf
    by done.
  cbn in Hf. injection Hf as <- <-.
  match goal with
  | |- exists _ _ _, (?s1, _) = _ /\ _ =>
      destruct (Dropout.backward net' s1) as [self2 r2] eqn:Hb
  end.
  pose proof Hb as Hb0.
  unfold Dropout.backward in Hb. st_unfold. drop_unfold. cbn in Hb.
  match type of Hb with
  | context [Layer.backward net' ?l] =>
      destruct (layer_backward_upstream net' l g)
        as (bl' & Hbl' & Hg' & Hxl' & Hyl' & _)
  end.
  { unfold Layer.upstream in *. cbn. rewrite Hsucc.
    destruct (Layer.succ_layer bs); [done|]. cbn. by rewrite Hy. }
  rewrite Hbl' in Hb. cbn in Hb. unfold the_grad in Hb. rewrite Hg' in Hb.
  cbn in Hb.
  rewrite (scaled_same_shape rate g (Dropout.choice coins (shape xd))) in Hb
    by (by rewrite Hgs).
  cbn in Hb. injection Hb as <- <-.
  eexists _, _, _. split; [reflexivity|]. cbn.
  split; [done|]. split; [done|]. split; [exact Hb0|]. cbn.
  split; [done|]. rewrite Hgs. split; [reflexivity|]. split; [reflexivity|].
  apply Forall2_zip_with. intros a b. unfold Qdiv. ring.
Qed.
Lemma dropout_backward_reuses_mask_witness :
  let p := (1 # 2)%Q in
  let m := Dropout.choice Nat.even [3] in
  exists self1 self2 dx,
    Dropout.forward Nat.even Samples.drop_net Samples.drop = (self1, Ok tt)
    /\ Dropout.d_map self1 = Some m
    /\ data (Dropout.y self1)
       = Some (NdArray [3]
                 (zip_with (fun v k => (v * k / (1 - p))%Q)
                    (buf Samples.drop_in) (buf m)))
    /\ Dropout.backward Samples.drop_net self1 = (self2, Ok tt)
    /\ Dropout.d_map self2 = Some m
    /\ grad (Dropout.x self2) = Some (NdArray [3] dx)
    /\ dx = zip_with (fun v k => (v * k / (1 - p))%Q)
              (buf Samples.drop_up) (buf m)
    /\ Forall2 Qeq dx
         (zip_with (fun v k => (v * k * (1 / (1 - p)))%Q)
            (buf Samples.drop_up) (buf m)).
Proof.
  apply (dropout_backward_reuses_mask Nat.even Samples.drop_net
           Samples.drop_net Samples.drop Samples.drop_in Samples.drop_up);
    reflexivity.
Defined.

End DropoutFacts.

(** ** Tensors *)

Section TensorFacts.
Import Np Compyute.

Lemma zip_add_zeros (b : list Z) n :
  length b = n -> zip_with Z.add (replicate n 0%Z) b = b.
Proof.
  intros <-. induction b as [|v b IH]; cbn; [done|]. by rewrite IH.
Qed.

Lemma new_spec (h : Tensor.heap) o :
  exists l, Tensor.new o h = (<[l := o]> h, Ok l) /\ h !! l = None.
Proof.
  unfold Tensor.new. eexists. split; [reflexivity|].
  apply not_elem_of_dom, is_fresh.
Qed.

Lemma deref_spec (h : Tensor.heap) l o :
  h !! l = Some o -> Tensor.deref l h = (h, Ok o).
Proof. intros H. unfold Tensor.deref. by rewrite H. Qed.

Lemma settles_mono dev n (h h' : Tensor.heap) l :
  h ⊆ h' -> Tensor.settles dev h l n = true -> Tensor.settles dev h' l n = true.
Proof.
  intros Hsub. revert l. induction n as [|n IH]; intros l; cbn;
    destruct (h !! l) as [o|] eqn:Hl; try done;
    rewrite (lookup_weaken _ _ _ _ Hl Hsub);
    destruct (bool_decide _); try done; destruct (Tensor.grad o); try done.
  apply IH.
Qed.

Lemma to_device_unfold fuel self device :
  Tensor.to_device (S fuel) self device
  = (o ← Tensor.deref self;
     if bool_decide (Tensor.device o = device) then mret self
     else
       new_tensor ← Tensor.__init__ (data_to_device (Tensor.data o) device);
       (if Tensor.truth_of_slot (Tensor.grad o)
        then
          g ← lift (attr (Tensor.grad o) AttributeError);
          g' ← Tensor.to_device fuel g device;
          Tensor.modify new_tensor (Tensor.set_grad (Some g'))
        else mret tt);;
       mret new_tensor).
Proof. reflexivity. Qed.

Lemma to_device_settles dev n : forall (h : Tensor.heap) l,
  Tensor.settles dev h l n = true ->
  exists h' l',
    Tensor.to_device (S n) l dev h = (h', Ok l')
    /\ h ⊆ h'
    /\ (exists o', h' !! l' = Some o' /\ Tensor.device o' = dev)
    /\ (forall o, h !! l = Some o -> Tensor.device o <> dev -> h !! l' = None).
Proof.
  induction n as [|n IH]; intros h l Hs.
  - cbn in Hs. destruct (h !! l) as [o|] eqn:Hl; [|done].
    rewrite to_device_unfold. st_unfold. rewrite (deref_spec _ _ _ Hl).
    destruct (bool_decide_reflect (Tensor.device o = dev)) as [Hd|Hd].
    + exists h, l. split; [done|]. split; [done|]. split; [eauto|].
      intros o' [= <-] Hne. done.
    + unfold Tensor.__init__.
      destruct (new_spec h (Tensor.Build (data_to_device (Tensor.data o) dev) None 0))
        as (l' & -> & Hfresh).
      destruct (Tensor.grad o) eqn:Hg; [done|]. cbn.
      eexists _, l'.
      split; [done|]. split; [by apply insert_subseteq|].
      split; [|done]. eexists. split; [apply lookup_insert_eq|done].
  - cbn in Hs. destruct (h !! l) as [o|] eqn:Hl; [|done].
    rewrite to_device_unfold. st_unfold. rewrite (deref_spec _ _ _ Hl).
    destruct (bool_decide_reflect (Tensor.device o = dev)) as [Hd|Hd].
    + exists h, l. split; [done|]. split; [done|]. split; [eauto|].
      intros o' [= <-] Hne. done.
    + unfold Tensor.__init__.
      destruct (new_spec h (Tensor.Build (data_to_device (Tensor.data o) dev) None 0))
        as (l' & -> & Hfresh).
      set (o1 := Tensor.Build _ None 0).
      destruct (Tensor.grad o) as [g|] eqn:Hg;
        cbn [Tensor.truth_of_slot Tensor.__bool__ attr].
      * destruct (IH (<[l' := o1]> h) g) as (h3 & g' & Hrec & Hsub & Hdev & _).
        { eapply settles_mono; [|exact Hs]. by apply insert_subseteq. }
        rewrite Hrec. cbn [fst snd]. unfold Tensor.modify, update.
        eexists _, l'. split; [reflexivity|].
        assert (H3 : h3 !! l' = Some o1).
        { eapply lookup_weaken; [|exact Hsub]. apply lookup_insert_eq. }
        split.
        { apply map_subseteq_spec. intros k v Hk.
          rewrite lookup_alter_ne by congruence.
          eapply lookup_weaken; [|exact Hsub].
          rewrite lookup_insert_ne by congruence. done. }
        split; [|done].
        eexists. rewrite lookup_alter_eq, H3. cbn. split; [reflexivity|done].
      * exists (<[l' := o1]> h), l'.
        split; [done|]. split; [by apply insert_subseteq|].
        split; [|done]. eexists. split; [apply lookup_insert_eq|done].
Qed.

Lemma wrap_fits (bits v : Z) :
  (0 < bits)%Z ->
  (- 2 ^ (bits - 1) <= v < 2 ^ (bits - 1))%Z -> wrap bits v = v.
Proof.
  intros Hb Hv. unfold wrap.
  assert (H2 : (2 ^ bits = 2 * 2 ^ (bits - 1))%Z).
  { rewrite <- Z.pow_succ_r by lia. f_equal. lia. }
  rewrite Z.mod_small by lia. lia.
Qed.

Lemma cast_cell_fits d v : fits d v = true -> cast_cell d v = v.
Proof.
  destruct d; cbn [fits cast_cell]; try done.
  - intros [H0 H1]%andb_true_iff. apply Z.leb_le in H0, H1.
    destruct (Z.eqb_spec v 0); lia.
  - intros [H0 H1]%andb_true_iff. apply Z.leb_le in H0. apply Z.ltb_lt in H1.
    apply wrap_fits; [lia|]. change (32 - 1)%Z with 31%Z. lia.
  - intros [H0 H1]%andb_true_iff. apply Z.leb_le in H0. apply Z.ltb_lt in H1.
    apply wrap_fits; [lia|]. change (64 - 1)%Z with 63%Z. lia.
Qed.

Lemma mirrors_unfold dev (h h' : Tensor.heap) n l l' :
  Tensor.mirrors dev h h' n l l'
  = match h !! l, h' !! l' with
    | Some o, Some o' =>
        if bool_decide (Tensor.device o = dev) then l' = l /\ o' = o
        else h !! l' = None
             /\ Tensor.data o' = data_to_device (Tensor.data o) dev
             /\ Tensor._iterator o' = 0
             /\ match Tensor.grad o, n with
                | None, _ => Tensor.grad o' = None
                | Some g, S n' =>
                    exists g', Tensor.grad o' = Some g'
                               /\ Tensor.mirrors dev h h' n' g g'
                | Some _, 0 => False
                end
    | _, _ => False
    end.
Proof. by destruct n. Qed.

(** What a conversion has built stays what it is when a tensor that is
    not part of it is changed afterwards. *)
Lemma mirrors_transfer dev (h h1 h3 : Tensor.heap) l0 f :
  h ⊆ h1 -> h !! l0 = None -> is_Some (h1 !! l0) ->
  forall n g g',
    Tensor.settles dev h g n = true ->
    Tensor.mirrors dev h1 h3 n g g' ->
    Tensor.mirrors dev h (alter f l0 h3) n g g'.
Proof.
  intros Hsub Hl0 [o0 Ho0].
  induction n as [|n IH]; intros g g' Hs Hm;
    rewrite mirrors_unfold in Hm |- *; cbn [Tensor.settles] in Hs;
    destruct (h !! g) as [og|] eqn:Hg; try done;
    rewrite (lookup_weaken _ _ _ _ Hg Hsub) in Hm;
    destruct (h3 !! g') as [og'|] eqn:Hg'; try done;
    destruct (bool_decide_reflect (Tensor.device og = dev)) as [Hd|Hd].
  - destruct Hm as [-> ->].
    rewrite lookup_alter_ne by congruence. by rewrite Hg'.
  - destruct Hm as (Hnew & Hdata & Hit & Hgrad).
    rewrite lookup_alter_ne by congruence. rewrite Hg'.
    split; [|done].
    destruct (h !! g') eqn:E; [|done].
    by rewrite (lookup_weaken _ _ _ _ E Hsub) in Hnew.
  - destruct Hm as [-> ->].
    rewrite lookup_alter_ne by congruence. by rewrite Hg'.
  - destruct Hm as (Hnew & Hdata & Hit & Hgrad).
    rewrite lookup_alter_ne by congruence. rewrite Hg'.
    split.
    { destruct (h !! g') eqn:E; [|done].
      by rewrite (lookup_weaken _ _ _ _ E Hsub) in Hnew. }
    split; [done|]. split; [done|].
    destruct (Tensor.grad og) as [gg|]; [|done].
    destruct Hgrad as (g'' & Hgg & Hrec). exists g''. split; [done|].
    by apply IH.
Qed.

Lemma to_device_mirrors dev n : forall (h : Tensor.heap) l,
  Tensor.settles dev h l n = true ->
  exists h' l',
    Tensor.to_device (S n) l dev h = (h', Ok l')
    /\ h ⊆ h'
    /\ Tensor.mirrors dev h h' n l l'
    /\ (forall o, h !! l = Some o -> Tensor.device o <> dev ->
          Tensor.grad o = None ->
          h' = <[l' := Tensor.Build (data_to_device (Tensor.data o) dev)
                         None 0]> h).
Proof.
  induction n as [|n IH]; intros h l Hs.
  - cbn in Hs. destruct (h !! l) as [o|] eqn:Hl; [|done].
    rewrite to_device_unfold. st_unfold. rewrite (deref_spec _ _ _ Hl).
    destruct (bool_decide_reflect (Tensor.device o = dev)) as [Hd|Hd].
    + exists h, l. split; [done|]. split; [done|]. split.
      * rewrite mirrors_unfold, Hl. by rewrite bool_decide_eq_true_2.
      * intros o' [= <-] Hne. done.
    + unfold Tensor.__init__.
      destruct (new_spec h (Tensor.Build (data_to_device (Tensor.data o) dev) None 0))
        as (l' & -> & Hfresh).
      destruct (Tensor.grad o) eqn:Hg; [done|]. cbn -[Tensor.mirrors].
      eexists _, l'.
      split; [done|]. split; [by apply insert_subseteq|]. split.
      * rewrite mirrors_unfold, Hl, lookup_insert_eq.
        rewrite bool_decide_eq_false_2 by done. by rewrite Hg.
      * by intros o' [= <-] _ _.
  - cbn in Hs. destruct (h !! l) as [o|] eqn:Hl; [|done].
    rewrite to_device_unfold. st_unfold. rewrite (deref_spec _ _ _ Hl).
    destruct (bool_decide_reflect (Tensor.device o = dev)) as [Hd|Hd].
    + exists h, l. split; [done|]. split; [done|]. split.
      * rewrite mirrors_unfold, Hl. by rewrite bool_decide_eq_true_2.
      * intros o' [= <-] Hne. done.
    + unfold Tensor.__init__.
      destruct (new_spec h (Tensor.Build (data_to_device (Tensor.data o) dev) None 0))
        as (l' & -> & Hfresh).
      set (o1 := Tensor.Build _ None 0).
      destruct (Tensor.grad o) as [g|] eqn:Hg;
        cbn [Tensor.truth_of_slot Tensor.__bool__ attr].
      * destruct (IH (<[l' := o1]> h) g) as (h3 & g' & Hrec & Hsub & Hm & _).
        { eapply settles_mono; [|exact Hs]. by apply insert_subseteq. }
        rewrite Hrec. cbn [fst snd]. unfold Tensor.modify, update.
        eexists _, l'. split; [reflexivity|].
        assert (H3 : h3 !! l' = Some o1).
        { eapply lookup_weaken; [|exact Hsub]. apply lookup_insert_eq. }
        split.
        { apply map_subseteq_spec. intros k v Hk.
          rewrite lookup_alter_ne by congruence.
          eapply lookup_weaken; [|exact Hsub].
          rewrite lookup_insert_ne by congruence. done. }
        split.
        { rewrite mirrors_unfold, Hl, lookup_alter_eq, H3. cbn [fmap option_fmap option_map].
          rewrite bool_decide_eq_false_2 by done.
          split; [done|]. split; [done|]. split; [done|].
          rewrite Hg. exists g'. split; [done|].
          eapply mirrors_transfer; [by apply insert_subseteq|done| |done|done].
          rewrite lookup_insert_eq. eauto. }
        intros o' [= <-] _ Hnone. congruence.
      * exists (<[l' := o1]> h), l'.
        split; [done|]. split; [by apply insert_subseteq|]. split.
        { rewrite mirrors_unfold, Hl, lookup_insert_eq.
          rewrite bool_decide_eq_false_2 by done. by rewrite Hg. }
        by intros o' [= <-] _ _.
Qed.

(** One step of [mirrors]: the array of the converted tensor. *)
Lemma mirrors_data dev (h h' : Tensor.heap) n l l' o :
  Tensor.mirrors dev h h' n l l' -> h !! l = Some o ->
  exists o', h' !! l' = Some o'
    /\ Tensor.data o' = data_to_device (Tensor.data o) dev
    /\ (Tensor.device o = dev -> l' = l)
    /\ (Tensor.device o <> dev -> h !! l' = None).
Proof.
  rewrite mirrors_unfold. intros Hm Hl. rewrite Hl in Hm.
  destruct (h' !! l') as [o'|]; [|done]. exists o'. split; [done|].
  destruct (bool_decide_reflect (Tensor.device o = dev)) as [Hd|Hd].
  - destruct Hm as [-> ->]. split; [|done].
    unfold Tensor.device, get_device_from_class in Hd.
    destruct (Tensor.data o) as [e t c]. cbn in Hd. by subst.
  - destruct Hm as (Hnew & Hdata & _). done.
Qed.

(** C9: a conversion to the device, or to the element type, that the tensor
    already has returns the very same tensor and changes nothing.  Any
    other conversion returns a tensor that did not exist before and leaves
    the existing tensors as they were; converting the result once more
    returns that result.  The tensor that [to_device] returns holds the
    cells and the element type of the source on the requested device, and
    its gradient is the conversion of the gradient of the source, all
    along the chain of gradients: a gradient that is on the device already
    is shared, another one is converted into a new tensor.  The tensor
    that [to_type] returns holds the cells of the source cast to the
    requested element type (a cell that is a value of that type is kept,
    a cast to truth values gives 1 for every cell but 0, a cast between
    integer types wraps around), on the device and with the shape of the
    source, and has no gradient. *)
Theorem tensor_conversions (h : Tensor.heap) self o :
  h !! self = Some o ->
  (forall fuel,
     Tensor.to_device (S fuel) self (Tensor.device o) h = (h, Ok self))
  /\ (forall device n,
        device <> Tensor.device o ->
        Tensor.settles device h self n = true ->
        exists h' l' o',
          Tensor.to_device (S n) self device h = (h', Ok l')
          /\ h !! l' = None /\ l' <> self /\ h ⊆ h'
          /\ h' !! l' = Some o' /\ Tensor.device o' = device
          /\ Tensor.to_device (S n) l' device h' = (h', Ok l')
          /\ Tensor.data o' = data_to_device (Tensor.data o) device
          /\ cells (Tensor.data o') = cells (Tensor.data o)
          /\ elt (Tensor.data o') = elt (Tensor.data o)
          /\ Tensor.mirrors device h h' n self l'
          /\ match Tensor.grad o with
             | None => Tensor.grad o' = None /\ h' = <[l' := o']> h
             | Some g =>
                 exists og g' og',
                   h !! g = Some og
                   /\ Tensor.grad o' = Some g'
                   /\ h' !! g' = Some og'
                   /\ Tensor.data og' = data_to_device (Tensor.data og) device
                   /\ (Tensor.device og = device -> g' = g)
                   /\ (Tensor.device og <> device -> h !! g' = None)
             end)
  /\ Tensor.to_type self (Tensor.dtype o) h = (h, Ok self)
  /\ (forall dtype,
        dtype <> Tensor.dtype o ->
        exists h' l' o',
          Tensor.to_type self dtype h = (h', Ok l')
          /\ h !! l' = None /\ l' <> self /\ h ⊆ h'
          /\ h' !! l' = Some o' /\ Tensor.dtype o' = dtype
          /\ Tensor.to_type l' dtype h' = (h', Ok l')
          /\ h' = <[l' := o']> h
          /\ Tensor.device o' = Tensor.device o
          /\ Tensor.grad o' = None
          /\ shape (cells (Tensor.data o')) = shape (cells (Tensor.data o))
          /\ (kind (Tensor.dtype o) <= 1 \/ dtype = bool_ \/ 2 <= kind dtype ->
              buf (cells (Tensor.data o'))
              = map (cast_cell dtype) (buf (cells (Tensor.data o))))
          /\ (Forall (fun v => fits dtype v = true)
                     (buf (cells (Tensor.data o))) ->
              cells (Tensor.data o') = cells (Tensor.data o))).
Proof.
  intros Hl.
  assert (Hsame_dev : forall fuel (h0 : Tensor.heap) l0 o0,
            h0 !! l0 = Some o0 ->
            Tensor.to_device (S fuel) l0 (Tensor.device o0) h0 = (h0, Ok l0)).
  { intros fuel h0 l0 o0 H0. rewrite to_device_unfold. st_unfold.
    rewrite (deref_spec _ _ _ H0). by rewrite bool_decide_eq_true_2. }
  assert (Hsame_ty : forall (h0 : Tensor.heap) l0 o0,
            h0 !! l0 = Some o0 ->
            Tensor.to_type l0 (Tensor.dtype o0) h0 = (h0, Ok l0)).
  { intros h0 l0 o0 H0. unfold Tensor.to_type. st_unfold.
    rewrite (deref_spec _ _ _ H0). by rewrite bool_decide_eq_true_2. }
  split; [by eauto|]. split; [|split; [by eauto|]].
  - intros device n Hne Hs.
    destruct (to_device_mirrors device n h self Hs)
      as (h' & l' & Hrun & Hsub & Hm & Hplain).
    pose proof Hm as Hm0. rewrite mirrors_unfold, Hl in Hm0.
    destruct (h' !! l') as [o'|] eqn:Ho'; [|done].
    rewrite bool_decide_eq_false_2 in Hm0 by congruence.
    destruct Hm0 as (Hfresh & Hdata & Hit & Hgrad).
    assert (Hdev : Tensor.device o' = device).
    { unfold Tensor.device. by rewrite Hdata. }
    exists h', l', o'. split; [done|].
    split; [done|]. split; [congruence|]. split; [done|].
    split; [done|]. split; [done|].
    split; [rewrite <- Hdev; by apply Hsame_dev|].
    split; [done|]. split; [by rewrite Hdata|]. split; [by rewrite Hdata|].
    split; [done|].
    destruct (Tensor.grad o) as [g|] eqn:Hg.
    + destruct n as [|n]; [done|]. destruct Hgrad as (g' & Hg' & Hrec).
      assert (Hog : exists og, h !! g = Some og).
      { cbn [Tensor.settles] in Hs. rewrite Hl, Hg in Hs.
        rewrite bool_decide_eq_false_2 in Hs by congruence.
        destruct n; cbn [Tensor.settles] in Hs;
          destruct (h !! g) as [og|]; eauto; done. }
      destruct Hog as [og Hog].
      destruct (mirrors_data _ _ _ _ _ _ _ Hrec Hog) as (og' & ? & ? & ? & ?).
      by exists og, g', og'.
    + split; [done|].
      rewrite (Hplain o Hl) by (done || congruence).
      f_equal. destruct o' as [d' g' i']. cbn in *. by subst.
  - intros dtype Hne. unfold Tensor.to_type. st_unfold.
    rewrite (deref_spec _ _ _ Hl).
    rewrite bool_decide_eq_false_2 by congruence.
    unfold Tensor.__init__.
    destruct (new_spec h (Tensor.Build (astype (Tensor.data o) dtype) None 0))
      as (l' & -> & Hfresh).
    eexists _, l', _. split; [reflexivity|]. split; [done|].
    split; [congruence|]. split; [by apply insert_subseteq|].
    split; [apply lookup_insert_eq|]. split; [done|].
    split.
    { rewrite (deref_spec _ l' _ (lookup_insert_eq _ _ _)).
      by rewrite bool_decide_eq_true_2. }
    split; [done|]. split; [done|]. split; [done|]. split; [done|].
    split; [done|].
    intros Hfit. cbn. destruct (cells (Tensor.data o)) as [s b].
    unfold map_nd. cbn in *. f_equal.
    induction Hfit as [|v b Hv _ IH]; cbn [map]; [done|].
    by rewrite IH, cast_cell_fits.
Qed.

(** C10: the truth value of a tensor is [True] whatever it holds; so is
    that of the tensor which [==] returns, and that of a slot which holds a
    gradient. *)
Theorem tensor_is_always_truthy (h : Tensor.heap) self other h' r :
  Tensor.__eq__ self other h = (h', Ok r) ->
  (forall t : nat, Tensor.__bool__ t = true)
  /\ is_Some (h' !! r)
  /\ Tensor.__bool__ r = true
  /\ (forall g : nat, Tensor.truth_of_slot (Some g) = true).
Proof.
  intros H. split; [done|]. split; [|done].
  unfold Tensor.__eq__ in H. st_unfold.
  unfold Tensor.deref, Tensor.__init__, Tensor.new in H.
  destruct (h !! self) as [o|]; cbn in H; [|discriminate H].
  destruct other as [l|k].
  - destruct (h !! l) as [v|]; cbn in H; [|discriminate H].
    destruct (eq_array _ _); cbn in H; [|discriminate H].
    injection H as <- <-. rewrite lookup_insert_eq. eauto.
  - injection H as <- <-. rewrite lookup_insert_eq. eauto.
Qed.

Lemma iadd_array_same_shape (a b : ArrayLike) :
  engine b = engine a -> kind (elt b) <= kind (elt a) ->
  shape (cells b) = shape (cells a) ->
  iadd_array a b
  = Ok (mkArray (engine a) (elt a)
          (NdArray (shape (cells a))
             (zip_with (add_cell (elt a)) (buf (cells a)) (buf (cells b))))).
Proof.
  intros He Hk Hs. unfold iadd_array.
  rewrite bool_decide_eq_true_2 by done. cbn [negb].
  destruct (Nat.leb_spec (kind (elt b)) (kind (elt a))); [|lia]. cbn [negb].
  by rewrite izip_nd_same_shape.
Qed.

Lemma add_cell_zero d v : fits d v = true -> add_cell d 0 v = v.
Proof.
  intros Hv. destruct d; exact (cast_cell_fits _ v Hv).
Qed.

Lemma add_cell_float d x y : 2 <= kind d -> add_cell d x y = (x + y)%Z.
Proof. destruct d; cbn; intros; try lia; done. Qed.

Lemma zip_add_cell_zeros d (b : list Z) n :
  length b = n -> Forall (fun v => fits d v = true) b ->
  zip_with (add_cell d) (replicate n 0%Z) b = b.
Proof.
  intros <- Hb. induction Hb as [|v b Hv _ IH]; cbn [length replicate zip_with];
    [done|].
  by rewrite IH, add_cell_zero.
Qed.

Lemma zip_add_cell_float d (a b : list Z) :
  2 <= kind d -> zip_with (add_cell d) a b = zip_with Z.add a b.
Proof.
  intros Hd. revert b. induction a as [|x a IH]; intros [|y b]; cbn; try done.
  by rewrite IH, add_cell_float.
Qed.

(** The arithmetic of the element types at work: an integer sum wraps
    around, the sum of truth values is their logical or, and a cast to
    truth values keeps only whether a cell is zero. *)
Example iadd_array_int32_wraps :
  iadd_array (mkArray cpu int32 (NdArray [1] [2147483647]%Z))
             (mkArray cpu int32 (NdArray [1] [1]%Z))
  = Ok (mkArray cpu int32 (NdArray [1] [-2147483648]%Z)).
Proof. reflexivity. Qed.

Example iadd_array_bool_is_or :
  iadd_array (mkArray cpu bool_ (NdArray [2] [1; 0]%Z))
             (mkArray cpu bool_ (NdArray [2] [1; 0]%Z))
  = Ok (mkArray cpu bool_ (NdArray [2] [1; 0]%Z)).
Proof. reflexivity. Qed.

Example astype_bool_of_floats :
  astype (mkArray cpu float32 (NdArray [3] [1; 2; 0]%Z)) bool_
  = mkArray cpu bool_ (NdArray [3] [1; 1; 0]%Z).
Proof. reflexivity. Qed.

(** C8: [target += incoming], for an incoming tensor whose cells are
    values of its element type.  On a slot without gradient the statement
    returns a tensor with exactly the cells of [incoming] and never
    raises; on a slot with a gradient of zeros it leaves the same cells;
    on a slot with a gradient it leaves in that gradient, cell by cell,
    the sum taken in the element type of the gradient, which is the plain
    sum in a floating or complex gradient, the logical or in a gradient of
    truth values and the sum wrapped around in a gradient of integers;
    the element type of the gradient stays.  The float [0.0] with which
    the parallel container starts behaves like the absent gradient. *)
Theorem gradient_accumulation (h : Tensor.heap) incoming oi :
  h !! incoming = Some oi ->
  length (buf (cells (Tensor.data oi)))
  = size_of (shape (cells (Tensor.data oi))) ->
  Forall (fun v => fits (elt (Tensor.data oi)) v = true)
         (buf (cells (Tensor.data oi))) ->
  (exists l' o',
     accumulate None incoming h = (<[l' := o']> h, Ok l')
     /\ h !! l' = None
     /\ cells (Tensor.data o') = cells (Tensor.data oi))
  /\ (exists hz z h' oz,
        Tensor.zeros_like incoming h = (hz, Ok z)
        /\ accumulate (Some z) incoming hz = (h', Ok z)
        /\ h' !! z = Some oz
        /\ cells (Tensor.data oz) = cells (Tensor.data oi))
  /\ (forall e oe,
        h !! e = Some oe ->
        engine (Tensor.data oi) = engine (Tensor.data oe) ->
        kind (elt (Tensor.data oi)) <= kind (elt (Tensor.data oe)) ->
        shape (cells (Tensor.data oi)) = shape (cells (Tensor.data oe)) ->
        exists h' oe',
          accumulate (Some e) incoming h = (h', Ok e)
          /\ h' !! e = Some oe'
          /\ elt (Tensor.data oe') = elt (Tensor.data oe)
          /\ cells (Tensor.data oe')
             = NdArray (shape (cells (Tensor.data oe)))
                 (zip_with (add_cell (elt (Tensor.data oe)))
                    (buf (cells (Tensor.data oe)))
                    (buf (cells (Tensor.data oi))))
          /\ (2 <= kind (elt (Tensor.data oe)) ->
              cells (Tensor.data oe')
              = NdArray (shape (cells (Tensor.data oe)))
                  (zip_with Z.add (buf (cells (Tensor.data oe)))
                                  (buf (cells (Tensor.data oi))))))
  /\ ParallelContainer.accum_iadd (ParallelContainer.Float 0)
       (cells (Tensor.data oi))
     = Ok (ParallelContainer.Array (cells (Tensor.data oi))).
Proof.
  intros Hl Hwf Hfit. split; [|split; [|split]].
  - unfold accumulate, Tensor.__radd__. st_unfold.
    rewrite (deref_spec _ _ _ Hl). unfold Tensor.__init__.
    destruct (new_spec h (Tensor.Build
                (add_float (Tensor.data oi) (Tensor.or_zero None)) None 0))
      as (l' & -> & Hfresh).
    eexists l', _. split; [reflexivity|]. split; [done|].
    cbn. apply add_scalar_zero.
  - unfold Tensor.zeros_like. st_unfold. rewrite (deref_spec _ _ _ Hl).
    unfold Tensor.__init__.
    set (oz := Tensor.Build _ None 0).
    destruct (new_spec h oz) as (z & -> & Hfresh).
    assert (Hz : (<[z := oz]> h) !! z = Some oz) by apply lookup_insert_eq.
    assert (Hi : (<[z := oz]> h) !! incoming = Some oi).
    { rewrite lookup_insert_ne by congruence. done. }
    eexists (<[z := oz]> h), z, _, _. split; [reflexivity|].
    unfold accumulate, Tensor.__iadd__. st_unfold.
    rewrite (deref_spec _ _ _ Hz), (deref_spec _ _ _ Hi).
    rewrite iadd_array_same_shape by done.
    unfold Tensor.modify, update. split; [reflexivity|].
    rewrite lookup_alter_eq, Hz. cbn. split; [reflexivity|].
    cbn. rewrite zip_add_cell_zeros by done.
    by destruct (cells (Tensor.data oi)).
  - intros e oe He Heng Hk Hs.
    unfold accumulate, Tensor.__iadd__. st_unfold.
    rewrite (deref_spec _ _ _ He), (deref_spec _ _ _ Hl).
    rewrite iadd_array_same_shape by done.
    unfold Tensor.modify, update.
    eexists _, _. split; [reflexivity|].
    rewrite lookup_alter_eq, He. cbn. split; [reflexivity|].
    split; [done|]. split; [done|].
    intros Hfl. by rewrite zip_add_cell_float.
  - cbn. by rewrite add_scalar_zero.
Qed.

Lemma tensor_conversions_witness :
  Tensor.to_device 1 1 cpu TensorSamples.heap0 = (TensorSamples.heap0, Ok 1)
  /\ (exists h' l' o',
        Tensor.to_device 2 1 cuda TensorSamples.heap0 = (h', Ok l')
        /\ TensorSamples.heap0 !! l' = None /\ l' <> 1
        /\ TensorSamples.heap0 ⊆ h'
        /\ h' !! l' = Some o' /\ Tensor.device o' = cuda
        /\ Tensor.to_device 2 l' cuda h' = (h', Ok l')
        /\ Tensor.data o' = mkArray cuda float32 (NdArray [2] [1; 2]%Z)
        /\ exists g' og',
             Tensor.grad o' = Some g' /\ h' !! g' = Some og'
             /\ Tensor.data og' = mkArray cuda float32 (NdArray [2] [0; 0]%Z)
             /\ TensorSamples.heap0 !! g' = None)
  /\ Tensor.to_type 1 float32 TensorSamples.heap0 = (TensorSamples.heap0, Ok 1)
  /\ (exists h' l' o',
        Tensor.to_type 1 bool_ TensorSamples.heap0 = (h', Ok l')
        /\ TensorSamples.heap0 !! l' = None /\ l' <> 1
        /\ h' = <[l' := o']> TensorSamples.heap0
        /\ Tensor.dtype o' = bool_
        /\ Tensor.grad o' = None
        /\ buf (cells (Tensor.data o')) = [1; 1]%Z
        /\ Tensor.to_type l' bool_ h' = (h', Ok l')).
Proof.
  destruct (tensor_conversions TensorSamples.heap0 1
              (Tensor.Build (TensorSamples.vec [1; 2]%Z) (Some 2) 0) eq_refl)
    as (H1 & H2 & H3 & H4).
  split; [exact (H1 0)|]. split; [|split; [exact H3|]].
  - destruct (H2 cuda 1) as (h' & l' & o' & Hrun & Hfresh & Hne & Hsub & Ho'
        & Hdev & Hidem & Hdata & _ & _ & _ & Hgrad);
      [discriminate|reflexivity|].
    cbn [Tensor.grad] in Hgrad.
    destruct Hgrad as (og & g' & og' & Hog & Hg' & Hog' & Hgd & _ & Hnew).
    injection Hog as <-.
    exists h', l', o'. repeat (split; [assumption|]).
    exists g', og'. split; [done|]. split; [done|]. split; [done|].
    apply Hnew. discriminate.
  - destruct (H4 bool_) as (h' & l' & o' & Hrun & Hfresh & Hne & _ & _
        & Hty & Hidem & Hh' & _ & Hgrad & _ & Hbuf & _); [discriminate|].
    exists h', l', o'. repeat (split; [assumption|]).
    split; [|done]. rewrite Hbuf; [reflexivity|]. right. by left.
Defined.

Lemma tensor_is_always_truthy_witness :
  let run := Tensor.__eq__ 1 (Tensor.OTensor 3) TensorSamples.heap0 in
  exists r o,
    snd run = Ok r
    /\ fst run !! r = Some o
    /\ cells (Tensor.data o) = NdArray [2] [0; 0]%Z
    /\ Tensor.__bool__ r = true
    /\ Tensor.truth_of_slot (Some 2) = true.
Proof.
  intros run.
  destruct (tensor_is_always_truthy TensorSamples.heap0 1 (Tensor.OTensor 3)
              (fst run) 4 eq_refl) as (_ & _ & Hb & Hs).
  exists 4. eexists. split; [reflexivity|]. split; [reflexivity|].
  split; [reflexivity|]. split; [exact Hb|exact (Hs 2)].
Defined.

Lemma gradient_accumulation_witness :
  (exists l' o',
     accumulate None 3 TensorSamples.heap0
     = (<[l' := o']> TensorSamples.heap0, Ok l')
     /\ TensorSamples.heap0 !! l' = None
     /\ cells (Tensor.data o') = NdArray [2] [5; 7]%Z)
  /\ (exists h' o1,
        accumulate (Some 1) 3 TensorSamples.heap0 = (h', Ok 1)
        /\ h' !! 1 = Some o1
        /\ cells (Tensor.data o1) = NdArray [2] [6; 9]%Z).
Proof.
  assert (Hfit : Forall (fun v => fits float32 v = true) [5; 7]%Z)
    by (by repeat constructor).
  destruct (gradient_accumulation TensorSamples.heap0 3
              (Tensor.Build (TensorSamples.vec [5; 7]%Z) None 0)
              eq_refl eq_refl Hfit) as (Habsent & _ & Hpresent & _).
  split; [exact Habsent|].
  destruct (Hpresent 1 (Tensor.Build (TensorSamples.vec [1; 2]%Z) (Some 2) 0)
              eq_refl eq_refl (le_n _) eq_refl)
    as (h' & o1 & Hrun & Ho1 & _ & _ & Hsum).
  exists h', o1. split; [exact Hrun|]. split; [exact Ho1|].
  apply Hsum. cbn. lia.
Defined.

End TensorFacts.

(** ** Containers *)

Section SequentialFacts.
Import Np.
Import SequentialContainer.
Context {M : Type}.
Variable child_call : arr -> St M arr.
Variable child_backward : arr -> St M arr.

Lemma fold_each_app {A B S} (l1 l2 : list A) (body : B -> A -> St S B) b s :
  fold_each (l1 ++ l2) body b s
  = match fold_each l1 body b s with
    | (s', Ok b') => fold_each l2 body b' s'
    | (s', Raise e) => (s', Raise e)
    end.
Proof.
  revert b s. induction l1 as [|a l1 IH]; intros b s; cbn.
  - done.
  - st_unfold. destruct (body b a s) as [s1 [b1|e]]; [apply IH|done].
Qed.

Lemma set_sub_modules_id (c : t M) : set_sub_modules (sub_modules c) c = c.
Proof. by destruct c. Qed.

Lemma on_child_middle {A} (f : St M A) pre m rest (c : t M) :
  sub_modules c = pre ++ m :: rest ->
  on_child (length pre) f c
  = (set_sub_modules (pre ++ fst (f m) :: rest) c, snd (f m)).
Proof.
  intros H. unfold on_child. rewrite H, list_lookup_middle by done.
  destruct (f m) as [m' r]. cbn.
  by rewrite insert_app_r_alt, Nat.sub_diag by lia.
Qed.

Lemma set_sub_modules_twice v v' (c : t M) :
  set_sub_modules v (set_sub_modules v' c) = set_sub_modules v c.
Proof. done. Qed.

(** The loop of [__call__] over the children [ms] that follow [pre]. *)
Lemma call_loop ms : forall pre x (c : t M),
  sub_modules c = pre ++ ms ->
  fold_each (seq (length pre) (length ms))
            (fun x k => on_child k (child_call x)) x c
  = (set_sub_modules (pre ++ fst (chain_forward child_call ms x)) c,
     snd (chain_forward child_call ms x)).
Proof.
  induction ms as [|m rest IH]; intros pre x c Hc.
  - cbn. rewrite <- Hc. by rewrite set_sub_modules_id.
  - cbn [length seq fold_each chain_forward]. st_unfold.
    rewrite (on_child_middle _ _ _ _ _ Hc).
    destruct (child_call x m) as [m' [x'|e]]; cbn [fst snd]; [|done].
    specialize (IH (pre ++ [m']) x'
                  (set_sub_modules (pre ++ m' :: rest) c)).
    rewrite length_app in IH. cbn [length] in IH.
    rewrite Nat.add_1_r in IH. rewrite IH.
    + destruct (chain_forward child_call rest x') as [rest' r]. cbn.
      by rewrite <- app_assoc.
    + cbn. by rewrite <- app_assoc.
Qed.

(** The loop of [backward] over the children [ms] that follow [pre], from
    the last one to the first. *)
Lemma backward_loop ms : forall pre dy (c : t M),
  sub_modules c = pre ++ ms ->
  fold_each (rev (seq (length pre) (length ms)))
            (fun dy k => on_child k (child_backward dy)) dy c
  = (set_sub_modules (pre ++ fst (chain_backward child_backward ms dy)) c,
     snd (chain_backward child_backward ms dy)).
Proof.
  induction ms as [|m rest IH]; intros pre dy c Hc.
  - cbn. rewrite <- Hc. by rewrite set_sub_modules_id.
  - cbn [length seq rev chain_backward]. rewrite fold_each_app.
    specialize (IH (pre ++ [m]) dy c).
    rewrite length_app in IH. cbn [length] in IH.
    rewrite Nat.add_1_r in IH. rewrite IH by (by rewrite <- app_assoc).
    destruct (chain_backward child_backward rest dy) as [rest' [d|e]];
      cbn [fst snd].
    + cbn [fold_each]. st_unfold.
      rewrite (on_child_middle _ pre m rest')
        by (cbn; by rewrite <- app_assoc).
      destruct (child_backward d m) as [m' r]. cbn.
      rewrite <- app_assoc. by destruct r.
    + by rewrite <- app_assoc.
Qed.

(** C6: in training mode the call of a sequential container is the chain
    of its children's calls from left to right, and the [backward] that the
    call installs is the chain of their backward procedures from right to
    left: the same output, the same input gradient and the same children
    afterwards (and so the same parameter gradients) as chaining by hand. *)
Theorem sequential_matches_manual_chaining (c : t M) x :
  training c = true ->
  exists c1,
    __call__ child_call x c = (c1, snd (chain_forward child_call (sub_modules c) x))
    /\ sub_modules c1 = fst (chain_forward child_call (sub_modules c) x)
    /\ forall out,
         snd (chain_forward child_call (sub_modules c) x) = Ok out ->
         has_backward c1 = true /\ y c1 = Some out
         /\ forall g, exists c2,
              backward child_backward g c1
              = (c2, snd (chain_backward child_backward (sub_modules c1) g))
              /\ sub_modules c2
                 = fst (chain_backward child_backward (sub_modules c1) g)
              /\ dy c2 = Some g.
Proof.
  intros Htr. unfold __call__. st_unfold.
  pose proof (call_loop (sub_modules c) [] x c eq_refl) as Hloop.
  cbn [length app] in Hloop. rewrite Hloop.
  destruct (chain_forward child_call (sub_modules c) x) as [ms1 [out|e]];
    cbn [fst snd].
  - rewrite Htr. cbn. eexists. split; [reflexivity|]. split; [done|].
    intros out' [= <-]. split; [done|]. split; [done|].
    intros g. unfold backward. st_unfold. cbn.
    match goal with
    | |- context [fold_each _ _ g ?c1] =>
        pose proof (backward_loop ms1 [] g c1 eq_refl) as Hb
    end.
    cbn [length app] in Hb. rewrite Hb.
    eexists. split; [reflexivity|]. by split.
  - eexists. split; [reflexivity|]. split; [done|]. intros out [=].
Qed.

End SequentialFacts.

Lemma sequential_matches_manual_chaining_witness :
  let c := ContainerSamples.seq0 in
  let x := ContainerSamples.x0 in
  let ms := SequentialContainer.sub_modules c in
  exists c1,
    SequentialContainer.__call__ Affine.call x c
    = (c1, snd (SequentialContainer.chain_forward Affine.call ms x))
    /\ SequentialContainer.sub_modules c1
       = fst (SequentialContainer.chain_forward Affine.call ms x)
    /\ forall out,
         snd (SequentialContainer.chain_forward Affine.call ms x) = Ok out ->
         SequentialContainer.has_backward c1 = true
         /\ SequentialContainer.y c1 = Some out
         /\ forall g, exists c2,
              SequentialContainer.backward Affine.backward g c1
              = (c2, snd (SequentialContainer.chain_backward Affine.backward
                            (SequentialContainer.sub_modules c1) g))
              /\ SequentialContainer.sub_modules c2
                 = fst (SequentialContainer.chain_backward Affine.backward
                          (SequentialContainer.sub_modules c1) g)
              /\ SequentialContainer.dy c2 = Some g.
Proof.
  apply (sequential_matches_manual_chaining Affine.call Affine.backward
           ContainerSamples.seq0 ContainerSamples.x0).
  reflexivity.
Defined.

(** Two primitives in a chain, on the samples: the container returns what
    the two calls by hand return, [(x @ w2 + b2) @ w1 + b1] and then the
    gradient [dy @ w1.T @ w2.T], and leaves the children with the same
    parameter gradients. *)
Example sequential_two_primitives :
  let '(f1, r1) := Affine.call ContainerSamples.x0 ContainerSamples.aff_b in
  let '(g1, r2) := Affine.call (Np.NdArray [1; 2] [7; 10]%Z) ContainerSamples.aff_a in
  let '(g2, r3) := Affine.backward (Np.NdArray [1; 1] [1%Z]) g1 in
  let '(f2, r4) := Affine.backward (Np.NdArray [1; 2] [1; 2]%Z) f1 in
  let '(c1, out) :=
    SequentialContainer.__call__ Affine.call ContainerSamples.x0
      ContainerSamples.seq0 in
  let '(c2, dx) :=
    SequentialContainer.backward Affine.backward (Np.NdArray [1; 1] [1%Z]) c1 in
  r1 = Ok (Np.NdArray [1; 2] [7; 10]%Z)
  /\ r2 = Ok (Np.NdArray [1; 1] [27%Z])
  /\ r3 = Ok (Np.NdArray [1; 2] [1; 2]%Z)
  /\ out = r2 /\ dx = r4
  /\ SequentialContainer.sub_modules c1 = [f1; g1]
  /\ SequentialContainer.sub_modules c2 = [f2; g2].
Proof. vm_compute. repeat split; reflexivity. Qed.

Section ParallelFacts.
Import Np.
Import ParallelContainer.

Lemma running_sums_spec es : forall acc,
  running_sums acc es
  = map (fun i => acc + sum_list (take (i + 1) es)) (seq 0 (length es)).
Proof.
  induction es as [|e r IH]; intros acc; [done|].
  cbn [running_sums length seq map]. rewrite IH. f_equal.
  - cbn. rewrite take_0. cbn. lia.
  - rewrite <- seq_shift, map_map. apply map_ext. intros i. cbn. lia.
Qed.

Lemma removelast_map {A B} (f : A -> B) l :
  removelast (map f l) = map f (removelast l).
Proof.
  induction l as [|a [|b l] IH]; try done.
  cbn [map removelast] in *. by rewrite IH.
Qed.

Lemma removelast_seq n : removelast (seq 0 n) = seq 0 (n - 1).
Proof.
  destruct n as [|n]; [done|].
  rewrite seq_S. cbn [Nat.add]. rewrite removelast_last. f_equal. lia.
Qed.

(** The offsets that [backward] computes are the running sums of the
    extents without the last one. *)
Lemma splits_are_boundaries es : splits es = boundaries es.
Proof.
  unfold splits, boundaries. rewrite running_sums_spec, removelast_map.
  rewrite removelast_seq. done.
Qed.

(** Splitting at those offsets gives the per-child slices. *)
Lemma split_from_slices ax dy es : forall lo,
  es <> [] ->
  split_from ax lo (removelast (running_sums lo es)) dy
  = slices_by_extent ax lo es dy.
Proof.
  induction es as [|e [|e' r] IH]; intros lo Hne; [done|done|].
  specialize (IH (lo + e)).
  cbn [running_sums] in *.
  change (removelast (lo + e :: lo + e + e' :: running_sums (lo + e + e') r))
    with (lo + e :: removelast (lo + e + e' :: running_sums (lo + e + e') r)).
  cbn [split_from slices_by_extent]. f_equal. by apply IH.
Qed.

Lemma zip_add_pointwise (b1 : list Z) : forall b2 n,
  length b1 = n -> length b2 = n ->
  zip_with Z.add b1 b2
  = map (fun p => (nth p b1 0 + nth p b2 0)%Z) (seq 0 n).
Proof.
  induction b1 as [|u b1 IH]; intros [|v b2] [|n] H1 H2; try done.
  cbn [zip_with seq map nth]. f_equal.
  rewrite <- seq_shift, map_map. apply IH; cbn in *; lia.
Qed.

Lemma nth_map_seq (f : nat -> Z) n p :
  p < n -> nth p (map f (seq 0 n)) 0%Z = f p.
Proof.
  intros H. rewrite (nth_indep _ 0%Z (f 0)) by (by rewrite length_map, length_seq).
  rewrite (map_nth f (seq 0 n) 0 p). by rewrite seq_nth.
Qed.

Lemma map_nth_seq (l : list Z) :
  map (fun p => nth p l 0%Z) (seq 0 (length l)) = l.
Proof.
  induction l as [|v l IH]; [done|].
  cbn [length seq map nth]. f_equal.
  by rewrite <- seq_shift, map_map.
Qed.

(** Adding the gradients one by one into an array gives, in every cell, the
    cell of the array plus the sum of the cells of the gradients. *)
Lemma accumulate_arrays s gs : forall a,
  shape a = s -> length (buf a) = size_of s ->
  Forall (fun g => shape g = s /\ length (buf g) = size_of s) gs ->
  py_for gs accum_iadd (Array a)
  = Ok (Array (NdArray s
         (map (fun p => (nth p (buf a) 0
                         + foldr Z.add 0 (map (fun g => nth p (buf g) 0) gs))%Z)
              (seq 0 (size_of s))))).
Proof.
  induction gs as [|g gs IH]; intros a Hs Hl Hall.
  - cbn. do 2 f_equal. destruct a as [sa ba]. cbn in *. subst sa. f_equal.
    rewrite <- Hl. rewrite <- (map_nth_seq ba) at 1.
    apply map_ext. intros p. lia.
  - apply Forall_cons in Hall as [[Hgs Hgl] Hall'].
    cbn [py_for accum_iadd]. unfold iadd.
    rewrite izip_nd_same_shape by congruence. cbn [mbind result_bind].
    rewrite IH; [| by rewrite Hs | | done].
    + do 3 f_equal. cbn [buf]. apply map_ext_in. intros p Hp.
      apply in_seq in Hp.
      rewrite (zip_add_pointwise _ _ (size_of s)) by done.
      rewrite nth_map_seq by lia. cbn. lia.
    + cbn [buf].
      rewrite (zip_add_pointwise _ _ (size_of s)) by done.
      by rewrite length_map, length_seq.
Qed.

(** From the float [0.0] on, the result is the elementwise sum. *)
Lemma accumulate_from_zero s g gs :
  Forall (fun g => shape g = s /\ length (buf g) = size_of s) (g :: gs) ->
  py_for (g :: gs) accum_iadd (Float 0) = Ok (Array (ewise_sum s (g :: gs))).
Proof.
  intros Hall. apply Forall_cons in Hall as [[Hgs Hgl] Hall'].
  cbn [py_for accum_iadd mbind result_bind]. rewrite add_scalar_zero.
  by rewrite (accumulate_arrays s gs g).
Qed.

Section Children.
Context {M : Type}.
Variable child_call : arr -> St M arr.
Variable child_backward : arr -> St M arr.

Lemma par_on_child_middle {A} (f : St M A) pre m rest (c : t M) :
  sub_modules c = pre ++ m :: rest ->
  on_child (length pre) f c
  = (set_sub_modules (pre ++ fst (f m) :: rest) c, snd (f m)).
Proof.
  intros H. unfold on_child. rewrite H, list_lookup_middle by done.
  destruct (f m) as [m' r]. cbn.
  by rewrite insert_app_r_alt, Nat.sub_diag by lia.
Qed.

Lemma par_set_sub_modules_id (c : t M) : set_sub_modules (sub_modules c) c = c.
Proof. by destruct c. Qed.

(** The loop of [backward]: chunk [i] goes to child [i], and the gradients
    are added up in the order of the children. *)
Lemma feed_loop chunks : forall ms pre dx (c : t M) ms' gs acc,
  sub_modules c = pre ++ ms ->
  feed child_backward ms chunks = (ms', Ok gs) ->
  py_for gs accum_iadd dx = Ok acc ->
  fold_each (imap (fun i ch => (length pre + i, ch)) chunks)
            (fun dx ic => g ← on_child (fst ic) (child_backward (snd ic));
                          lift (accum_iadd dx g))
            dx c
  = (set_sub_modules (pre ++ ms') c, Ok acc).
Proof.
  induction chunks as [|ch chunks IH]; intros ms pre dx c ms' gs acc Hc Hfeed Hacc.
  - destruct ms; cbn in Hfeed; injection Hfeed as <- <-;
      cbn in Hacc; injection Hacc as <-; cbn;
      rewrite <- Hc; by rewrite par_set_sub_modules_id.
  - destruct ms as [|m ms]; [done|]. cbn [feed] in Hfeed.
    destruct (child_backward ch m) as [m' [g|e]] eqn:Hm; [|done].
    destruct (feed child_backward ms chunks) as [ms'' [gs'|e]] eqn:Hrest;
      cbn in Hfeed; [|done].
    injection Hfeed as <- <-.
    cbn [py_for] in Hacc.
    destruct (accum_iadd dx g) as [dx1|e] eqn:Hdx; [|done].
    cbn [mbind result_bind] in Hacc.
    cbn [imap fold_each fst snd]. st_unfold.
    rewrite Nat.add_0_r, (par_on_child_middle _ _ _ _ _ Hc), Hm.
    cbn [fst snd]. rewrite Hdx.
    specialize (IH ms (pre ++ [m']) dx1
                  (set_sub_modules (pre ++ m' :: ms) c) ms'' gs' acc
                  ltac:(cbn; by rewrite <- app_assoc) Hrest Hacc).
    rewrite (imap_ext _ (fun i ch => (length (pre ++ [m']) + i, ch))).
    + rewrite IH. cbn. by rewrite <- app_assoc.
    + intros i x _. cbn. rewrite length_app. cbn. f_equal. lia.
Qed.

(** The loop of [__call__]: every child is called on [x]; the outputs
    are collected in the order of the children. *)
Lemma fan_out_loop ms : forall pre x ys0 (c : t M),
  sub_modules c = pre ++ ms ->
  fold_each (seq (length pre) (length ms))
            (fun ys k => y ← on_child k (child_call x); mret (ys ++ [y]))
            ys0 c
  = (set_sub_modules (pre ++ fst (fan_out child_call ms x)) c,
     ys ← snd (fan_out child_call ms x); Ok (ys0 ++ ys)).
Proof.
  induction ms as [|m rest IH]; intros pre x ys0 c Hc.
  - cbn. rewrite <- Hc, par_set_sub_modules_id. by rewrite app_nil_r.
  - cbn [length seq fold_each fan_out]. st_unfold.
    rewrite (par_on_child_middle _ _ _ _ _ Hc).
    destruct (child_call x m) as [m' [y1|e]]; cbn [fst snd]; [|done].
    specialize (IH (pre ++ [m']) x (ys0 ++ [y1])
                  (set_sub_modules (pre ++ m' :: rest) c)).
    rewrite length_app in IH. cbn [length] in IH.
    rewrite Nat.add_1_r in IH. rewrite IH by (cbn; by rewrite <- app_assoc).
    destruct (fan_out child_call rest x) as [rest' [ys|e]]; cbn.
    + by rewrite <- !app_assoc.
    + by rewrite <- app_assoc.
Qed.

Lemma mapM_result_length {A B} (f : A -> result B) l : forall k,
  mapM f l = Ok k -> length k = length l.
Proof.
  induction l as [|a l IH]; intros k H; cbn in H.
  - by injection H as <-.
  - destruct (f a); [|done]. cbn in H.
    destruct (mapM f l) as [k'|]; [|done]. cbn in H.
    injection H as <-. cbn. f_equal. by apply IH.
Qed.

Lemma feed_length chunks : forall ms ms' gs,
  feed child_backward ms chunks = (ms', Ok gs) -> length gs = length chunks.
Proof.
  induction chunks as [|ch chunks IH]; intros ms ms' gs H.
  - destruct ms; cbn in H; by injection H as <- <-.
  - destruct ms as [|m ms]; [done|]. cbn in H.
    destruct (child_backward ch m) as [m' [g|e]]; [|done].
    destruct (feed child_backward ms chunks) as [ms'' [gs'|e]] eqn:Hrest;
      cbn in H; [|done].
    injection H as <- <-. cbn. f_equal. by eapply IH.
Qed.

Lemma slices_nonempty ax lo es dy :
  es <> [] -> slices_by_extent ax lo es dy <> [].
Proof. destruct es as [|e [|e' r]]; done. Qed.

(** The general part of C4. *)
Lemma parallel_backward_general (c : t M) x ms1 ys out g es ax ms2 gs s :
  training c = true ->
  fan_out child_call (sub_modules c) x = (ms1, Ok ys) ->
  concatenate ys (concat_axis c) = Ok out ->
  mapM (fun y => shape_at y (concat_axis c)) ys = Ok es ->
  norm_axis (ndim g) (concat_axis c) = Ok ax ->
  feed child_backward ms1 (slices_by_extent ax 0 es g) = (ms2, Ok gs) ->
  Forall (fun d => shape d = s /\ length (buf d) = size_of s) gs ->
  exists c1 c2,
    __call__ child_call x c = (c1, Ok out)
    /\ sub_modules c1 = ms1
    /\ splits es = boundaries es
    /\ split g (splits es) (concat_axis c) = Ok (slices_by_extent ax 0 es g)
    /\ backward child_backward g c1 = (c2, Ok (Array (ewise_sum s gs)))
    /\ sub_modules c2 = ms2.
Proof.
  intros Htr Hfan Hcat Hes Hax Hfeed Hall.
  assert (Hne : es <> []).
  { apply mapM_result_length in Hes. destruct ys; [done|]. by destruct es. }
  assert (Hsplit : split g (splits es) (concat_axis c)
                   = Ok (slices_by_extent ax 0 es g)).
  { unfold split, tuple_index. rewrite Hax. cbn. rewrite splits_are_boundaries.
    unfold boundaries. by rewrite split_from_slices. }
  pose proof (fan_out_loop (sub_modules c) [] x [] c eq_refl) as Hloop.
  cbn [length app] in Hloop.
  unfold __call__. st_unfold.
  rewrite Hloop, Hfan. cbn. rewrite Hcat, Htr. cbn.
  eexists _, _. split; [reflexivity|]. split; [done|].
  split; [apply splits_are_boundaries|]. split; [done|].
  unfold backward. st_unfold. cbn. rewrite Hes. cbn. rewrite Hsplit. cbn.
  destruct gs as [|g1 gs].
  { apply feed_length in Hfeed.
    pose proof (slices_nonempty ax 0 es g Hne) as Hs.
    by destruct (slices_by_extent ax 0 es g). }
  match goal with
  | |- context [fold_each _ _ _ ?c1] =>
      pose proof (feed_loop (slices_by_extent ax 0 es g) ms1 [] (Float 0) c1
                    ms2 (g1 :: gs) _ eq_refl Hfeed
                    (accumulate_from_zero s g1 gs Hall)) as Hb
  end.
  cbn [length app Nat.add] in Hb.
  change (imap (fun i ch => (i, ch)) ?l) with (imap pair l) in Hb.
  st_unfold. rewrite Hb. done.
Qed.

End Children.

End ParallelFacts.

Section AffineFacts.
Import Np.


Lemma affine_accumulate_shape g dw s :
  Affine.grad_fits g s -> shape dw = s ->
  exists r, Affine.accumulate g dw = Ok r /\ shape r = s.
Proof.
  intros Hg Hdw. destruct g as [e|]; cbn in *; [|eauto].
  unfold add. rewrite zip_nd_same_shape by congruence. eauto.
Qed.

Lemma affine_call_shape l xv n d a :
  shape xv = [n; d] -> shape (Affine.w l) = [d; a] ->
  (forall bv, Affine.b l = Some bv -> shape bv = [a]) ->
  exists yv,
    Affine.call xv l
    = ((if Affine.training l then Affine.set_x (Some xv) l else l), Ok yv)
    /\ shape yv = [n; a].
Proof.
  intros Hx Hw Hb. unfold Affine.call. st_unfold.
  destruct (matmul_shapes xv (Affine.w l) n d a Hx Hw) as (xw & -> & Hxw).
  cbn. destruct (Affine.b l) as [bv|] eqn:Hbv.
  - destruct (zip_nd_shape 0%Z Z.add xw bv [n; a]) as (yv & Hy & Hys);
      rewrite ?Hxw, ?(Hb bv eq_refl); try bc_solve.
    unfold add. rewrite Hy. cbn. exists yv. by destruct (Affine.training l).
  - exists xw. by destruct (Affine.training l).
Qed.

Lemma affine_backward_shape l xv dy n d a :
  Affine.x l = Some xv -> shape xv = [n; d] ->
  shape (Affine.w l) = [d; a] -> shape dy = [n; a] ->
  Affine.grad_fits (Affine.w_grad l) [d; a] -> Affine.grad_fits (Affine.b_grad l) [a] ->
  exists l' dx,
    Affine.backward dy l = (l', Ok dx)
    /\ shape dx = [n; d] /\ length (buf dx) = size_of [n; d].
Proof.
  intros Hx Hxs Hw Hdy Hgw Hgb. unfold Affine.backward. st_unfold.
  rewrite Hx. cbn.
  destruct (matmul_shape_length dy (transpose (Affine.w l)) n a d)
    as (dx & -> & Hdx & Hlen); [done | by rewrite transpose_shape, Hw |].
  cbn.
  destruct (matmul_shapes (transpose xv) dy d n a) as (dw & -> & Hdw);
    [by rewrite transpose_shape, Hxs | done |].
  cbn.
  destruct (affine_accumulate_shape _ dw _ Hgw Hdw) as (gw & -> & _). cbn.
  destruct (Affine.b l) as [bv|]; cbn; [|eauto].
  destruct (sum_axis_shape 0 dy) as (db & -> & Hdb).
  { unfold ndim. rewrite Hdy. cbn. lia. }
  cbn. rewrite Hdy in Hdb. cbn in Hdb.
  destruct (affine_accumulate_shape _ db _ Hgb Hdb) as (gb & -> & _). cbn.
  eauto.
Qed.

Lemma concat2_shape y1 y2 n a b :
  shape y1 = [n; a] -> shape y2 = [n; b] ->
  exists out, concatenate [y1; y2] (-1) = Ok out /\ shape out = [n; a + b].
Proof.
  intros H1 H2. unfold concatenate, ndim. rewrite H1. cbn [length].
  change (norm_axis 2 (-1)) with (Ok (A:=nat) 1). cbn [mbind result_bind].
  cbn [forallb]. rewrite H1, H2. cbn [remove_at take drop app length].
  rewrite !bool_decide_eq_true_2 by done. rewrite Nat.eqb_refl. cbn [andb].
  eexists. split; [reflexivity|]. cbn. rewrite H1, H2. cbn.
  by rewrite Nat.add_0_r.
Qed.

Lemma slice_axis_shape ax lo hi (a : arr) :
  shape (slice_axis ax lo hi a) = alter (fun _ => hi - lo) ax (shape a).
Proof. done. Qed.

(** The part of C4 on two affine children: on an (N, D) input the output
    is (N, a + b); the gradient is split into an (N, a) and an (N, b)
    piece, one for each child, and the result is the elementwise sum of
    the two (N, D) gradients that the children return. *)
Lemma parallel_two_affine (c : ParallelContainer.t Affine.t) l1 l2 x g n d a b :
  ParallelContainer.training c = true ->
  ParallelContainer.sub_modules c = [l1; l2] ->
  ParallelContainer.concat_axis c = (-1)%Z ->
  shape x = [n; d] -> shape g = [n; a + b] ->
  shape (Affine.w l1) = [d; a] -> shape (Affine.w l2) = [d; b] ->
  (forall bv, Affine.b l1 = Some bv -> shape bv = [a]) ->
  (forall bv, Affine.b l2 = Some bv -> shape bv = [b]) ->
  Affine.training l1 = true -> Affine.training l2 = true ->
  Affine.grad_fits (Affine.w_grad l1) [d; a] -> Affine.grad_fits (Affine.b_grad l1) [a] ->
  Affine.grad_fits (Affine.w_grad l2) [d; b] -> Affine.grad_fits (Affine.b_grad l2) [b] ->
  exists c1 out c2 g1 g2 l1' l2' l1'' l2'' dx1 dx2,
    ParallelContainer.__call__ Affine.call x c = (c1, Ok out)
    /\ shape out = [n; a + b]
    /\ ParallelContainer.sub_modules c1 = [l1'; l2']
    /\ split g (ParallelContainer.splits [a; b]) (-1) = Ok [g1; g2]
    /\ shape g1 = [n; a] /\ shape g2 = [n; b]
    /\ Affine.backward g1 l1' = (l1'', Ok dx1)
    /\ Affine.backward g2 l2' = (l2'', Ok dx2)
    /\ shape dx1 = [n; d] /\ shape dx2 = [n; d]
    /\ ParallelContainer.backward Affine.backward g c1
       = (c2, Ok (ParallelContainer.Array
                    (ParallelContainer.ewise_sum [n; d] [dx1; dx2])))
    /\ ParallelContainer.sub_modules c2 = [l1''; l2''].
Proof.
  intros Htr Hsub Hax Hx Hg Hw1 Hw2 Hb1 Hb2 Ht1 Ht2 Hgw1 Hgb1 Hgw2 Hgb2.
  destruct (affine_call_shape l1 x n d a Hx Hw1 Hb1) as (y1 & Hc1 & Hy1).
  destruct (affine_call_shape l2 x n d b Hx Hw2 Hb2) as (y2 & Hc2 & Hy2).
  rewrite Ht1 in Hc1. rewrite Ht2 in Hc2.
  destruct (concat2_shape y1 y2 n a b Hy1 Hy2) as (out & Hcat & Hout).
  set (g1 := slice_axis 1 0 a g).
  set (g2 := slice_axis 1 a (a + b) g).
  assert (Hg1 : shape g1 = [n; a]).
  { unfold g1. rewrite slice_axis_shape, Hg. cbn. f_equal. f_equal. lia. }
  assert (Hg2 : shape g2 = [n; b]).
  { unfold g2. rewrite slice_axis_shape, Hg. cbn. f_equal. f_equal. lia. }
  destruct (affine_backward_shape (Affine.set_x (Some x) l1) x g1 n d a)
    as (l1'' & dx1 & Hbw1 & Hdx1 & Hlen1); try done.
  destruct (affine_backward_shape (Affine.set_x (Some x) l2) x g2 n d b)
    as (l2'' & dx2 & Hbw2 & Hdx2 & Hlen2); try done.
  assert (Hslices : ParallelContainer.slices_by_extent 1 0 [a; b] g = [g1; g2]).
  { cbn [ParallelContainer.slices_by_extent]. rewrite Hg. cbn [nth Nat.add].
    unfold g1, g2. rewrite (Nat.min_l a (a + b)) by lia. done. }
  destruct (parallel_backward_general Affine.call Affine.backward c x
              [Affine.set_x (Some x) l1; Affine.set_x (Some x) l2]
              [y1; y2] out g [a; b] 1 [l1''; l2''] [dx1; dx2] [n; d])
    as (c1 & c2 & Hcall & Hs1 & _ & Hsplit & Hback & Hs2); try done.
  - rewrite Hsub. cbn. by rewrite Hc1, Hc2.
  - by rewrite Hax.
  - rewrite Hax. cbn. unfold shape_at, ndim. by rewrite Hy1, Hy2.
  - rewrite Hax. unfold ndim. by rewrite Hg.
  - rewrite Hslices. cbn. by rewrite Hbw1, Hbw2.
  - by repeat constructor.
  - rewrite Hax, Hslices in Hsplit.
    exists c1, out, c2, g1, g2. eexists _, _, l1'', l2'', dx1, dx2.
    repeat (split; [eassumption||done|]). done.
Qed.

End AffineFacts.

(** C4: in training mode [backward] of a parallel container splits the
    output gradient at the running sums of the children's extents, the
    last one left out; the i-th slice goes to the backward procedure of the
    i-th child; the result is the elementwise sum of the gradients that the
    children return.  With two affine children of widths a and b on an
    (N, D) input the output has shape (N, a + b) and the result has shape
    (N, D). *)
Theorem parallel_backward_splits_and_sums :
  (forall (M : Type) (child_call child_backward : Np.arr -> St M Np.arr)
          (c : ParallelContainer.t M) x ms1 ys out g es ax ms2 gs s,
     ParallelContainer.training c = true ->
     ParallelContainer.fan_out child_call (ParallelContainer.sub_modules c) x
     = (ms1, Ok ys) ->
     Np.concatenate ys (ParallelContainer.concat_axis c) = Ok out ->
     mapM (fun y => Np.shape_at y (ParallelContainer.concat_axis c)) ys = Ok es ->
     Np.norm_axis (Np.ndim g) (ParallelContainer.concat_axis c) = Ok ax ->
     ParallelContainer.feed child_backward ms1
       (ParallelContainer.slices_by_extent ax 0 es g) = (ms2, Ok gs) ->
     Forall (fun d => Np.shape d = s /\ length (Np.buf d) = Np.size_of s) gs ->
     exists c1 c2,
       ParallelContainer.__call__ child_call x c = (c1, Ok out)
       /\ ParallelContainer.sub_modules c1 = ms1
       /\ ParallelContainer.splits es = ParallelContainer.boundaries es
       /\ Np.split g (ParallelContainer.splits es)
            (ParallelContainer.concat_axis c)
          = Ok (ParallelContainer.slices_by_extent ax 0 es g)
       /\ ParallelContainer.backward child_backward g c1
          = (c2, Ok (ParallelContainer.Array
                       (ParallelContainer.ewise_sum s gs)))
       /\ ParallelContainer.sub_modules c2 = ms2)
  /\ (forall (c : ParallelContainer.t Affine.t) l1 l2 x g n d a b,
        ParallelContainer.training c = true ->
        ParallelContainer.sub_modules c = [l1; l2] ->
        ParallelContainer.concat_axis c = (-1)%Z ->
        Np.shape x = [n; d] -> Np.shape g = [n; a + b] ->
        Np.shape (Affine.w l1) = [d; a] -> Np.shape (Affine.w l2) = [d; b] ->
        (forall bv, Affine.b l1 = Some bv -> Np.shape bv = [a]) ->
        (forall bv, Affine.b l2 = Some bv -> Np.shape bv = [b]) ->
        Affine.training l1 = true -> Affine.training l2 = true ->
        Affine.grad_fits (Affine.w_grad l1) [d; a] ->
        Affine.grad_fits (Affine.b_grad l1) [a] ->
        Affine.grad_fits (Affine.w_grad l2) [d; b] ->
        Affine.grad_fits (Affine.b_grad l2) [b] ->
        exists c1 out c2 g1 g2 l1' l2' l1'' l2'' dx1 dx2,
          ParallelContainer.__call__ Affine.call x c = (c1, Ok out)
          /\ Np.shape out = [n; a + b]
          /\ ParallelContainer.sub_modules c1 = [l1'; l2']
          /\ Np.split g (ParallelContainer.splits [a; b]) (-1) = Ok [g1; g2]
          /\ Np.shape g1 = [n; a] /\ Np.shape g2 = [n; b]
          /\ Affine.backward g1 l1' = (l1'', Ok dx1)
          /\ Affine.backward g2 l2' = (l2'', Ok dx2)
          /\ Np.shape dx1 = [n; d] /\ Np.shape dx2 = [n; d]
          /\ ParallelContainer.backward Affine.backward g c1
             = (c2, Ok (ParallelContainer.Array
                          (ParallelContainer.ewise_sum [n; d] [dx1; dx2])))
          /\ ParallelContainer.sub_modules c2 = [l1''; l2'']).
Proof.
  split.
  - intros. eapply parallel_backward_general; eassumption.
  - intros. eapply parallel_two_affine; eassumption.
Qed.

Lemma parallel_backward_splits_and_sums_witness :
  exists c1 out c2 g1 g2 l1' l2' l1'' l2'' dx1 dx2,
    ParallelContainer.__call__ Affine.call ContainerSamples.x0
      ContainerSamples.par0 = (c1, Ok out)
    /\ Np.shape out = [1; 1 + 2]
    /\ ParallelContainer.sub_modules c1 = [l1'; l2']
    /\ Np.split ContainerSamples.g0 (ParallelContainer.splits [1; 2]) (-1)
       = Ok [g1; g2]
    /\ Np.shape g1 = [1; 1] /\ Np.shape g2 = [1; 2]
    /\ Affine.backward g1 l1' = (l1'', Ok dx1)
    /\ Affine.backward g2 l2' = (l2'', Ok dx2)
    /\ Np.shape dx1 = [1; 2] /\ Np.shape dx2 = [1; 2]
    /\ ParallelContainer.backward Affine.backward ContainerSamples.g0 c1
       = (c2, Ok (ParallelContainer.Array
                    (ParallelContainer.ewise_sum [1; 2] [dx1; dx2])))
    /\ ParallelContainer.sub_modules c2 = [l1''; l2''].
Proof.
  apply (proj2 parallel_backward_splits_and_sums ContainerSamples.par0
           ContainerSamples.aff_a ContainerSamples.aff_b
           ContainerSamples.x0 ContainerSamples.g0 1 2 1 2);
    try reflexivity.
  - intros bv [= <-]. reflexivity.
  - intros bv [= <-]. reflexivity.
Defined.

(** The same run, computed: the output [[5, 7, 10]] and, for the upstream
    gradient [[1, 1, 1]], the input gradient [[4, 9]] = [[1, 2]] + [[3, 7]]. *)
Example parallel_two_affine_run :
  let '(c1, out) :=
    ParallelContainer.__call__ Affine.call ContainerSamples.x0
      ContainerSamples.par0 in
  let '(c2, dx) :=
    ParallelContainer.backward Affine.backward ContainerSamples.g0 c1 in
  out = Ok (Np.NdArray [1; 3] [5; 7; 10]%Z)
  /\ dx = Ok (ParallelContainer.Array (Np.NdArray [1; 2] [4; 9]%Z)).
Proof. vm_compute. split; reflexivity. Qed.

(** * Further properties of the code *)

(** ** Cells of an array *)

Section CellFacts.
Import Np.
#[local] Arguments size_of : simpl never.

Lemma size_of_cons d s : size_of (d :: s) = d * size_of s.
Proof. reflexivity. Qed.

Lemma size_of_nil : size_of [] = 1.
Proof. reflexivity. Qed.

Lemma in_bounds_length s : forall idx,
  in_bounds s idx = true -> length idx = length s.
Proof.
  induction s as [|d s IH]; intros [|i idx] H; cbn in *; try done.
  apply andb_true_iff in H as [_ Hr]. by rewrite (IH _ Hr).
Qed.

Lemma ravel_lt s : forall idx,
  in_bounds s idx = true -> ravel s idx < size_of s.
Proof.
  induction s as [|d s IH]; intros [|i idx] H; cbn in *; try done.
  - rewrite size_of_nil. lia.
  - apply andb_true_iff in H as [Hi Hr]. apply Nat.ltb_lt in Hi.
    specialize (IH _ Hr). rewrite size_of_cons. nia.
Qed.

Lemma unravel_ravel s : forall idx,
  in_bounds s idx = true -> unravel s (ravel s idx) = idx.
Proof.
  induction s as [|d s IH]; intros [|i idx] H; cbn in *; try done.
  apply andb_true_iff in H as [Hi Hr].
  pose proof (ravel_lt _ _ Hr) as Hlt.
  rewrite Nat.div_add_l by lia. rewrite (Nat.div_small (ravel s idx)) by done.
  rewrite Nat.add_0_r. f_equal.
  rewrite Nat.add_comm, Nat.Div0.mod_add, Nat.mod_small by done. by apply IH.
Qed.

Lemma in_bounds_unravel s : forall p,
  p < size_of s -> in_bounds s (unravel s p) = true.
Proof.
  induction s as [|d s IH]; intros p H; cbn; [done|].
  rewrite size_of_cons in H.
  assert (size_of s <> 0) by (intros E; rewrite E in H; lia).
  apply andb_true_iff. split.
  - apply Nat.ltb_lt. apply Nat.Div0.div_lt_upper_bound. lia.
  - apply IH. apply Nat.mod_upper_bound. done.
Qed.

Lemma ravel_unravel s : forall p,
  p < size_of s -> ravel s (unravel s p) = p.
Proof.
  induction s as [|d s IH]; intros p H; cbn.
  - rewrite size_of_nil in H. lia.
  - rewrite size_of_cons in H.
    assert (size_of s <> 0) by (intros E; rewrite E in H; lia).
    rewrite IH by (by apply Nat.mod_upper_bound).
    pose proof (Nat.div_mod_eq p (size_of s)). lia.
Qed.

Lemma nth_map_seq_lt {E} (g : nat -> E) n k d :
  k < n -> nth k (map g (seq 0 n)) d = g k.
Proof.
  intros H. rewrite nth_lookup.
  change (map g (seq 0 n)) with (g <$> seq 0 n).
  rewrite list_lookup_fmap, lookup_seq_lt by done. done.
Qed.

Lemma map_seq_nth {E} (l : list E) d :
  map (fun p => nth p l d) (seq 0 (length l)) = l.
Proof.
  induction l as [|v l IH] using rev_ind; [done|].
  rewrite length_app. cbn [length]. rewrite Nat.add_1_r, seq_S, map_app. cbn.
  rewrite app_nth2, Nat.sub_diag by lia. cbn. f_equal.
  rewrite <- IH at 2. apply map_ext_in. intros p Hp%in_seq.
  by rewrite app_nth1 by lia.
Qed.

Lemma nth_zip_with {A B C} (f : A -> B -> C) l1 l2 p d1 d2 d :
  p < length l1 -> p < length l2 ->
  nth p (zip_with f l1 l2) d = f (nth p l1 d1) (nth p l2 d2).
Proof.
  revert l2 p. induction l1 as [|a l1 IH]; intros [|b l2] [|p] H1 H2;
    cbn in *; try lia; [done|].
  apply IH; lia.
Qed.

(** Reading a cell of a tabulated array runs the function on its index. *)
Lemma get_tabulate {E} (d : E) s f idx :
  in_bounds s idx = true -> get d (tabulate s f) idx = f idx.
Proof.
  intros H. unfold get, tabulate. cbn [shape buf]. rewrite H.
  rewrite nth_map_seq_lt by (by apply ravel_lt). by rewrite unravel_ravel.
Qed.

Lemma geti_tabulate s f idx :
  in_bounds s idx = true -> geti (tabulate s f) idx = f idx.
Proof. apply get_tabulate. Qed.

Lemma get_outside {E} (d : E) a idx :
  in_bounds (shape a) idx = false -> get d a idx = d.
Proof. intros H. unfold get. by rewrite H. Qed.

Lemma tabulate_ext {E} s (f g : list nat -> E) :
  (forall idx, in_bounds s idx = true -> f idx = g idx) ->
  tabulate s f = tabulate s g.
Proof.
  intros H. unfold tabulate. f_equal. apply map_ext_in.
  intros p Hp%in_seq. apply H, in_bounds_unravel. lia.
Qed.

(** An array whose buffer has the size of its shape is the table of its
    cells. *)
Lemma tabulate_get {E} (d : E) (a : ndarray E) :
  length (buf a) = size_of (shape a) ->
  tabulate (shape a) (get d a) = a.
Proof.
  destruct a as [s b]. cbn [shape buf]. intros Hlen.
  unfold tabulate. f_equal.
  transitivity (map (fun p => nth p b d) (seq 0 (length b)));
    [|apply map_seq_nth].
  rewrite Hlen. apply map_ext_in. intros p Hp%in_seq.
  unfold get. cbn [shape buf].
  rewrite in_bounds_unravel, ravel_unravel by lia. done.
Qed.

Lemma tabulate_length {E} s (f : list nat -> E) :
  length (buf (tabulate s f)) = size_of s.
Proof. unfold tabulate. cbn. by rewrite length_map, length_seq. Qed.

Lemma zip_tabulate {E} (op : E -> E -> E) s f g :
  NdArray s (zip_with op (buf (tabulate s f)) (buf (tabulate s g)))
  = tabulate s (fun idx => op (f idx) (g idx)).
Proof.
  unfold tabulate. cbn [buf]. f_equal.
  induction (seq 0 (size_of s)) as [|p l IH]; cbn; [done|]. by rewrite IH.
Qed.

(** The cell that a cell of the broadcast array reads, when the array
    already has the broadcast shape. *)
Lemma bc_index_same s : forall idx,
  in_bounds s idx = true -> bc_index s idx = idx.
Proof.
  intros idx H. unfold bc_index.
  rewrite (in_bounds_length _ _ H), Nat.sub_diag, drop_0.
  revert idx H. induction s as [|d s IH]; intros [|i idx] H; cbn in *; try done.
  apply andb_true_iff in H as [Hi Hr]. apply Nat.ltb_lt in Hi.
  rewrite (IH _ Hr). destruct (Nat.eqb_spec d 1); [|done]. f_equal. lia.
Qed.

(** Sums *)

Lemma sum_upto_S n f : sum_upto (S n) f = (sum_upto n f + f n)%Z.
Proof.
  unfold sum_upto. rewrite seq_S, map_app, foldr_app. cbn.
  generalize (map f (seq 0 n)). intros l.
  induction l as [|v l IH]; cbn; [lia|]. rewrite IH. lia.
Qed.

Lemma sum_upto_0 f : sum_upto 0 f = 0%Z.
Proof. reflexivity. Qed.

Lemma sum_upto_ext n f g :
  (forall k, k < n -> f k = g k) -> sum_upto n f = sum_upto n g.
Proof.
  induction n as [|n IH]; intros H; [done|].
  rewrite !sum_upto_S, IH, H by (intros; auto with lia). done.
Qed.

Lemma sum_upto_mul_l n c f :
  (c * sum_upto n f)%Z = sum_upto n (fun k => (c * f k)%Z).
Proof.
  induction n as [|n IH]; [rewrite !sum_upto_0; lia|].
  rewrite !sum_upto_S, <- IH. lia.
Qed.

Lemma sum_upto_mul_r n c f :
  (sum_upto n f * c)%Z = sum_upto n (fun k => (f k * c)%Z).
Proof.
  induction n as [|n IH]; [rewrite !sum_upto_0; lia|].
  rewrite !sum_upto_S, <- IH. lia.
Qed.

Lemma sum_upto_add n f g :
  sum_upto n (fun k => (f k + g k)%Z) = (sum_upto n f + sum_upto n g)%Z.
Proof.
  induction n as [|n IH]; [done|]. rewrite !sum_upto_S, IH. lia.
Qed.

Lemma sum_upto_swap n m (f : nat -> nat -> Z) :
  sum_upto n (fun i => sum_upto m (fun j => f i j))
  = sum_upto m (fun j => sum_upto n (fun i => f i j)).
Proof.
  induction n as [|n IH].
  - rewrite sum_upto_0. induction m as [|m IHm]; [done|].
    rewrite sum_upto_S, <- IHm. rewrite sum_upto_0. done.
  - rewrite sum_upto_S, IH, <- sum_upto_add.
    apply sum_upto_ext. intros j _. by rewrite sum_upto_S.
Qed.

(** Cells of the matrix operations. *)

Lemma matmul_cells a b n k m :
  shape a = [n; k] -> shape b = [k; m] ->
  exists c, matmul a b = Ok c /\ shape c = [n; m]
            /\ length (buf c) = size_of [n; m]
            /\ forall i j, i < n -> j < m ->
                 geti c [i; j]
                 = sum_upto k (fun t => (geti a [i; t] * geti b [t; j])%Z).
Proof.
  intros Ha Hb. unfold matmul. rewrite Ha, Hb, Nat.eqb_refl.
  eexists. split; [reflexivity|]. split; [done|].
  split; [apply tabulate_length|].
  intros i j Hi Hj. rewrite geti_tabulate; [done|].
  cbn. apply andb_true_iff. split; [by apply Nat.ltb_lt|].
  apply andb_true_iff. split; [by apply Nat.ltb_lt|done].
Qed.

Lemma transpose_cells2 a n m i j :
  shape a = [n; m] -> i < m -> j < n ->
  geti (transpose a) [i; j] = geti a [j; i].
Proof.
  intros Ha Hi Hj. unfold transpose. rewrite Ha. cbn [rev app].
  rewrite geti_tabulate; [done|].
  cbn. apply andb_true_iff. split; [by apply Nat.ltb_lt|].
  apply andb_true_iff. split; [by apply Nat.ltb_lt|done].
Qed.

Lemma in_bounds2 n m i j : i < n -> j < m -> in_bounds [n; m] [i; j] = true.
Proof.
  intros Hi Hj. cbn. apply andb_true_iff. split; [by apply Nat.ltb_lt|].
  apply andb_true_iff. split; [by apply Nat.ltb_lt|done].
Qed.

Lemma in_bounds4 a b c d i j k l :
  i < a -> j < b -> k < c -> l < d ->
  in_bounds [a; b; c; d] [i; j; k; l] = true.
Proof.
  intros. cbn. repeat (apply andb_true_iff; split); try done;
    by apply Nat.ltb_lt.
Qed.

(** Adding a vector to every row of a matrix. *)
Lemma add_rows_cells (xw bd : arr) n a :
  shape xw = [n; a] -> length (buf xw) = size_of [n; a] -> shape bd = [a] ->
  exists c, add xw bd = Ok c /\ shape c = [n; a]
            /\ forall i j, i < n -> j < a ->
                 geti c [i; j] = (geti xw [i; j] + geti bd [j])%Z.
Proof.
  intros Hx Hlen Hb. unfold add, zip_nd. rewrite Hx, Hb.
  assert (Hbs : broadcast_shapes [n; a] [a] = Ok [n; a]) by bc_solve.
  assert (Hbs' : broadcast_shapes [a] [n; a] = Ok [n; a]) by bc_solve.
  rewrite Hbs. cbn [mbind result_bind].
  unfold broadcast_to. rewrite Hx, Hb.
  destruct (decide ([n; a] = [n; a])) as [_|]; [|done].
  cbn [mbind result_bind].
  destruct (decide ([a] = [n; a])) as [E|_]; [congruence|].
  rewrite Hbs'. cbn [mbind result_bind].
  destruct (decide ([n; a] = [n; a])) as [_|]; [|done].
  cbn [mbind result_bind].
  eexists. split; [reflexivity|]. split; [done|].
  intros i j Hi Hj. unfold geti at 1. unfold get. cbn [shape buf].
  rewrite in_bounds2 by done.
  assert (Hin : in_bounds [n; a] [i; j] = true) by (by apply in_bounds2).
  rewrite (nth_zip_with _ _ _ _ 0%Z 0%Z).
  2:{ rewrite Hlen. by apply ravel_lt. }
  2:{ rewrite tabulate_length. by apply ravel_lt. }
  f_equal.
  - unfold geti, get. rewrite Hx, Hin. reflexivity.
  - unfold tabulate. cbn [buf].
    rewrite nth_map_seq_lt by (by apply ravel_lt).
    rewrite unravel_ravel by done.
    unfold bc_index. cbn [length Nat.sub drop zip_with].
    destruct (Nat.eqb_spec a 1) as [->|]; [|done].
    replace j with 0 by lia. done.
Qed.

End CellFacts.

(** ** Linear: the forward pass, [compile] and the gradients *)

Section LinearMore.
Import Np Walnut.

Ltac linear_unfold :=
  unfold Linear.x, Linear.y, Linear.w, Linear.b, Linear.use_bias, Linear.set_x,
    Linear.set_y, Linear.set_w, Linear.set_b, Linear.set_base, Linear.base,
    Linear.set_super, Linear.set_params, the_grad, the_data in *.

(** What [forward] does on an input of matching width. *)
Lemma linear_forward_run net self xd wt wd bd n d a :
  Layer.input net (Linear.base self) = Some xd -> shape xd = [n; d] ->
  Linear.w self = Some wt -> data wt = Some wd -> shape wd = [d; a] ->
  (Linear.use_bias self = true ->
   exists bt, Linear.b self = Some bt /\ data bt = Some bd /\ shape bd = [a]) ->
  exists self' xw yd,
    Linear.forward net self = (self', Ok tt)
    /\ matmul xd wd = Ok xw
    /\ (if Linear.use_bias self then add xw bd = Ok yd else yd = xw)
    /\ data (Linear.y self') = Some yd
    /\ shape yd = [n; a]
    /\ data (Linear.x self') = Some xd
    /\ Linear.w self' = Linear.w self
    /\ Linear.b self' = Linear.b self
    /\ ParamLayer.params (Linear.super self')
       = ParamLayer.params (Linear.super self)
    /\ Layer.compiled (Linear.base self') = Layer.compiled (Linear.base self)
    /\ Layer.i (Linear.base self') = Layer.i (Linear.base self).
Proof.
  intros Hin Hxs Hw Hwd Hws Hb.
  destruct (layer_forward_input _ _ _ Hin) as (bl & Hbl & Hx & Hy & _).
  assert (Hflags : Layer.compiled bl = Layer.compiled (Linear.base self)
                   /\ Layer.i bl = Layer.i (Linear.base self)).
  { unfold Layer.forward in Hbl. st_unfold.
    destruct (Layer.prev_layer (Linear.base self)) as [r|].
    - destruct (net !! r); cbn in Hbl; [|done]. by injection Hbl as <-.
    - by injection Hbl as <-. }
  destruct Hflags as [Hc Hi].
  destruct (matmul_cells xd wd n d a Hxs Hws) as (xw & Hxw & Hxws & Hlen & _).
  unfold Linear.forward. st_unfold. rewrite Hbl. linear_unfold.
  destruct self as [[bs act norm init ub w b ps] oc]. cbn in *.
  rewrite Hx, Hw. cbn. rewrite Hwd. cbn. rewrite Hxw. cbn.
  destruct ub; cbn.
  - destruct Hb as (bt & -> & Hbd & Hbs); [done|]. cbn. rewrite Hbd. cbn.
    destruct (add_rows_cells xw bd n a Hxws Hlen Hbs) as (yd & Hyd & Hyds & _).
    rewrite Hyd. cbn. eexists _, xw, yd. cbn. eauto 12.
  - rewrite add_scalar_zero. eexists _, xw, xw. cbn. eauto 12.
Qed.

(** X1: the forward pass of the fully connected layer is the affine map
    y[i][j] = sum_k x[i][k] * w[k][j] + b[j] on a batch of [n] rows: the
    output has one row per input row and [a] columns, the bias is added to
    every row, and without a bias nothing is added. *)
Theorem linear_forward_affine net self xd wt wd bd n d a :
  Layer.input net (Linear.base self) = Some xd -> shape xd = [n; d] ->
  Linear.w self = Some wt -> data wt = Some wd -> shape wd = [d; a] ->
  (Linear.use_bias self = true ->
   exists bt, Linear.b self = Some bt /\ data bt = Some bd /\ shape bd = [a]) ->
  exists self' yd,
    Linear.forward net self = (self', Ok tt)
    /\ data (Linear.y self') = Some yd
    /\ shape yd = [n; a]
    /\ forall i j, i < n -> j < a ->
         geti yd [i; j]
         = (sum_upto d (fun k => geti xd [i; k] * geti wd [k; j])
            + (if Linear.use_bias self then geti bd [j] else 0))%Z.
Proof.
  intros Hin Hxs Hw Hwd Hws Hb.
  destruct (linear_forward_run net self xd wt wd bd n d a)
    as (self' & xw & yd & Hf & Hxw & Hadd & Hy & Hys & _); try done.
  exists self', yd. split; [done|]. split; [done|]. split; [done|].
  intros i j Hi Hj.
  destruct (matmul_cells xd wd n d a Hxs Hws)
    as (xw' & Hxw' & Hxws & Hlen & Hcells).
  rewrite Hxw in Hxw'. injection Hxw' as <-.
  destruct (Linear.use_bias self) eqn:Hub.
  - destruct Hb as (bt & _ & _ & Hbs); [done|].
    destruct (add_rows_cells xw bd n a Hxws Hlen Hbs) as (c & Hc & _ & Hcc).
    rewrite Hadd in Hc. injection Hc as <-.
    rewrite Hcc, Hcells by done. done.
  - subst yd. rewrite Hcells by done. lia.
Qed.

Lemma linear_forward_affine_witness :
  exists self' yd,
    Linear.forward Samples.lin_net Samples.lin = (self', Ok tt)
    /\ data (Linear.y self') = Some yd
    /\ shape yd = [1; 1]
    /\ forall i j, i < 1 -> j < 1 ->
         geti yd [i; j]
         = Z.add
             (sum_upto 1 (fun k => Z.mul (geti (NdArray [1; 1] [2%Z]) [i; k])
                                         (geti (NdArray [1; 1] [1%Z]) [k; j])))
             (if Linear.use_bias Samples.lin then geti (zeros [1]) [j]
              else 0%Z).
Proof.
  apply (linear_forward_affine Samples.lin_net Samples.lin
           (NdArray [1; 1] [2%Z]) Samples.lin_w (NdArray [1; 1] [1%Z])
           (zeros [1]) 1 1 1); try reflexivity.
  intros _. eexists. repeat split; reflexivity.
Defined.

(** X2: [compile] of the fully connected layer, on a previous layer whose
    output has [d] columns: the layer is marked compiled and numbered, the
    weights are what the initialiser returns for the shape
    [(d, out_channels)] and the fan [d], a bias of [out_channels] zeros is
    created when the layer uses one, the parameter list names the weights
    and the bias slot (which holds [None] in a layer without bias), and the
    first output is computed: one row per input row, [out_channels]
    columns. *)
Theorem linear_compile_initialises i r succ net self p xd wd n d :
  let oc := Z.to_nat (Linear.out_channels self) in
  let w0 := ParamLayer.init_fn (Linear.super self) [d; oc] d
              (ParamLayer.act_fn (Linear.super self)) in
  net !! r = Some p -> data (Layer.y p) = Some xd -> shape xd = [n; d] ->
  data w0 = Some wd -> shape wd = [d; oc] ->
  exists self' yd,
    Linear.compile i (Some r) succ net self = (self', Ok tt)
    /\ Layer.compiled (Linear.base self') = true
    /\ Layer.i (Linear.base self') = Some i
    /\ Linear.w self' = Some w0
    /\ Linear.b self'
       = (if Linear.use_bias self
          then Some (mkTensor (Some (zeros [oc])) None)
          else Linear.b self)
    /\ ParamLayer.params (Linear.super self')
       = [Some ParamW;
          if Linear.use_bias self then Some ParamB
          else match Linear.b self with Some _ => Some ParamB | None => None end]
    /\ data (Linear.x self') = Some xd
    /\ data (Linear.y self') = Some yd
    /\ shape yd = [n; oc].
Proof.
  intros oc w0 Hp Hxd Hxs Hw0 Hws.
  destruct (Linear.compile i (Some r) succ net self) as [self' res] eqn:Hrun.
  unfold Linear.compile in Hrun.
  unfold mbind, St_bind, zoom, self_, lift, update, mret, St_ret in Hrun.
  destruct self as [[bs act norm init ub w b ps] oc'].
  unfold Linear.use_bias, Linear.set_w, Linear.set_b, Linear.set_base,
    Linear.base, Linear.set_super, Linear.set_params in Hrun.
  cbn [Linear.super Linear.out_channels ParamLayer.base ParamLayer.use_bias
       ParamLayer.init_fn ParamLayer.act_fn Linear.use_bias] in *.
  subst oc. cbn in Hrun. rewrite Hp in Hrun. cbn in Hrun.
  unfold tshape, the_data in Hrun. rewrite Hxd in Hrun. cbn in Hrun.
  rewrite Hxs in Hrun. cbn in Hrun. fold w0 in Hrun.
  unfold Linear.use_bias. cbn [Linear.super ParamLayer.use_bias].
  destruct ub; cbn in Hrun;
    (match type of Hrun with
     | Linear.forward net ?s = _ =>
         destruct (linear_forward_run net s xd w0 wd (zeros [Z.to_nat oc'])
                     n d (Z.to_nat oc'))
           as (s' & xw & yd & Hf & _ & _ & Hyd & Hyds & Hx' & Hw' & Hb'
               & Hps' & Hc & Hi)
     end); try done.
  all: try (unfold Layer.input; cbn; rewrite ?Hp; cbn; done).
  all: try (cbn; intros _; eexists; done).
  all: try (cbn; intros [=]).
  all: rewrite Hf in Hrun; injection Hrun as <- <-; exists s', yd;
    rewrite Hc, Hi, Hw', Hb', Hps', Hyd, Hx'; cbn.
  all: repeat split; done.
Qed.

Lemma linear_compile_initialises_witness :
  exists self' yd,
    Linear.compile 1 (Some 0) (Some 2) Samples.lin_net LayerSamples.lin_new
    = (self', Ok tt)
    /\ Layer.compiled (Linear.base self') = true
    /\ Layer.i (Linear.base self') = Some 1
    /\ Linear.w self' = Some (mkTensor (Some (ones [1; 1])) None)
    /\ Linear.b self' = Some (mkTensor (Some (zeros [1])) None)
    /\ ParamLayer.params (Linear.super self') = [Some ParamW; Some ParamB]
    /\ data (Linear.x self') = Some (NdArray [1; 1] [2%Z])
    /\ data (Linear.y self') = Some yd
    /\ shape yd = [1; 1].
Proof.
  apply (linear_compile_initialises 1 0 (Some 2) Samples.lin_net
           LayerSamples.lin_new (Samples.feeding (NdArray [1; 1] [2%Z]))
           (NdArray [1; 1] [2%Z]) (ones [1; 1]) 1 1); reflexivity.
Defined.

(** What [backward] does on gradients of matching shapes. *)
Lemma linear_backward_run net self wt wd bt xd dy n d a :
  Layer.upstream net (Linear.base self) = Some dy -> shape dy = [n; a] ->
  data (Linear.x self) = Some xd -> shape xd = [n; d] ->
  Linear.w self = Some wt -> data wt = Some wd -> shape wd = [d; a] ->
  (Linear.use_bias self = true -> Linear.b self = Some bt) ->
  exists self' dx dw db,
    Linear.backward net self = (self', Ok tt)
    /\ matmul dy (transpose wd) = Ok dx
    /\ matmul (transpose xd) dy = Ok dw
    /\ sum_axis 0 dy = Ok db
    /\ Linear.x self' = mkTensor (Some xd) (Some dx)
    /\ Linear.w self' = Some (mkTensor (Some wd) (Some dw))
    /\ Linear.b self'
       = (if Linear.use_bias self then Some (set_grad (Some db) bt)
          else Linear.b self)
    /\ Linear.y self' = set_grad (Some dy) (Linear.y self).
Proof.
  intros Hup Hdy Hx Hxs Hw Hwd Hws Hb.
  destruct (layer_backward_upstream _ _ _ Hup) as (bl & Hbl & Hg & Hxl & Hyl & _).
  destruct (matmul_shapes dy (transpose wd) n a d) as (dx & Hdx & _);
    [done | by rewrite transpose_shape, Hws |].
  destruct (matmul_shapes (transpose xd) dy d n a) as (dw & Hdw & _);
    [by rewrite transpose_shape, Hxs | done |].
  destruct (sum_axis_shape 0 dy) as (db & Hdb & _).
  { unfold ndim. rewrite Hdy. cbn. lia. }
  unfold Linear.backward. st_unfold.
  rewrite Hbl. linear_unfold.
  destruct self as [[bs act norm init ub w b ps] oc]. cbn in *.
  rewrite Hg, Hw. cbn. rewrite Hwd. cbn. rewrite Hdx. cbn.
  rewrite Hxl, Hx. cbn. rewrite Hdw.
  assert (Hyl' : Layer.y bl = set_grad (Some dy) (Layer.y bs)).
  { destruct (Layer.y bl), (Layer.y bs). cbn in *. by subst. }
  assert (Hxl' : set_grad (Some dx) (Layer.x bs) = mkTensor (Some xd) (Some dx)).
  { destruct (Layer.x bs). cbn in *. by subst. }
  assert (Hwt : set_grad (Some dw) wt = mkTensor (Some wd) (Some dw)).
  { destruct wt. cbn in *. by subst. }
  destruct ub; cbn.
  - rewrite (Hb eq_refl). cbn. rewrite Hdb. cbn.
    eexists _, dx, dw, db. split; [reflexivity|]. cbn.
    rewrite Hxl', Hwt, Hyl'. done.
  - rewrite Hdb.
    eexists _, dx, dw, db. split; [reflexivity|]. cbn.
    rewrite Hxl', Hwt, Hyl'. done.
Qed.

(** X3: the gradients that [backward] of the fully connected layer stores
    are the textbook ones, cell by cell: the input gradient is
    dx[i][k] = sum_j dy[i][j] * w[k][j], the weight gradient is
    dw[k][j] = sum_i x[i][k] * dy[i][j] and, in a layer with a bias, the
    bias gradient is db[j] = sum_i dy[i][j]; each gradient has the shape of
    the array it belongs to, and the data of the input and of the weights
    stay as they were.  Without a bias the bias slot is left alone. *)
Theorem linear_backward_gradients net self wt wd bt xd dy n d a :
  Layer.upstream net (Linear.base self) = Some dy -> shape dy = [n; a] ->
  data (Linear.x self) = Some xd -> shape xd = [n; d] ->
  Linear.w self = Some wt -> data wt = Some wd -> shape wd = [d; a] ->
  (Linear.use_bias self = true -> Linear.b self = Some bt) ->
  exists self' dx dw,
    Linear.backward net self = (self', Ok tt)
    /\ Linear.x self' = mkTensor (Some xd) (Some dx)
    /\ shape dx = [n; d]
    /\ (forall i k, i < n -> k < d ->
          geti dx [i; k]
          = sum_upto a (fun j => (geti dy [i; j] * geti wd [k; j])%Z))
    /\ Linear.w self' = Some (mkTensor (Some wd) (Some dw))
    /\ shape dw = [d; a]
    /\ (forall k j, k < d -> j < a ->
          geti dw [k; j]
          = sum_upto n (fun i => (geti xd [i; k] * geti dy [i; j])%Z))
    /\ (Linear.use_bias self = true ->
        exists db, Linear.b self' = Some (mkTensor (data bt) (Some db))
                   /\ shape db = [a]
                   /\ forall j, j < a ->
                        geti db [j] = sum_upto n (fun i => geti dy [i; j]))
    /\ (Linear.use_bias self = false -> Linear.b self' = Linear.b self).
Proof.
  intros Hup Hdy Hx Hxs Hw Hwd Hws Hb.
  destruct (linear_backward_run net self wt wd bt xd dy n d a)
    as (self' & dx & dw & db & Hrun & Hdx & Hdw & Hdb & Hx' & Hw' & Hb' & _);
    try done.
  destruct (matmul_cells dy (transpose wd) n a d) as (dx' & Hdx' & Hdxs & _ & Hdxc);
    [done | by rewrite transpose_shape, Hws |].
  rewrite Hdx in Hdx'. injection Hdx' as <-.
  destruct (matmul_cells (transpose xd) dy d n a) as (dw' & Hdw' & Hdws & _ & Hdwc);
    [by rewrite transpose_shape, Hxs | done |].
  rewrite Hdw in Hdw'. injection Hdw' as <-.
  exists self', dx, dw. split; [done|]. split; [done|]. split; [done|].
  split.
  { intros i k Hi Hk. rewrite Hdxc by done. apply sum_upto_ext. intros j Hj.
    by rewrite (transpose_cells2 wd d a j k). }
  split; [done|]. split; [done|].
  split.
  { intros k j Hk Hj. rewrite Hdwc by done. apply sum_upto_ext. intros i Hi.
    by rewrite (transpose_cells2 xd n d k i). }
  split.
  - intros Hub. rewrite Hub in Hb'. exists db. split; [by destruct bt|].
    unfold sum_axis, ndim in Hdb. rewrite Hdy in Hdb. cbn in Hdb.
    injection Hdb as <-. split; [done|].
    intros j Hj. rewrite geti_tabulate.
    + done.
    + cbn. apply andb_true_iff. split; [by apply Nat.ltb_lt|done].
  - intros Hub. by rewrite Hub in Hb'.
Qed.

Lemma linear_backward_gradients_witness :
  exists self' dx dw,
    Linear.backward Samples.lin_net Samples.lin = (self', Ok tt)
    /\ Linear.x self' = mkTensor (Some (NdArray [1; 1] [2%Z])) (Some dx)
    /\ shape dx = [1; 1]
    /\ (forall i k, i < 1 -> k < 1 ->
          geti dx [i; k]
          = sum_upto 1 (fun j => Z.mul (geti (NdArray [1; 1] [3%Z]) [i; j])
                                       (geti (NdArray [1; 1] [1%Z]) [k; j])))
    /\ Linear.w self' = Some (mkTensor (Some (NdArray [1; 1] [1%Z])) (Some dw))
    /\ shape dw = [1; 1]
    /\ (forall k j, k < 1 -> j < 1 ->
          geti dw [k; j]
          = sum_upto 1 (fun i => Z.mul (geti (NdArray [1; 1] [2%Z]) [i; k])
                                       (geti (NdArray [1; 1] [3%Z]) [i; j])))
    /\ (Linear.use_bias Samples.lin = true ->
        exists db, Linear.b self' = Some (mkTensor (Some (zeros [1])) (Some db))
                   /\ shape db = [1]
                   /\ forall j, j < 1 ->
                        geti db [j]
                        = sum_upto 1 (fun i => geti (NdArray [1; 1] [3%Z]) [i; j]))
    /\ (Linear.use_bias Samples.lin = false ->
        Linear.b self' = Linear.b Samples.lin).
Proof.
  apply (linear_backward_gradients Samples.lin_net Samples.lin Samples.lin_w
           (NdArray [1; 1] [1%Z]) (mkTensor (Some (zeros [1])) None)
           (NdArray [1; 1] [2%Z]) (NdArray [1; 1] [3%Z]) 1 1 1);
    try reflexivity.
Defined.

(** X4: [backward] of the fully connected layer is the adjoint of
    [forward]: with <u, v> the sum of the cellwise products,
    <dx, x> = <dy, x @ w> = <dw, w>.  This is the identity that makes the
    stored arrays the gradients of a loss with respect to the input and to
    the weights, given its gradient [dy] with respect to the output. *)
Theorem linear_backward_adjoint net self wt wd bt xd dy xw n d a :
  Layer.upstream net (Linear.base self) = Some dy -> shape dy = [n; a] ->
  data (Linear.x self) = Some xd -> shape xd = [n; d] ->
  Linear.w self = Some wt -> data wt = Some wd -> shape wd = [d; a] ->
  (Linear.use_bias self = true -> Linear.b self = Some bt) ->
  matmul xd wd = Ok xw ->
  exists self' dx dw,
    Linear.backward net self = (self', Ok tt)
    /\ grad (Linear.x self') = Some dx
    /\ (Linear.w self' ≫= grad) = Some dw
    /\ sum_upto n (fun i => sum_upto d (fun k =>
         (geti dx [i; k] * geti xd [i; k])%Z))
       = sum_upto n (fun i => sum_upto a (fun j =>
           (geti dy [i; j] * geti xw [i; j])%Z))
    /\ sum_upto d (fun k => sum_upto a (fun j =>
         (geti dw [k; j] * geti wd [k; j])%Z))
       = sum_upto n (fun i => sum_upto a (fun j =>
           (geti dy [i; j] * geti xw [i; j])%Z)).
Proof.
  intros Hup Hdy Hx Hxs Hw Hwd Hws Hb Hxw.
  destruct (linear_backward_run net self wt wd bt xd dy n d a)
    as (self' & dx & dw & db & Hrun & Hdx & Hdw & Hdb & Hx' & Hw' & Hb' & _);
    try done.
  destruct (matmul_cells dy (transpose wd) n a d) as (dx' & Hdx' & Hdxs & _ & Hdxc);
    [done | by rewrite transpose_shape, Hws |].
  rewrite Hdx in Hdx'. injection Hdx' as <-.
  destruct (matmul_cells (transpose xd) dy d n a) as (dw' & Hdw' & Hdws & _ & Hdwc);
    [by rewrite transpose_shape, Hxs | done |].
  rewrite Hdw in Hdw'. injection Hdw' as <-.
  destruct (matmul_cells xd wd n d a Hxs Hws) as (xw' & Hxw' & _ & _ & Hxwc).
  rewrite Hxw in Hxw'. injection Hxw' as <-.
  exists self', dx, dw. split; [done|]. rewrite Hx', Hw'. cbn.
  split; [done|]. split; [done|].
  assert (Hmid :
    sum_upto n (fun i => sum_upto a (fun j => (geti dy [i; j] * geti xw [i; j])%Z))
    = sum_upto n (fun i => sum_upto a (fun j => sum_upto d (fun k =>
        (geti dy [i; j] * geti xd [i; k] * geti wd [k; j])%Z)))).
  { apply sum_upto_ext. intros i Hi. apply sum_upto_ext. intros j Hj.
    rewrite Hxwc by done. rewrite sum_upto_mul_l.
    apply sum_upto_ext. intros k _. lia. }
  rewrite Hmid. split.
  - apply sum_upto_ext. intros i Hi. rewrite sum_upto_swap.
    apply sum_upto_ext. intros k Hk. rewrite Hdxc by done.
    rewrite sum_upto_mul_r. apply sum_upto_ext. intros j Hj.
    rewrite (transpose_cells2 wd d a j k) by done. lia.
  - transitivity
      (sum_upto d (fun k => sum_upto a (fun j => sum_upto n (fun i =>
         (geti dy [i; j] * geti xd [i; k] * geti wd [k; j])%Z)))).
    + apply sum_upto_ext. intros k Hk. apply sum_upto_ext. intros j Hj.
      rewrite Hdwc by done. rewrite sum_upto_mul_r.
      apply sum_upto_ext. intros i Hi.
      rewrite (transpose_cells2 xd n d k i) by done. lia.
    + etransitivity; [apply (sum_upto_swap d a)|].
      symmetry. etransitivity; [apply (sum_upto_swap n a)|].
      apply sum_upto_ext. intros j _. apply (sum_upto_swap n d).
Qed.

Lemma linear_backward_adjoint_witness :
  exists self' dx dw,
    Linear.backward Samples.lin_net Samples.lin = (self', Ok tt)
    /\ grad (Linear.x self') = Some dx
    /\ (Linear.w self' ≫= grad) = Some dw
    /\ sum_upto 1 (fun i => sum_upto 1 (fun k =>
         Z.mul (geti dx [i; k]) (geti (NdArray [1; 1] [2%Z]) [i; k])))
       = sum_upto 1 (fun i => sum_upto 1 (fun j =>
           Z.mul (geti (NdArray [1; 1] [3%Z]) [i; j])
                 (geti (NdArray [1; 1] [2%Z]) [i; j])))
    /\ sum_upto 1 (fun k => sum_upto 1 (fun j =>
         Z.mul (geti dw [k; j]) (geti (NdArray [1; 1] [1%Z]) [k; j])))
       = sum_upto 1 (fun i => sum_upto 1 (fun j =>
           Z.mul (geti (NdArray [1; 1] [3%Z]) [i; j])
                 (geti (NdArray [1; 1] [2%Z]) [i; j]))).
Proof.
  apply (linear_backward_adjoint Samples.lin_net Samples.lin Samples.lin_w
           (NdArray [1; 1] [1%Z]) (mkTensor (Some (zeros [1])) None)
           (NdArray [1; 1] [2%Z]) (NdArray [1; 1] [3%Z])
           (NdArray [1; 1] [2%Z]) 1 1 1);
    try reflexivity.
Defined.

End LinearMore.

(** ** Convolution: the shapes of the gradients *)

Section ConvolutionMore.
Import Np Walnut.
#[local] Arguments Nat.ltb : simpl never.

Ltac conv_unfold :=
  unfold Convolution.x, Convolution.y, Convolution.w, Convolution.b,
    Convolution.use_bias, Convolution.set_x, Convolution.set_y,
    Convolution.set_w, Convolution.set_b, Convolution.set_base,
    Convolution.base, Convolution.set_super, Convolution.params,
    Convolution.set_params in *.

Lemma convolve_dy_w_shape dyp wd B oc C Ty Tx ky kx :
  shape dyp = [B; oc; Ty; Tx] -> shape wd = [oc; C; ky; kx] ->
  0 < Ty -> 0 < Tx ->
  exists c, Convolution.__convolve dyp wd (Some (2, 0)) = Ok c
            /\ shape c = [B; oc; C; Ty; Tx].
Proof.
  intros Hd Hw Hy Hx. unfold Convolution.__convolve. rewrite Hd. cbn [rev app].
  destruct (fft_fit_shape Ty Tx dyp [B; oc] Ty Tx) as (x1 & -> & Hx1); [done..|].
  destruct (fft_fit_shape Ty Tx wd [oc; C] ky kx) as (x2 & -> & Hx2); [done..|].
  cbn [mbind result_bind].
  destruct (cyclic_product_shape Ty Tx (expand_dims x1 2) (expand_dims x2 0)
              [B; oc; C]) as (c & -> & Hc).
  { unfold ndim, expand_dims. cbn [shape]. rewrite Hx1, Hx2. cbn. bc_solve. }
  eauto.
Qed.

Lemma convolve_x_dy_shape xp dy B C oc Yp Xp gy gx :
  shape xp = [B; C; Yp; Xp] -> shape dy = [B; oc; gy; gx] ->
  0 < Yp -> 0 < Xp ->
  exists c, Convolution.__convolve xp dy (Some (1, 2)) = Ok c
            /\ shape c = [B; oc; C; Yp; Xp].
Proof.
  intros Hx Hd HY HX. unfold Convolution.__convolve. rewrite Hx. cbn [rev app].
  destruct (fft_fit_shape Yp Xp xp [B; C] Yp Xp) as (x1 & -> & Hx1); [done..|].
  destruct (fft_fit_shape Yp Xp dy [B; oc] gy gx) as (x2 & -> & Hx2); [done..|].
  cbn [mbind result_bind].
  destruct (cyclic_product_shape Yp Xp (expand_dims x1 1) (expand_dims x2 2)
              [B; oc; C]) as (c & -> & Hc).
  { unfold ndim, expand_dims. cbn [shape]. rewrite Hx1, Hx2. cbn. bc_solve. }
  eauto.
Qed.

Lemma roll23_back_shape a d0 d1 dy dx :
  shape a = [d0; d1; dy; dx] ->
  exists c, roll23_back a = Ok c /\ shape c = [d0; d1; dy; dx].
Proof. intros H. unfold roll23_back. rewrite H. eauto. Qed.

Lemma pad23_shape a p d0 d1 dy dx :
  shape a = [d0; d1; dy; dx] -> (0 <= p)%Z ->
  exists c, pad23 a p = Ok c
            /\ shape c = [d0; d1; dy + 2 * Z.to_nat p; dx + 2 * Z.to_nat p].
Proof.
  intros H Hp. unfold pad23. destruct (Z.ltb_spec p 0); [lia|].
  rewrite H. eauto.
Qed.

Lemma sum_axes_023_shape a d0 d1 dy dx :
  shape a = [d0; d1; dy; dx] ->
  exists c, sum_axes [0; 2; 3] a = Ok c /\ shape c = [d1].
Proof.
  intros H. cbn [sum_axes mbind result_bind].
  destruct (sum_axis_shape 3 a) as (c3 & -> & H3).
  { unfold ndim. rewrite H. cbn. lia. }
  rewrite H in H3. cbn in H3. cbn [mbind result_bind].
  destruct (sum_axis_shape 2 c3) as (c2 & -> & H2).
  { unfold ndim. rewrite H3. cbn. lia. }
  rewrite H3 in H2. cbn in H2. cbn [mbind result_bind].
  destruct (sum_axis_shape 0 c2) as (c0 & -> & H0).
  { unfold ndim. rewrite H2. cbn. lia. }
  rewrite H2 in H0. cbn in H0. eauto.
Qed.

Lemma clip_neg_back (k d : nat) :
  d - clip (- Z.of_nat k) d = if k =? 0 then d else Nat.min k d.
Proof.
  unfold clip. destruct (Nat.eqb_spec k 0) as [Hk|Hk];
    destruct (Z.ltb_spec (- Z.of_nat k) 0); lia.
Qed.

(** What [backward] stores, by shape. *)
Lemma conv_backward_run net self xd xp yd dy wt wd B C Y X Yp Xp oc ky kx gy gx oy ox :
  let p := Z.quot (Z.of_nat Y - Z.of_nat oy) 2 in
  let w := Z.to_nat p in
  Layer.upstream net (Convolution.base self) = Some dy ->
  shape dy = [B; oc; gy; gx] ->
  data (Convolution.x self) = Some xd -> shape xd = [B; C; Y; X] ->
  pad (Convolution.pad_fn self) xd (Convolution.kernel_shape self) = Ok xp ->
  shape xp = [B; C; Yp; Xp] -> 0 < Yp -> 0 < Xp ->
  is_same (Convolution.pad_fn self) = false ->
  data (Convolution.y self) = Some yd -> shape yd = [B; oc; oy; ox] ->
  (0 <= p)%Z -> 0 < gy + 2 * w -> 0 < gx + 2 * w ->
  Convolution.w self = Some wt -> data wt = Some wd ->
  shape wd = [oc; C; ky; kx] ->
  (Convolution.use_bias self = true -> is_Some (Convolution.b self)) ->
  exists self' dx dw,
    Convolution.backward net self = (self', Ok tt)
    /\ grad (Convolution.x self') = Some dx
    /\ shape dx = [B; C; gy + 2 * w; gx + 2 * w]
    /\ (Convolution.w self' ≫= grad) = Some dw
    /\ shape dw = [oc; C; (if ky =? 0 then Yp else Nat.min ky Yp);
                          (if kx =? 0 then Xp else Nat.min kx Xp)]
    /\ (Convolution.use_bias self = true ->
        exists db, (Convolution.b self' ≫= grad) = Some db /\ shape db = [oc])
    /\ (Convolution.use_bias self = false ->
        Convolution.b self' = Convolution.b self).
Proof.
  intros p w Hup Hdy Hx Hxs Hpad Hxps HYp HXp Hsame Hyd Hyds Hp Hgy Hgx
    Hw Hwd Hws Hb.
  destruct (layer_backward_upstream _ _ _ Hup) as (bl & Hbl & Hg & Hxl & Hyl & _).
  destruct (pad23_shape dy p _ _ _ _ Hdy Hp) as (dyp & Hdyp & Hdyps).
  fold w in Hdyps.
  destruct (convolve_dy_w_shape dyp wd _ _ _ _ _ _ _ Hdyps Hws Hgy Hgx)
    as (c1 & Hc1 & Hc1s).
  destruct (sum_axis_shape 1 c1) as (s1 & Hs1 & Hs1s).
  { unfold ndim. rewrite Hc1s. cbn. lia. }
  rewrite Hc1s in Hs1s. cbn in Hs1s.
  destruct (roll23_back_shape s1 _ _ _ _ Hs1s) as (dx & Hdx & Hdxs).
  destruct (convolve_x_dy_shape xp dy _ _ _ _ _ _ _ Hxps Hdy HYp HXp)
    as (c2 & Hc2 & Hc2s).
  destruct (sum_axis_shape 0 c2) as (s2 & Hs2 & Hs2s).
  { unfold ndim. rewrite Hc2s. cbn. lia. }
  rewrite Hc2s in Hs2s. cbn in Hs2s.
  destruct (tail23_shape (- Z.of_nat ky) (- Z.of_nat kx) s2 _ _ _ _ Hs2s)
    as (dw & Hdw & Hdws).
  rewrite !clip_neg_back in Hdws.
  destruct (sum_axes_023_shape yd _ _ _ _ Hyds) as (db & Hdb & Hdbs).
  unfold Convolution.backward. st_unfold. rewrite Hbl.
  destruct self as [[bs act norm init ub w0 b ps] oc' ks pf].
  conv_unfold. cbn in *. unfold the_data, the_grad, tshape, the_data.
  rewrite Hxl, Hx. cbn. rewrite Hpad. cbn. rewrite Hxs. cbn.
  rewrite Hyl, Hyd. cbn. rewrite Hyds. cbn. rewrite Hg. cbn.
  rewrite Hsame. cbn. fold p. rewrite Hdyp. cbn.
  rewrite Hw. cbn. rewrite Hwd. cbn. rewrite Hc1. cbn. rewrite Hs1. cbn.
  rewrite Hdx. cbn. rewrite Hc2. cbn. rewrite Hws. cbn. rewrite Hs2. cbn.
  rewrite Hdw. cbn.
  destruct ub; cbn.
  - destruct Hb as [bt ->]; [done|]. cbn. rewrite ?Hyd. cbn.
    rewrite Hdb. cbn.
    eexists _, dx, dw. split; [reflexivity|]. cbn.
    repeat split; try done. intros _. eauto.
  - eexists _, dx, dw. split; [reflexivity|]. cbn.
    repeat split; try done.
Qed.

Lemma half_pad (Y ky : nat) :
  1 <= ky <= Y ->
  Z.quot (Z.of_nat Y - Z.of_nat (Y - (ky - 1))) 2 = Z.of_nat ((ky - 1) / 2).
Proof.
  intros H. replace (Z.of_nat Y - Z.of_nat (Y - (ky - 1)))%Z
    with (Z.of_nat (ky - 1)) by lia.
  rewrite Z.quot_div_nonneg by lia. by rewrite (Nat2Z.inj_div _ 2).
Qed.

(** X5: the shapes of the gradients that [backward] of the convolution
    stores, for valid padding, a kernel of [ky] x [kx] cells that fits the
    image and an upstream gradient of the shape of the output.  The weight
    gradient has the shape of the weights and the bias gradient one cell
    per output channel.  The upstream gradient is padded by
    [(ky - 1) / 2] cells, a width computed from the first image axis only
    and used on both axes, so the input gradient has the shape of the input
    exactly when the kernel is square with an odd side. *)
Theorem conv_backward_gradient_shapes
    net self xd yd dy wt wd B C Y X oc ky kx :
  Layer.upstream net (Convolution.base self) = Some dy ->
  data (Convolution.x self) = Some xd -> shape xd = [B; C; Y; X] ->
  Convolution.pad_fn self = valid ->
  data (Convolution.y self) = Some yd ->
  shape yd = [B; oc; Y - (ky - 1); X - (kx - 1)] ->
  shape dy = shape yd ->
  Convolution.w self = Some wt -> data wt = Some wd ->
  shape wd = [oc; C; ky; kx] ->
  1 <= ky <= Y -> 1 <= kx <= X ->
  (Convolution.use_bias self = true -> is_Some (Convolution.b self)) ->
  exists self' dx dw,
    Convolution.backward net self = (self', Ok tt)
    /\ grad (Convolution.x self') = Some dx
    /\ shape dx = [B; C; Y - (ky - 1) + 2 * ((ky - 1) / 2);
                         X - (kx - 1) + 2 * ((ky - 1) / 2)]
    /\ (shape dx = shape xd <-> Nat.odd ky = true /\ kx = ky)
    /\ (Convolution.w self' ≫= grad) = Some dw
    /\ shape dw = shape wd
    /\ (Convolution.use_bias self = true ->
        exists db, (Convolution.b self' ≫= grad) = Some db /\ shape db = [oc]).
Proof.
  intros Hup Hx Hxs Hpf Hyd Hyds Hdy Hw Hwd Hws Hky Hkx Hb.
  rewrite Hyds in Hdy.
  pose proof (half_pad Y ky Hky) as Hp.
  destruct (conv_backward_run net self xd xd yd dy wt wd B C Y X Y X oc ky kx
              (Y - (ky - 1)) (X - (kx - 1)) (Y - (ky - 1)) (X - (kx - 1)))
    as (self' & dx & dw & Hrun & Hdx & Hdxs & Hdw & Hdws & Hdb & _);
    try done; rewrite ?Hpf, ?Hp, ?Nat2Z.id; try done; try lia.
  rewrite Hp, Nat2Z.id in Hdxs.
  exists self', dx, dw. split; [done|]. split; [done|]. split; [done|].
  split.
  { rewrite Hdxs, Hxs.
    pose proof (Nat.div_mod_eq (ky - 1) 2) as Hdm.
    pose proof (Nat.mod_upper_bound (ky - 1) 2) as Hlt.
    assert (Hodd : Nat.odd ky = Nat.even (ky - 1)).
    { replace ky with (S (ky - 1)) at 1 by lia. apply Nat.odd_succ. }
    rewrite Hodd.
    split.
    - intros [= H1 H2]. split; [|lia].
      apply Nat.even_spec. exists ((ky - 1) / 2). lia.
    - intros [[m Hm]%Nat.even_spec ->]. f_equal. f_equal.
      f_equal; [lia|]. f_equal. lia. }
  split; [done|]. split; [|done].
  rewrite Hdws, Hws.
  destruct (Nat.eqb_spec ky 0); [lia|]. destruct (Nat.eqb_spec kx 0); [lia|].
  f_equal. f_equal. f_equal; [lia|]. f_equal. lia.
Qed.

Lemma conv_backward_gradient_shapes_witness :
  exists self' dx dw,
    Convolution.backward Samples.conv_net Samples.conv_compiled = (self', Ok tt)
    /\ grad (Convolution.x self') = Some dx
    /\ shape dx = [1; 1; 2 - (1 - 1) + 2 * ((1 - 1) / 2);
                         2 - (1 - 1) + 2 * ((1 - 1) / 2)]
    /\ (shape dx = shape Samples.image <-> Nat.odd 1 = true /\ 1 = 1)
    /\ (Convolution.w self' ≫= grad) = Some dw
    /\ shape dw = shape (ones [1; 1; 1; 1])
    /\ (Convolution.use_bias Samples.conv_compiled = true ->
        exists db, (Convolution.b self' ≫= grad) = Some db /\ shape db = [1]).
Proof.
  apply (conv_backward_gradient_shapes Samples.conv_net Samples.conv_compiled
           Samples.image Samples.image Samples.conv_upstream
           (mkTensor (Some (ones [1; 1; 1; 1])) None) (ones [1; 1; 1; 1])
           1 1 2 2 1 1 1); try reflexivity; try lia.
  intros _. eexists. reflexivity.
Defined.

End ConvolutionMore.

(** ** Max pooling: the maxima, the selection map and the routed gradient *)

Section MaxPoolingMore.
Import Np Walnut.
#[local] Arguments clip : simpl never.
#[local] Arguments size_of : simpl never.
#[local] Arguments Nat.div : simpl never.
#[local] Arguments Nat.modulo : simpl never.
#[local] Arguments Nat.ltb : simpl never.
#[local] Arguments Nat.eqb : simpl never.

Ltac pool_unfold :=
  unfold MaxPooling.x, MaxPooling.y, MaxPooling.set_x, MaxPooling.set_y,
    MaxPooling.set_base, MaxPooling.set_p_map in *.

Lemma bind_lift_ok {S A B} (r : result A) a (k : A -> St S B) s :
  r = Ok a -> (lift r ≫= k) s = k a s.
Proof. by intros ->. Qed.

Lemma bind_update {S B} (f : S -> S) (k : unit -> St S B) s :
  (update f ≫= k) s = k tt (f s).
Proof. done. Qed.

Lemma bind_self {S B} (k : S -> St S B) s : (self_ ≫= k) s = k s s.
Proof. done. Qed.

Lemma bind_run {S A B} (m : St S A) (k : A -> St S B) s s' a :
  m s = (s', Ok a) -> (m ≫= k) s = k a s'.
Proof. intros H. unfold mbind, St_bind. by rewrite H. Qed.

Lemma clip_nat (n d : nat) : clip (Z.of_nat n) d = Nat.min n d.
Proof.
  unfold clip. destruct (Z.ltb_spec (Z.of_nat n) 0); [lia|].
  by rewrite Nat2Z.id.
Qed.

(** The maximum of a non-empty range is one of its values and no value
    exceeds it. *)
Lemma max_upto_S n f :
  MaxPooling.max_upto (S (S n)) f
  = Z.max (MaxPooling.max_upto (S n) f) (f (S n)).
Proof.
  unfold MaxPooling.max_upto. cbn [Nat.sub].
  rewrite Nat.sub_0_r. rewrite seq_S, map_app, foldr_app. cbn.
  generalize (map f (seq 1 n)). intros l.
  induction l as [|v l IH]; cbn; [lia|]. rewrite IH. lia.
Qed.

Lemma max_upto_1 f : MaxPooling.max_upto 1 f = f 0.
Proof. reflexivity. Qed.

Lemma max_upto_spec n f :
  0 < n ->
  (forall k, k < n -> (f k <= MaxPooling.max_upto n f)%Z)
  /\ exists k, k < n /\ MaxPooling.max_upto n f = f k.
Proof.
  destruct n as [|n]; [lia|]. intros _.
  induction n as [|n [IH1 (k & Hk & IH2)]].
  - rewrite max_upto_1. split; [|exists 0; split; [lia|done]].
    intros k Hk. replace k with 0 by lia. lia.
  - rewrite max_upto_S. split.
    + intros j Hj. destruct (decide (j = S n)) as [->|]; [lia|].
      specialize (IH1 j ltac:(lia)). lia.
    + destruct (Z.max_spec (MaxPooling.max_upto (S n) f) (f (S n)))
        as [[_ ->]|[_ ->]].
      * exists (S n). split; [lia|done].
      * exists k. split; [lia|done].
Qed.

Lemma max_upto_ext n f g :
  0 < n -> (forall k, k < n -> f k = g k) ->
  MaxPooling.max_upto n f = MaxPooling.max_upto n g.
Proof.
  intros Hn H. unfold MaxPooling.max_upto. rewrite (H 0) by done. f_equal.
  apply map_ext_in. intros k Hk%in_seq. apply H. lia.
Qed.

Lemma resize_length a s : length (buf (resize a s)) = size_of s.
Proof.
  unfold resize. destruct (_ || _); cbn.
  - by rewrite length_replicate.
  - by rewrite length_map, length_seq.
Qed.

(** Resizing to the shape that the array has changes nothing. *)
Lemma resize_same (a : arr) :
  length (buf a) = size_of (shape a) -> resize a (shape a) = a.
Proof.
  destruct a as [s b]. cbn [shape buf]. intros Hlen. unfold resize.
  cbn [shape buf]. rewrite Hlen.
  destruct (Nat.eqb_spec (size_of s) 0) as [E|E]; cbn [orb].
  - unfold zeros, full. rewrite E. cbn. f_equal.
    rewrite E in Hlen. by destruct b.
  - f_equal.
    transitivity (map (fun p => nth p b 0%Z) (seq 0 (length b)));
      [|apply map_seq_nth].
    rewrite Hlen. apply map_ext_in. intros p Hp%in_seq. by rewrite Nat.mod_small by lia.
Qed.

(** [np.repeat] along the last two of four axes. *)
Lemma repeat23_cells (a : arr) B C ny nx py px b c u v :
  shape a = [B; C; ny; nx] ->
  b < B -> c < C -> u < py * ny -> v < px * nx ->
  geti (repeat_axis px 3 (repeat_axis py 2 a)) [b; c; u; v]
  = geti a [b; c; u / py; v / px].
Proof.
  intros Ha Hb Hc Hu Hv. unfold repeat_axis at 1.
  assert (Hs2 : shape (repeat_axis py 2 a) = [B; C; py * ny; nx]).
  { unfold repeat_axis. cbn [shape tabulate]. by rewrite Ha. }
  rewrite Hs2. cbn [alter list_alter].
  rewrite geti_tabulate by (by apply in_bounds4).
  cbn [alter list_alter]. unfold repeat_axis. rewrite Ha. cbn [alter list_alter].
  rewrite geti_tabulate; [done|].
  apply in_bounds4; try done.
  apply Nat.Div0.div_lt_upper_bound. lia.
Qed.

Lemma repeat23_shape (a : arr) B C ny nx py px :
  shape a = [B; C; ny; nx] ->
  shape (repeat_axis px 3 (repeat_axis py 2 a)) = [B; C; py * ny; px * nx].
Proof. intros Ha. unfold repeat_axis. cbn [shape tabulate]. by rewrite Ha. Qed.

Lemma set_plane23_shape yy xx m a : shape (MaxPooling.set_plane23 yy xx m a) = shape a.
Proof. done. Qed.

Lemma set_plane23_cells yy xx m (a : arr) B C ny nx b c i j :
  shape a = [B; C; ny; nx] -> b < B -> c < C -> i < ny -> j < nx ->
  geti (MaxPooling.set_plane23 yy xx m a) [b; c; i; j]
  = if (i =? yy) && (j =? xx) then geti m [b; c] else geti a [b; c; i; j].
Proof.
  intros Ha Hb Hc Hi Hj. unfold MaxPooling.set_plane23. rewrite Ha.
  by rewrite geti_tabulate by (by apply in_bounds4).
Qed.

(** The window [(yy, xx)] of the input and its maximum per image and
    channel. *)
Lemma window_max_run (xd : arr) B C Y X py px yy xx :
  shape xd = [B; C; Y; X] -> 0 < py -> 0 < px ->
  yy < Y / py -> xx < X / px ->
  exists chunk m,
    MaxPooling.window23 (yy * py) ((yy + 1) * py) (xx * px) ((xx + 1) * px) xd
    = Ok chunk
    /\ MaxPooling.max_axes23 chunk = Ok m
    /\ shape m = [B; C]
    /\ forall b c, b < B -> c < C ->
         geti m [b; c]
         = MaxPooling.max_upto py (fun u => MaxPooling.max_upto px (fun v =>
             geti xd [b; c; yy * py + u; xx * px + v])).
Proof.
  intros Hs Hpy Hpx Hyy Hxx.
  assert (Hy1 : (yy + 1) * py <= Y).
  { pose proof (Nat.Div0.mul_div_le Y py). nia. }
  assert (Hx1 : (xx + 1) * px <= X).
  { pose proof (Nat.Div0.mul_div_le X px). nia. }
  unfold MaxPooling.window23. rewrite Hs. cbn [unpack4 mbind result_bind].
  rewrite !clip_nat.
  replace (Nat.min (yy * py) Y) with (yy * py) by nia.
  replace (Nat.min ((yy + 1) * py) Y) with ((yy + 1) * py) by nia.
  replace (Nat.min (xx * px) X) with (xx * px) by nia.
  replace (Nat.min ((xx + 1) * px) X) with ((xx + 1) * px) by nia.
  eexists _, _. split; [reflexivity|].
  unfold MaxPooling.max_axes23, slice_nd, whole.
  cbn [shape tabulate map fst snd unpack4 mbind result_bind].
  rewrite !Nat.sub_0_r.
  replace ((yy + 1) * py - yy * py) with py by nia.
  replace ((xx + 1) * px - xx * px) with px by nia.
  destruct (Nat.eqb_spec py 0); [lia|]. destruct (Nat.eqb_spec px 0); [lia|].
  cbn [orb]. split; [reflexivity|]. split; [done|].
  intros b c Hb Hc. rewrite geti_tabulate by (by apply in_bounds2).
  apply max_upto_ext; [done|]. intros u Hu.
  apply max_upto_ext; [done|]. intros v Hv.
  rewrite geti_tabulate by (by apply in_bounds4). done.
Qed.

#[local] Abbreviation put yd l :=
  (MaxPooling.set_y (set_data (Some yd) (MaxPooling.y l)) l).

Lemma put_put (yd1 yd2 : arr) l : put yd2 (put yd1 l) = put yd2 l.
Proof. by destruct l as [[] ? ?]. Qed.

Lemma data_put (yd : arr) l : data (MaxPooling.y (put yd l)) = Some yd.
Proof. by destruct l as [[] ? ?]. Qed.

(** The two nested loops of [forward], for any loop body that writes one
    plane of the output per step. *)
Lemma plane_inner (body : nat -> St MaxPooling.t unit)
    (W : nat -> nat -> nat -> Z) B C ny nx yy :
  (forall xx l yd,
     xx < nx -> data (MaxPooling.y l) = Some yd -> shape yd = [B; C; ny; nx] ->
     exists m, body xx l = (put (MaxPooling.set_plane23 yy xx m yd) l, Ok tt)
               /\ forall b c, b < B -> c < C -> geti m [b; c] = W b c xx) ->
  forall xs, Forall (fun xx => xx < nx) xs ->
  forall l yd,
    data (MaxPooling.y l) = Some yd -> shape yd = [B; C; ny; nx] ->
    exists yd',
      for_each xs body l = (put yd' l, Ok tt)
      /\ shape yd' = [B; C; ny; nx]
      /\ forall b c i j, b < B -> c < C -> i < ny -> j < nx ->
           geti yd' [b; c; i; j]
           = if (i =? yy) && bool_decide (j ∈ xs) then W b c j
             else geti yd [b; c; i; j].
Proof.
  intros Hbody xs. induction xs as [|x xs IH]; intros Hall l yd Hd Hs.
  - exists yd. cbn. split.
    + unfold mret, St_ret. f_equal. destruct l as [[? ? ? ? ? ? [dy g]] ? ?].
      cbn in *. by subst.
    + split; [done|]. intros b c i j _ _ _ _.
      rewrite bool_decide_eq_false_2 by apply not_elem_of_nil.
      by rewrite andb_false_r.
  - apply Forall_cons in Hall as [Hx Hall].
    destruct (Hbody x l yd Hx Hd Hs) as (m & Hb & Hm).
    destruct (IH Hall (put (MaxPooling.set_plane23 yy x m yd) l)
                (MaxPooling.set_plane23 yy x m yd))
      as (yd' & Hrest & Hs' & Hc'); [apply data_put|done|].
    exists yd'. cbn [for_each]. unfold mbind, St_bind. rewrite Hb, Hrest.
    rewrite put_put. split; [done|]. split; [done|].
    intros b c i j Hb' Hc Hi Hj. rewrite Hc' by done.
    rewrite (set_plane23_cells _ _ _ _ B C ny nx) by done.
    destruct (Nat.eqb_spec i yy) as [->|]; cbn [andb]; [|done].
    destruct (decide (j = x)) as [->|Hne].
    + rewrite Nat.eqb_refl. rewrite (bool_decide_eq_true_2 (x ∈ x :: xs))
        by apply list_elem_of_here.
      rewrite Hm by done. by destruct (bool_decide _).
    + destruct (Nat.eqb_spec j x); [done|].
      destruct (bool_decide_reflect (j ∈ xs)) as [Hin|Hin].
      * by rewrite bool_decide_eq_true_2 by (by apply list_elem_of_further).
      * rewrite bool_decide_eq_false_2; [done|].
        intros [?|?]%elem_of_cons; done.
Qed.

Lemma plane_loops (body : nat -> nat -> St MaxPooling.t unit)
    (W : nat -> nat -> nat -> nat -> Z) B C ny nx :
  (forall yy xx l yd,
     yy < ny -> xx < nx ->
     data (MaxPooling.y l) = Some yd -> shape yd = [B; C; ny; nx] ->
     exists m, body yy xx l = (put (MaxPooling.set_plane23 yy xx m yd) l, Ok tt)
               /\ forall b c, b < B -> c < C -> geti m [b; c] = W b c yy xx) ->
  forall l yd,
    data (MaxPooling.y l) = Some yd -> shape yd = [B; C; ny; nx] ->
    exists yd',
      for_each (seq 0 ny) (fun yy => for_each (seq 0 nx) (body yy)) l
      = (put yd' l, Ok tt)
      /\ shape yd' = [B; C; ny; nx]
      /\ forall b c i j, b < B -> c < C -> i < ny -> j < nx ->
           geti yd' [b; c; i; j] = W b c i j.
Proof.
  intros Hbody.
  assert (Houter : forall ys, Forall (fun yy => yy < ny) ys ->
    forall l yd,
      data (MaxPooling.y l) = Some yd -> shape yd = [B; C; ny; nx] ->
      exists yd',
        for_each ys (fun yy => for_each (seq 0 nx) (body yy)) l
        = (put yd' l, Ok tt)
        /\ shape yd' = [B; C; ny; nx]
        /\ forall b c i j, b < B -> c < C -> i < ny -> j < nx ->
             geti yd' [b; c; i; j]
             = if bool_decide (i ∈ ys) then W b c i j
               else geti yd [b; c; i; j]).
  { induction ys as [|y ys IH]; intros Hall l yd Hd Hs.
    - exists yd. cbn. split.
      + unfold mret, St_ret. f_equal. destruct l as [[? ? ? ? ? ? [dy g]] ? ?].
        cbn in *. by subst.
      + split; [done|]. intros b c i j _ _ _ _.
        by rewrite bool_decide_eq_false_2 by apply not_elem_of_nil.
    - apply Forall_cons in Hall as [Hy Hall].
      destruct (plane_inner (body y) (fun b c xx => W b c y xx) B C ny nx y
                  (fun xx l yd => Hbody y xx l yd Hy) (seq 0 nx)) with (l := l) (yd := yd)
        as (yd1 & Hin & Hs1 & Hc1); [|done|done|].
      { apply Forall_forall. intros x Hx%elem_of_seq. lia. }
      destruct (IH Hall (put yd1 l) yd1) as (yd' & Hrest & Hs' & Hc');
        [apply data_put|done|].
      exists yd'. cbn [for_each]. unfold mbind, St_bind. rewrite Hin, Hrest.
      rewrite put_put. split; [done|]. split; [done|].
      intros b c i j Hb Hc Hi Hj. rewrite Hc', Hc1 by done.
      rewrite (bool_decide_eq_true_2 (j ∈ seq 0 nx))
        by (apply elem_of_seq; lia).
      rewrite andb_true_r.
      destruct (decide (i = y)) as [->|Hne].
      + rewrite Nat.eqb_refl.
        rewrite (bool_decide_eq_true_2 (y ∈ y :: ys)) by apply list_elem_of_here.
        by destruct (bool_decide _).
      + destruct (Nat.eqb_spec i y); [done|].
        destruct (bool_decide_reflect (i ∈ ys)) as [Hin'|Hin'].
        * by rewrite bool_decide_eq_true_2 by (by apply list_elem_of_further).
        * rewrite bool_decide_eq_false_2; [done|].
          intros [?|?]%elem_of_cons; done. }
  intros l yd Hd Hs.
  destruct (Houter (seq 0 ny)) with (l := l) (yd := yd)
    as (yd' & Hrun & Hs' & Hc'); [|done|done|].
  { apply Forall_forall. intros y Hy%elem_of_seq. lia. }
  exists yd'. split; [done|]. split; [done|].
  intros b c i j Hb Hc Hi Hj. rewrite Hc' by done.
  by rewrite bool_decide_eq_true_2 by (apply elem_of_seq; lia).
Qed.

Lemma crop_run self (xd : arr) B C Y X py px :
  data (MaxPooling.x self) = Some xd -> shape xd = [B; C; Y; X] ->
  MaxPooling.p_window self = (py, px) -> 0 < py -> 0 < px ->
  exists xp,
    MaxPooling.__crop self = Ok xp
    /\ shape xp = [B; C; Y / py * py; X / px * px]
    /\ length (buf xp) = size_of (shape xp)
    /\ forall b c u v, b < B -> c < C -> u < Y / py * py -> v < X / px * px ->
         geti xp [b; c; u; v] = geti xd [b; c; u; v].
Proof.
  intros Hx Hs Hw Hpy Hpx. unfold MaxPooling.__crop. rewrite Hw.
  unfold the_data. rewrite Hx. cbn [attr mbind result_bind]. rewrite Hs.
  cbn [unpack4 mbind result_bind]. unfold floordiv.
  destruct (Nat.eqb_spec py 0); [lia|]. destruct (Nat.eqb_spec px 0); [lia|].
  cbn [mbind result_bind]. eexists. split; [reflexivity|].
  unfold slice_nd, upto, whole. rewrite !clip_nat.
  pose proof (Nat.Div0.mul_div_le Y py). pose proof (Nat.Div0.mul_div_le X px).
  replace (Nat.min (Y / py * py) Y) with (Y / py * py) by lia.
  replace (Nat.min (X / px * px) X) with (X / px * px) by lia.
  cbn [map fst snd shape tabulate]. rewrite !Nat.sub_0_r.
  split; [done|]. split; [apply tabulate_length|].
  intros b c u v Hb Hc Hu Hv.
  rewrite geti_tabulate by (by apply in_bounds4). done.
Qed.

Lemma floordiv_mul n p : 0 < p -> floordiv (n * p) p = Ok n.
Proof.
  intros Hp. unfold floordiv. destruct (Nat.eqb_spec p 0); [lia|].
  by rewrite Nat.div_mul by lia.
Qed.

(** What [forward] computes. *)
Lemma maxpool_forward_run net self xd B C Y X py px :
  Layer.input net (MaxPooling.base self) = Some xd ->
  shape xd = [B; C; Y; X] ->
  MaxPooling.p_window self = (py, px) -> 0 < py -> 0 < px ->
  exists self' yd pm,
    MaxPooling.forward net self = (self', Ok tt)
    /\ MaxPooling.p_window self' = (py, px)
    /\ data (MaxPooling.x self') = Some xd
    /\ data (MaxPooling.y self') = Some yd
    /\ grad (MaxPooling.y self') = grad (MaxPooling.y self)
    /\ Layer.succ_layer (MaxPooling.base self')
       = Layer.succ_layer (MaxPooling.base self)
    /\ shape yd = [B; C; Y / py; X / px]
    /\ (forall b c i j, b < B -> c < C -> i < Y / py -> j < X / px ->
          geti yd [b; c; i; j]
          = MaxPooling.max_upto py (fun u => MaxPooling.max_upto px (fun v =>
              geti xd [b; c; i * py + u; j * px + v])))
    /\ MaxPooling.p_map self' = Some pm
    /\ shape pm = [B; C; Y / py * py; X / px * px]
    /\ length (buf pm) = size_of (shape pm)
    /\ (forall b c u v, b < B -> c < C -> u < Y / py * py -> v < X / px * px ->
          geti pm [b; c; u; v]
          = if Z.eqb (geti xd [b; c; u; v]) (geti yd [b; c; u / py; v / px])
            then 1%Z else 0%Z).
Proof.
  intros Hin Hs Hw Hpy Hpx.
  destruct (layer_forward_input _ _ _ Hin) as (bl & Hbl & Hx & Hy & _ & Hsucc).
  destruct (MaxPooling.forward net self) as [self' r] eqn:Hrun.
  unfold MaxPooling.forward in Hrun.
  unfold mbind at 1 2 3, St_bind at 1 2 3, zoom, self_ at 1 in Hrun.
  rewrite Hbl in Hrun.
  assert (Hx0 : data (MaxPooling.x (MaxPooling.set_base bl self)) = Some xd)
    by (destruct self; exact Hx).
  assert (Hw0 : MaxPooling.p_window (MaxPooling.set_base bl self) = (py, px))
    by (destruct self; exact Hw).
  destruct (crop_run (MaxPooling.set_base bl self) xd B C Y X py px)
    as (xp & Hcrop & Hxps & Hxpl & Hxpc); try done.
  unfold lift at 1 in Hrun. rewrite Hcrop, Hw0 in Hrun.
  rewrite (bind_lift_ok _ xd) in Hrun by (unfold the_data; by rewrite Hx0).
  rewrite (bind_lift_ok _ (B, C, Y, X)) in Hrun by (by rewrite Hs).
  cbv beta iota in Hrun.
  rewrite (bind_lift_ok _ (B, C, Y / py * py, X / px * px)) in Hrun
    by (by rewrite Hxps).
  cbv beta iota in Hrun.
  rewrite (bind_lift_ok _ (Y / py)) in Hrun by (by apply floordiv_mul).
  rewrite (bind_lift_ok _ (X / px)) in Hrun by (by apply floordiv_mul).
  rewrite !bind_update in Hrun.
  set (S0 := MaxPooling.set_p_map _ _) in Hrun.
  assert (Hy0 : data (MaxPooling.y S0) = Some (zeros [B; C; Y / py; X / px]))
    by (subst S0; by destruct self as [[] ? ?]).
  match type of Hrun with
  | context [for_each (seq 0 _) (fun yy => for_each (seq 0 _) (@?body yy))] =>
      destruct (plane_loops body
        (fun b c i j =>
           MaxPooling.max_upto py (fun u => MaxPooling.max_upto px (fun v =>
             geti xd [b; c; i * py + u; j * px + v])))
        B C (Y / py) (X / px)) with (l := S0) (yd := zeros [B; C; Y / py; X / px])
        as (yd & Hloop & Hyds & Hydc); [|exact Hy0|done|]
  end.
  { intros yy xx l yd Hyy Hxx Hd _.
    destruct (window_max_run xd B C Y X py px yy xx)
      as (chunk & m & Hch & Hm & _ & Hmc); try done.
    exists m. split; [|exact Hmc].
    rewrite bind_self. rewrite (bind_lift_ok _ chunk) by done.
    rewrite (bind_lift_ok _ m) by done.
    rewrite (bind_lift_ok _ yd) by (unfold the_data; by rewrite Hd).
    done. }
  rewrite (bind_run _ _ _ _ _ Hloop) in Hrun.
  rewrite bind_self in Hrun.
  rewrite (bind_lift_ok _ yd) in Hrun
    by (unfold the_data; by rewrite data_put).
  set (rep := repeat_axis px 3 (repeat_axis py 2 yd)).
  assert (Hreps : shape rep = shape xp).
  { subst rep. rewrite (repeat23_shape yd B C (Y / py) (X / px)) by done.
    rewrite Hxps. f_equal. f_equal. f_equal; [lia|]. f_equal. lia. }
  assert (Hrepl : length (buf rep) = size_of (shape rep))
    by apply tabulate_length.
  rewrite (bind_lift_ok _ rep) in Hrun.
  2:{ unfold MaxPooling.__stretch, ndim. rewrite Hyds. cbn [length].
      change ((2 <? 4) && (3 <? 4)) with true. cbv iota.
      fold rep. rewrite <- Hreps. by rewrite resize_same. }
  rewrite (bind_lift_ok _
             (NdArray (shape xp)
                (zip_with (fun u v => if (u =? v)%Z then 1%Z else 0%Z)
                   (buf xp) (buf rep)))) in Hrun
    by (unfold equal; by rewrite zip_nd_same_shape).
  assert (Hrepc : forall b c u v,
            b < B -> c < C -> u < Y / py * py -> v < X / px * px ->
            geti rep [b; c; u; v] = geti yd [b; c; u / py; v / px]).
  { intros b c u v Hb Hc Hu Hv. subst rep.
    apply (repeat23_cells yd B C (Y / py) (X / px) py px); done || lia. }
  clearbody rep.
  unfold update in Hrun. injection Hrun as <- <-.
  eexists _, yd, _. split; [reflexivity|].
  subst S0. destruct self as [[cp md ix pl sl tx [yd0 yg]] pw pmap].
  cbn in Hw, Hx, Hy, Hsucc |- *. subst pw.
  destruct bl as [cp' md' ix' pl' sl' tx' ty']. cbn in *. subst.
  repeat split; try done.
  - cbn [buf shape]. rewrite length_zip_with, Hxpl, Hrepl, Hreps. lia.
  - intros b c u v Hb Hc Hu Hv.
    assert (Hib : in_bounds (shape xp) [b; c; u; v] = true)
      by (rewrite Hxps; by apply in_bounds4).
    unfold geti at 1, get. cbn [shape buf]. rewrite Hib.
    rewrite (nth_zip_with _ _ _ _ 0%Z 0%Z).
    2:{ rewrite Hxpl. by apply ravel_lt. }
    2:{ rewrite Hrepl, Hreps. by apply ravel_lt. }
    assert (Hgx : nth (ravel (shape xp) [b; c; u; v]) (buf xp) 0%Z
                  = geti xd [b; c; u; v]).
    { rewrite <- Hxpc by done. unfold geti, get. by rewrite Hib. }
    assert (Hgr : nth (ravel (shape xp) [b; c; u; v]) (buf rep) 0%Z
                  = geti yd [b; c; u / py; v / px]).
    { rewrite <- Hrepc by done. unfold geti, get. by rewrite Hreps, Hib. }
    by rewrite Hgx, Hgr.
Qed.

(** What [backward] computes, cell by cell. *)
Lemma maxpool_backward_run net self (pm dy xd : arr) B C Y X py px :
  Layer.upstream net (MaxPooling.base self) = Some dy ->
  shape dy = [B; C; Y / py; X / px] ->
  MaxPooling.p_window self = (py, px) ->
  MaxPooling.p_map self = Some pm ->
  shape pm = [B; C; Y / py * py; X / px * px] ->
  length (buf pm) = size_of (shape pm) ->
  data (MaxPooling.x self) = Some xd -> shape xd = [B; C; Y; X] ->
  exists self' g,
    MaxPooling.backward net self = (self', Ok tt)
    /\ grad (MaxPooling.x self') = Some g
    /\ shape g = [B; C; Y / py * py; X / px * px]
    /\ forall b c u v, b < B -> c < C -> u < Y / py * py -> v < X / px * px ->
         geti g [b; c; u; v]
         = Z.mul (geti dy [b; c; u / py; v / px]) (geti pm [b; c; u; v]).
Proof.
  intros Hup Hdy Hw Hpm Hpms Hpml Hx Hxs.
  destruct (layer_backward_upstream _ _ _ Hup) as (bl & Hbl & Hg & Hxl & _).
  destruct (MaxPooling.backward net self) as [self' r] eqn:Hrun.
  unfold MaxPooling.backward in Hrun.
  unfold mbind at 1 2, St_bind at 1 2, zoom, self_ at 1 in Hrun.
  rewrite Hbl in Hrun.
  set (S0 := MaxPooling.set_base bl self) in Hrun.
  assert (Hg0 : grad (MaxPooling.y S0) = Some dy) by (by destruct self).
  assert (Hx0 : data (MaxPooling.x S0) = Some xd).
  { subst S0. destruct self. unfold MaxPooling.x, MaxPooling.set_base in *.
    cbn in *. by rewrite Hxl. }
  assert (Hpm0 : MaxPooling.p_map S0 = Some pm) by (by destruct self).
  assert (Hw0 : MaxPooling.p_window S0 = (py, px)) by (by destruct self).
  rewrite (bind_lift_ok _ pm) in Hrun by (by rewrite Hpm0).
  rewrite (bind_lift_ok _ dy) in Hrun by (by rewrite Hg0).
  set (rep := repeat_axis px 3 (repeat_axis py 2 dy)).
  assert (Hreps : shape rep = shape pm).
  { subst rep. rewrite (repeat23_shape dy B C (Y / py) (X / px)) by done.
    rewrite Hpms. f_equal. f_equal. f_equal; [lia|]. f_equal. lia. }
  assert (Hrepl : length (buf rep) = size_of (shape rep))
    by apply tabulate_length.
  assert (Hrepc : forall b c u v,
            b < B -> c < C -> u < Y / py * py -> v < X / px * px ->
            geti rep [b; c; u; v] = geti dy [b; c; u / py; v / px]).
  { intros b c u v Hb Hc Hu Hv. subst rep.
    apply (repeat23_cells dy B C (Y / py) (X / px) py px); done || lia. }
  rewrite (bind_lift_ok _ rep) in Hrun.
  2:{ rewrite Hw0. unfold MaxPooling.__stretch, ndim. rewrite Hdy. cbn [length].
      change ((2 <? 4) && (3 <? 4)) with true. cbv iota.
      fold rep. rewrite <- Hreps. by rewrite resize_same. }
  clearbody rep.
  rewrite (bind_lift_ok _ [B; C; Y; X]) in Hrun
    by (unfold tshape, the_data; rewrite Hx0; cbn; by rewrite Hxs).
  rewrite (bind_lift_ok _ (B, C, Y, X)) in Hrun by done.
  cbv beta iota in Hrun.
  set (masked := NdArray (shape rep) (zip_with Z.mul (buf rep) (buf pm))).
  rewrite (bind_lift_ok _ masked) in Hrun
    by (unfold mul; by rewrite zip_nd_same_shape).
  rewrite (bind_lift_ok _ (B, C, Y / py * py, X / px * px)) in Hrun
    by (subst masked; cbn [shape]; by rewrite Hreps, Hpms).
  cbv beta iota in Hrun.
  unfold update in Hrun. injection Hrun as <- <-.
  eexists _, _. split; [reflexivity|].
  pose proof (Nat.Div0.mul_div_le Y py). pose proof (Nat.Div0.mul_div_le X px).
  split; [by destruct self|]. unfold slice_nd, upto, whole. rewrite !clip_nat.
  replace (Nat.min Y (Y / py * py)) with (Y / py * py) by lia.
  replace (Nat.min X (X / px * px)) with (X / px * px) by lia.
  cbn [map fst snd shape tabulate]. rewrite !Nat.sub_0_r.
  split; [done|].
  intros b c u v Hb Hc Hu Hv.
  rewrite geti_tabulate by (by apply in_bounds4). cbn [zip_with fst Nat.add].
  assert (Hib : in_bounds (shape rep) [b; c; u; v] = true)
    by (rewrite Hreps, Hpms; by apply in_bounds4).
  subst masked. unfold geti at 1, get. cbn [shape buf]. rewrite Hib.
  rewrite (nth_zip_with _ _ _ _ 0%Z 0%Z).
  2:{ rewrite Hrepl. by apply ravel_lt. }
  2:{ rewrite Hpml, <- Hreps. by apply ravel_lt. }
  rewrite <- Hrepc by done. unfold geti, get.
  rewrite <- Hreps. by rewrite Hib.
Qed.

(** X6: max pooling with a window of [py] x [px] cells on an input of
    shape (B, C, Y, X): [forward] returns, keeps the input, and stores an
    output of shape (B, C, Y // py, X // px) in which every cell is the
    maximum of its window of the input: no cell of the window is larger
    and one cell of the window holds that value.  Rows and columns of the
    input beyond the last whole window are not read.  The selection map
    has the cropped shape. *)
Theorem maxpool_forward_takes_window_maxima net self xd B C Y X py px :
  Layer.input net (MaxPooling.base self) = Some xd ->
  shape xd = [B; C; Y; X] ->
  MaxPooling.p_window self = (py, px) -> 0 < py -> 0 < px ->
  exists self' yd pm,
    MaxPooling.forward net self = (self', Ok tt)
    /\ data (MaxPooling.x self') = Some xd
    /\ data (MaxPooling.y self') = Some yd
    /\ shape yd = [B; C; Y / py; X / px]
    /\ MaxPooling.p_map self' = Some pm
    /\ shape pm = [B; C; Y / py * py; X / px * px]
    /\ forall b c i j, b < B -> c < C -> i < Y / py -> j < X / px ->
         (forall u v, u < py -> v < px ->
            Z.le (geti xd [b; c; i * py + u; j * px + v])
                 (geti yd [b; c; i; j]))
         /\ exists u v, u < py /\ v < px
              /\ geti yd [b; c; i; j] = geti xd [b; c; i * py + u; j * px + v].
Proof.
  intros Hin Hs Hw Hpy Hpx.
  destruct (maxpool_forward_run net self xd B C Y X py px)
    as (self' & yd & pm & Hrun & _ & Hx & Hy & _ & _ & Hys & Hyc & Hpm & Hpms & _);
    try done.
  exists self', yd, pm. repeat (split; [done|]).
  intros b c i j Hb Hc Hi Hj. rewrite Hyc by done. split.
  - intros u v Hu Hv.
    destruct (max_upto_spec py (fun u => MaxPooling.max_upto px (fun v =>
                geti xd [b; c; i * py + u; j * px + v])) Hpy) as [Hle _].
    destruct (max_upto_spec px (fun v =>
                geti xd [b; c; i * py + u; j * px + v]) Hpx) as [Hle' _].
    specialize (Hle u Hu). specialize (Hle' v Hv). cbv beta in Hle. lia.
  - destruct (max_upto_spec py (fun u => MaxPooling.max_upto px (fun v =>
                geti xd [b; c; i * py + u; j * px + v])) Hpy)
      as [_ (u & Hu & ->)].
    destruct (max_upto_spec px (fun v =>
                geti xd [b; c; i * py + u; j * px + v]) Hpx)
      as [_ (v & Hv & ->)].
    exists u, v. done.
Qed.

Lemma maxpool_forward_takes_window_maxima_witness :
  exists self' yd pm,
    MaxPooling.forward Samples.pool_net Samples.pool_new = (self', Ok tt)
    /\ data (MaxPooling.x self') = Some Samples.image3
    /\ data (MaxPooling.y self') = Some yd
    /\ shape yd = [1; 1; 3 / 2; 3 / 2]
    /\ MaxPooling.p_map self' = Some pm
    /\ shape pm = [1; 1; 3 / 2 * 2; 3 / 2 * 2]
    /\ forall b c i j, b < 1 -> c < 1 -> i < 3 / 2 -> j < 3 / 2 ->
         (forall u v, u < 2 -> v < 2 ->
            Z.le (geti Samples.image3 [b; c; i * 2 + u; j * 2 + v])
                 (geti yd [b; c; i; j]))
         /\ exists u v, u < 2 /\ v < 2
              /\ geti yd [b; c; i; j]
                 = geti Samples.image3 [b; c; i * 2 + u; j * 2 + v].
Proof.
  apply (maxpool_forward_takes_window_maxima Samples.pool_net Samples.pool_new
           Samples.image3 1 1 3 3 2 2); try reflexivity; lia.
Defined.

(** X7: the selection map that [forward] stores holds 1 in exactly the
    cells of the cropped input that equal the maximum of their window and
    0 in all others; every window has at least one cell marked, and cells
    that tie for the maximum are all marked. *)
Theorem maxpool_selection_map_marks_maxima net self xd B C Y X py px :
  Layer.input net (MaxPooling.base self) = Some xd ->
  shape xd = [B; C; Y; X] ->
  MaxPooling.p_window self = (py, px) -> 0 < py -> 0 < px ->
  exists self' yd pm,
    MaxPooling.forward net self = (self', Ok tt)
    /\ data (MaxPooling.y self') = Some yd
    /\ MaxPooling.p_map self' = Some pm
    /\ (forall b c u v, b < B -> c < C -> u < Y / py * py -> v < X / px * px ->
          geti pm [b; c; u; v]
          = if Z.eqb (geti xd [b; c; u; v]) (geti yd [b; c; u / py; v / px])
            then 1%Z else 0%Z)
    /\ (forall b c i j, b < B -> c < C -> i < Y / py -> j < X / px ->
          exists u v, u < py /\ v < px
            /\ geti pm [b; c; i * py + u; j * px + v] = 1%Z).
Proof.
  intros Hin Hs Hw Hpy Hpx.
  destruct (maxpool_forward_run net self xd B C Y X py px)
    as (self' & yd & pm & Hrun & _ & Hx & Hy & _ & _ & Hys & Hyc & Hpm & Hpms
        & _ & Hpc); try done.
  exists self', yd, pm. repeat (split; [done|]).
  intros b c i j Hb Hc Hi Hj.
  destruct (max_upto_spec py (fun u => MaxPooling.max_upto px (fun v =>
              geti xd [b; c; i * py + u; j * px + v])) Hpy)
    as [_ (u & Hu & Hmax)].
  destruct (max_upto_spec px (fun v =>
              geti xd [b; c; i * py + u; j * px + v]) Hpx)
    as [_ (v & Hv & Hmax')].
  exists u, v. split; [done|]. split; [done|].
  rewrite Hpc by (done || nia).
  replace ((i * py + u) / py) with i
    by (apply (Nat.div_unique _ _ _ u); lia).
  replace ((j * px + v) / px) with j
    by (apply (Nat.div_unique _ _ _ v); lia).
  rewrite Hyc by done. rewrite Hmax, Hmax'. by rewrite Z.eqb_refl.
Qed.

Lemma maxpool_selection_map_marks_maxima_witness :
  exists self' yd pm,
    MaxPooling.forward Samples.pool_net Samples.pool_new = (self', Ok tt)
    /\ data (MaxPooling.y self') = Some yd
    /\ MaxPooling.p_map self' = Some pm
    /\ (forall b c u v, b < 1 -> c < 1 -> u < 3 / 2 * 2 -> v < 3 / 2 * 2 ->
          geti pm [b; c; u; v]
          = if Z.eqb (geti Samples.image3 [b; c; u; v])
                     (geti yd [b; c; u / 2; v / 2])
            then 1%Z else 0%Z)
    /\ (forall b c i j, b < 1 -> c < 1 -> i < 3 / 2 -> j < 3 / 2 ->
          exists u v, u < 2 /\ v < 2
            /\ geti pm [b; c; i * 2 + u; j * 2 + v] = 1%Z).
Proof.
  apply (maxpool_selection_map_marks_maxima Samples.pool_net Samples.pool_new
           Samples.image3 1 1 3 3 2 2); try reflexivity; lia.
Defined.

(** X8: a forward pass followed by a backward pass routes the upstream
    gradient to the maxima: the input gradient holds, in every cell of the
    cropped input that equals the maximum of its window, the upstream
    gradient of that window, and 0 in every other cell.  Cells that tie
    for the maximum each receive the whole gradient of the window. *)
Theorem maxpool_backward_routes_gradient net net' self xd dy B C Y X py px :
  Layer.input net (MaxPooling.base self) = Some xd ->
  shape xd = [B; C; Y; X] ->
  MaxPooling.p_window self = (py, px) -> 0 < py -> 0 < px ->
  Layer.upstream net' (MaxPooling.base self) = Some dy ->
  shape dy = [B; C; Y / py; X / px] ->
  exists self1 self2 yd g,
    MaxPooling.forward net self = (self1, Ok tt)
    /\ data (MaxPooling.y self1) = Some yd
    /\ MaxPooling.backward net' self1 = (self2, Ok tt)
    /\ grad (MaxPooling.x self2) = Some g
    /\ shape g = [B; C; Y / py * py; X / px * px]
    /\ forall b c u v, b < B -> c < C -> u < Y / py * py -> v < X / px * px ->
         geti g [b; c; u; v]
         = if Z.eqb (geti xd [b; c; u; v]) (geti yd [b; c; u / py; v / px])
           then geti dy [b; c; u / py; v / px] else 0%Z.
Proof.
  intros Hin Hs Hw Hpy Hpx Hup Hdy.
  destruct (maxpool_forward_run net self xd B C Y X py px)
    as (self1 & yd & pm & Hrun & Hw1 & Hx1 & Hy1 & Hg1 & Hsucc & Hys & Hyc
        & Hpm & Hpms & Hpml & Hpc); try done.
  destruct (maxpool_backward_run net' self1 pm dy xd B C Y X py px)
    as (self2 & g & Hrun2 & Hg & Hgs & Hgc); try done.
  { unfold Layer.upstream in *. rewrite Hsucc.
    destruct (Layer.succ_layer (MaxPooling.base self)); [done|].
    unfold MaxPooling.y in Hg1. by rewrite Hg1. }
  exists self1, self2, yd, g. repeat (split; [done|]).
  intros b c u v Hb Hc Hu Hv. rewrite Hgc, Hpc by done.
  destruct (Z.eqb _ _); lia.
Qed.

Lemma maxpool_backward_routes_gradient_witness :
  exists self1 self2 yd g,
    MaxPooling.forward Samples.pool_net Samples.pool_new = (self1, Ok tt)
    /\ data (MaxPooling.y self1) = Some yd
    /\ MaxPooling.backward Samples.pool_net self1 = (self2, Ok tt)
    /\ grad (MaxPooling.x self2) = Some g
    /\ shape g = [1; 1; 3 / 2 * 2; 3 / 2 * 2]
    /\ forall b c u v, b < 1 -> c < 1 -> u < 3 / 2 * 2 -> v < 3 / 2 * 2 ->
         geti g [b; c; u; v]
         = if Z.eqb (geti Samples.image3 [b; c; u; v])
                    (geti yd [b; c; u / 2; v / 2])
           then geti (ones [1; 1; 1; 1]) [b; c; u / 2; v / 2] else 0%Z.
Proof.
  apply (maxpool_backward_routes_gradient Samples.pool_net Samples.pool_net
           Samples.pool_new Samples.image3 (ones [1; 1; 1; 1]) 1 1 3 3 2 2);
    try reflexivity; lia.
Defined.

(** X9: a pooling window with no rows or no columns makes [forward] raise
    ZeroDivisionError when it crops the input; by then the input has been
    taken from the previous layer, and the output and the selection map
    are as they were. *)
Theorem maxpool_empty_window_raises net self xd B C Y X py px :
  Layer.input net (MaxPooling.base self) = Some xd ->
  shape xd = [B; C; Y; X] ->
  MaxPooling.p_window self = (py, px) -> py = 0 \/ px = 0 ->
  exists self',
    MaxPooling.forward net self = (self', Raise ZeroDivisionError)
    /\ data (MaxPooling.x self') = Some xd
    /\ MaxPooling.y self' = MaxPooling.y self
    /\ MaxPooling.p_map self' = MaxPooling.p_map self.
Proof.
  intros Hin Hs Hw Hz.
  destruct (layer_forward_input _ _ _ Hin) as (bl & Hbl & Hx & Hy & _).
  unfold MaxPooling.forward.
  unfold mbind at 1 2 3, St_bind at 1 2 3, zoom, self_ at 1.
  rewrite Hbl. unfold lift at 1.
  assert (Hcrop : MaxPooling.__crop (MaxPooling.set_base bl self)
                  = Raise ZeroDivisionError).
  { unfold MaxPooling.__crop.
    replace (MaxPooling.p_window (MaxPooling.set_base bl self)) with (py, px)
      by (by destruct self).
    unfold the_data.
    replace (data (MaxPooling.x (MaxPooling.set_base bl self))) with (Some xd)
      by (by destruct self).
    cbn [attr mbind result_bind]. rewrite Hs. cbn [unpack4 mbind result_bind].
    unfold floordiv. destruct Hz as [-> | ->]; [done|].
    by destruct (py =? 0). }
  rewrite Hcrop. eexists. split; [reflexivity|].
  destruct self. cbn in *. done.
Qed.

Lemma maxpool_empty_window_raises_witness :
  exists self',
    MaxPooling.forward Samples.pool_net LayerSamples.pool_flat
    = (self', Raise ZeroDivisionError)
    /\ data (MaxPooling.x self') = Some Samples.image3
    /\ MaxPooling.y self' = MaxPooling.y LayerSamples.pool_flat
    /\ MaxPooling.p_map self' = MaxPooling.p_map LayerSamples.pool_flat.
Proof.
  apply (maxpool_empty_window_raises Samples.pool_net LayerSamples.pool_flat
           Samples.image3 1 1 3 3 0 2); try reflexivity. by left.
Defined.

End MaxPoolingMore.

(** ** The layers without parameters: Output, Flatten, Dropout *)

Section PlainLayers.
Import Np Walnut.
#[local] Arguments size_of : simpl never.
#[local] Arguments Nat.modulo : simpl never.
#[local] Arguments Nat.div : simpl never.

(** The base class, when the next layer exists: [y.grad] becomes whatever
    the next layer holds as the gradient of its input, also [None]. *)
Lemma layer_backward_run {E} (net : gmap nat (Layer.t E)) l :
  (forall r, Layer.succ_layer l = Some r -> is_Some (net !! r)) ->
  exists l', Layer.backward net l = (l', Ok tt)
             /\ grad (Layer.y l') = Layer.upstream net l
             /\ Layer.x l' = Layer.x l
             /\ data (Layer.y l') = data (Layer.y l)
             /\ Layer.mode l' = Layer.mode l.
Proof.
  unfold Layer.upstream, Layer.backward. intros H. st_unfold.
  destruct (Layer.succ_layer l) as [r|].
  - destruct (H r eq_refl) as [s ->]. cbn. eauto 10.
  - exists l. cbn. eauto 10.
Qed.

Lemma resize_cells_shape {E} (zero : E) a s : shape (resize_cells zero a s) = s.
Proof. unfold resize_cells. by destruct (_ || _). Qed.

Lemma resize_cells_length {E} (zero : E) a s :
  length (buf (resize_cells zero a s)) = size_of s.
Proof.
  unfold resize_cells. destruct (_ || _); cbn.
  - by rewrite length_replicate.
  - by rewrite length_map, length_seq.
Qed.

Lemma resize_cells_same {E} (zero : E) b s :
  length b = size_of s -> resize_cells zero (NdArray s b) s = NdArray s b.
Proof.
  intros Hlen. unfold resize_cells. cbn [shape buf]. rewrite Hlen.
  destruct (Nat.eqb_spec (size_of s) 0) as [E0|E0]; cbn [orb].
  - unfold full. rewrite E0. cbn. f_equal. rewrite E0 in Hlen. by destruct b.
  - f_equal.
    transitivity (map (fun p => nth p b zero) (seq 0 (length b)));
      [|apply map_seq_nth].
    rewrite Hlen. apply map_ext_in. intros p Hp%in_seq.
    by rewrite Nat.mod_small by lia.
Qed.

(** X10: Flatten and its backward pass undo each other's change of layout.
    [forward] turns an input of [n] > 0 items of shape [rest] into [n] rows
    of [size rest] cells, the cells in the same order; [backward] then
    turns an upstream gradient of that flat shape into an input gradient of
    the shape of the input, again with the cells in the same order. *)
Theorem flatten_round_trip {E} (zero none : E) net net' self xd dy n rest :
  Layer.input net self = Some xd ->
  shape xd = n :: rest -> 0 < n ->
  Layer.upstream net' self = Some dy ->
  shape dy = [n; size_of rest] -> length (buf dy) = size_of (shape dy) ->
  exists self1 self2,
    Flatten.forward net self = (self1, Ok tt)
    /\ data (Layer.y self1) = Some (NdArray [n; size_of rest] (buf xd))
    /\ Flatten.backward zero none net' self1 = (self2, Ok tt)
    /\ grad (Layer.x self2) = Some (NdArray (n :: rest) (buf dy))
    /\ data (Layer.x self2) = Some xd.
Proof.
  intros Hin Hs Hn Hup Hdy Hlen.
  destruct (layer_forward_input _ _ _ Hin) as (bl & Hbl & Hx & Hy & _ & Hsucc).
  set (self1 := Layer.set_y
                  (set_data (Some (NdArray [n; size_of rest] (buf xd)))
                     (Layer.y bl)) bl).
  assert (Hf : Flatten.forward net self = (self1, Ok tt)).
  { unfold Flatten.forward. st_unfold. rewrite Hbl, Hx. cbn. rewrite Hs.
    unfold reshape_rows. rewrite Hs, size_of_cons.
    destruct (Nat.eqb_spec n 0); [lia|]. cbn [orb].
    rewrite Nat.mul_comm, Nat.Div0.mod_mul, Nat.div_mul by lia. done. }
  destruct (layer_backward_upstream net' self1 dy)
    as (bl' & Hbl' & Hg' & Hxl' & _).
  { unfold Layer.upstream in *. subst self1. cbn. rewrite Hsucc.
    destruct (Layer.succ_layer self); [done|]. cbn. by rewrite Hy. }
  assert (Hre : resize_cells zero dy (n :: rest) = NdArray (n :: rest) (buf dy)).
  { assert (Hl : length (buf dy) = size_of (n :: rest)).
    { rewrite Hlen, Hdy, !size_of_cons, size_of_nil. lia. }
    unfold resize_cells. rewrite Hl.
    destruct (Nat.eqb_spec (size_of (n :: rest)) 0) as [E0|E0]; cbn [orb].
    - unfold full. rewrite E0. cbn. f_equal. rewrite E0 in Hl.
      by destruct (buf dy).
    - f_equal.
      transitivity (map (fun p => nth p (buf dy) zero) (seq 0 (length (buf dy))));
        [|apply map_seq_nth].
      rewrite Hl. apply map_ext_in. intros p Hp%in_seq.
      by rewrite Nat.mod_small by lia. }
  exists self1,
    (Layer.set_x (set_grad (Some (NdArray (n :: rest) (buf dy))) (Layer.x bl'))
       bl').
  split; [done|]. split; [done|]. split.
  - unfold Flatten.backward. st_unfold. rewrite Hbl'. cbn. rewrite Hg'.
    unfold tshape, the_data. rewrite Hxl'. subst self1. cbn. rewrite Hx. cbn.
    rewrite Hs, Hre. done.
  - cbn. rewrite Hxl'. subst self1. cbn. by rewrite Hx.
Qed.

Lemma flatten_round_trip_witness :
  exists self1 self2,
    Flatten.forward LayerSamples.flat_net LayerSamples.flat_new
    = (self1, Ok tt)
    /\ data (Layer.y self1)
       = Some (NdArray [2; size_of [1; 2]] (buf LayerSamples.cube))
    /\ Flatten.backward (Some 0%Z) None LayerSamples.flat_net self1
       = (self2, Ok tt)
    /\ grad (Layer.x self2)
       = Some (NdArray [2; 1; 2] (buf LayerSamples.flat_up))
    /\ data (Layer.x self2) = Some LayerSamples.cube.
Proof.
  apply (flatten_round_trip (Some 0%Z) None LayerSamples.flat_net
           LayerSamples.flat_net LayerSamples.flat_new LayerSamples.cube
           LayerSamples.flat_up 2 [1; 2]); try reflexivity. lia.
Defined.

(** X11: the backward pass of Flatten never checks the gradient it is
    given.  Whenever the layer holds an input, [backward] returns and
    stores an input gradient of the shape of the input; an upstream
    gradient of any other size is cut, or repeated from its start, to fill
    that shape, and an absent upstream gradient gives an array that holds
    [None] in every cell. *)
Theorem flatten_backward_fits_any_gradient {E} (zero none : E) net self xd :
  data (Layer.x self) = Some xd ->
  (forall r, Layer.succ_layer self = Some r -> is_Some (net !! r)) ->
  exists self' g,
    Flatten.backward zero none net self = (self', Ok tt)
    /\ grad (Layer.x self') = Some g
    /\ shape g = shape xd
    /\ length (buf g) = size_of (shape xd)
    /\ match Layer.upstream net self with
       | Some dy =>
           length (buf dy) <> 0 ->
           forall p, p < size_of (shape xd) ->
             nth p (buf g) zero = nth (p mod length (buf dy)) (buf dy) zero
       | None =>
           forall p, p < size_of (shape xd) -> nth p (buf g) zero = none
       end.
Proof.
  intros Hx Hsucc.
  destruct (layer_backward_run net self Hsucc) as (bl & Hbl & Hg & Hxl & _).
  unfold Flatten.backward. st_unfold. rewrite Hbl.
  unfold tshape, the_data. rewrite Hxl, Hx. cbn. rewrite Hg.
  eexists _, _. split; [reflexivity|]. split; [reflexivity|].
  split; [apply resize_cells_shape|]. split; [apply resize_cells_length|].
  destruct (Layer.upstream net self) as [dy|].
  - intros Hne p Hp. unfold resize_cells.
    destruct (Nat.eqb_spec (length (buf dy)) 0); [done|].
    destruct (Nat.eqb_spec (size_of (shape xd)) 0); [lia|]. cbn [orb buf].
    by rewrite nth_map_seq_lt.
  - intros p Hp. unfold resize_cells. cbn [buf length].
    destruct (Nat.eqb_spec (size_of (shape xd)) 0); [lia|]. cbn [orb buf Nat.eqb].
    rewrite nth_map_seq_lt by done. by rewrite Nat.mod_1_r.
Qed.

Lemma flatten_backward_fits_any_gradient_witness :
  exists self' g,
    Flatten.backward (Some 0%Z) None LayerSamples.flat_net_silent
      LayerSamples.flat_fed = (self', Ok tt)
    /\ grad (Layer.x self') = Some g
    /\ shape g = shape LayerSamples.cube
    /\ length (buf g) = size_of (shape LayerSamples.cube)
    /\ match Layer.upstream LayerSamples.flat_net_silent LayerSamples.flat_fed
       with
       | Some dy =>
           length (buf dy) <> 0 ->
           forall p, p < size_of (shape LayerSamples.cube) ->
             nth p (buf g) (Some 0%Z)
             = nth (p mod length (buf dy)) (buf dy) (Some 0%Z)
       | None =>
           forall p, p < size_of (shape LayerSamples.cube) ->
             nth p (buf g) (Some 0%Z) = None
       end.
Proof.
  apply (flatten_backward_fits_any_gradient (Some 0%Z) None
           LayerSamples.flat_net_silent LayerSamples.flat_fed
           LayerSamples.cube); [reflexivity|].
  intros r [= <-]. eexists. reflexivity.
Defined.

(** X12: the output layer is the identity in both directions: [forward]
    copies the output of the previous layer to its own output, [backward]
    copies the gradient that the next layer holds for its input to the
    gradient of its own input, and neither changes the data. *)
Theorem output_layer_passes_through net net' (self : Output.t) xd g :
  Layer.input net self = Some xd ->
  Layer.upstream net' self = Some g ->
  exists self1 self2,
    Output.forward net self = (self1, Ok tt)
    /\ data (Layer.x self1) = Some xd
    /\ data (Layer.y self1) = Some xd
    /\ Output.backward net' self1 = (self2, Ok tt)
    /\ grad (Layer.y self2) = Some g
    /\ grad (Layer.x self2) = Some g
    /\ data (Layer.x self2) = Some xd
    /\ data (Layer.y self2) = Some xd.
Proof.
  intros Hin Hup.
  destruct (layer_forward_input _ _ _ Hin) as (bl & Hbl & Hx & Hy & _ & Hsucc).
  set (self1 := Layer.set_y (set_data (Some xd) (Layer.y bl)) bl).
  assert (Hf : Output.forward net self = (self1, Ok tt)).
  { unfold Output.forward. st_unfold. rewrite Hbl. subst self1.
    by rewrite Hx. }
  destruct (layer_backward_upstream net' self1 g)
    as (bl' & Hbl' & Hg' & Hxl' & Hyl' & _).
  { unfold Layer.upstream in *. subst self1. cbn. rewrite Hsucc.
    destruct (Layer.succ_layer self); [done|]. cbn. by rewrite Hy. }
  exists self1, (Layer.set_x (set_grad (Some g) (Layer.x bl')) bl').
  split; [done|]. split; [done|]. split; [done|]. split.
  - unfold Output.backward. st_unfold. rewrite Hbl'. by rewrite Hg'.
  - cbn. rewrite Hxl', Hyl'. done.
Qed.

Lemma output_layer_passes_through_witness :
  exists self1 self2,
    Output.forward Samples.lin_net LayerSamples.out_new = (self1, Ok tt)
    /\ data (Layer.x self1) = Some (NdArray [1; 1] [2%Z])
    /\ data (Layer.y self1) = Some (NdArray [1; 1] [2%Z])
    /\ Output.backward Samples.lin_net self1 = (self2, Ok tt)
    /\ grad (Layer.y self2) = Some (NdArray [1; 1] [3%Z])
    /\ grad (Layer.x self2) = Some (NdArray [1; 1] [3%Z])
    /\ data (Layer.x self2) = Some (NdArray [1; 1] [2%Z])
    /\ data (Layer.y self2) = Some (NdArray [1; 1] [2%Z]).
Proof.
  apply (output_layer_passes_through Samples.lin_net Samples.lin_net
           LayerSamples.out_new (NdArray [1; 1] [2%Z]) (NdArray [1; 1] [3%Z]));
    reflexivity.
Defined.

(** X13: in evaluation mode the forward pass of Dropout is the identity:
    the output is the input, no random value is used (the result is the
    same for every draw) and the cached mask stays as it was. *)
Theorem dropout_eval_forward_is_identity net self xd :
  Dropout.mode self = eval ->
  Layer.input net (Dropout.base self) = Some xd ->
  exists self',
    (forall coins, Dropout.forward coins net self = (self', Ok tt))
    /\ data (Dropout.x self') = Some xd
    /\ data (Dropout.y self') = Some xd
    /\ Dropout.d_map self' = Dropout.d_map self
    /\ Dropout.d_rate self' = Dropout.d_rate self.
Proof.
  intros Hmode Hin.
  destruct (layer_forward_input _ _ _ Hin) as (bl & Hbl & Hx & Hy & Hm & _).
  destruct self as [bs rate dm].
  unfold Dropout.mode, Dropout.x, Dropout.y in *. cbn in *.
  exists (Dropout.Build (Layer.set_y (set_data (Some xd) (Layer.y bl)) bl)
            rate dm).
  split; [|done].
  intros coins. unfold Dropout.forward. st_unfold. cbn. rewrite Hbl.
  unfold Dropout.mode. cbn. rewrite Hm, Hmode.
  unfold Dropout.x, Dropout.y, Dropout.set_y, Dropout.set_base. cbn.
  by rewrite Hx.
Qed.

Lemma dropout_eval_forward_is_identity_witness :
  exists self',
    (forall coins,
       Dropout.forward coins Samples.drop_net LayerSamples.drop_eval
       = (self', Ok tt))
    /\ data (Dropout.x self') = Some Samples.drop_in
    /\ data (Dropout.y self') = Some Samples.drop_in
    /\ Dropout.d_map self' = Dropout.d_map LayerSamples.drop_eval
    /\ Dropout.d_rate self' = Dropout.d_rate LayerSamples.drop_eval.
Proof.
  apply (dropout_eval_forward_is_identity Samples.drop_net
           LayerSamples.drop_eval Samples.drop_in); reflexivity.
Defined.



End PlainLayers.

(** ** Tensors: moving in place, shared gradients, iteration *)

Section TensorMore.
Import Np Compyute.

Lemma ito_device_unfold fuel self device :
  Tensor.ito_device (S fuel) self device
  = (o ← Tensor.deref self;
     if bool_decide (Tensor.device o = device) then mret tt
     else
       Tensor.modify self
         (Tensor.set_data (data_to_device (Tensor.data o) device));;
       if Tensor.truth_of_slot (Tensor.grad o)
       then
         g ← lift (attr (Tensor.grad o) AttributeError);
         Tensor.ito_device fuel g device
       else mret tt).
Proof. reflexivity. Qed.

(** Moving a tensor to the device does not lengthen any chain of
    gradients. *)
Lemma settles_moved dev n (h : Tensor.heap) l o : forall g,
  h !! l = Some o ->
  Tensor.settles dev h g n = true ->
  Tensor.settles dev
    (alter (Tensor.set_data (data_to_device (Tensor.data o) dev)) l h) g n
  = true.
Proof.
  induction n as [|n IH]; intros g Hl Hs; cbn in *.
  - destruct (decide (g = l)) as [->|Hne].
    + rewrite lookup_alter_eq, Hl. cbn.
      by rewrite bool_decide_eq_true_2.
    + rewrite lookup_alter_ne by done. done.
  - destruct (decide (g = l)) as [->|Hne].
    + rewrite lookup_alter_eq, Hl. cbn.
      by rewrite bool_decide_eq_true_2.
    + rewrite lookup_alter_ne by done.
      destruct (h !! g) as [og|]; [|done].
      destruct (bool_decide _); [done|].
      destruct (Tensor.grad og); [|done]. by apply IH.
Qed.

(** What [ito_device] does on a chain of gradients that ends, or reaches
    the device, within the depth of the calls. *)
Lemma ito_device_run dev n : forall (h : Tensor.heap) l,
  Tensor.settles dev h l n = true ->
  exists h',
    Tensor.ito_device (S n) l dev h = (h', Ok tt)
    /\ dom h' = dom h
    /\ (forall k o, h !! k = Some o ->
          exists o', h' !! k = Some o'
            /\ Tensor.grad o' = Tensor.grad o
            /\ Tensor._iterator o' = Tensor._iterator o
            /\ cells (Tensor.data o') = cells (Tensor.data o)
            /\ elt (Tensor.data o') = elt (Tensor.data o)
            /\ (Tensor.device o' = Tensor.device o \/ Tensor.device o' = dev))
    /\ (forall o, h !! l = Some o ->
          exists o', h' !! l = Some o' /\ Tensor.device o' = dev)
    /\ (forall o g, h !! l = Some o -> Tensor.device o <> dev ->
          Tensor.grad o = Some g ->
          exists og, h' !! g = Some og /\ Tensor.device og = dev).
Proof.
  induction n as [|n IH]; intros h l Hs.
  - cbn in Hs. destruct (h !! l) as [o|] eqn:Hl; [|done].
    rewrite ito_device_unfold. st_unfold. rewrite (deref_spec _ _ _ Hl).
    destruct (bool_decide_reflect (Tensor.device o = dev)) as [Hd|Hd].
    + exists h. split; [done|]. split; [done|]. split; [eauto 10|].
      split; [|intros o' g [= <-]; done].
      intros o' [= <-]. eauto.
    + destruct (Tensor.grad o) eqn:Hg; [done|]. cbn.
      unfold Tensor.modify, update. eexists. split; [reflexivity|].
      split; [apply dom_alter_L|]. split.
      * intros k ok Hk. destruct (decide (k = l)) as [->|Hne].
        -- rewrite lookup_alter_eq, Hl. cbn. rewrite Hl in Hk.
           injection Hk as <-. eexists. split; [reflexivity|]. cbn. eauto 10.
        -- rewrite lookup_alter_ne by done. eauto 10.
      * split; [|intros o' g [= <-] _ Hg'; congruence].
        intros o' [= <-]. rewrite lookup_alter_eq, Hl. cbn. eauto.
  - cbn in Hs. destruct (h !! l) as [o|] eqn:Hl; [|done].
    rewrite ito_device_unfold. st_unfold. rewrite (deref_spec _ _ _ Hl).
    destruct (bool_decide_reflect (Tensor.device o = dev)) as [Hd|Hd].
    + exists h. split; [done|]. split; [done|]. split; [eauto 10|].
      split; [|intros o' g [= <-]; done].
      intros o' [= <-]. eauto.
    + unfold Tensor.modify, update.
      set (h1 := alter _ l h).
      assert (H1l : h1 !! l
                    = Some (Tensor.set_data
                              (data_to_device (Tensor.data o) dev) o))
        by (subst h1; by rewrite lookup_alter_eq, Hl).
      destruct (Tensor.grad o) as [g|] eqn:Hg;
        cbn [Tensor.truth_of_slot Tensor.__bool__ attr].
      * destruct (IH h1 g) as (h' & Hrun & Hdom & Hobj & Hself & _).
        { subst h1. by apply settles_moved. }
        rewrite Hrun. exists h'. split; [done|].
        split; [rewrite Hdom; subst h1; apply dom_alter_L|]. split.
        -- intros k ok Hk. destruct (decide (k = l)) as [->|Hne].
           ++ rewrite Hl in Hk. injection Hk as <-.
              destruct (Hobj l _ H1l) as (o' & Ho' & ? & ? & ? & ? & Hdev).
              exists o'. split; [done|]. cbn in *.
              repeat split; try done. right. by destruct Hdev.
           ++ apply Hobj. subst h1. by rewrite lookup_alter_ne.
        -- split.
           ++ intros o' [= <-].
              destruct (Hobj l _ H1l) as (o' & Ho' & _ & _ & _ & _ & Hdev).
              exists o'. split; [done|]. by destruct Hdev.
           ++ intros o' g' [= <-] _ Hg'. rewrite Hg in Hg'.
              injection Hg' as <-.
              destruct (decide (g = l)) as [->|Hne].
              ** destruct (Hself _ H1l) as (og & ? & ?). eauto.
              ** assert (is_Some (h1 !! g)) as [og Hog].
                 { assert (Hs1 : Tensor.settles dev h1 g n = true)
                     by (subst h1; by apply settles_moved).
                   destruct (h1 !! g) eqn:E; [eauto|].
                   destruct n; cbn in Hs1; by rewrite E in Hs1. }
                 destruct (Hself _ Hog) as (og' & ? & ?). eauto.
      * eexists. split; [reflexivity|].
        split; [subst h1; apply dom_alter_L|]. split.
        -- intros k ok Hk. destruct (decide (k = l)) as [->|Hne].
           ++ rewrite H1l. rewrite Hl in Hk. injection Hk as <-.
              eexists. split; [reflexivity|]. cbn. eauto 10.
           ++ subst h1. rewrite lookup_alter_ne by done. eauto 10.
        -- split; [|intros o' g [= <-] _ Hg'; congruence].
           intros o' [= <-]. rewrite H1l. eauto.
Qed.

(** X15: [ito_device] moves a tensor in place.  On a chain of gradients
    that ends, or reaches the device, within the depth of the calls, it
    returns [None], creates no tensor, and leaves the tensor on the
    requested device with the cells, the element type and the gradient it
    had; the gradient of a tensor that had to be moved is on the device
    too.  A conversion with [to_device] afterwards returns the tensor
    itself. *)
Theorem ito_device_moves_in_place (h : Tensor.heap) l o dev n :
  h !! l = Some o ->
  Tensor.settles dev h l n = true ->
  exists h' o',
    Tensor.ito_device (S n) l dev h = (h', Ok tt)
    /\ dom h' = dom h
    /\ h' !! l = Some o'
    /\ Tensor.device o' = dev
    /\ cells (Tensor.data o') = cells (Tensor.data o)
    /\ elt (Tensor.data o') = elt (Tensor.data o)
    /\ Tensor.grad o' = Tensor.grad o
    /\ (forall g, Tensor.device o <> dev -> Tensor.grad o = Some g ->
          exists og, h' !! g = Some og /\ Tensor.device og = dev)
    /\ (forall fuel, Tensor.to_device (S fuel) l dev h' = (h', Ok l)).
Proof.
  intros Hl Hs.
  destruct (ito_device_run dev n h l Hs) as (h' & Hrun & Hdom & Hobj & Hself & Hgrad).
  destruct (Hobj l o Hl) as (o' & Ho' & Hg & _ & Hc & He & _).
  destruct (Hself o Hl) as (o'' & Ho'' & Hdev).
  rewrite Ho' in Ho''. injection Ho'' as <-.
  exists h', o'. repeat (split; [done|]). split.
  - intros g Hne Hgo. by apply (Hgrad o g).
  - intros fuel. rewrite to_device_unfold. st_unfold.
    rewrite (deref_spec _ _ _ Ho'). by rewrite bool_decide_eq_true_2.
Qed.

Lemma ito_device_moves_in_place_witness :
  exists h' o',
    Tensor.ito_device 2 1 cuda TensorSamples.heap0 = (h', Ok tt)
    /\ dom h' = dom TensorSamples.heap0
    /\ h' !! 1 = Some o'
    /\ Tensor.device o' = cuda
    /\ cells (Tensor.data o') = cells (TensorSamples.vec [1; 2]%Z)
    /\ elt (Tensor.data o') = elt (TensorSamples.vec [1; 2]%Z)
    /\ Tensor.grad o' = Some 2
    /\ (forall g, cpu <> cuda -> Some 2 = Some g ->
          exists og, h' !! g = Some og /\ Tensor.device og = cuda)
    /\ (forall fuel, Tensor.to_device (S fuel) 1 cuda h' = (h', Ok 1)).
Proof.
  apply (ito_device_moves_in_place TensorSamples.heap0 1
           (Tensor.Build (TensorSamples.vec [1; 2]%Z) (Some 2) 0) cuda 1);
    reflexivity.
Defined.

(** X16: [to_device] copies the tensor but not a gradient that is on the
    device already: when the tensor is on another device and its gradient
    is on the requested one, the tensor that [to_device] returns is new and
    its gradient is the very tensor that is the gradient of the original.
    The two tensors share their gradient from then on. *)
Theorem to_device_shares_gradient_on_device
    (h : Tensor.heap) self o g og dev fuel :
  h !! self = Some o -> Tensor.device o <> dev ->
  Tensor.grad o = Some g ->
  h !! g = Some og -> Tensor.device og = dev ->
  exists h' l',
    Tensor.to_device (S (S fuel)) self dev h = (h', Ok l')
    /\ h !! l' = None
    /\ h' !! l'
       = Some (Tensor.Build (data_to_device (Tensor.data o) dev) (Some g) 0)
    /\ h' !! self = Some o
    /\ h' !! g = Some og.
Proof.
  intros Hl Hd Hg Hgl Hgd.
  rewrite to_device_unfold. st_unfold. rewrite (deref_spec _ _ _ Hl).
  rewrite bool_decide_eq_false_2 by done.
  unfold Tensor.__init__.
  destruct (new_spec h (Tensor.Build (data_to_device (Tensor.data o) dev) None 0))
    as (l' & -> & Hfresh).
  rewrite Hg. cbn [Tensor.truth_of_slot Tensor.__bool__ attr].
  assert (Hne : g <> l') by congruence.
  assert (Hne' : self <> l') by congruence.
  rewrite to_device_unfold. unfold mbind at 1, St_bind at 1.
  rewrite (deref_spec _ g og) by (by rewrite lookup_insert_ne).
  rewrite bool_decide_eq_true_2 by done.
  unfold Tensor.modify, update, mret, St_ret.
  eexists _, l'. split; [reflexivity|]. split; [done|].
  split; [by rewrite lookup_alter_eq, lookup_insert_eq|].
  by rewrite !lookup_alter_ne, !lookup_insert_ne by done.
Qed.

Lemma to_device_shares_gradient_on_device_witness :
  exists h' l',
    Tensor.to_device 2 1 cuda MoreTensorSamples.heap1 = (h', Ok l')
    /\ MoreTensorSamples.heap1 !! l' = None
    /\ h' !! l'
       = Some (Tensor.Build (data_to_device MoreTensorSamples.rows3 cuda)
                 (Some 2) 0)
    /\ h' !! 1 = Some (Tensor.Build MoreTensorSamples.rows3 (Some 2) 0)
    /\ h' !! 2
       = Some (Tensor.Build (mkArray cuda float32 (zeros [3; 2])) None 0).
Proof.
  apply (to_device_shares_gradient_on_device MoreTensorSamples.heap1 1
           (Tensor.Build MoreTensorSamples.rows3 (Some 2) 0) 2
           (Tensor.Build (mkArray cuda float32 (zeros [3; 2])) None 0)
           cuda 0); try reflexivity. discriminate.
Defined.

(** Iteration *)

Lemma item_at_row (a : ArrayLike) n rest j :
  shape (cells a) = n :: rest -> j < n ->
  Tensor.item_at a (Z.of_nat (j + 1) - 1)
  = Ok (mkArray (engine a) (elt a)
          (tabulate rest (fun idx => geti (cells a) (j :: idx)))).
Proof.
  intros Hs Hj. unfold Tensor.item_at. rewrite Hs.
  replace (Z.of_nat (j + 1) - 1)%Z with (Z.of_nat j) by lia.
  destruct (Z.leb_spec 0 (Z.of_nat j)); [|lia].
  destruct (Z.ltb_spec (Z.of_nat j) (Z.of_nat n)); [|lia].
  cbn [andb]. by rewrite Nat2Z.id.
Qed.

(** A call of [__next__] before the end: the counter moves on and a new
    tensor holds the item. *)
Lemma next_yields (h : Tensor.heap) self o n rest :
  h !! self = Some o ->
  shape (cells (Tensor.data o)) = n :: rest ->
  Tensor._iterator o < n ->
  exists l,
    h !! l = None /\ l <> self
    /\ Tensor.__next__ self h
       = (<[l := Tensor.Build
                  (mkArray (engine (Tensor.data o)) (elt (Tensor.data o))
                     (tabulate rest (fun idx =>
                        geti (cells (Tensor.data o))
                             (Tensor._iterator o :: idx))))
                  None 0]>
            (<[self := Tensor.set_iterator (Tensor._iterator o + 1) o]> h),
          Ok (Tensor.Yield l)).
Proof.
  intros Hl Hs Hj.
  set (o1 := Tensor.set_iterator (Tensor._iterator o + 1) o).
  set (h1 := <[self := o1]> h).
  set (row := mkArray _ _ _).
  destruct (new_spec h1 (Tensor.Build row None 0)) as (l & Hnew & Hfresh).
  assert (Hne : l <> self).
  { intros ->. subst h1. by rewrite lookup_insert_eq in Hfresh. }
  exists l. split.
  { subst h1. by rewrite lookup_insert_ne in Hfresh. }
  split; [done|].
  unfold Tensor.__next__. st_unfold. rewrite (deref_spec _ _ _ Hl).
  unfold Tensor.len0. rewrite Hs.
  destruct (Nat.ltb_spec (Tensor._iterator o) n); [|lia].
  unfold Tensor.modify, update.
  assert (Halt : alter (Tensor.set_iterator (Tensor._iterator o + 1)) self h
                 = h1).
  { subst h1 o1. apply map_eq. intros k.
    destruct (decide (k = self)) as [->|Hk].
    - by rewrite lookup_alter_eq, lookup_insert_eq, Hl.
    - by rewrite lookup_alter_ne, lookup_insert_ne. }
  rewrite Halt.
  assert (H1 : h1 !! self = Some o1) by (subst h1; apply lookup_insert_eq).
  rewrite (deref_spec _ _ _ H1).
  unfold Tensor.__getitem__. st_unfold. rewrite (deref_spec _ _ _ H1).
  subst o1. cbn [Tensor._iterator Tensor.set_iterator Tensor.data].
  rewrite (item_at_row (Tensor.data o) n rest (Tensor._iterator o) Hs Hj).
  unfold Tensor.__init__. fold row. rewrite Hnew. done.
Qed.

(** Calls of [__next__] at the end: [StopIteration], and nothing
    changes. *)
Lemma nexts_stop (h : Tensor.heap) self o n rest k :
  h !! self = Some o ->
  shape (cells (Tensor.data o)) = n :: rest ->
  n <= Tensor._iterator o ->
  Tensor.nexts k self h = (h, Ok (replicate k Tensor.StopIteration)).
Proof.
  intros Hl Hs Hj. induction k as [|k IH]; [done|].
  cbn [Tensor.nexts replicate]. unfold mbind at 1, St_bind at 1.
  assert (Hn : Tensor.__next__ self h = (h, Ok Tensor.StopIteration)).
  { unfold Tensor.__next__. st_unfold. rewrite (deref_spec _ _ _ Hl).
    unfold Tensor.len0. rewrite Hs.
    by destruct (Nat.ltb_spec (Tensor._iterator o) n); [lia|]. }
  rewrite Hn. unfold mbind, St_bind. rewrite IH. done.
Qed.

(** The calls of [__next__] from position [j] on: the items [j], [j + 1],
    ... in this order, each in a new tensor, then [StopIteration]. *)
Lemma nexts_from m : forall (h : Tensor.heap) self o n rest k,
  h !! self = Some o ->
  shape (cells (Tensor.data o)) = n :: rest ->
  Tensor._iterator o + m = n ->
  exists h' ls,
    Tensor.nexts (m + k) self h
    = (h', Ok (map Tensor.Yield ls ++ replicate k Tensor.StopIteration))
    /\ length ls = m
    /\ h' !! self = Some (Tensor.set_iterator n o)
    /\ (forall k' v, k' <> self -> h !! k' = Some v -> h' !! k' = Some v)
    /\ (forall i, i < m ->
          exists l, ls !! i = Some l /\ l <> self /\ h !! l = None
            /\ h' !! l
               = Some (Tensor.Build
                         (mkArray (engine (Tensor.data o)) (elt (Tensor.data o))
                            (tabulate rest (fun idx =>
                               geti (cells (Tensor.data o))
                                    ((Tensor._iterator o + i) :: idx))))
                         None 0)).
Proof.
  induction m as [|m IH]; intros h self o n rest k Hl Hs Hj.
  - exists h, []. cbn [Nat.add map app].
    rewrite (nexts_stop h self o n rest k Hl Hs) by lia.
    split; [done|]. split; [done|]. split.
    { rewrite Hl. f_equal. destruct o as [d g it]. cbn in Hj.
      unfold Tensor.set_iterator. cbn. replace n with it by lia. done. }
    split; [done|]. intros i Hi. lia.
  - destruct (next_yields h self o n rest Hl Hs) as (l & Hfresh & Hne & Hnext);
      [lia|].
    set (o1 := Tensor.set_iterator (Tensor._iterator o + 1) o) in *.
    set (row := Tensor.Build _ None 0) in *.
    set (h2 := <[l := row]> (<[self := o1]> h)) in *.
    assert (H2 : h2 !! self = Some o1).
    { subst h2. rewrite lookup_insert_ne by done. apply lookup_insert_eq. }
    destruct (IH h2 self o1 n rest k H2) as (h' & ls & Hrun & Hlen & Hself & Hkeep & Hrows).
    { done. }
    { subst o1. cbn. lia. }
    exists h', (l :: ls).
    cbn [Nat.add Tensor.nexts]. unfold mbind at 1, St_bind at 1.
    rewrite Hnext. unfold mbind, St_bind. rewrite Hrun.
    split; [done|]. split; [cbn; lia|]. split; [by rewrite Hself|].
    split.
    { intros k' v Hk' Hv. apply Hkeep; [done|]. subst h2.
      rewrite lookup_insert_ne by congruence.
      by rewrite lookup_insert_ne. }
    intros [|i] Hi.
    + exists l. split; [done|]. split; [done|]. split; [done|].
      rewrite Nat.add_0_r. apply Hkeep; [done|].
      subst h2. apply lookup_insert_eq.
    + destruct (Hrows i) as (li & Hli & Hlne & Hlf & Hlr); [lia|].
      exists li. split; [done|]. split; [done|]. split.
      * subst h2. destruct (decide (li = l)) as [->|Hd].
        { by rewrite lookup_insert_eq in Hlf. }
        rewrite lookup_insert_ne in Hlf by done.
        by rewrite lookup_insert_ne in Hlf.
      * rewrite Hlr. subst o1. cbn. do 4 f_equal.
        replace (Tensor._iterator o + 1 + i) with (Tensor._iterator o + S i)
          by lia. done.
Qed.

Lemma iter_run (h : Tensor.heap) self o :
  h !! self = Some o ->
  Tensor.__iter__ self h = (<[self := Tensor.set_iterator 0 o]> h, Ok self).
Proof.
  intros Hl. unfold Tensor.__iter__. st_unfold. rewrite (deref_spec _ _ _ Hl).
  unfold Tensor.modify, update. f_equal. apply map_eq. intros k.
  destruct (decide (k = self)) as [->|Hk].
  - by rewrite lookup_alter_eq, lookup_insert_eq, Hl.
  - by rewrite lookup_alter_ne, lookup_insert_ne.
Qed.

(** X17: iterating over a tensor.  After [iter(t)], wherever an earlier
    loop left the counter, the first [len(t)] calls of [next(t)] return
    the items of the first axis in order, each in a tensor that did not
    exist before, without gradient, and every later call raises
    [StopIteration]; the tensors that existed before keep their
    attributes, apart from the counter of [t]. *)
Theorem iteration_yields_items_in_order (h : Tensor.heap) self o n rest k :
  h !! self = Some o ->
  shape (cells (Tensor.data o)) = n :: rest ->
  exists h' ls,
    (Tensor.__iter__ self;; Tensor.nexts (n + k) self) h
    = (h', Ok (map Tensor.Yield ls ++ replicate k Tensor.StopIteration))
    /\ length ls = n
    /\ (forall i, i < n ->
          exists l, ls !! i = Some l /\ h !! l = None
            /\ h' !! l
               = Some (Tensor.Build
                         (mkArray (engine (Tensor.data o)) (elt (Tensor.data o))
                            (tabulate rest (fun idx =>
                               geti (cells (Tensor.data o)) (i :: idx))))
                         None 0))
    /\ (forall k' v, k' <> self -> h !! k' = Some v -> h' !! k' = Some v)
    /\ h' !! self = Some (Tensor.set_iterator n o).
Proof.
  intros Hl Hs. unfold mbind, St_bind. rewrite (iter_run h self o Hl).
  set (o0 := Tensor.set_iterator 0 o).
  set (h0 := <[self := o0]> h).
  destruct (nexts_from n h0 self o0 n rest k) as (h' & ls & Hrun & Hlen & Hself & Hkeep & Hrows);
    [subst h0; apply lookup_insert_eq | done | done |].
  exists h', ls. split; [done|]. split; [done|]. split.
  - intros i Hi. destruct (Hrows i Hi) as (l & Hli & Hne & Hf & Hr).
    exists l. split; [done|]. split.
    + subst h0. by rewrite lookup_insert_ne in Hf.
    + done.
  - split; [|done]. intros k' v Hk' Hv. apply Hkeep; [done|].
    subst h0. by rewrite lookup_insert_ne.
Qed.

Lemma iteration_yields_items_in_order_witness :
  exists h' ls,
    (Tensor.__iter__ 1;; Tensor.nexts (3 + 1) 1) MoreTensorSamples.heap1
    = (h', Ok (map Tensor.Yield ls ++ replicate 1 Tensor.StopIteration))
    /\ length ls = 3
    /\ (forall i, i < 3 ->
          exists l, ls !! i = Some l /\ MoreTensorSamples.heap1 !! l = None
            /\ h' !! l
               = Some (Tensor.Build
                         (mkArray cpu float32
                            (tabulate [2] (fun idx =>
                               geti (cells MoreTensorSamples.rows3) (i :: idx))))
                         None 0))
    /\ (forall k' v, k' <> 1 -> MoreTensorSamples.heap1 !! k' = Some v ->
          h' !! k' = Some v)
    /\ h' !! 1
       = Some (Tensor.set_iterator 3
                 (Tensor.Build MoreTensorSamples.rows3 (Some 2) 0)).
Proof.
  apply (iteration_yields_items_in_order MoreTensorSamples.heap1 1
           (Tensor.Build MoreTensorSamples.rows3 (Some 2) 0) 3 [2] 1);
    reflexivity.
Defined.

(** X18: the position of an iteration is an attribute of the tensor, so
    two loops over one tensor share it.  When the body of a loop over [t]
    runs a second loop over [t], the inner loop sees every item and leaves
    the counter at the end: the next step of the outer loop raises
    [StopIteration], and the outer loop has seen the first item only. *)
Theorem nested_iteration_ends_outer_loop (h : Tensor.heap) self o n rest :
  h !! self = Some o ->
  shape (cells (Tensor.data o)) = n :: rest -> 0 < n ->
  exists h' l0 ls,
    (Tensor.__iter__ self;;
     first ← Tensor.__next__ self;
     Tensor.__iter__ self;;
     inner ← Tensor.nexts (n + 1) self;
     second ← Tensor.__next__ self;
     mret (first, inner, second)) h
    = (h', Ok (Tensor.Yield l0,
               map Tensor.Yield ls ++ [Tensor.StopIteration],
               Tensor.StopIteration))
    /\ length ls = n.
Proof.
  intros Hl Hs Hn. unfold mbind at 1, St_bind at 1.
  rewrite (iter_run h self o Hl).
  set (o0 := Tensor.set_iterator 0 o). set (h0 := <[self := o0]> h).
  assert (H0 : h0 !! self = Some o0) by (subst h0; apply lookup_insert_eq).
  destruct (next_yields h0 self o0 n rest H0 Hs) as (l0 & _ & Hne & Hnext);
    [subst o0; cbn; lia|].
  unfold mbind at 1, St_bind at 1. rewrite Hnext.
  set (h1 := <[l0 := _]> _).
  set (o1 := Tensor.set_iterator (Tensor._iterator o0 + 1) o0) in *.
  assert (H1 : h1 !! self = Some o1).
  { subst h1. rewrite lookup_insert_ne by done. apply lookup_insert_eq. }
  unfold mbind at 1, St_bind at 1. rewrite (iter_run h1 self o1 H1).
  set (o2 := Tensor.set_iterator 0 o1). set (h2 := <[self := o2]> h1).
  destruct (nexts_from n h2 self o2 n rest 1) as (h' & ls & Hrun & Hlen & Hself & _);
    [subst h2; apply lookup_insert_eq | done | done |].
  unfold mbind at 1, St_bind at 1. rewrite Hrun.
  pose proof (nexts_stop h' self (Tensor.set_iterator n o2) n rest 1 Hself Hs)
    as Hstop.
  cbn [Tensor.nexts replicate] in Hstop.
  unfold mbind, St_bind, mret, St_ret in Hstop |- *.
  destruct (Tensor.__next__ self h') as [h'' [r|e]] eqn:Hlast.
  - specialize (Hstop ltac:(cbn; lia)). injection Hstop as -> ->.
    exists h', l0, ls. done.
  - specialize (Hstop ltac:(cbn; lia)). discriminate Hstop.
Qed.

Lemma nested_iteration_ends_outer_loop_witness :
  exists h' l0 ls,
    (Tensor.__iter__ 1;;
     first ← Tensor.__next__ 1;
     Tensor.__iter__ 1;;
     inner ← Tensor.nexts (3 + 1) 1;
     second ← Tensor.__next__ 1;
     mret (first, inner, second)) MoreTensorSamples.heap1
    = (h', Ok (Tensor.Yield l0,
               map Tensor.Yield ls ++ [Tensor.StopIteration],
               Tensor.StopIteration))
    /\ length ls = 3.
Proof.
  apply (nested_iteration_ends_outer_loop MoreTensorSamples.heap1 1
           (Tensor.Build MoreTensorSamples.rows3 (Some 2) 0) 3 [2]);
    try reflexivity. lia.
Defined.

End TensorMore.

(** ** Joining and splitting *)

Section JoinSplit.
Import Np.
#[local] Arguments size_of : simpl never.
#[local] Arguments Nat.ltb : simpl never.

Lemma in_bounds_spec s : forall idx,
  in_bounds s idx = true
  <-> length idx = length s
      /\ forall a, a < length s -> nth a idx 0 < nth a s 0.
Proof.
  induction s as [|d s IH]; intros [|i idx]; cbn [in_bounds length].
  - split; [|done]. intros _. split; [done|]. intros a Ha. lia.
  - split; [done|]. intros [[=] _].
  - split; [done|]. intros [[=] _].
  - rewrite andb_true_iff, Nat.ltb_lt, IH. split.
    + intros [Hi [Hl Hr]]. split; [by rewrite Hl|].
      intros [|a] Ha; [done|]. cbn [nth]. apply Hr. lia.
    + intros [Hl Hr]. split; [apply (Hr 0); lia|].
      split; [lia|]. intros a Ha. apply (Hr (S a)). lia.
Qed.

Lemma nth_alter (f : nat -> nat) ax (l : list nat) a :
  nth a (alter f ax l) 0
  = if decide (a = ax) then
      (if decide (ax < length l) then f (nth ax l 0) else 0)
    else nth a l 0.
Proof.
  rewrite !nth_lookup. destruct (decide (a = ax)) as [->|Hne].
  - rewrite list_lookup_alter_eq.
    destruct (decide (ax < length l)) as [Hlt|Hge].
    + destruct (lookup_lt_is_Some_2 l ax Hlt) as [v ->]. done.
    + rewrite lookup_ge_None_2 by lia. done.
  - by rewrite list_lookup_alter_ne.
Qed.

Lemma list_eq_nth (l1 l2 : list nat) :
  length l1 = length l2 ->
  (forall a, a < length l1 -> nth a l1 0 = nth a l2 0) -> l1 = l2.
Proof.
  intros Hlen H. apply (nth_ext _ _ 0 0); done.
Qed.

Lemma nth_remove_at ax (s : list nat) a :
  nth a (remove_at ax s) 0 = if a <? ax then nth a s 0 else nth (S a) s 0.
Proof.
  unfold remove_at. destruct (Nat.ltb_spec a ax) as [Hlt|Hge].
  - destruct (decide (a < length s)) as [Hin|Hout].
    + rewrite app_nth1 by (rewrite length_take; lia).
      rewrite !nth_lookup, lookup_take_lt by done. done.
    + rewrite (nth_overflow s) by lia. apply nth_overflow.
      rewrite length_app, length_take, length_drop. lia.
  - destruct (decide (ax < length s)) as [Hin|Hout].
    + rewrite app_nth2 by (rewrite length_take; lia).
      rewrite length_take. replace (Nat.min ax (length s)) with ax by lia.
      rewrite !nth_lookup, lookup_drop. do 2 f_equal. lia.
    + rewrite (nth_overflow s) by lia. apply nth_overflow.
      rewrite length_app, length_take, length_drop. lia.
Qed.

(** A shape is known from its extent on one axis and its extents on the
    others. *)
Lemma shape_from_parts ax (s s0 : list nat) :
  length s = length s0 -> ax < length s0 ->
  remove_at ax s = remove_at ax s0 ->
  alter (fun _ => nth ax s 0) ax s0 = s.
Proof.
  intros Hlen Hax Hrem. apply list_eq_nth.
  - by rewrite length_alter.
  - rewrite length_alter. intros a Ha. rewrite nth_alter.
    destruct (decide (a = ax)) as [->|Hne].
    + by rewrite decide_True.
    + destruct (decide (a < ax)) as [Hlt|Hge].
      * pose proof (nth_remove_at ax s a) as H1.
        pose proof (nth_remove_at ax s0 a) as H2.
        destruct (Nat.ltb_spec a ax); [|lia]. congruence.
      * pose proof (nth_remove_at ax s (a - 1)) as H1.
        pose proof (nth_remove_at ax s0 (a - 1)) as H2.
        destruct (Nat.ltb_spec (a - 1) ax); [lia|].
        replace (S (a - 1)) with a in * by lia. congruence.
Qed.

Lemma locate_offset pre : forall e rest j,
  j < e ->
  locate (pre ++ e :: rest) (sum_list pre + j) = (length pre, j).
Proof.
  induction pre as [|p pre IH]; intros e rest j Hj; cbn.
  - destruct (Nat.ltb_spec j e); [done|lia].
  - destruct (Nat.ltb_spec (p + sum_list pre + j) p); [lia|].
    replace (p + sum_list pre + j - p) with (sum_list pre + j) by lia.
    by rewrite IH.
Qed.

Lemma alter_alter_const (f : nat -> nat) v ax (l : list nat) :
  nth ax l 0 = v -> alter (fun _ => v) ax (alter f ax l) = l.
Proof.
  intros Hv. apply list_eq_nth.
  - by rewrite !length_alter.
  - rewrite !length_alter. intros a Ha. rewrite nth_alter, length_alter.
    destruct (decide (a = ax)) as [->|Hne].
    + by rewrite decide_True.
    + rewrite nth_alter. by rewrite decide_False.
Qed.

Lemma alter_const_twice (f : nat -> nat) v ax (l : list nat) :
  alter (fun _ => v) ax (alter f ax l) = alter (fun _ => v) ax l.
Proof.
  apply list_eq_nth.
  - by rewrite !length_alter.
  - rewrite !length_alter. intros a Ha. rewrite !nth_alter, length_alter.
    destruct (decide (a = ax)); [done|]. done.
Qed.

(** The piece of the joined array that starts where the pieces before [y]
    end, and has the extent of [y], is [y]. *)
Lemma slice_of_concatenate (ys : list arr) (y0 : arr) ax (pre : list arr)
    (y : arr) (suf : list arr) lo hi :
  ys = pre ++ y :: suf ->
  ax < length (shape y0) ->
  Forall (fun y : arr => length (shape y) = length (shape y0)
                   /\ remove_at ax (shape y) = remove_at ax (shape y0)) ys ->
  length (buf y) = size_of (shape y) ->
  lo = sum_list (map (fun y : arr => nth ax (shape y) 0) pre) ->
  hi = lo + nth ax (shape y) 0 ->
  let ext := map (fun y : arr => nth ax (shape y) 0) ys in
  slice_axis ax lo hi
    (tabulate (alter (fun _ => sum_list ext) ax (shape y0))
       (fun idx =>
          let '(k, o) := locate ext (nth ax idx 0) in
          match ys !! k with
          | Some y => geti y (alter (fun _ => o) ax idx)
          | None => 0%Z
          end))
  = y.
Proof.
  intros Hys Hax Hall Hwf Hlo Hhi ext.
  assert (Hy : length (shape y) = length (shape y0)
               /\ remove_at ax (shape y) = remove_at ax (shape y0)).
  { rewrite Forall_forall in Hall. apply Hall. rewrite Hys.
    apply elem_of_app. right. apply list_elem_of_here. }
  destruct Hy as [Hlen Hrem].
  set (e := nth ax (shape y) 0) in *.
  assert (Hext : ext = map (fun y : arr => nth ax (shape y) 0) pre
                       ++ e :: map (fun y : arr => nth ax (shape y) 0) suf).
  { subst ext. rewrite Hys, map_app. done. }
  assert (Htot : sum_list ext = lo + e + sum_list (map (fun y : arr => nth ax (shape y) 0) suf)).
  { rewrite Hext, sum_list_with_app, Hlo. cbn [sum_list_with]. unfold id. lia. }
  unfold slice_axis. cbn [shape tabulate].
  assert (Hshape : alter (fun _ => hi - lo) ax
                     (alter (fun _ => sum_list ext) ax (shape y0)) = shape y).
  { replace (hi - lo) with e by lia.
    rewrite alter_const_twice. apply (shape_from_parts ax); done. }
  rewrite Hshape. rewrite <- (tabulate_get 0%Z y Hwf) at 2.
  apply tabulate_ext. intros idx Hib.
  apply in_bounds_spec in Hib as [Hil Hin].
  rewrite geti_tabulate.
  - rewrite nth_alter. rewrite decide_True by done.
    rewrite decide_True by lia.
    rewrite Hext, Hlo. rewrite locate_offset by (apply Hin; lia).
    rewrite <- Hlo. rewrite Hys.
    rewrite list_lookup_middle by (by rewrite length_map).
    by rewrite alter_alter_const.
  - apply in_bounds_spec. rewrite !length_alter. split; [lia|].
    intros a Ha. rewrite !nth_alter.
    destruct (decide (a = ax)) as [->|Hne].
    + rewrite !decide_True by lia. specialize (Hin ax ltac:(lia)). fold e in Hin.
      lia.
    + specialize (Hin a ltac:(lia)).
      destruct (decide (a < ax)) as [Hlt|Hge].
      * pose proof (nth_remove_at ax (shape y) a) as H1.
        pose proof (nth_remove_at ax (shape y0) a) as H2.
        destruct (Nat.ltb_spec a ax); [|lia]. rewrite Hrem in H1. lia.
      * pose proof (nth_remove_at ax (shape y) (a - 1)) as H1.
        pose proof (nth_remove_at ax (shape y0) (a - 1)) as H2.
        destruct (Nat.ltb_spec (a - 1) ax); [lia|].
        replace (S (a - 1)) with a in * by lia. rewrite Hrem in H1. lia.
Qed.

Lemma slices_of_concatenate (ys : list arr) (y0 : arr) ax :
  ax < length (shape y0) ->
  Forall (fun y : arr => length (shape y) = length (shape y0)
                   /\ remove_at ax (shape y) = remove_at ax (shape y0)) ys ->
  Forall (fun y : arr => length (buf y) = size_of (shape y)) ys ->
  let ext := map (fun y : arr => nth ax (shape y) 0) ys in
  let out :=
    tabulate (alter (fun _ => sum_list ext) ax (shape y0))
      (fun idx =>
         let '(k, o) := locate ext (nth ax idx 0) in
         match ys !! k with
         | Some y => geti y (alter (fun _ => o) ax idx)
         | None => 0%Z
         end) in
  forall pre suf, ys = pre ++ suf ->
    ParallelContainer.slices_by_extent ax
      (sum_list (map (fun y : arr => nth ax (shape y) 0) pre))
      (map (fun y : arr => nth ax (shape y) 0) suf) out
    = suf.
Proof.
  intros Hax Hall Hwf ext out pre suf. revert pre.
  assert (Hd : nth ax (shape out) 0 = sum_list ext).
  { subst out. cbn [shape tabulate]. rewrite nth_alter.
    rewrite decide_True by done. by rewrite decide_True. }
  induction suf as [|y suf IH]; intros pre Hys; [done|].
  cbn [map ParallelContainer.slices_by_extent]. rewrite Hd.
  set (lo := sum_list (map (fun y : arr => nth ax (shape y) 0) pre)).
  set (e := nth ax (shape y) 0).
  assert (Htot : sum_list ext
                 = lo + e + sum_list (map (fun y : arr => nth ax (shape y) 0) suf)).
  { subst ext lo e. rewrite Hys, map_app, sum_list_with_app.
    cbn [map sum_list_with]. unfold id. lia. }
  assert (Hywf : length (buf y) = size_of (shape y)).
  { rewrite Forall_forall in Hwf. apply Hwf. rewrite Hys.
    apply elem_of_app. right. apply list_elem_of_here. }
  assert (Hpiece : slice_axis ax lo (lo + e) out = y).
  { apply (slice_of_concatenate ys y0 ax pre y suf); done. }
  destruct suf as [|y' suf'].
  - cbn [map]. cbn [map sum_list_with] in Htot. f_equal.
    replace (Nat.min lo (sum_list ext)) with lo by lia.
    replace (sum_list ext) with (lo + e) at 1 by lia. done.
  - cbn [map]. f_equal.
    + replace (Nat.min lo (sum_list ext)) with lo by lia.
      replace (Nat.min (lo + e) (sum_list ext)) with (lo + e) by lia. done.
    + specialize (IH (pre ++ [y])).
      rewrite map_app, sum_list_with_app in IH.
      cbn [map sum_list_with] in IH. unfold id in IH.
      rewrite Nat.add_0_r in IH. apply IH.
      by rewrite <- app_assoc.
Qed.

(** Splitting the joined array at the running sums of the extents gives
    the arrays that were joined. *)
Lemma split_concatenate (ys : list arr) (y0 : arr) axis ax :
  head ys = Some y0 ->
  norm_axis (ndim y0) axis = Ok ax -> ax < ndim y0 ->
  Forall (fun y : arr => ndim y = ndim y0
                   /\ remove_at ax (shape y) = remove_at ax (shape y0)) ys ->
  Forall (fun y : arr => length (buf y) = size_of (shape y)) ys ->
  exists out,
    concatenate ys axis = Ok out
    /\ ndim out = ndim y0
    /\ Np.split out
         (ParallelContainer.splits (map (fun y : arr => nth ax (shape y) 0) ys))
         axis
       = Ok ys.
Proof.
  intros Hhd Hnorm Hax Hall Hwf.
  destruct ys as [|y ys']; [done|]. injection Hhd as ->.
  set (ys := y0 :: ys') in *.
  unfold concatenate. fold ys. cbn [ys]. rewrite Hnorm. cbn [mbind result_bind].
  fold ys.
  assert (Hchk : forallb (fun y : arr => bool_decide
                   (remove_at ax (shape y) = remove_at ax (shape y0))
                   && (ndim y =? ndim y0)) ys = true).
  { apply forallb_forall. intros v Hv%list_elem_of_In.
    rewrite Forall_forall in Hall. destruct (Hall v Hv) as [Hn Hr].
    rewrite bool_decide_eq_true_2 by done. by rewrite Hn, Nat.eqb_refl. }
  rewrite Hchk. eexists. split; [reflexivity|].
  split; [unfold ndim; cbn [shape tabulate]; apply length_alter|].
  unfold Np.split, tuple_index. unfold ndim at 1. cbn [shape tabulate].
  rewrite length_alter. fold (ndim y0). rewrite Hnorm. cbn [mbind result_bind].
  f_equal. rewrite splits_are_boundaries. unfold ParallelContainer.boundaries.
  rewrite split_from_slices by done.
  apply (slices_of_concatenate ys y0 ax Hax Hall Hwf [] ys). done.
Qed.

End JoinSplit.

Section ConcatSplit.
Import Np Compyute.
#[local] Arguments size_of : simpl never.
Variable result_type : list DType -> DType.

(** Allocating one tensor per array. *)
Lemma each_init (mk : arr -> ArrayLike) (parts : list arr) :
  forall h : Tensor.heap,
  exists h' ps,
    each parts (fun s => Tensor.__init__ (mk s)) h = (h', Ok ps)
    /\ h ⊆ h'
    /\ Forall2 (fun p s => h !! p = None
                           /\ h' !! p = Some (Tensor.Build (mk s) None 0))
               ps parts.
Proof.
  induction parts as [|s parts IH]; intros h.
  - exists h, []. cbn. split; [done|]. split; [done|]. constructor.
  - cbn [each]. unfold mbind at 1, St_bind at 1. unfold Tensor.__init__ at 1.
    destruct (new_spec h (Tensor.Build (mk s) None 0)) as (l & -> & Hfresh).
    destruct (IH (<[l := Tensor.Build (mk s) None 0]> h))
      as (h' & ps & Hrun & Hsub & Hall).
    unfold mbind, St_bind. rewrite Hrun.
    exists h', (l :: ps). split; [done|].
    assert (Hsub0 : h ⊆ <[l := Tensor.Build (mk s) None 0]> h)
      by (by apply insert_subseteq).
    split; [by etransitivity|]. constructor.
    + split; [done|]. eapply lookup_weaken; [|exact Hsub].
      apply lookup_insert_eq.
    + eapply Forall2_impl; [exact Hall|]. intros p s' [Hp Hp']. split; [|done].
      destruct (h !! p) eqn:E; [|done].
      by rewrite (lookup_weaken _ _ _ _ E Hsub0) in Hp.
Qed.

Lemma each_deref (ts : list nat) (os : list Tensor.t) (h : Tensor.heap) :
  Forall2 (fun t o => h !! t = Some o) ts os ->
  each ts Tensor.deref h = (h, Ok os).
Proof.
  induction 1 as [|t o ts os Ht _ IH]; [done|].
  cbn [each]. unfold mbind, St_bind in *. rewrite (deref_spec _ _ _ Ht).
  by rewrite IH.
Qed.

(** X19: [split] undoes [concat].  Tensors of one device whose arrays
    agree in the number of axes and in every extent but the one on the
    axis [dim] are joined into a tensor that did not exist before; when
    that tensor is split at the running sums of the extents (the offsets
    that the parallel container computes), the result is one new tensor
    per joined tensor, in the same order, each holding exactly the cells
    of the tensor it came from and no gradient.  The tensors that existed
    before are unchanged. *)
Theorem split_undoes_concat (h : Tensor.heap) ts os o0 dev dim ax :
  Forall2 (fun t o => h !! t = Some o) ts os ->
  head os = Some o0 ->
  Forall (fun o => Tensor.device o = dev) os ->
  let ys := map (fun o => cells (Tensor.data o)) os in
  let y0 := cells (Tensor.data o0) in
  norm_axis (ndim y0) dim = Ok ax -> ax < ndim y0 ->
  Forall (fun y : arr => ndim y = ndim y0
                   /\ remove_at ax (shape y) = remove_at ax (shape y0)) ys ->
  Forall (fun y : arr => length (buf y) = size_of (shape y)) ys ->
  exists h1 c h2 ps,
    CreationOps.concat result_type ts dim h = (h1, Ok c)
    /\ h !! c = None
    /\ CreationOps.split c
         (ParallelContainer.splits (map (fun y : arr => nth ax (shape y) 0) ys))
         dim h1
       = (h2, Ok ps)
    /\ h ⊆ h2
    /\ Forall2 (fun p o =>
                  h1 !! p = None
                  /\ exists op, h2 !! p = Some op
                       /\ cells (Tensor.data op) = cells (Tensor.data o)
                       /\ Tensor.device op = dev
                       /\ Tensor.grad op = None)
               ps os.
Proof.
  intros Hts Hhd Hdev ys y0 Hnorm Hax Hall Hwf.
  destruct os as [|o os']; [done|]. injection Hhd as ->.
  destruct ts as [|t ts']; [by inversion Hts|].
  assert (Ht : h !! t = Some o0) by (by inversion Hts).
  destruct (split_concatenate ys y0 dim ax) as (out & Hcat & Hnd & Hsplit);
    try done.
  unfold CreationOps.concat. cbn [head attr].
  rewrite (bind_lift_ok _ t) by done.
  rewrite (bind_run _ _ _ _ _ (deref_spec _ _ _ Ht)).
  rewrite (bind_run _ _ _ _ _ (each_deref _ _ _ Hts)).
  assert (Hd0 : Tensor.device o0 = dev) by (by inversion Hdev).
  set (joined := mkArray dev
                   (result_type (map elt (map Tensor.data (o0 :: os')))) out).
  rewrite (bind_lift_ok _ joined).
  2:{ unfold CreationOps.module_concatenate. rewrite Hd0.
      assert (Hchk : forallb (fun a => bool_decide (engine a = dev))
                       (map Tensor.data (o0 :: os')) = true).
      { apply forallb_forall. intros a Ha%list_elem_of_In.
        apply list_elem_of_fmap in Ha as (o & -> & Ho).
        rewrite Forall_forall in Hdev. apply bool_decide_eq_true_2.
        by apply Hdev. }
      rewrite Hchk. rewrite (map_map Tensor.data cells). fold ys.
      rewrite Hcat. done. }
  unfold Tensor.__init__.
  destruct (new_spec h (Tensor.Build joined None 0)) as (c & -> & Hfresh).
  set (h1 := <[c := Tensor.Build joined None 0]> h).
  assert (Hc : h1 !! c = Some (Tensor.Build joined None 0))
    by (subst h1; apply lookup_insert_eq).
  destruct (each_init
              (fun s => mkArray (Tensor.device (Tensor.Build joined None 0))
                          (Tensor.dtype (Tensor.Build joined None 0)) s)
              ys h1) as (h2 & ps & Hrun & Hsub & Hps).
  exists h1, c, h2, ps. split; [done|]. split; [done|]. split.
  { unfold CreationOps.split.
    rewrite (bind_run _ _ _ _ _ (deref_spec _ _ _ Hc)).
    rewrite (bind_lift_ok _ ys) by (subst joined; exact Hsplit).
    exact Hrun. }
  split.
  { etransitivity; [|exact Hsub]. subst h1. by apply insert_subseteq. }
  subst ys. apply Forall2_fmap_r in Hps.
  eapply Forall2_impl; [exact Hps|]. intros p o [Hp Hp'].
  split; [done|]. eexists. split; [exact Hp'|]. done.
Qed.

End ConcatSplit.

Lemma split_undoes_concat_witness :
  exists h1 c h2 ps,
    Compyute.CreationOps.concat MoreTensorSamples.first_type [1; 2] (-1)
      MoreTensorSamples.heap2
    = (h1, Ok c)
    /\ MoreTensorSamples.heap2 !! c = None
    /\ Compyute.CreationOps.split c
         (ParallelContainer.splits
            (map (fun y : Np.arr => nth 1 (Np.shape y) 0)
               (map (fun o => Compyute.cells (Compyute.Tensor.data o))
                  [MoreTensorSamples.narrow; MoreTensorSamples.wide])))
         (-1) h1
       = (h2, Ok ps)
    /\ MoreTensorSamples.heap2 ⊆ h2
    /\ Forall2 (fun p o =>
                  h1 !! p = None
                  /\ exists op, h2 !! p = Some op
                       /\ Compyute.cells (Compyute.Tensor.data op)
                          = Compyute.cells (Compyute.Tensor.data o)
                       /\ Compyute.Tensor.device op = Compyute.cpu
                       /\ Compyute.Tensor.grad op = None)
               ps [MoreTensorSamples.narrow; MoreTensorSamples.wide].
Proof.
  apply (split_undoes_concat MoreTensorSamples.first_type
           MoreTensorSamples.heap2 [1; 2]
           [MoreTensorSamples.narrow; MoreTensorSamples.wide]
           MoreTensorSamples.narrow Compyute.cpu (-1) 1).
  - repeat constructor.
  - reflexivity.
  - repeat constructor.
  - reflexivity.
  - cbn. lia.
  - repeat constructor.
  - repeat constructor.
Defined.

(** ** Losses and activations *)

Section LossFacts.
Import Np.
#[local] Arguments size_of : simpl never.

Lemma sum_squares_nonneg (l : list Z) :
  (0 <= foldr Z.add 0 (map (fun v => v ^ 2) l))%Z.
Proof. induction l as [|v l IH]; cbn [map foldr]; [lia|]. nia. Qed.

Lemma sum_squares_zero (l : list Z) :
  foldr Z.add 0%Z (map (fun v => v ^ 2)%Z l) = 0%Z <-> Forall (fun v => v = 0%Z) l.
Proof.
  induction l as [|v l IH]; cbn [map foldr].
  - split; [constructor|done].
  - pose proof (sum_squares_nonneg l). split.
    + intros H0. constructor; [nia|]. apply IH. nia.
    + intros [-> Hl]%Forall_cons. apply IH in Hl. lia.
Qed.

Lemma zip_sub_swap_squares (b1 : list Z) : forall b2,
  map (fun v => v ^ 2)%Z (zip_with Z.sub b2 b1)
  = map (fun v => v ^ 2)%Z (zip_with Z.sub b1 b2).
Proof.
  induction b1 as [|u b1 IH]; intros [|v b2]; cbn; try done.
  rewrite IH. f_equal. lia.
Qed.

Lemma zip_sub_zero (b1 : list Z) : forall b2,
  length b1 = length b2 ->
  Forall (fun v => v = 0%Z) (zip_with Z.sub b1 b2) <-> b1 = b2.
Proof.
  induction b1 as [|u b1 IH]; intros [|v b2] Hlen; cbn in *; try lia.
  - split; [done|constructor].
  - rewrite Forall_cons, IH by lia. split.
    + intros [Huv ->]. f_equal. lia.
    + intros [= -> ->]. split; [lia|done].
Qed.

Lemma promote_comm f g : Losses.promote f g = Losses.promote g f.
Proof. by destruct f, g. Qed.

Lemma store_small f v B :
  (forall b, Losses.bits f = Some b -> (B < 2 ^ (b - 1))%Z) ->
  (- B <= v <= B)%Z -> Losses.store f v = v.
Proof.
  intros HB Hv. unfold Losses.store.
  destruct (Losses.bits f) as [b|] eqn:Hb; [|done].
  specialize (HB b eq_refl). apply wrap_fits; [|lia].
  destruct f; cbn in Hb; by inversion Hb.
Qed.

Lemma cells_below_squares (l : list Z) :
  Forall (fun d =>
            let s := foldr Z.add 0%Z (map (fun v => v ^ 2)%Z l) in
            (- s <= d <= s)%Z /\ (- s <= d ^ 2 <= s)%Z) l.
Proof.
  induction l as [|v l IH]; [constructor|]. cbn [map foldr].
  pose proof (sum_squares_nonneg l) as Hnn. constructor; cbn zeta.
  - nia.
  - eapply Forall_impl; [exact IH|]. cbn zeta. intros d [H1 H2]. nia.
Qed.

Lemma zip_sub_store f B (b1 b2 : list Z) :
  (forall b, Losses.bits f = Some b -> (B < 2 ^ (b - 1))%Z) ->
  Forall (fun d => (- B <= d <= B)%Z) (zip_with Z.sub b1 b2) ->
  zip_with (fun u v => Losses.store f (u - v)%Z) b1 b2
  = zip_with Z.sub b1 b2.
Proof.
  intros HB. revert b2. induction b1 as [|u b1 IH]; intros [|v b2]; cbn;
    try done.
  intros [Hd Hrest]%Forall_cons. by rewrite IH, (store_small f _ B).
Qed.

Lemma map_square_store f B (l : list Z) :
  (forall b, Losses.bits f = Some b -> (B < 2 ^ (b - 1))%Z) ->
  Forall (fun d => (- B <= d ^ 2 <= B)%Z) l ->
  map (fun v => Losses.store f (v ^ 2)%Z) l = map (fun v => v ^ 2)%Z l.
Proof.
  intros HB Hl. induction Hl as [|v l Hv _ IH]; cbn [map]; [done|].
  by rewrite IH, (store_small f _ B).
Qed.

(** X20: [root_mean_square] on an output and a target of one shape, arrays
    of signed integers or of floating point numbers.  When the sum of the
    squares of the differences of the cells is below the largest value of
    the integer format of the result (no condition for floating point),
    the function returns the gradient [output - target], of that shape,
    and a loss that is half that sum; the loss is not negative, and it is
    zero exactly when the output and the target hold the same cells. *)
Theorem rms_loss_and_gradient (output target : Losses.NumArray) :
  shape (Losses.vals target) = shape (Losses.vals output) ->
  length (buf (Losses.vals output)) = size_of (shape (Losses.vals output)) ->
  length (buf (Losses.vals target)) = size_of (shape (Losses.vals target)) ->
  let f := Losses.promote (Losses.fmt output) (Losses.fmt target) in
  let diff := zip_with Z.sub (buf (Losses.vals output))
                             (buf (Losses.vals target)) in
  let squares := foldr Z.add 0%Z (map (fun v => v ^ 2)%Z diff) in
  (forall b, Losses.bits f = Some b -> (squares < 2 ^ (b - 1))%Z) ->
  exists loss g,
    Losses.root_mean_square output target = Ok (loss, g)
    /\ g = Losses.mkNum f (NdArray (shape (Losses.vals output)) diff)
    /\ loss = Qmult (1 # 2) (inject_Z squares)
    /\ (0 <= loss)%Q
    /\ ((loss == 0)%Q <-> Losses.vals output = Losses.vals target).
Proof.
  intros Hs Hlo Hlt f diff squares HB.
  destruct output as [fo [so bo]], target as [ft [st bt]].
  cbn [Losses.vals Losses.fmt shape buf] in *. subst st.
  assert (Hsq : foldr Z.add 0%Z (map (fun v => v ^ 2)%Z (zip_with Z.sub bt bo))
                = squares).
  { unfold squares, diff. by rewrite zip_sub_swap_squares. }
  unfold Losses.root_mean_square, Losses.sub.
  cbn [Losses.vals Losses.fmt].
  rewrite (zip_nd_same_shape _ _ (NdArray so bt) (NdArray so bo)) by done.
  rewrite (zip_nd_same_shape _ _ (NdArray so bo) (NdArray so bt)) by done.
  cbn [mbind result_bind shape buf].
  rewrite (promote_comm ft fo). fold f.
  rewrite (zip_sub_store f squares bt bo HB).
  2:{ rewrite <- Hsq. eapply Forall_impl; [apply cells_below_squares|].
      intros d Hd. cbv beta zeta in Hd. lia. }
  rewrite (zip_sub_store f squares bo bt HB).
  2:{ eapply Forall_impl; [apply cells_below_squares|].
      intros d Hd. cbv beta zeta in Hd. unfold squares, diff. lia. }
  eexists _, _. split; [reflexivity|]. split; [done|].
  assert (Hnn : (0 <= squares)%Z) by apply sum_squares_nonneg.
  assert (Hsum : Losses.sum (Losses.power2
                   (Losses.mkNum f (NdArray so (zip_with Z.sub bt bo))))
                 = squares).
  { unfold Losses.sum, Losses.power2, map_nd, sum_all.
    cbn [Losses.vals Losses.fmt shape buf].
    rewrite (map_square_store f squares _ HB).
    2:{ rewrite <- Hsq. eapply Forall_impl; [apply cells_below_squares|].
        intros d Hd. cbv beta zeta in Hd. lia. }
    rewrite Hsq.
    destruct f eqn:Hf; try done;
      (apply wrap_fits; [lia|]);
      [specialize (HB 8%Z eq_refl)|specialize (HB 16%Z eq_refl)
      |specialize (HB 32%Z eq_refl)|specialize (HB 64%Z eq_refl)];
      cbn in HB; lia. }
  rewrite Hsum. split; [done|]. split.
  - unfold Qle, Qmult, inject_Z. cbn. lia.
  - assert (Hq : (Qmult (1 # 2) (inject_Z squares) == 0)%Q <-> squares = 0%Z).
    { unfold Qeq, Qmult, inject_Z. cbn. lia. }
    rewrite Hq. unfold squares, diff. rewrite sum_squares_zero.
    rewrite zip_sub_zero by (by rewrite Hlo, Hlt).
    split; [by intros ->|by intros [= ->]].
Qed.

Lemma rms_loss_and_gradient_witness :
  exists loss g,
    Losses.root_mean_square
      (Losses.mkNum Losses.int32 (NdArray [2] [3; 5]%Z))
      (Losses.mkNum Losses.int32 (NdArray [2] [1; 5]%Z))
    = Ok (loss, g)
    /\ g = Losses.mkNum Losses.int32 (NdArray [2] [2; 0]%Z)
    /\ loss = Qmult (1 # 2) (inject_Z 4)
    /\ (0 <= loss)%Q
    /\ ((loss == 0)%Q <-> NdArray [2] [3; 5]%Z = NdArray [2] [1; 5]%Z).
Proof.
  apply (rms_loss_and_gradient
           (Losses.mkNum Losses.int32 (NdArray [2] [3; 5]%Z))
           (Losses.mkNum Losses.int32 (NdArray [2] [1; 5]%Z)));
    try reflexivity.
  intros b [= <-]. reflexivity.
Defined.

(** Beyond the bound the squares wrap around, as they do in numpy: the
    loss of an [int32] output of 50000 against a target of 0 is negative. *)
Example rms_int32_wraps :
  Losses.root_mean_square
    (Losses.mkNum Losses.int32 (NdArray [1] [50000]%Z))
    (Losses.mkNum Losses.int32 (NdArray [1] [0]%Z))
  = Ok (Qmult (1 # 2) (inject_Z (-1794967296)),
        Losses.mkNum Losses.int32 (NdArray [1] [50000]%Z)).
Proof. vm_compute. reflexivity. Qed.

End LossFacts.

Section ActivationFacts.
Import Np Walnut Activations.
#[local] Arguments size_of : simpl never.

Lemma relu_gate_cells (xs : list Z) : forall ds,
  zip_with Z.mul
    (map (fun v => if (0 <? v)%Z then 1%Z else 0%Z) (map (Z.max 0) xs)) ds
  = zip_with (fun v d => if (0 <? v)%Z then d else 0%Z) xs ds.
Proof.
  induction xs as [|v xs IH]; intros [|d ds]; cbn; try done.
  rewrite IH. f_equal.
  destruct (Z.ltb_spec 0 (Z.max 0 v)), (Z.ltb_spec 0 v); lia.
Qed.

(** X21: ReLU.  The forward pass caches the input and returns it with
    every negative cell replaced by 0; the backward pass that follows
    returns, and stores as the gradient of the input, the upstream
    gradient in the cells where the input was positive and 0 in the cells
    where the input was zero or negative. *)
Theorem relu_gates_gradient (self : Activations.t Z) xin xd (dy : arr) :
  data xin = Some xd -> shape dy = shape xd ->
  exists self1 self2 yt g,
    Relu.__call__ xin self = (self1, Ok yt)
    /\ data yt = Some (NdArray (shape xd) (map (Z.max 0) (buf xd)))
    /\ Relu.backward dy self1 = (self2, Ok g)
    /\ grad (Activations.x self2) = Some g
    /\ data (Activations.x self2) = Some xd
    /\ g = NdArray (shape xd)
             (zip_with (fun v d => if (0 <? v)%Z then d else 0%Z)
                (buf xd) (buf dy)).
Proof.
  intros Hx Hs.
  set (yd := NdArray (shape xd) (map (Z.max 0) (buf xd))).
  set (self1 := Activations.Build xin
                  (set_data (Some yd) (Activations.y self))).
  assert (H1 : Relu.__call__ xin self = (self1, Ok (Activations.y self1))).
  { unfold Relu.__call__, module_call.
    rewrite bind_update, bind_self.
    rewrite (bind_lift_ok _ xd) by (unfold the_data; cbn; by rewrite Hx).
    rewrite bind_update, bind_self. done. }
  set (g := NdArray (shape xd)
              (zip_with (fun v d => if (0 <? v)%Z then d else 0%Z)
                 (buf xd) (buf dy))).
  exists self1,
    (Activations.Build (set_grad (Some g) xin)
       (set_grad (Some dy) (Activations.y self1))),
    (Activations.y self1), g.
  split; [done|]. split; [done|]. split.
  - unfold Relu.backward, module_backward.
    rewrite bind_update, bind_self.
    rewrite (bind_lift_ok _ yd) by done.
    rewrite (bind_lift_ok _ dy) by done.
    rewrite (bind_lift_ok _ g).
    + rewrite bind_update. done.
    + unfold mul. rewrite (zip_nd_same_shape _ _ (positive yd) dy) by done.
      subst g yd. unfold positive, map_nd. cbn [shape buf].
      by rewrite relu_gate_cells.
  - cbn. by rewrite Hx.
Qed.

Lemma relu_gates_gradient_witness :
  exists self1 self2 yt g,
    Relu.__call__ ActivationSamples.relu_in ActivationSamples.act_new
    = (self1, Ok yt)
    /\ data yt = Some (NdArray [1; 3] (map (Z.max 0) [-1; 0; 2]%Z))
    /\ Relu.backward (NdArray [1; 3] [5; 6; 7]%Z) self1 = (self2, Ok g)
    /\ grad (Activations.x self2) = Some g
    /\ data (Activations.x self2) = Some (NdArray [1; 3] [-1; 0; 2]%Z)
    /\ g = NdArray [1; 3]
             (zip_with (fun v d => if (0 <? v)%Z then d else 0%Z)
                [-1; 0; 2]%Z [5; 6; 7]%Z).
Proof.
  apply (relu_gates_gradient ActivationSamples.act_new
           ActivationSamples.relu_in (NdArray [1; 3] [-1; 0; 2]%Z)
           (NdArray [1; 3] [5; 6; 7]%Z)); reflexivity.
Defined.

(** Sums of rationals *)

Lemma sumq_S n f : (sumq_upto (S n) f == sumq_upto n f + f n)%Q.
Proof.
  unfold sumq_upto. rewrite seq_S, map_app, foldr_app. cbn.
  generalize (map f (seq 0 n)). intros l.
  induction l as [|v l IH]; cbn; [ring|]. rewrite IH. ring.
Qed.

Lemma sumq_ext n f g :
  (forall k, k < n -> (f k == g k)%Q) -> (sumq_upto n f == sumq_upto n g)%Q.
Proof.
  induction n as [|n IH]; intros H; [reflexivity|].
  rewrite !sumq_S, IH, H by (intros; auto with lia). reflexivity.
Qed.

Lemma sumq_scale n c f :
  (sumq_upto n (fun k => c * f k) == c * sumq_upto n f)%Q.
Proof.
  induction n as [|n IH]; [unfold sumq_upto; cbn; ring|].
  rewrite !sumq_S, IH. ring.
Qed.

Lemma sumq_minus n f g :
  (sumq_upto n (fun k => f k - g k) == sumq_upto n f - sumq_upto n g)%Q.
Proof.
  induction n as [|n IH]; [unfold sumq_upto; cbn; ring|].
  rewrite !sumq_S, IH. ring.
Qed.

Lemma sumq_zero n f :
  (forall k, k < n -> (f k == 0)%Q) -> (sumq_upto n f == 0)%Q.
Proof.
  induction n as [|n IH]; intros H; [reflexivity|].
  rewrite sumq_S, IH, H by (intros; auto with lia). ring.
Qed.

Lemma sumq_delta n j (a : nat -> Q) :
  j < n ->
  (sumq_upto n (fun k => (if j =? k then 1 else 0) * a k) == a j)%Q.
Proof.
  induction n as [|n IH]; intros Hj; [lia|].
  rewrite sumq_S. destruct (decide (j = n)) as [->|Hne].
  - rewrite Nat.eqb_refl. rewrite sumq_zero; [ring|].
    intros k Hk. destruct (Nat.eqb_spec n k); [lia|]. ring.
  - rewrite IH by lia. destruct (Nat.eqb_spec j n); [done|]. ring.
Qed.

Lemma in_bounds3 a b c i j k :
  i < a -> j < b -> k < c -> in_bounds [a; b; c] [i; j; k] = true.
Proof.
  intros. cbn. repeat (apply andb_true_iff; split); try done;
    by apply Nat.ltb_lt.
Qed.

(** X22: the backward pass of Softmax.  With [y] the cached output, of
    [n] rows and [c] columns, and [dy] the upstream gradient of that
    shape, the input gradient is
    dx[i][j] = y[i][j] * (dy[i][j] - sum_k y[i][k] * dy[i][k]),
    the product of the Jacobian diag(y) - y yᵗ of each row with the
    upstream gradient of that row.  Whenever the cells of a row of [y] sum
    to one, as the outputs of a softmax do, the cells of that row of the
    input gradient sum to zero. *)
Theorem softmax_backward_rows_sum_to_zero
    (self : Activations.t Q) xd yd (dy : ndarray Q) n c :
  data (Activations.x self) = Some xd -> shape xd = [n; c] ->
  data (Activations.y self) = Some yd -> shape yd = [n; c] ->
  shape dy = [n; c] ->
  exists self' g,
    Softmax.backward dy self = (self', Ok g)
    /\ grad (Activations.x self') = Some g
    /\ shape g = [n; c]
    /\ (forall i j, i < n -> j < c ->
          (Softmax.getq g [i; j]
           == Softmax.getq yd [i; j]
              * (Softmax.getq dy [i; j]
                 - sumq_upto c (fun k =>
                     Softmax.getq yd [i; k] * Softmax.getq dy [i; k])))%Q)
    /\ (forall i, i < n ->
          (sumq_upto c (fun k => Softmax.getq yd [i; k]) == 1)%Q ->
          (sumq_upto c (fun j => Softmax.getq g [i; j]) == 0)%Q).
Proof.
  intros Hx Hxs Hy Hys Hdy.
  unfold Softmax.backward, module_backward.
  rewrite bind_update, bind_self.
  rewrite (bind_lift_ok _ [n; c])
    by (unfold tshape, the_data; cbn; rewrite Hx; cbn; by rewrite Hxs).
  rewrite (bind_lift_ok _ c) by done.
  rewrite (bind_lift_ok _ yd) by (unfold the_data; cbn; by rewrite Hy).
  erewrite bind_lift_ok
    by (unfold Softmax.einsum_ij_ik; rewrite Hys, Nat.eqb_refl; reflexivity).
  erewrite bind_lift_ok
    by (unfold Softmax.einsum_ij_jk, Softmax.eye; rewrite Hys;
        cbn [shape tabulate]; rewrite Nat.eqb_refl; reflexivity).
  erewrite bind_lift_ok
    by (rewrite zip_nd_same_shape by done; cbn [shape tabulate];
        rewrite zip_tabulate; reflexivity).
  rewrite (bind_lift_ok _ dy) by done.
  erewrite bind_lift_ok
    by (unfold Softmax.einsum_ijk_ik; cbn [shape tabulate]; rewrite Hdy;
        rewrite !Nat.eqb_refl; reflexivity).
  rewrite bind_update. unfold mret, St_ret.
  eexists _, _. split; [reflexivity|]. split; [reflexivity|].
  split; [reflexivity|].
  assert (Hcell : forall i j, i < n -> j < c ->
    (Softmax.getq
       (tabulate [n; c]
          (fun idx => match idx with
                      | [i; j] =>
                          sumq_upto c (fun k =>
                            Softmax.getq
                              (tabulate [n; c; c]
                                 (fun idx => 
                                    (match idx with
                                     | [i; j; k] =>
                                         Softmax.getq yd [i; j]
                                         * Softmax.getq (Softmax.eye c c) [j; k]
                                     | _ => 0
                                     end
                                     - match idx with
                                       | [i; j; k] =>
                                           Softmax.getq yd [i; j]
                                           * Softmax.getq yd [i; k]
                                       | _ => 0
                                       end)))
                              [i; j; k] * Softmax.getq dy [i; k])
                      | _ => 0
                      end)) [i; j]
     == Softmax.getq yd [i; j]
        * (Softmax.getq dy [i; j]
           - sumq_upto c (fun k =>
               Softmax.getq yd [i; k] * Softmax.getq dy [i; k])))%Q).
  { intros i j Hi Hj. unfold Softmax.getq at 1.
    rewrite get_tabulate by (by apply in_bounds2).
    transitivity
      (sumq_upto c (fun k =>
         Softmax.getq yd [i; j] * ((if j =? k then 1 else 0) * Softmax.getq dy [i; k])
         - Softmax.getq yd [i; j] * (Softmax.getq yd [i; k] * Softmax.getq dy [i; k])))%Q.
    - apply sumq_ext. intros k Hk. unfold Softmax.getq at 1.
      rewrite get_tabulate by (by apply in_bounds3).
      unfold Softmax.eye, Softmax.getq at 2.
      rewrite get_tabulate by (by apply in_bounds2). ring.
    - rewrite sumq_minus, !sumq_scale, sumq_delta by done. ring. }
  split; [exact Hcell|].
  intros i Hi Hrow.
  rewrite (sumq_ext c _ (fun j =>
             Softmax.getq yd [i; j] * Softmax.getq dy [i; j]
             - sumq_upto c (fun k =>
                 Softmax.getq yd [i; k] * Softmax.getq dy [i; k])
               * Softmax.getq yd [i; j]))%Q.
  - rewrite sumq_minus, sumq_scale, Hrow. ring.
  - intros j Hj. rewrite Hcell by done. ring.
Qed.

Lemma softmax_backward_rows_sum_to_zero_witness :
  exists self' g,
    Softmax.backward (NdArray [1; 2] [2; 5]%Q) ActivationSamples.soft_fed
    = (self', Ok g)
    /\ grad (Activations.x self') = Some g
    /\ shape g = [1; 2]
    /\ (forall i j, i < 1 -> j < 2 ->
          Qeq (Softmax.getq g [i; j])
              (Qmult (Softmax.getq (NdArray [1; 2] [1 # 4; 3 # 4]%Q) [i; j])
                 (Qminus (Softmax.getq (NdArray [1; 2] [2; 5]%Q) [i; j])
                    (sumq_upto 2 (fun k =>
                       Qmult (Softmax.getq (NdArray [1; 2] [1 # 4; 3 # 4]%Q) [i; k])
                             (Softmax.getq (NdArray [1; 2] [2; 5]%Q) [i; k]))))))
    /\ (forall i, i < 1 ->
          Qeq (sumq_upto 2 (fun k =>
                 Softmax.getq (NdArray [1; 2] [1 # 4; 3 # 4]%Q) [i; k])) 1 ->
          Qeq (sumq_upto 2 (fun j => Softmax.getq g [i; j])) 0).
Proof.
  apply (softmax_backward_rows_sum_to_zero ActivationSamples.soft_fed
           (NdArray [1; 2] [0; 1]%Q) (NdArray [1; 2] [1 # 4; 3 # 4]%Q)
           (NdArray [1; 2] [2; 5]%Q) 1 2); reflexivity.
Defined.

End ActivationFacts.


(** * Text preprocessing *)

Section TextFacts.
Import Text.

Lemma starts_with_single p c rest : starts_with [p] (c :: rest) = (p =? c).
Proof. cbn. apply andb_true_r. Qed.

Lemma replace_single_removes p s :
  replace [p] [] s = filter (fun c => c <> p) s.
Proof.
  unfold replace. induction s as [|c rest IH]; [done|].
  cbn [replace_from]. rewrite starts_with_single. cbn [length Nat.sub app].
  rewrite filter_cons.
  destruct (Nat.eqb_spec p c) as [->|Hne].
  - destruct (decide (c <> c)) as [Hc|_]; [by destruct Hc|]. exact IH.
  - destruct (decide (c <> p)) as [_|Hc]; [by rewrite IH|].
    destruct Hc. congruence.
Qed.

Lemma remove_each ps data :
  foldl (fun data_clean punctuation => replace [punctuation] [] data_clean)
        data ps
  = filter (fun c => c ∉ ps) data.
Proof.
  revert data. induction ps as [|p ps IH]; intros data.
  - cbn [foldl]. induction data as [|c data IHd]; [done|].
    rewrite filter_cons_True by apply not_elem_of_nil. by f_equal.
  - cbn [foldl]. rewrite IH, replace_single_removes, list_filter_filter.
    apply list_filter_iff. intros x. rewrite not_elem_of_cons. tauto.
Qed.

Lemma starts_with_run k c0 s :
  starts_with (replicate k c0) s = true ->
  Forall (fun c => c = c0) (take k s).
Proof.
  revert s. induction k as [|k IH]; intros s; cbn; [constructor|].
  destruct s as [|c rest]; [done|].
  intros [Hc Hrest]%andb_true_iff. apply Nat.eqb_eq in Hc.
  constructor; [done|]. by apply IH.
Qed.

Lemma replace_run_keeps (P : nat -> Prop) `{!forall c, Decision (P c)}
      k c0 new :
  ~ P c0 -> Forall (fun c => ~ P c) new ->
  forall s skip, Forall (fun c => c = c0) (take skip s) ->
    filter P (replace_from (replicate (S k) c0) new skip s) = filter P s.
Proof.
  intros Hc0 Hnew.
  assert (Hfn : filter P new = []).
  { clear -Hnew. induction Hnew as [|c new Hc _ IH]; [done|].
    by rewrite filter_cons_False. }
  induction s as [|c rest IH]; intros skip Hskip; [done|].
  cbn [replace_from]. destruct skip as [|skip].
  - destruct (starts_with _ _) eqn:Hst.
    + apply starts_with_run in Hst. cbn [take] in Hst.
      apply Forall_cons in Hst as [-> Hst].
      rewrite filter_app, Hfn, length_replicate, filter_cons_False by done.
      cbn [app]. apply IH. by replace (S k - 1) with k by lia.
    + rewrite !filter_cons. rewrite IH by (cbn; constructor). done.
  - cbn [take] in Hskip. apply Forall_cons in Hskip as [-> Hskip].
    rewrite filter_cons_False by done. by apply IH.
Qed.

Lemma replace_from_elem old new x :
  forall s skip, x ∈ replace_from old new skip s -> (x ∈ new) \/ (x ∈ s).
Proof.
  induction s as [|c rest IH]; intros skip; cbn [replace_from]; [by right|].
  destruct skip as [|skip].
  - destruct (starts_with old (c :: rest)).
    + rewrite elem_of_app. intros [H|H]; [by left|].
      apply IH in H as [H|H]; [by left|]. right. by apply list_elem_of_further.
    + rewrite elem_of_cons. intros [->|H]; [right; apply list_elem_of_here|].
      apply IH in H as [H|H]; [by left|]. right. by apply list_elem_of_further.
  - intros H. apply IH in H as [H|H]; [by left|].
    right. by apply list_elem_of_further.
Qed.

Lemma replace_run_absent k c0 new s :
  c0 ∉ s -> replace (replicate (S k) c0) new s = s.
Proof.
  unfold replace. cbn [replicate].
  induction s as [|c rest IH]; [done|].
  rewrite not_elem_of_cons. intros [Hne Hrest].
  cbn [replace_from starts_with].
  destruct (Nat.eqb_spec c0 c) as [->|_]; [done|].
  cbn [andb]. f_equal. by apply IH.
Qed.

Lemma replace_char_gone c0 c1 s : c1 <> c0 -> c0 ∉ replace [c0] [c1] s.
Proof.
  intros Hne. unfold replace.
  induction s as [|c rest IH]; cbn [replace_from]; [apply not_elem_of_nil|].
  rewrite starts_with_single. cbn [length Nat.sub].
  destruct (Nat.eqb_spec c0 c) as [->|Hc]; cbn [app];
    rewrite not_elem_of_cons; split; done || congruence.
Qed.

(** The five passes over runs of line breaks, longest first. *)
Lemma newline_passes d :
  foldl (fun data_clean i =>
           let i := 5 - i in
           replace (replicate i newline) [space] data_clean)
        d (seq 0 5)
  = replace (replicate 1 newline) [space]
      (replace (replicate 2 newline) [space]
        (replace (replicate 3 newline) [space]
          (replace (replicate 4 newline) [space]
            (replace (replicate 5 newline) [space] d)))).
Proof. reflexivity. Qed.

Lemma replace_run_elem k c0 c1 s x :
  x ∈ replace (replicate (S k) c0) [c1] s -> x = c1 \/ (x ∈ s).
Proof.
  intros H. apply (replace_from_elem (replicate (S k) c0) [c1] x s 0) in H.
  destruct H as [H|H]; [left|by right].
  apply elem_of_cons in H as [H|H]; [done|]. by apply elem_of_nil in H.
Qed.

Lemma replace_run_filter (P : nat -> Prop) `{!forall c, Decision (P c)}
      k c0 c1 s :
  ~ P c0 -> ~ P c1 ->
  filter P (replace (replicate (S k) c0) [c1] s) = filter P s.
Proof.
  intros H0 H1.
  apply (replace_run_keeps P k c0 [c1] H0); [|cbn; constructor].
  by repeat constructor.
Qed.

Lemma space_not_punctuation : space ∉ punctuations.
Proof.
  intros H. apply list_elem_of_In in H. vm_compute in H.
  repeat (destruct H as [H|H]; [discriminate H|]). exact H.
Qed.

Lemma newline_not_punctuation : newline ∉ punctuations.
Proof.
  intros H. apply list_elem_of_In in H. vm_compute in H.
  repeat (destruct H as [H|H]; [discriminate H|]). exact H.
Qed.

Lemma remove_punctuation_elem data x :
  x ∈ remove_punctuation data ->
  x = space \/ ((x ∈ data) /\ (x ∉ punctuations)).
Proof.
  unfold remove_punctuation. rewrite remove_each, newline_passes.
  intros H.
  repeat (apply replace_run_elem in H as [H|H]; [by left|]).
  right. apply list_elem_of_filter in H. tauto.
Qed.

Lemma remove_punctuation_clean data :
  Forall (fun c => (c ∉ punctuations) /\ c <> newline)
         (remove_punctuation data).
Proof.
  apply Forall_forall. intros x Hx. split.
  - apply remove_punctuation_elem in Hx as [->|[_ H]];
      [apply space_not_punctuation|done].
  - intros ->. revert Hx. unfold remove_punctuation.
    rewrite remove_each, newline_passes.
    apply (replace_char_gone newline space). discriminate.
Qed.

Lemma remove_punctuation_one_line data :
  newline ∉ data ->
  remove_punctuation data = filter (fun c => c ∉ punctuations) data.
Proof.
  intros Hnl. unfold remove_punctuation. rewrite remove_each, newline_passes.
  assert (Hd : newline ∉ filter (fun c => c ∉ punctuations) data).
  { rewrite list_elem_of_filter. tauto. }
  by do 5 (rewrite (replace_run_absent _ _ _ _ Hd)).
Qed.

(** X23: [remove_punctuation] returns a string with no punctuation
    character and no line break; every other character except the space
    is kept, in its order and as often as it occurs; and cleaning a clean
    string changes nothing. *)
Theorem remove_punctuation_cleans (data : str) :
  Forall (fun c => (c ∉ punctuations) /\ c <> newline)
         (remove_punctuation data)
  /\ filter (fun c => (c ∉ punctuations) /\ c <> newline /\ c <> space)
            (remove_punctuation data)
     = filter (fun c => (c ∉ punctuations) /\ c <> newline /\ c <> space) data
  /\ remove_punctuation (remove_punctuation data) = remove_punctuation data.
Proof.
  split; [apply remove_punctuation_clean|]. split.
  - unfold remove_punctuation. rewrite remove_each, newline_passes.
    rewrite !replace_run_filter by (intros (_ & ? & ?); done).
    apply list_filter_filter_l. tauto.
  - pose proof (remove_punctuation_clean data) as Hclean.
    rewrite remove_punctuation_one_line.
    + induction Hclean as [|c l [Hc _] _ IH]; [done|].
      by rewrite filter_cons_True, IH.
    + intros Hin. rewrite Forall_forall in Hclean.
      by destruct (Hclean _ Hin) as [_ Hne].
Qed.

(** X24: in a string without a line break [remove_punctuation] deletes
    the punctuation characters and nothing else: spaces and all other
    characters stay where they are. *)
Theorem remove_punctuation_single_line (data : str) :
  newline ∉ data ->
  remove_punctuation data = filter (fun c => c ∉ punctuations) data.
Proof.
  intros Hnl. unfold remove_punctuation. rewrite remove_each, newline_passes.
  assert (Hd : newline ∉ filter (fun c => c ∉ punctuations) data).
  { rewrite list_elem_of_filter. tauto. }
  rewrite (replace_run_absent 4 newline [space] _ Hd).
  rewrite (replace_run_absent 3 newline [space] _ Hd).
  rewrite (replace_run_absent 2 newline [space] _ Hd).
  rewrite (replace_run_absent 1 newline [space] _ Hd).
  exact (replace_run_absent 0 newline [space] _ Hd).
Qed.

Lemma remove_punctuation_single_line_witness :
  (newline ∉ [72; 105; 44; 32; 121; 111; 117; 33])
  /\ remove_punctuation [72; 105; 44; 32; 121; 111; 117; 33]
     = [72; 105; 32; 121; 111; 117].
Proof.
  assert (H : newline ∉ [72; 105; 44; 32; 121; 111; 117; 33]).
  { intros H. apply list_elem_of_In in H. vm_compute in H.
    repeat (destruct H as [H|H]; [discriminate H|]). exact H. }
  split; [exact H|].
  rewrite (remove_punctuation_single_line _ H). reflexivity.
Defined.

End TextFacts.

Section TokenizerFacts.
Import Text.

Lemma dict_set_fresh {K V} `{EqDecision K} (k : K) (v : V) (d : dict K V) :
  k ∉ keys d -> dict_set k v d = d ++ [(k, v)].
Proof.
  unfold keys. induction d as [|[k' v'] d IH]; [done|].
  cbn [map fst dict_set]. rewrite not_elem_of_cons. intros [Hne Hd].
  destruct (decide (k' = k)) as [Heq|_]; [congruence|].
  cbn [app]. by rewrite IH.
Qed.

Lemma dict_fold_fresh {X K V} `{EqDecision K} (fk : X -> K) (fv : X -> V)
      xs :
  forall d : dict K V,
    NoDup (keys d ++ map fk xs) ->
    foldl (fun d x => dict_set (fk x) (fv x) d) d xs
    = d ++ map (fun x => (fk x, fv x)) xs.
Proof.
  induction xs as [|x xs IH]; intros d Hnd; cbn [foldl map].
  - by rewrite app_nil_r.
  - cbn [map] in Hnd. rewrite dict_set_fresh.
    + rewrite IH; [by rewrite <- app_assoc|].
      unfold keys in *. rewrite map_app. cbn [map fst].
      by rewrite <- app_assoc.
    + apply NoDup_app in Hnd as (_ & Hdis & _).
      intros Hin. apply (Hdis _ Hin). apply list_elem_of_here.
Qed.

Lemma dict_get_absent {K V} `{EqDecision K} (k : K) (d d' : dict K V) :
  k ∉ keys d -> dict_get k (d ++ d') = dict_get k d'.
Proof.
  unfold keys. induction d as [|[k' v'] d IH]; [done|].
  cbn [map fst dict_get app]. rewrite not_elem_of_cons. intros [Hne Hd].
  destruct (decide (k' = k)) as [Heq|_]; [congruence|auto].
Qed.

Lemma dict_get_none {K V} `{EqDecision K} (k : K) (d : dict K V) :
  k ∉ keys d -> dict_get k d = None.
Proof.
  intros H. rewrite <- (app_nil_r d). by rewrite dict_get_absent.
Qed.

Lemma dict_get_here {K V} `{EqDecision K} (k : K) (v : V) (d : dict K V) :
  dict_get k ((k, v) :: d) = Some v.
Proof. cbn. by destruct (decide (k = k)). Qed.

Lemma dict_get_present {K V} `{EqDecision K} (d : dict K V) i k v :
  NoDup (keys d) -> d !! i = Some (k, v) -> dict_get k d = Some v.
Proof.
  intros Hnd Hi.
  apply list_elem_of_split_length in Hi as (d1 & d2 & -> & _).
  unfold keys in Hnd. rewrite map_app in Hnd. cbn [map fst] in Hnd.
  apply NoDup_app in Hnd as (_ & Hdis & _).
  rewrite dict_get_absent; [apply dict_get_here|].
  intros Hin. apply (Hdis _ Hin). apply list_elem_of_here.
Qed.

Lemma lookup_map {A B} (f : A -> B) (l : list A) i :
  map f l !! i = f <$> l !! i.
Proof. revert i. induction l as [|a l IH]; intros [|i]; cbn; auto. Qed.

Lemma enumerate_from_lookup {A} (l : list A) :
  forall n i, enumerate_from n l !! i = (fun a => (n + i, a)) <$> l !! i.
Proof.
  induction l as [|a l IH]; intros n [|i]; cbn; try done.
  - by rewrite Nat.add_0_r.
  - rewrite IH. destruct (l !! i); cbn; [|done]. do 2 f_equal. lia.
Qed.

Lemma enumerate_from_snd {A} (l : list A) n :
  map snd (enumerate_from n l) = l.
Proof. revert n. induction l as [|a l IH]; intros n; cbn; [done|]. by rewrite IH. Qed.

Lemma enumerate_from_fst {A} (l : list A) n :
  map fst (enumerate_from n l) = seq n (length l).
Proof. revert n. induction l as [|a l IH]; intros n; cbn; [done|]. by rewrite IH. Qed.

Lemma enumerate_from_app {A} (l1 l2 : list A) n :
  enumerate_from n (l1 ++ l2)
  = enumerate_from n l1 ++ enumerate_from (n + length l1) l2.
Proof.
  revert n. induction l1 as [|a l1 IH]; intros n; cbn.
  - by rewrite Nat.add_0_r.
  - rewrite IH. do 3 f_equal. lia.
Qed.

Lemma token_entries_keys (l : list str) n :
  keys (map (fun ts => (snd ts, Z.of_nat (fst ts))) (enumerate_from n l)) = l.
Proof. unfold keys. rewrite map_map. cbn [fst]. apply enumerate_from_snd. Qed.

Lemma token_keys (l : list str) :
  keys (map (fun ts => (snd ts, Z.of_nat (fst ts))) (enumerate l)) = l.
Proof. apply token_entries_keys. Qed.

(** The dictionary that [fit] builds from tokens that are all different. *)
Lemma tokens_of_distinct (L : list str) :
  NoDup L ->
  foldl (fun d ts => dict_set (snd ts) (Z.of_nat (fst ts)) d) [] (enumerate L)
  = map (fun ts => (snd ts, Z.of_nat (fst ts))) (enumerate L).
Proof.
  intros Hnd.
  apply (dict_fold_fresh snd (fun ts => Z.of_nat (fst ts)) (enumerate L) []).
  cbn [keys map app]. unfold enumerate. by rewrite enumerate_from_snd.
Qed.

(** The dictionary that [decode] builds from the keys. *)
Lemma reverse_of_keys (ks : list str) :
  foldl (fun d ts => dict_set (Z.of_nat (fst ts)) (snd ts) d) [] (enumerate ks)
  = map (fun ts => (Z.of_nat (fst ts), snd ts)) (enumerate ks).
Proof.
  apply (dict_fold_fresh (fun ts => Z.of_nat (fst ts)) snd (enumerate ks) []).
  cbn [keys map app]. unfold enumerate.
  rewrite <- (map_map fst Z.of_nat), enumerate_from_fst.
  apply (NoDup_fmap_2 Z.of_nat), NoDup_seq.
Qed.

Lemma reverse_get (ks : list str) (z : Z) :
  dict_get z
    (foldl (fun d ts => dict_set (Z.of_nat (fst ts)) (snd ts) d) []
           (enumerate ks))
  = if decide (0 <= z)%Z then ks !! Z.to_nat z else None.
Proof.
  rewrite reverse_of_keys.
  set (R := map _ _).
  assert (Hkeys : keys R = map Z.of_nat (seq 0 (length ks))).
  { unfold R, keys, enumerate. rewrite map_map. cbn [fst].
    by rewrite <- (map_map fst Z.of_nat), enumerate_from_fst. }
  assert (Hnd : NoDup (keys R)).
  { rewrite Hkeys. apply (NoDup_fmap_2 Z.of_nat), NoDup_seq. }
  destruct (decide (0 <= z)%Z) as [Hz|Hz].
  - destruct (ks !! Z.to_nat z) as [k|] eqn:Hk.
    + apply (dict_get_present R (Z.to_nat z)); [done|].
      unfold R, enumerate.
      rewrite lookup_map, enumerate_from_lookup, Hk. cbn.
      by rewrite Z2Nat.id.
    + apply dict_get_none. rewrite Hkeys. intros Hin.
      apply list_elem_of_In, in_map_iff in Hin as (i & <- & Hi).
      apply in_seq in Hi. apply lookup_ge_None_1 in Hk.
      rewrite Nat2Z.id in Hk. lia.
  - apply dict_get_none. rewrite Hkeys. intros Hin.
    apply list_elem_of_In, in_map_iff in Hin as (i & <- & _). lia.
Qed.

Lemma insert_char_elem x c l : x ∈ insert_char c l <-> x = c \/ (x ∈ l).
Proof.
  induction l as [|y l IH]; cbn [insert_char].
  - by rewrite elem_of_cons.
  - destruct (Nat.ltb_spec c y); [by rewrite elem_of_cons|].
    destruct (Nat.eqb_spec c y) as [->|Hne].
    + rewrite elem_of_cons. tauto.
    + rewrite !elem_of_cons, IH. tauto.
Qed.

Lemma insert_char_increasing c l :
  increasing l -> increasing (insert_char c l).
Proof.
  induction l as [|y l IH]; cbn [insert_char increasing].
  - intros _. split; [constructor|done].
  - intros [Hy Hl]. destruct (Nat.ltb_spec c y).
    + cbn [increasing]. split; [|by split]. constructor; [done|].
      eapply Forall_impl; [exact Hy|]. cbn. intros; lia.
    + destruct (Nat.eqb_spec c y) as [->|Hne]; cbn [increasing]; [by split|].
      split; [|by apply IH]. apply Forall_forall.
      intros x [->|Hx]%insert_char_elem; [lia|].
      rewrite Forall_forall in Hy. by apply Hy.
Qed.

Lemma sorted_set_elem x data : x ∈ sorted_set data <-> x ∈ data.
Proof.
  unfold sorted_set. induction data as [|c data IH]; cbn [foldr]; [done|].
  rewrite insert_char_elem, elem_of_cons, IH. tauto.
Qed.

Lemma sorted_set_increasing data : increasing (sorted_set data).
Proof.
  unfold sorted_set. induction data as [|c data IH]; cbn [foldr]; [done|].
  by apply insert_char_increasing.
Qed.

Lemma increasing_NoDup l : increasing l -> NoDup l.
Proof.
  induction l as [|a l IH]; cbn [increasing]; [constructor|].
  intros [Ha Hl]. constructor; [|auto].
  intros Hin. rewrite Forall_forall in Ha. specialize (Ha _ Hin). lia.
Qed.

Lemma increasing_split l1 x l2 :
  increasing (l1 ++ x :: l2) ->
  Forall (fun y => y < x) l1 /\ Forall (fun y => x < y) l2.
Proof.
  induction l1 as [|a l1 IH]; cbn [app increasing].
  - intros [Hx _]. by split.
  - intros [Ha Hl]. destruct (IH Hl) as [H1 H2]. split; [|done].
    constructor; [|done]. rewrite Forall_forall in Ha. apply Ha.
    apply elem_of_app. right. apply list_elem_of_here.
Qed.

Lemma characters_NoDup (l : list nat) :
  NoDup l -> NoDup (map (fun c => [c]) l).
Proof.
  intros H. apply (NoDup_fmap_2_strong (fun c => [c])); [|done].
  by intros x y _ _ [= ->].
Qed.

Lemma character_in_tokens (c : nat) (l : list nat) :
  c ∈ l -> [c] ∈ map (fun c => [c]) l.
Proof.
  induction 1 as [|c a l _ IH]; cbn [map];
    [apply list_elem_of_here|by apply list_elem_of_further].
Qed.

Lemma token_list_NoDup (oov : str) data (n : nat) :
  (forall c, c ∈ data -> oov <> [c]) ->
  NoDup (take n (oov :: map (fun c => [c]) (sorted_set data))).
Proof.
  intros Hoov. eapply sublist_NoDup; [|apply sublist_take]. constructor.
  - intros Hin. apply list_elem_of_In, in_map_iff in Hin as (c & <- & Hc).
    apply (Hoov c); [|done]. by apply sorted_set_elem, list_elem_of_In.
  - apply characters_NoDup, increasing_NoDup, sorted_set_increasing.
Qed.

Lemma fit_run data max_tokens self :
  fst (CharacterTokenizer.fit data max_tokens self)
  = CharacterTokenizer.set_tokens
      (foldl (fun d ts => dict_set (snd ts) (Z.of_nat (fst ts)) d) []
             (enumerate
                (upto_index max_tokens
                   (CharacterTokenizer.oov_token self
                      :: map (fun c => [c]) (sorted_set data)))))
      self.
Proof. reflexivity. Qed.

(** One character through [encode] and [decode], with a dictionary built
    from different tokens of which the first is the out-of-vocabulary
    token. *)
Lemma decode_encode_char (oov : str) (rest : list str) (n : nat) (c : nat) :
  let L := take n (oov :: rest) in
  let D := map (fun ts => (snd ts, Z.of_nat (fst ts))) (enumerate L) in
  NoDup L ->
  default oov
    (dict_get (default 0%Z (dict_get [c] D))
       (foldl (fun d ts => dict_set (Z.of_nat (fst ts)) (snd ts) d) []
              (enumerate (keys D))))
  = if decide ([c] ∈ L) then [c] else oov.
Proof.
  intros L D Hnd. unfold D.
  rewrite token_keys, reverse_get.
  destruct (decide ([c] ∈ L)) as [Hin|Hout].
  - apply list_elem_of_lookup_1 in Hin as [i Hi].
    rewrite (dict_get_present _ i [c] (Z.of_nat i)).
    + cbn [from_option id]. destruct (decide (0 <= Z.of_nat i)%Z); [|lia].
      by rewrite Nat2Z.id, Hi.
    + by rewrite token_keys.
    + unfold enumerate.
      by rewrite lookup_map, enumerate_from_lookup, Hi.
  - rewrite dict_get_none by (by rewrite token_keys).
    cbn [from_option id]. destruct (decide (0 <= 0)%Z); [|lia].
    change (Z.to_nat 0) with 0. unfold L.
    destruct n; cbn; done.
Qed.

Lemma decode_encode_fitted
      (self : CharacterTokenizer.t) (data : str) (max_tokens : Z) (s : str) :
  (forall c, c ∈ data -> CharacterTokenizer.oov_token self <> [c]) ->
  let fitted := fst (CharacterTokenizer.fit data max_tokens self) in
  let L := upto_index max_tokens
             (CharacterTokenizer.oov_token self
                :: map (fun c => [c]) (sorted_set data)) in
  CharacterTokenizer.tokens fitted
  = map (fun ts => (snd ts, Z.of_nat (fst ts))) (enumerate L)
  /\ CharacterTokenizer.decode fitted (CharacterTokenizer.encode fitted s)
     = concat
         (map (fun c =>
                 if decide ([c] ∈ L)
                 then [c] else CharacterTokenizer.oov_token self)
              s).
Proof.
  intros Hoov fitted L. unfold fitted, L. rewrite fit_run.
  destruct self as [old oov]. cbn [CharacterTokenizer.oov_token] in *.
  unfold CharacterTokenizer.set_tokens, CharacterTokenizer.decode,
    CharacterTokenizer.encode.
  cbn [CharacterTokenizer.tokens CharacterTokenizer.oov_token].
  unfold upto_index.
  set (n := Np.clip _ _).
  pose proof (token_list_NoDup oov data n Hoov) as Hnd.
  rewrite tokens_of_distinct by done. split; [done|].
  rewrite map_map. f_equal. apply map_ext. intros c.
  exact (decode_encode_char oov _ n c Hnd).
Qed.

(** X25: a [CharacterTokenizer] fitted to data that does not contain its
    out-of-vocabulary token has one token per kept string: the
    out-of-vocabulary token, then the characters of the data by code
    point, cut after [max_tokens] entries.  Decoding what [encode]
    returns gives every character that has a token back and puts the
    out-of-vocabulary token in the place of every other character. *)
Theorem character_tokenizer_decode_encode
        (self : CharacterTokenizer.t) (data : str) (max_tokens : Z)
        (s : str) :
  (forall c, c ∈ data -> CharacterTokenizer.oov_token self <> [c]) ->
  let fitted := fst (CharacterTokenizer.fit data max_tokens self) in
  keys (CharacterTokenizer.tokens fitted)
  = upto_index max_tokens
      (CharacterTokenizer.oov_token self
         :: map (fun c => [c]) (sorted_set data))
  /\ CharacterTokenizer.vocab_size fitted
     = Np.clip max_tokens (S (length (sorted_set data)))
  /\ CharacterTokenizer.decode fitted (CharacterTokenizer.encode fitted s)
     = concat
         (map (fun c =>
                 if decide ([c] ∈ keys (CharacterTokenizer.tokens fitted))
                 then [c] else CharacterTokenizer.oov_token self)
              s).
Proof.
  intros Hoov fitted.
  destruct (decode_encode_fitted self data max_tokens s Hoov) as [Htok Hdec].
  fold fitted in Htok, Hdec. cbn zeta in Htok, Hdec.
  assert (Hkeys : keys (CharacterTokenizer.tokens fitted)
                  = upto_index max_tokens
                      (CharacterTokenizer.oov_token self
                         :: map (fun c => [c]) (sorted_set data))).
  { rewrite Htok. apply token_keys. }
  split; [exact Hkeys|]. split.
  - unfold CharacterTokenizer.vocab_size.
    rewrite <- (length_map fst). fold (keys (CharacterTokenizer.tokens fitted)).
    rewrite Hkeys. unfold upto_index. rewrite length_take. cbn [length].
    rewrite length_map. unfold Np.clip.
    destruct (Z.ltb_spec max_tokens 0); lia.
  - rewrite Hdec, Hkeys. done.
Qed.

Lemma character_tokenizer_decode_encode_witness :
  let fitted :=
    fst (CharacterTokenizer.fit TextSamples.banana 3 TextSamples.tokenizer) in
  keys (CharacterTokenizer.tokens fitted) = [[124]; [97]; [98]]
  /\ CharacterTokenizer.vocab_size fitted = 3
  /\ CharacterTokenizer.decode fitted
       (CharacterTokenizer.encode fitted TextSamples.ban)
     = [98; 97; 124].
Proof.
  apply (character_tokenizer_decode_encode TextSamples.tokenizer
           TextSamples.banana 3 TextSamples.ban).
  intros c Hc [= <-]. apply list_elem_of_In in Hc. vm_compute in Hc.
  repeat (destruct Hc as [Hc|Hc]; [discriminate Hc|]). exact Hc.
Defined.

(** X26: when the data does not contain the out-of-vocabulary token and
    [max_tokens] exceeds the number of different characters of the data,
    a string written with characters of the data comes back unchanged
    from [encode] followed by [decode]. *)
Theorem character_tokenizer_round_trip
        (self : CharacterTokenizer.t) (data : str) (max_tokens : Z)
        (s : str) :
  (forall c, c ∈ data -> CharacterTokenizer.oov_token self <> [c]) ->
  (Z.of_nat (length (sorted_set data)) < max_tokens)%Z ->
  Forall (fun c => c ∈ data) s ->
  let fitted := fst (CharacterTokenizer.fit data max_tokens self) in
  CharacterTokenizer.decode fitted (CharacterTokenizer.encode fitted s) = s.
Proof.
  intros Hoov Hmax Hs fitted.
  destruct (decode_encode_fitted self data max_tokens s Hoov) as [_ Hdec].
  fold fitted in Hdec. cbn zeta in Hdec. rewrite Hdec. clear Hdec.
  unfold upto_index. rewrite take_ge.
  2:{ cbn [length]. rewrite length_map. unfold Np.clip.
      destruct (Z.ltb_spec max_tokens 0); lia. }
  induction Hs as [|c s Hc _ IH]; [done|].
  cbn [map concat]. rewrite IH.
  destruct (decide _) as [_|Hout]; [done|].
  destruct Hout. apply list_elem_of_further.
  by apply character_in_tokens, sorted_set_elem.
Qed.

Lemma character_tokenizer_round_trip_witness :
  let fitted :=
    fst (CharacterTokenizer.fit TextSamples.banana 100 TextSamples.tokenizer) in
  CharacterTokenizer.decode fitted
    (CharacterTokenizer.encode fitted TextSamples.ban)
  = TextSamples.ban.
Proof.
  apply (character_tokenizer_round_trip TextSamples.tokenizer
           TextSamples.banana 100 TextSamples.ban).
  - intros c Hc [= <-]. apply list_elem_of_In in Hc. vm_compute in Hc.
    repeat (destruct Hc as [Hc|Hc]; [discriminate Hc|]). exact Hc.
  - vm_compute. reflexivity.
  - repeat constructor.
Defined.

(** The dictionary that [fit] builds when the first token comes a second
    time: the key keeps its place and takes the later number. *)
Lemma tokens_with_collision (k0 : str) (A B : list str) :
  NoDup (k0 :: A ++ B) ->
  foldl (fun d ts => dict_set (snd ts) (Z.of_nat (fst ts)) d) []
        (enumerate (k0 :: A ++ k0 :: B))
  = (k0, Z.of_nat (S (length A)))
      :: map (fun ts => (snd ts, Z.of_nat (fst ts))) (enumerate_from 1 A)
      ++ map (fun ts => (snd ts, Z.of_nat (fst ts)))
             (enumerate_from (S (S (length A))) B).
Proof.
  intros Hnd. unfold enumerate.
  cbn [enumerate_from foldl dict_set fst snd].
  rewrite enumerate_from_app, foldl_app.
  assert (H1 : foldl (fun d ts => dict_set (snd ts) (Z.of_nat (fst ts)) d)
                     [(k0, Z.of_nat 0)] (enumerate_from 1 A)
               = [(k0, Z.of_nat 0)]
                   ++ map (fun ts => (snd ts, Z.of_nat (fst ts)))
                          (enumerate_from 1 A)).
  { apply (dict_fold_fresh snd (fun ts => Z.of_nat (fst ts))).
    cbn [keys map fst app]. rewrite enumerate_from_snd.
    apply NoDup_cons in Hnd as [Hk0 Hnd]. apply NoDup_app in Hnd as (HA & _).
    constructor; [|done]. intros Hin. apply Hk0, elem_of_app. by left. }
  rewrite H1. clear H1.
  cbn [enumerate_from foldl app dict_set fst snd].
  destruct (decide (k0 = k0)) as [_|Hne]; [|done].
  apply (dict_fold_fresh snd (fun ts => Z.of_nat (fst ts))
           (enumerate_from (S (S (length A))) B)
           ((k0, Z.of_nat (S (length A)))
              :: map (fun ts => (snd ts, Z.of_nat (fst ts)))
                     (enumerate_from 1 A))).
  unfold keys. cbn [map fst]. fold (keys (map (fun ts : nat * str =>
    (snd ts, Z.of_nat (fst ts))) (enumerate_from 1 A))).
  by rewrite token_entries_keys, enumerate_from_snd.
Qed.

Lemma collision_lookup (k0 k : str) (A B1 B2 : list str) :
  NoDup (k0 :: A ++ B1 ++ k :: B2) ->
  let D := foldl (fun d ts => dict_set (snd ts) (Z.of_nat (fst ts)) d) []
                 (enumerate (k0 :: A ++ k0 :: B1 ++ k :: B2)) in
  keys D = k0 :: A ++ B1 ++ k :: B2
  /\ dict_get k D = Some (Z.of_nat (S (S (length A + length B1)))).
Proof.
  intros Hnd D. unfold D. rewrite tokens_with_collision by done.
  assert (Hk : k ∉ k0 :: A ++ B1).
  { rewrite app_assoc, app_comm_cons in Hnd.
    apply NoDup_app in Hnd as (_ & Hdis & _).
    intros Hin. apply (Hdis _ Hin). apply list_elem_of_here. }
  split.
  - unfold keys. cbn [map fst]. rewrite map_app.
    fold (keys (map (fun ts : nat * str => (snd ts, Z.of_nat (fst ts)))
                    (enumerate_from 1 A))).
    fold (keys (map (fun ts : nat * str => (snd ts, Z.of_nat (fst ts)))
                    (enumerate_from (S (S (length A))) (B1 ++ k :: B2)))).
    by rewrite !token_entries_keys.
  - rewrite enumerate_from_app, map_app.
    cbn [enumerate_from map fst snd].
    rewrite app_assoc, app_comm_cons.
    rewrite dict_get_absent.
    + rewrite dict_get_here. reflexivity.
    + unfold keys. cbn [map fst]. rewrite map_app.
      fold (keys (map (fun ts : nat * str => (snd ts, Z.of_nat (fst ts)))
                      (enumerate_from 1 A))).
      fold (keys (map (fun ts : nat * str => (snd ts, Z.of_nat (fst ts)))
                      (enumerate_from (S (S (length A))) B1))).
      by rewrite !token_entries_keys.
Qed.

(** X27: when the out-of-vocabulary token is a character of the data,
    [fit] gives it the number of its second place while [decode] numbers
    the keys of the dictionary afresh: every character of the data that
    comes after it by code point is encoded to a number that [decode]
    reads as another string, even when [max_tokens] leaves room for all
    characters. *)
Theorem character_tokenizer_oov_in_data
        (self : CharacterTokenizer.t) (data : str) (max_tokens : Z)
        (c0 c : nat) :
  CharacterTokenizer.oov_token self = [c0] ->
  c0 ∈ data -> c ∈ data -> c0 < c ->
  (Z.of_nat (length (sorted_set data)) < max_tokens)%Z ->
  let fitted := fst (CharacterTokenizer.fit data max_tokens self) in
  CharacterTokenizer.decode fitted (CharacterTokenizer.encode fitted [c])
  <> [c].
Proof.
  intros Hoov Hc0 Hc Hlt Hmax fitted. unfold fitted. rewrite fit_run.
  destruct self as [old oov]. cbn [CharacterTokenizer.oov_token] in *.
  subst oov.
  unfold upto_index. rewrite take_ge.
  2:{ cbn [length]. rewrite length_map. unfold Np.clip.
      destruct (Z.ltb_spec max_tokens 0); lia. }
  pose proof (sorted_set_increasing data) as Hinc.
  apply sorted_set_elem in Hc0, Hc.
  apply list_elem_of_split in Hc0 as (S1 & S2 & HS).
  rewrite HS in Hinc, Hc, Hmax |- *.
  destruct (increasing_split _ _ _ Hinc) as [Hlow _].
  apply increasing_NoDup in Hinc.
  apply elem_of_app in Hc as [Hc|Hc].
  { rewrite Forall_forall in Hlow. specialize (Hlow _ Hc). lia. }
  apply elem_of_cons in Hc as [Hc|Hc]; [lia|].
  apply list_elem_of_split in Hc as (T1 & T2 & ->).
  assert (Hnd : NoDup ([c0] :: map (fun c => [c]) S1
                         ++ map (fun c => [c]) T1
                         ++ [c] :: map (fun c => [c]) T2)).
  { rewrite <- Permutation_middle in Hinc.
    apply characters_NoDup in Hinc.
    by rewrite !map_cons, !map_app, !map_cons in Hinc. }
  rewrite !map_app, !map_cons, !map_app, !map_cons.
  destruct (collision_lookup [c0] [c] _ _ _ Hnd) as [Hkeys Hget].
  cbn zeta in Hkeys, Hget.
  unfold CharacterTokenizer.set_tokens, CharacterTokenizer.decode,
    CharacterTokenizer.encode.
  cbn [CharacterTokenizer.tokens CharacterTokenizer.oov_token map].
  rewrite Hget, Hkeys. cbn [from_option id].
  rewrite reverse_get.
  destruct (decide _) as [_|Hneg]; [|lia].
  rewrite Nat2Z.id.
  rewrite (app_assoc (map _ S1)), app_comm_cons.
  change ([c] :: map (fun c => [c]) T2)
    with ([[c]] ++ map (fun c => [c]) T2).
  rewrite app_assoc, lookup_app_r.
  2:{ rewrite length_app. cbn [length]. rewrite length_app. lia. }
  replace (_ - _) with 0.
  2:{ rewrite length_app. cbn [length]. rewrite length_app. lia. }
  destruct T2 as [|t T2]; cbn.
  - intros [= ->]. lia.
  - intros [= ->].
    apply NoDup_cons in Hnd as [_ Hnd].
    apply NoDup_app in Hnd as (_ & _ & Hnd).
    apply NoDup_app in Hnd as (_ & _ & Hnd).
    apply NoDup_cons in Hnd as [Hnd _]. apply Hnd.
    cbn [map]. apply list_elem_of_here.
Qed.

Lemma character_tokenizer_oov_in_data_witness :
  let fitted :=
    fst (CharacterTokenizer.fit TextSamples.piped 100 TextSamples.tokenizer) in
  CharacterTokenizer.decode fitted (CharacterTokenizer.encode fitted [126])
  <> [126].
Proof.
  apply (character_tokenizer_oov_in_data TextSamples.tokenizer
           TextSamples.piped 100 124 126).
  - reflexivity.
  - apply list_elem_of_further, list_elem_of_here.
  - do 2 apply list_elem_of_further. apply list_elem_of_here.
  - lia.
  - vm_compute. reflexivity.
Defined.

End TokenizerFacts.
